(** * Core runtime of the constraint solver: trail, queue, markers, search

    A shallow embedding of [src/constraint_solver/constraint_solver.cc]
    and the properties its specification states about it, with the hash
    functions of [src/base/hash.h] and the boolean sums of
    [src/flatzinc/flatzinc_constraints.cc].

    Conventions of the embedding.
    - C++ [int], [int64] values are integers in [Z]; the unsigned 64-bit
      stamps and the unsigned 32-bit freeze level wrap around explicitly
      ([wrap64], [wrap32]).
    - Pointers are addresses in [Z]; memory is one finite map per pointee
      type ([Memory]).
    - A [CHECK] that fails or a [LOG(FATAL)] aborts the process: pure
      functions return [None], the interpreter returns [Fatal].
    - [Fail()] with an armed jump buffer is a [longjmp]: the interpreter
      returns [Failed] and every caller up to the [CP_TRY] passes it on.
    - Client code (demons, actions, constraints, monitors) is a script of
      solver API calls chosen from the current solver state.
    - Loops whose length is not bounded by the data are driven by fuel. *)

From stdpp Require Import base option list gmap relations.
From Stdlib Require Import ZArith Lia Strings.Byte.

Local Open Scope Z_scope.

(* ================================================================== *)
(** * Part I. The embedding                                            *)
(* ================================================================== *)

(** ** Machine integers *)

Definition kuint64max : Z := 2 ^ 64 - 1.
Definition wrap64 (x : Z) : Z := x mod 2 ^ 64.
Definition wrap32 (x : Z) : Z := x mod 2 ^ 32.

(** ** addrval and the trail packers (lines 439-525) *)

(** [addrval<T>]: an address and the value that was at the address.  The
    four instantiations ([int], [int64], [uint64], [void*]) differ only
    in the range of the value. *)
Record addrval := mk_addrval { address_ : Z; old_value_ : Z }.

Global Instance addrval_eq_dec : EqDecision addrval.
Proof. solve_decision. Defined.

Global Instance addrval_countable : Countable addrval.
Proof.
  refine (inj_countable' (fun c => (address_ c, old_value_ c))
            (fun p => mk_addrval p.1 p.2) _).
  by intros [].
Defined.

(** The constructor of [CompressedTrail] zeroes both arrays. *)
Definition addrval_zero : addrval := mk_addrval 0 0.

(** What the packers need from outside this file: the byte image of a
    block of cells in memory (what [reinterpret_cast<const Bytef*>] reads
    over [input_size()] bytes and what writing these bytes back gives),
    and zlib's [compress] and [uncompress] ([None]: the result is not
    [Z_OK]). *)
Record Extern := mk_Extern {
  block_image : list addrval -> list byte;
  image_block : list byte -> list addrval;
  compress : list byte -> option (list byte);
  uncompress : list byte -> option (list byte) }.

(** The contract of these: a block read back from its image is the same
    block, and zlib decompresses what it compressed ([compress] is given a
    buffer of [compressBound] bytes, [uncompress] one of the source's
    size). *)
Record ExternOk (ext : Extern) : Prop := mk_ExternOk {
  image_roundtrip : forall b, image_block ext (block_image ext b) = b;
  zlib_roundtrip : forall src,
    exists c, compress ext src = Some c /\ uncompress ext c = Some src }.

Inductive TrailCompression := NO_COMPRESSION | COMPRESS_WITH_ZLIB.

Global Instance TrailCompression_eq_dec : EqDecision TrailCompression.
Proof. solve_decision. Defined.

(** [NoCompressionTrailPacker::Pack] copies the image of the block,
    [ZlibTrailPacker::Pack] compresses it and checks for [Z_OK]. *)
Definition Pack (ext : Extern) (level : TrailCompression)
    (block : list addrval) : option (list byte) :=
  match level with
  | NO_COMPRESSION => Some (block_image ext block)
  | COMPRESS_WITH_ZLIB => compress ext (block_image ext block)
  end.

(** [Unpack] writes the block back: a [memcpy] of the packed bytes, or
    [uncompress] with a check for [Z_OK]. *)
Definition Unpack (ext : Extern) (level : TrailCompression)
    (packed_block : list byte) : option (list addrval) :=
  match level with
  | NO_COMPRESSION => Some (image_block ext packed_block)
  | COMPRESS_WITH_ZLIB =>
      match uncompress ext packed_block with
      | Some bytes => Some (image_block ext bytes)
      | None => None
      end
  end.

(** ** CompressedTrail (lines 528-645) *)

(** [blocks_] and [free_blocks_] are the two linked lists of [Block]
    records, head first, each record shown by its [compressed] string. *)
Record CompressedTrail := mk_CompressedTrail {
  packer_ : TrailCompression;
  block_size_ : Z;
  blocks_ : list (list byte);
  free_blocks_ : list (list byte);
  data_ : list addrval;
  buffer_ : list addrval;
  buffer_used_ : bool;
  current_ : Z;
  size_ : Z }.

Definition new_CompressedTrail (block_size : Z)
    (compression_level : TrailCompression) : CompressedTrail :=
  {| packer_ := compression_level;
     block_size_ := block_size;
     blocks_ := [];
     free_blocks_ := [];
     data_ := replicate (Z.to_nat block_size) addrval_zero;
     buffer_ := replicate (Z.to_nat block_size) addrval_zero;
     buffer_used_ := false;
     current_ := 0;
     size_ := 0 |}.

(** [Back()]: [data_[current_ - 1]]; the [DCHECK_GT(current_, 0)] makes a
    call on an empty trail an error, shown as [None]. *)
Definition Back (t : CompressedTrail) : option addrval :=
  if 0 <? current_ t then data_ t !! Z.to_nat (current_ t - 1) else None.

Definition ct_size (t : CompressedTrail) : Z := size_ t.

Definition PopBack (ext : Extern) (t : CompressedTrail)
    : option CompressedTrail :=
  if 0 <? size_ t then
    let current := current_ t - 1 in
    t1 ← (if current <=? 0 then
             if buffer_used_ t then
               (* data_.swap(buffer_) *)
               Some {| packer_ := packer_ t; block_size_ := block_size_ t;
                       blocks_ := blocks_ t; free_blocks_ := free_blocks_ t;
                       data_ := buffer_ t; buffer_ := data_ t;
                       buffer_used_ := false;
                       current_ := block_size_ t; size_ := size_ t |}
             else
               match blocks_ t with
               | top :: rest =>
                   unpacked ← Unpack ext (packer_ t) top;
                   (* FreeTopBlock: the record is cleared and freed *)
                   Some {| packer_ := packer_ t; block_size_ := block_size_ t;
                           blocks_ := rest;
                           free_blocks_ := [] :: free_blocks_ t;
                           data_ := unpacked; buffer_ := buffer_ t;
                           buffer_used_ := buffer_used_ t;
                           current_ := block_size_ t; size_ := size_ t |}
               | [] =>
                   Some {| packer_ := packer_ t; block_size_ := block_size_ t;
                           blocks_ := blocks_ t;
                           free_blocks_ := free_blocks_ t;
                           data_ := data_ t; buffer_ := buffer_ t;
                           buffer_used_ := buffer_used_ t;
                           current_ := current; size_ := size_ t |}
               end
           else
             Some {| packer_ := packer_ t; block_size_ := block_size_ t;
                     blocks_ := blocks_ t; free_blocks_ := free_blocks_ t;
                     data_ := data_ t; buffer_ := buffer_ t;
                     buffer_used_ := buffer_used_ t;
                     current_ := current; size_ := size_ t |});
    Some {| packer_ := packer_ t1; block_size_ := block_size_ t1;
            blocks_ := blocks_ t1; free_blocks_ := free_blocks_ t1;
            data_ := data_ t1; buffer_ := buffer_ t1;
            buffer_used_ := buffer_used_ t1;
            current_ := current_ t1; size_ := size_ t1 - 1 |}
  else Some t.

Definition PushBack (ext : Extern) (addr_val : addrval) (t : CompressedTrail)
    : option CompressedTrail :=
  t1 ← (if block_size_ t <=? current_ t then
           if buffer_used_ t then
             (* NewTopBlock takes a record from the free list or a new
                one; Pack overwrites its string; then the swap. *)
             packed ← Pack ext (packer_ t) (buffer_ t);
             Some {| packer_ := packer_ t; block_size_ := block_size_ t;
                     blocks_ := packed :: blocks_ t;
                     free_blocks_ := tail (free_blocks_ t);
                     data_ := buffer_ t; buffer_ := data_ t;
                     buffer_used_ := buffer_used_ t;
                     current_ := 0; size_ := size_ t |}
           else
             Some {| packer_ := packer_ t; block_size_ := block_size_ t;
                     blocks_ := blocks_ t; free_blocks_ := free_blocks_ t;
                     data_ := buffer_ t; buffer_ := data_ t;
                     buffer_used_ := true;
                     current_ := 0; size_ := size_ t |}
         else Some t);
  Some {| packer_ := packer_ t1; block_size_ := block_size_ t1;
          blocks_ := blocks_ t1; free_blocks_ := free_blocks_ t1;
          data_ := <[Z.to_nat (current_ t1) := addr_val]> (data_ t1);
          buffer_ := buffer_ t1;
          buffer_used_ := buffer_used_ t1;
          current_ := current_ t1 + 1; size_ := size_ t1 + 1 |}.

(** A sequence of pushes and pops, as a test drives it, and what it
    observes: [Back()] after every step (where the trail is not empty) and
    [size()] at the end. *)
Inductive TrailOp := OpPushBack (v : addrval) | OpPopBack.

Definition trail_step (ext : Extern) (op : TrailOp) (t : CompressedTrail)
    : option CompressedTrail :=
  match op with
  | OpPushBack v => PushBack ext v t
  | OpPopBack => PopBack ext t
  end.

Fixpoint trail_observe (ext : Extern) (ops : list TrailOp)
    (t : CompressedTrail) : option (list (option addrval) * Z) :=
  match ops with
  | [] => Some ([], ct_size t)
  | op :: rest =>
      t' ← trail_step ext op t;
      r ← trail_observe ext rest t';
      Some (Back t' :: r.1, r.2)
  end.

(** The logical sequence the specification speaks of: a list with the
    newest cell last. *)
Definition seq_step (op : TrailOp) (l : list addrval) : list addrval :=
  match op with
  | OpPushBack v => l ++ [v]
  | OpPopBack => removelast l
  end.

Fixpoint seq_observe (ops : list TrailOp) (l : list addrval)
    : list (option addrval) * Z :=
  match ops with
  | [] => ([], Z.of_nat (length l))
  | op :: rest =>
      let l' := seq_step op l in
      let r := seq_observe rest l' in
      (last l' :: r.1, r.2)
  end.

(** ** What a compressed trail represents

    [bl] are the packed blocks unpacked, newest first; then comes the warm
    buffer if it is used, then the hot block up to [current_]. *)
Definition ct_contents (t : CompressedTrail) (bl : list (list addrval))
    : list addrval :=
  concat (reverse bl) ++ (if buffer_used_ t then buffer_ t else [])
    ++ take (Z.to_nat (current_ t)) (data_ t).

Record ct_inv (ext : Extern) (t : CompressedTrail)
    (bl : list (list addrval)) : Prop := {
  ct_bs_pos : 0 < block_size_ t;
  ct_data_len : Z.of_nat (length (data_ t)) = block_size_ t;
  ct_buffer_len : Z.of_nat (length (buffer_ t)) = block_size_ t;
  ct_current_range : 0 <= current_ t <= block_size_ t;
  ct_blocks : Forall2 (fun p b => Unpack ext (packer_ t) p = Some b /\
                                  Z.of_nat (length b) = block_size_ t)
                (blocks_ t) bl;
  ct_size_eq : size_ t = current_ t
                + (if buffer_used_ t then block_size_ t else 0)
                + block_size_ t * Z.of_nat (length bl);
  ct_empty : current_ t = 0 -> buffer_used_ t = false /\ bl = [] }.

Definition ct_rep (ext : Extern) (t : CompressedTrail) (l : list addrval)
    : Prop :=
  exists bl, ct_inv ext t bl /\ l = ct_contents t bl.

(** ** Memory

    One finite map per pointee type.  A cell that was never written reads
    as zero ([false] for a [bool]). *)

Inductive Kind := K_int | K_int64 | K_uint64 | K_ptr.

Global Instance Kind_eq_dec : EqDecision Kind.
Proof. solve_decision. Defined.

Record Memory := mk_Memory {
  mem_int : gmap Z Z;
  mem_int64 : gmap Z Z;
  mem_uint64 : gmap Z Z;
  mem_ptr : gmap Z Z;
  mem_bool : gmap Z bool }.

Definition heap (k : Kind) (m : Memory) : gmap Z Z :=
  match k with
  | K_int => mem_int m
  | K_int64 => mem_int64 m
  | K_uint64 => mem_uint64 m
  | K_ptr => mem_ptr m
  end.

Definition set_heap (k : Kind) (h : gmap Z Z) (m : Memory) : Memory :=
  match k with
  | K_int => {| mem_int := h; mem_int64 := mem_int64 m;
                mem_uint64 := mem_uint64 m; mem_ptr := mem_ptr m;
                mem_bool := mem_bool m |}
  | K_int64 => {| mem_int := mem_int m; mem_int64 := h;
                  mem_uint64 := mem_uint64 m; mem_ptr := mem_ptr m;
                  mem_bool := mem_bool m |}
  | K_uint64 => {| mem_int := mem_int m; mem_int64 := mem_int64 m;
                   mem_uint64 := h; mem_ptr := mem_ptr m;
                   mem_bool := mem_bool m |}
  | K_ptr => {| mem_int := mem_int m; mem_int64 := mem_int64 m;
                mem_uint64 := mem_uint64 m; mem_ptr := h;
                mem_bool := mem_bool m |}
  end.

Definition set_mem_bool (h : gmap Z bool) (m : Memory) : Memory :=
  {| mem_int := mem_int m; mem_int64 := mem_int64 m;
     mem_uint64 := mem_uint64 m; mem_ptr := mem_ptr m; mem_bool := h |}.

Definition load (h : gmap Z Z) (a : Z) : Z := default 0 (h !! a).
Definition load_bool (h : gmap Z bool) (a : Z) : bool :=
  default false (h !! a).

Definition read (k : Kind) (a : Z) (m : Memory) : Z := load (heap k m) a.
Definition write (k : Kind) (a v : Z) (m : Memory) : Memory :=
  set_heap k (<[a := v]> (heap k m)) m.
Definition read_bool (a : Z) (m : Memory) : bool := load_bool (mem_bool m) a.
Definition write_bool (a : Z) (v : bool) (m : Memory) : Memory :=
  set_mem_bool (<[a := v]> (mem_bool m)) m.

Definition empty_Memory : Memory :=
  {| mem_int := ∅; mem_int64 := ∅; mem_uint64 := ∅; mem_ptr := ∅;
     mem_bool := ∅ |}.

(** [addrval(T* adr)] reads the value at the address; [restore()] writes
    it back. *)
Definition new_addrval (h : gmap Z Z) (adr : Z) : addrval :=
  mk_addrval adr (load h adr).

Definition restore (cell : addrval) (h : gmap Z Z) : gmap Z Z :=
  <[address_ cell := old_value_ cell]> h.

(** ** StateInfo, StateMarker (lines 380-430) *)

Inductive MarkerType :=
  SENTINEL | SIMPLE_MARKER | CHOICE_POINT | REVERSIBLE_ACTION.

Global Instance MarkerType_eq_dec : EqDecision MarkerType.
Proof. solve_decision. Defined.

Record StateInfo := mk_StateInfo {
  ptr_info : Z;
  int_info : Z;
  depth : Z;
  left_depth : Z }.

(** [StateInfo()] and [StateInfo(pinfo, iinfo)]; [NULL] is address 0. *)
Definition StateInfo_default : StateInfo := mk_StateInfo 0 0 0 0.
Definition StateInfo_2 (pinfo iinfo : Z) : StateInfo :=
  mk_StateInfo pinfo iinfo 0 0.

Record StateMarker := mk_StateMarker {
  type_ : MarkerType;
  rev_int_index_ : Z;
  rev_int64_index_ : Z;
  rev_uint64_index_ : Z;
  rev_ptr_index_ : Z;
  rev_boolvar_list_index_ : Z;
  rev_bools_index_ : Z;
  rev_int_memory_index_ : Z;
  rev_int64_memory_index_ : Z;
  rev_object_memory_index_ : Z;
  rev_object_array_memory_index_ : Z;
  rev_memory_index_ : Z;
  rev_memory_array_index_ : Z;
  info_ : StateInfo }.

(** The constructor zeroes the indices.  (It leaves [rev_memory_index_]
    and [rev_memory_array_index_] unset; they are read only in markers
    whose indices [PushState] has filled in, so zero stands for them.) *)
Definition new_StateMarker (t : MarkerType) (info : StateInfo) : StateMarker :=
  mk_StateMarker t 0 0 0 0 0 0 0 0 0 0 0 0 info.

(** ** Trail (lines 656-853) *)

Record Trail := mk_Trail {
  rev_ints_ : CompressedTrail;
  rev_int64s_ : CompressedTrail;
  rev_uint64s_ : CompressedTrail;
  rev_ptrs_ : CompressedTrail;
  rev_boolvar_list_ : list Z;
  rev_bools_ : list Z;
  rev_bool_value_ : list bool;
  rev_int_memory_ : list Z;
  rev_int64_memory_ : list Z;
  rev_object_memory_ : list Z;
  rev_object_array_memory_ : list Z;
  rev_memory_ : list Z;
  rev_memory_array_ : list Z }.

Definition new_Trail (block_size : Z) (compression_level : TrailCompression)
    : Trail :=
  {| rev_ints_ := new_CompressedTrail block_size compression_level;
     rev_int64s_ := new_CompressedTrail block_size compression_level;
     rev_uint64s_ := new_CompressedTrail block_size compression_level;
     rev_ptrs_ := new_CompressedTrail block_size compression_level;
     rev_boolvar_list_ := []; rev_bools_ := []; rev_bool_value_ := [];
     rev_int_memory_ := []; rev_int64_memory_ := [];
     rev_object_memory_ := []; rev_object_array_memory_ := [];
     rev_memory_ := []; rev_memory_array_ := [] |}.

Definition rev_cells (k : Kind) (t : Trail) : CompressedTrail :=
  match k with
  | K_int => rev_ints_ t
  | K_int64 => rev_int64s_ t
  | K_uint64 => rev_uint64s_ t
  | K_ptr => rev_ptrs_ t
  end.

Definition set_rev_cells (k : Kind) (c : CompressedTrail) (t : Trail) : Trail :=
  {| rev_ints_ := if decide (k = K_int) then c else rev_ints_ t;
     rev_int64s_ := if decide (k = K_int64) then c else rev_int64s_ t;
     rev_uint64s_ := if decide (k = K_uint64) then c else rev_uint64s_ t;
     rev_ptrs_ := if decide (k = K_ptr) then c else rev_ptrs_ t;
     rev_boolvar_list_ := rev_boolvar_list_ t;
     rev_bools_ := rev_bools_ t; rev_bool_value_ := rev_bool_value_ t;
     rev_int_memory_ := rev_int_memory_ t;
     rev_int64_memory_ := rev_int64_memory_ t;
     rev_object_memory_ := rev_object_memory_ t;
     rev_object_array_memory_ := rev_object_array_memory_ t;
     rev_memory_ := rev_memory_ t;
     rev_memory_array_ := rev_memory_array_ t |}.

Definition set_rev_bools (addrs : list Z) (vals : list bool) (t : Trail)
    : Trail :=
  {| rev_ints_ := rev_ints_ t; rev_int64s_ := rev_int64s_ t;
     rev_uint64s_ := rev_uint64s_ t; rev_ptrs_ := rev_ptrs_ t;
     rev_boolvar_list_ := rev_boolvar_list_ t;
     rev_bools_ := addrs; rev_bool_value_ := vals;
     rev_int_memory_ := rev_int_memory_ t;
     rev_int64_memory_ := rev_int64_memory_ t;
     rev_object_memory_ := rev_object_memory_ t;
     rev_object_array_memory_ := rev_object_array_memory_ t;
     rev_memory_ := rev_memory_ t;
     rev_memory_array_ := rev_memory_array_ t |}.

(** The loop [for (curr = trail.size(); curr > target; --curr)] over a
    compressed trail: restore the cell at the back, pop it. *)
Fixpoint restore_cells (ext : Extern) (n : nat) (t : CompressedTrail)
    (h : gmap Z Z) : option (CompressedTrail * gmap Z Z) :=
  match n with
  | O => Some (t, h)
  | S n' =>
      cell ← Back t;
      t' ← PopBack ext t;
      restore_cells ext n' t' (restore cell h)
  end.

Definition backtrack_cells (ext : Extern) (target : Z) (t : CompressedTrail)
    (h : gmap Z Z) : option (CompressedTrail * gmap Z Z) :=
  restore_cells ext (Z.to_nat (ct_size t - target)) t h.

(** The loop [for (curr = rev_bools_.size() - 1; curr >= target; --curr)]
    writing [rev_bool_value_[curr]] to [*rev_bools_[curr]]. *)
Fixpoint restore_bools (n : nat) (curr : Z) (addrs : list Z)
    (vals : list bool) (h : gmap Z bool) : option (gmap Z bool) :=
  match n with
  | O => Some h
  | S n' =>
      if curr <? 0 then None else
      a ← addrs !! Z.to_nat curr;
      v ← vals !! Z.to_nat curr;
      restore_bools n' (curr - 1) addrs vals (<[a := v]> h)
  end.

Definition vec_size {A} (l : list A) : Z := Z.of_nat (length l).

(** [vector::resize(target)] *)
Definition vec_resize {A} (target : Z) (d : A) (l : list A) : list A :=
  resize (Z.to_nat target) d l.

(** [Trail::BacktrackTo].  The cells are restored kind after kind; the
    deferred deallocations and [RestoreBoolValue] (which is external and
    acts on the variable object) have no effect on [Memory], so of these
    lists only the truncation shows. *)
Definition BacktrackTo (ext : Extern) (m : StateMarker) (t : Trail)
    (mem : Memory) : option (Trail * Memory) :=
  '(ints, h_int) ←
     backtrack_cells ext (rev_int_index_ m) (rev_ints_ t) (mem_int mem);
  '(int64s, h_int64) ←
     backtrack_cells ext (rev_int64_index_ m) (rev_int64s_ t) (mem_int64 mem);
  '(uint64s, h_uint64) ←
     backtrack_cells ext (rev_uint64_index_ m) (rev_uint64s_ t)
       (mem_uint64 mem);
  '(ptrs, h_ptr) ←
     backtrack_cells ext (rev_ptr_index_ m) (rev_ptrs_ t) (mem_ptr mem);
  h_bool ←
     restore_bools
       (Z.to_nat (vec_size (rev_bools_ t) - rev_bools_index_ m))
       (vec_size (rev_bools_ t) - 1) (rev_bools_ t) (rev_bool_value_ t)
       (mem_bool mem);
  Some
    ({| rev_ints_ := ints; rev_int64s_ := int64s; rev_uint64s_ := uint64s;
        rev_ptrs_ := ptrs;
        rev_boolvar_list_ :=
          vec_resize (rev_boolvar_list_index_ m) 0 (rev_boolvar_list_ t);
        rev_bools_ := vec_resize (rev_bools_index_ m) 0 (rev_bools_ t);
        rev_bool_value_ :=
          vec_resize (rev_bools_index_ m) false (rev_bool_value_ t);
        rev_int_memory_ :=
          vec_resize (rev_int_memory_index_ m) 0 (rev_int_memory_ t);
        rev_int64_memory_ :=
          vec_resize (rev_int64_memory_index_ m) 0 (rev_int64_memory_ t);
        rev_object_memory_ :=
          vec_resize (rev_object_memory_index_ m) 0 (rev_object_memory_ t);
        rev_object_array_memory_ :=
          vec_resize (rev_object_array_memory_index_ m) 0
            (rev_object_array_memory_ t);
        rev_memory_ := vec_resize (rev_memory_index_ m) 0 (rev_memory_ t);
        rev_memory_array_ :=
          vec_resize (rev_memory_array_index_ m) 0 (rev_memory_array_ t) |},
     {| mem_int := h_int; mem_int64 := h_int64; mem_uint64 := h_uint64;
        mem_ptr := h_ptr; mem_bool := h_bool |}).

(** [Solver::InternalSaveValue], one overload per kind. *)
Definition InternalSaveValue (ext : Extern) (k : Kind) (valptr : Z)
    (t : Trail) (mem : Memory) : option Trail :=
  c ← PushBack ext (new_addrval (heap k mem) valptr) (rev_cells k t);
  Some (set_rev_cells k c t).

Definition InternalSaveValue_bool (valptr : Z) (t : Trail) (mem : Memory)
    : Trail :=
  set_rev_bools (rev_bools_ t ++ [valptr])
    (rev_bool_value_ t ++ [read_bool valptr mem]) t.

(** The snapshot of the trail sizes that [PushState] writes into a
    marker. *)
Definition mark_Trail (t : Trail) (m : StateMarker) : StateMarker :=
  {| type_ := type_ m;
     rev_int_index_ := ct_size (rev_ints_ t);
     rev_int64_index_ := ct_size (rev_int64s_ t);
     rev_uint64_index_ := ct_size (rev_uint64s_ t);
     rev_ptr_index_ := ct_size (rev_ptrs_ t);
     rev_boolvar_list_index_ := vec_size (rev_boolvar_list_ t);
     rev_bools_index_ := vec_size (rev_bools_ t);
     rev_int_memory_index_ := vec_size (rev_int_memory_ t);
     rev_int64_memory_index_ := vec_size (rev_int64_memory_ t);
     rev_object_memory_index_ := vec_size (rev_object_memory_ t);
     rev_object_array_memory_index_ := vec_size (rev_object_array_memory_ t);
     rev_memory_index_ := vec_size (rev_memory_ t);
     rev_memory_array_index_ := vec_size (rev_memory_array_ t);
     info_ := info_ m |}.

(** Saves and writes between a mark and the backtrack to it. *)
Inductive SaveOp :=
| OpSave (k : Kind) (a : Z)
| OpSaveBool (a : Z)
| OpWrite (k : Kind) (a v : Z)
| OpWriteBool (a : Z) (v : bool).

Definition save_step (ext : Extern) (op : SaveOp) (tm : Trail * Memory)
    : option (Trail * Memory) :=
  match op with
  | OpSave k a => t ← InternalSaveValue ext k a tm.1 tm.2; Some (t, tm.2)
  | OpSaveBool a => Some (InternalSaveValue_bool a tm.1 tm.2, tm.2)
  | OpWrite k a v => Some (tm.1, write k a v tm.2)
  | OpWriteBool a v => Some (tm.1, write_bool a v tm.2)
  end.

Fixpoint save_run (ext : Extern) (ops : list SaveOp) (tm : Trail * Memory)
    : option (Trail * Memory) :=
  match ops with
  | [] => Some tm
  | op :: rest => tm' ← save_step ext op tm; save_run ext rest tm'
  end.

(** The idiom of reversible state: a location is saved before it is
    written.  [saved] are the locations saved since the mark. *)
Inductive Loc := LocCell (k : Kind) (a : Z) | LocBool (a : Z).

Global Instance Loc_eq_dec : EqDecision Loc.
Proof. solve_decision. Defined.

Fixpoint saved_before_write (saved : list Loc) (ops : list SaveOp) : bool :=
  match ops with
  | [] => true
  | OpSave k a :: rest => saved_before_write (LocCell k a :: saved) rest
  | OpSaveBool a :: rest => saved_before_write (LocBool a :: saved) rest
  | OpWrite k a _ :: rest =>
      bool_decide (LocCell k a ∈ saved) && saved_before_write saved rest
  | OpWriteBool a _ :: rest =>
      bool_decide (LocBool a ∈ saved) && saved_before_write saved rest
  end.

(** Undoing a list of saved cells, oldest first in the list: the newest
    is written back first, the oldest last. *)
Definition undo {V : Type} (cells : list (Z * V)) (h : gmap Z V) : gmap Z V :=
  foldr (fun c h => <[c.1 := c.2]> h) h cells.

Definition cell_pair (c : addrval) : Z * Z := (address_ c, old_value_ c).

(** A trail whose four compressed trails each represent a sequence and
    whose two [bool] vectors go in parallel. *)
Definition trail_wf (ext : Extern) (t : Trail) : Prop :=
  (forall k, exists l, ct_rep ext (rev_cells k t) l) /\
  length (rev_bools_ t) = length (rev_bool_value_ t).

(** The state of a trail [t] and a memory [mem] reached from [t0] and
    [mem0] by saves and writes: [cells k] and [bools] are what was saved
    since, oldest first, and undoing them gives [mem0] back. *)
Record saved_inv (ext : Extern) (l0 : Kind -> list addrval)
    (t0 : Trail) (mem0 : Memory) (saved : list Loc)
    (t : Trail) (mem : Memory)
    (cells : Kind -> list addrval) (bools : list (Z * bool)) : Prop := {
  si_rep : forall k, ct_rep ext (rev_cells k t) (l0 k ++ cells k);
  si_saved : forall k a,
    LocCell k a ∈ saved -> a ∈ (cell_pair <$> cells k).*1;
  si_undo : forall k a,
    load (undo (cell_pair <$> cells k) (heap k mem)) a = load (heap k mem0) a;
  si_bools : rev_bools_ t = rev_bools_ t0 ++ bools.*1;
  si_bool_value : rev_bool_value_ t = rev_bool_value_ t0 ++ bools.*2;
  si_saved_bool : forall a, LocBool a ∈ saved -> a ∈ bools.*1;
  si_undo_bool : forall a,
    load_bool (undo bools (mem_bool mem)) a = load_bool (mem_bool mem0) a;
  si_boolvar : rev_boolvar_list_ t = rev_boolvar_list_ t0;
  si_int_memory : rev_int_memory_ t = rev_int_memory_ t0;
  si_int64_memory : rev_int64_memory_ t = rev_int64_memory_ t0;
  si_object_memory : rev_object_memory_ t = rev_object_memory_ t0;
  si_object_array_memory :
    rev_object_array_memory_ t = rev_object_array_memory_ t0;
  si_memory : rev_memory_ t = rev_memory_ t0;
  si_memory_array : rev_memory_array_ t = rev_memory_array_ t0 }.

(** ** Demons, actions, constraints, monitors

    Objects are known by their address.  A demon's address is also where
    its [stamp_] lives, in the [uint64] memory ([Demon::inhibit] saves it
    on the trail like any other reversible value).  [None] is [NULL]. *)

Inductive DemonPriority := DELAYED_PRIORITY | VAR_PRIORITY | NORMAL_PRIORITY.

Global Instance DemonPriority_eq_dec : EqDecision DemonPriority.
Proof. solve_decision. Defined.

Inductive Constraint := UserConstraint (c : Z) | FalseConstraint.

Global Instance Constraint_eq_dec : EqDecision Constraint.
Proof. solve_decision. Defined.

(** An array indexed by [DemonPriority] ([kNumPriorities] is 3). *)
Record PerPriority (A : Type) := mk_PerPriority {
  at_DELAYED : A; at_VAR : A; at_NORMAL : A }.
Arguments mk_PerPriority {A}.
Arguments at_DELAYED {A}.
Arguments at_VAR {A}.
Arguments at_NORMAL {A}.

Definition pp_get {A} (p : DemonPriority) (x : PerPriority A) : A :=
  match p with
  | DELAYED_PRIORITY => at_DELAYED x
  | VAR_PRIORITY => at_VAR x
  | NORMAL_PRIORITY => at_NORMAL x
  end.

Definition pp_set {A} (p : DemonPriority) (v : A) (x : PerPriority A)
    : PerPriority A :=
  match p with
  | DELAYED_PRIORITY => mk_PerPriority v (at_VAR x) (at_NORMAL x)
  | VAR_PRIORITY => mk_PerPriority (at_DELAYED x) v (at_NORMAL x)
  | NORMAL_PRIORITY => mk_PerPriority (at_DELAYED x) (at_VAR x) v
  end.

(** ** FifoPriorityQueue (lines 148-224)

    [first_] is the chain of cells from [first_] to [last_], [free_cells_]
    the chain of free cells; a cell is shown by the demon it holds (a free
    cell still holds the last one). *)
Record FifoPriorityQueue := mk_Fifo {
  first_ : list Z;
  free_cells_ : list Z }.

Definition new_Fifo : FifoPriorityQueue := mk_Fifo [] [].

Definition Fifo_Empty (q : FifoPriorityQueue) : bool :=
  match first_ q with [] => true | _ => false end.

Definition Fifo_NextDemon (q : FifoPriorityQueue)
    : option Z * FifoPriorityQueue :=
  match first_ q with
  | demon :: rest => (Some demon, mk_Fifo rest (demon :: free_cells_ q))
  | [] => (None, q)
  end.

Definition Fifo_Enqueue (d : Z) (q : FifoPriorityQueue) : FifoPriorityQueue :=
  mk_Fifo (first_ q ++ [d]) (tail (free_cells_ q)).

Definition Fifo_AfterFailure (q : FifoPriorityQueue) : FifoPriorityQueue :=
  match first_ q with
  | [] => q
  | _ => mk_Fifo [] (first_ q ++ free_cells_ q)
  end.

(** ** Queue (lines 227-378) *)

Record Queue := mk_Queue {
  containers_ : PerPriority FifoPriorityQueue;
  stamp_ : Z;
  freeze_level_ : Z;
  in_process_ : bool;
  clear_action_ : option Z;
  to_add_ : list Constraint;
  in_add_ : bool }.

Definition set_containers_ (v : PerPriority FifoPriorityQueue) (x : Queue) : Queue :=
  {| containers_ := v; stamp_ := stamp_ x; freeze_level_ := freeze_level_ x;
     in_process_ := in_process_ x; clear_action_ := clear_action_ x;
     to_add_ := to_add_ x; in_add_ := in_add_ x |}.

Definition set_stamp_ (v : Z) (x : Queue) : Queue :=
  {| containers_ := containers_ x; stamp_ := v;
     freeze_level_ := freeze_level_ x; in_process_ := in_process_ x;
     clear_action_ := clear_action_ x; to_add_ := to_add_ x;
     in_add_ := in_add_ x |}.

Definition set_freeze_level_ (v : Z) (x : Queue) : Queue :=
  {| containers_ := containers_ x; stamp_ := stamp_ x; freeze_level_ := v;
     in_process_ := in_process_ x; clear_action_ := clear_action_ x;
     to_add_ := to_add_ x; in_add_ := in_add_ x |}.

Definition set_in_process_ (v : bool) (x : Queue) : Queue :=
  {| containers_ := containers_ x; stamp_ := stamp_ x;
     freeze_level_ := freeze_level_ x; in_process_ := v;
     clear_action_ := clear_action_ x; to_add_ := to_add_ x;
     in_add_ := in_add_ x |}.

Definition set_clear_action_ (v : option Z) (x : Queue) : Queue :=
  {| containers_ := containers_ x; stamp_ := stamp_ x;
     freeze_level_ := freeze_level_ x; in_process_ := in_process_ x;
     clear_action_ := v; to_add_ := to_add_ x; in_add_ := in_add_ x |}.

Definition set_to_add_ (v : list Constraint) (x : Queue) : Queue :=
  {| containers_ := containers_ x; stamp_ := stamp_ x;
     freeze_level_ := freeze_level_ x; in_process_ := in_process_ x;
     clear_action_ := clear_action_ x; to_add_ := v; in_add_ := in_add_ x |}.

Definition set_in_add_ (v : bool) (x : Queue) : Queue :=
  {| containers_ := containers_ x; stamp_ := stamp_ x;
     freeze_level_ := freeze_level_ x; in_process_ := in_process_ x;
     clear_action_ := clear_action_ x; to_add_ := to_add_ x; in_add_ := v |}.

Definition new_Queue : Queue :=
  {| containers_ := mk_PerPriority new_Fifo new_Fifo new_Fifo;
     stamp_ := 1; freeze_level_ := 0; in_process_ := false;
     clear_action_ := None; to_add_ := []; in_add_ := false |}.

(** ** Search (lines 857-957) *)

Record Search := mk_Search {
  marker_stack_ : list StateMarker;
  monitors_ : list Z;
  solution_counter_ : Z;
  decision_builder_ : option Z;
  created_by_solve_ : bool;
  selector_ : option Z;
  search_depth_ : Z;
  left_search_depth_ : Z;
  should_restart_ : bool;
  should_finish_ : bool;
  sentinel_pushed_ : Z;
  jmpbuf_filled_ : bool }.

Definition set_marker_stack_ (v : list StateMarker) (x : Search) : Search :=
  {| marker_stack_ := v; monitors_ := monitors_ x;
     solution_counter_ := solution_counter_ x;
     decision_builder_ := decision_builder_ x;
     created_by_solve_ := created_by_solve_ x; selector_ := selector_ x;
     search_depth_ := search_depth_ x;
     left_search_depth_ := left_search_depth_ x;
     should_restart_ := should_restart_ x;
     should_finish_ := should_finish_ x;
     sentinel_pushed_ := sentinel_pushed_ x;
     jmpbuf_filled_ := jmpbuf_filled_ x |}.

Definition set_monitors_ (v : list Z) (x : Search) : Search :=
  {| marker_stack_ := marker_stack_ x; monitors_ := v;
     solution_counter_ := solution_counter_ x;
     decision_builder_ := decision_builder_ x;
     created_by_solve_ := created_by_solve_ x; selector_ := selector_ x;
     search_depth_ := search_depth_ x;
     left_search_depth_ := left_search_depth_ x;
     should_restart_ := should_restart_ x;
     should_finish_ := should_finish_ x;
     sentinel_pushed_ := sentinel_pushed_ x;
     jmpbuf_filled_ := jmpbuf_filled_ x |}.

Definition set_solution_counter_ (v : Z) (x : Search) : Search :=
  {| marker_stack_ := marker_stack_ x; monitors_ := monitors_ x;
     solution_counter_ := v; decision_builder_ := decision_builder_ x;
     created_by_solve_ := created_by_solve_ x; selector_ := selector_ x;
     search_depth_ := search_depth_ x;
     left_search_depth_ := left_search_depth_ x;
     should_restart_ := should_restart_ x;
     should_finish_ := should_finish_ x;
     sentinel_pushed_ := sentinel_pushed_ x;
     jmpbuf_filled_ := jmpbuf_filled_ x |}.

Definition set_decision_builder_ (v : option Z) (x : Search) : Search :=
  {| marker_stack_ := marker_stack_ x; monitors_ := monitors_ x;
     solution_counter_ := solution_counter_ x; decision_builder_ := v;
     created_by_solve_ := created_by_solve_ x; selector_ := selector_ x;
     search_depth_ := search_depth_ x;
     left_search_depth_ := left_search_depth_ x;
     should_restart_ := should_restart_ x;
     should_finish_ := should_finish_ x;
     sentinel_pushed_ := sentinel_pushed_ x;
     jmpbuf_filled_ := jmpbuf_filled_ x |}.

Definition set_created_by_solve_ (v : bool) (x : Search) : Search :=
  {| marker_stack_ := marker_stack_ x; monitors_ := monitors_ x;
     solution_counter_ := solution_counter_ x;
     decision_builder_ := decision_builder_ x; created_by_solve_ := v;
     selector_ := selector_ x; search_depth_ := search_depth_ x;
     left_search_depth_ := left_search_depth_ x;
     should_restart_ := should_restart_ x;
     should_finish_ := should_finish_ x;
     sentinel_pushed_ := sentinel_pushed_ x;
     jmpbuf_filled_ := jmpbuf_filled_ x |}.

Definition set_selector_ (v : option Z) (x : Search) : Search :=
  {| marker_stack_ := marker_stack_ x; monitors_ := monitors_ x;
     solution_counter_ := solution_counter_ x;
     decision_builder_ := decision_builder_ x;
     created_by_solve_ := created_by_solve_ x; selector_ := v;
     search_depth_ := search_depth_ x;
     left_search_depth_ := left_search_depth_ x;
     should_restart_ := should_restart_ x;
     should_finish_ := should_finish_ x;
     sentinel_pushed_ := sentinel_pushed_ x;
     jmpbuf_filled_ := jmpbuf_filled_ x |}.

Definition set_search_depth_ (v : Z) (x : Search) : Search :=
  {| marker_stack_ := marker_stack_ x; monitors_ := monitors_ x;
     solution_counter_ := solution_counter_ x;
     decision_builder_ := decision_builder_ x;
     created_by_solve_ := created_by_solve_ x; selector_ := selector_ x;
     search_depth_ := v; left_search_depth_ := left_search_depth_ x;
     should_restart_ := should_restart_ x;
     should_finish_ := should_finish_ x;
     sentinel_pushed_ := sentinel_pushed_ x;
     jmpbuf_filled_ := jmpbuf_filled_ x |}.

Definition set_left_search_depth_ (v : Z) (x : Search) : Search :=
  {| marker_stack_ := marker_stack_ x; monitors_ := monitors_ x;
     solution_counter_ := solution_counter_ x;
     decision_builder_ := decision_builder_ x;
     created_by_solve_ := created_by_solve_ x; selector_ := selector_ x;
     search_depth_ := search_depth_ x; left_search_depth_ := v;
     should_restart_ := should_restart_ x;
     should_finish_ := should_finish_ x;
     sentinel_pushed_ := sentinel_pushed_ x;
     jmpbuf_filled_ := jmpbuf_filled_ x |}.

Definition set_should_restart_ (v : bool) (x : Search) : Search :=
  {| marker_stack_ := marker_stack_ x; monitors_ := monitors_ x;
     solution_counter_ := solution_counter_ x;
     decision_builder_ := decision_builder_ x;
     created_by_solve_ := created_by_solve_ x; selector_ := selector_ x;
     search_depth_ := search_depth_ x;
     left_search_depth_ := left_search_depth_ x; should_restart_ := v;
     should_finish_ := should_finish_ x;
     sentinel_pushed_ := sentinel_pushed_ x;
     jmpbuf_filled_ := jmpbuf_filled_ x |}.

Definition set_should_finish_ (v : bool) (x : Search) : Search :=
  {| marker_stack_ := marker_stack_ x; monitors_ := monitors_ x;
     solution_counter_ := solution_counter_ x;
     decision_builder_ := decision_builder_ x;
     created_by_solve_ := created_by_solve_ x; selector_ := selector_ x;
     search_depth_ := search_depth_ x;
     left_search_depth_ := left_search_depth_ x;
     should_restart_ := should_restart_ x; should_finish_ := v;
     sentinel_pushed_ := sentinel_pushed_ x;
     jmpbuf_filled_ := jmpbuf_filled_ x |}.

Definition set_sentinel_pushed_ (v : Z) (x : Search) : Search :=
  {| marker_stack_ := marker_stack_ x; monitors_ := monitors_ x;
     solution_counter_ := solution_counter_ x;
     decision_builder_ := decision_builder_ x;
     created_by_solve_ := created_by_solve_ x; selector_ := selector_ x;
     search_depth_ := search_depth_ x;
     left_search_depth_ := left_search_depth_ x;
     should_restart_ := should_restart_ x;
     should_finish_ := should_finish_ x; sentinel_pushed_ := v;
     jmpbuf_filled_ := jmpbuf_filled_ x |}.

Definition set_jmpbuf_filled_ (v : bool) (x : Search) : Search :=
  {| marker_stack_ := marker_stack_ x; monitors_ := monitors_ x;
     solution_counter_ := solution_counter_ x;
     decision_builder_ := decision_builder_ x;
     created_by_solve_ := created_by_solve_ x; selector_ := selector_ x;
     search_depth_ := search_depth_ x;
     left_search_depth_ := left_search_depth_ x;
     should_restart_ := should_restart_ x;
     should_finish_ := should_finish_ x;
     sentinel_pushed_ := sentinel_pushed_ x; jmpbuf_filled_ := v |}.

(** The constructor of a search, and the one of the dummy search at the
    bottom of [searches_], whose depths start at -1. *)
Definition new_Search : Search :=
  {| marker_stack_ := []; monitors_ := []; solution_counter_ := 0;
     decision_builder_ := None; created_by_solve_ := false;
     selector_ := None; search_depth_ := 0; left_search_depth_ := 0;
     should_restart_ := false; should_finish_ := false;
     sentinel_pushed_ := 0; jmpbuf_filled_ := false |}.

Definition new_dummy_Search : Search :=
  set_left_search_depth_ (-1) (set_search_depth_ (-1) new_Search).

(** ** Events: a ghost record of what was called

    Newest first.  A demon run records what was pending in the NORMAL and
    VAR queues when [Run] was called. *)
Inductive Hook :=
| HEnterSearch | HRestartSearch | HExitSearch | HBeginFail | HEndFail
| HBeginInitialPropagation | HEndInitialPropagation | HNoMoreSolutions.

Inductive Event :=
| EvEnqueue (d : Z)
| EvDemonRun (prio : DemonPriority) (d : Z)
    (normal_pending var_pending : list Z)
| EvStampIncrease
| EvOnFailureAction (a : Z)
| EvActionRun (a : Z)
| EvHook (h : Hook) (m : Z)
| EvAcceptSolution (m : Z) (r : bool)
| EvAtSolution (m : Z) (r : bool).

(** ** Solver *)

Inductive SolverState :=
| OUTSIDE_SEARCH | IN_ROOT_NODE | IN_SEARCH | AT_SOLUTION
| NO_MORE_SOLUTIONS | PROBLEM_INFEASIBLE.

Global Instance SolverState_eq_dec : EqDecision SolverState.
Proof. solve_decision. Defined.

(** [searches_] is never empty: [search_] is [searches_.back()], the
    active search, and [parent_searches_] the ones below it, innermost
    first, the dummy last. *)
Record Solver := mk_Solver {
  queue_ : Queue;
  trail_ : Trail;
  memory_ : Memory;
  state_ : SolverState;
  branches_ : Z;
  fails_ : Z;
  decisions_ : Z;
  demon_runs_ : PerPriority Z;
  search_ : Search;
  parent_searches_ : list Search;
  fail_stamp_ : Z;
  fail_intercept_ : option Z;
  constraints_list_ : list Constraint;
  additional_constraints_list_ : list Constraint;
  additional_constraints_parent_list_ : list Z;
  constraint_index_ : Z;
  additional_constraint_index_ : Z;
  propagation_monitor_ : Z;
  demon_profiler_ : option Z;
  print_trace_ : option Z;
  trace : list Event }.

Definition set_queue_ (v : Queue) (x : Solver) : Solver :=
  {| queue_ := v; trail_ := trail_ x; memory_ := memory_ x;
     state_ := state_ x; branches_ := branches_ x; fails_ := fails_ x;
     decisions_ := decisions_ x; demon_runs_ := demon_runs_ x;
     search_ := search_ x; parent_searches_ := parent_searches_ x;
     fail_stamp_ := fail_stamp_ x; fail_intercept_ := fail_intercept_ x;
     constraints_list_ := constraints_list_ x;
     additional_constraints_list_ := additional_constraints_list_ x;
     additional_constraints_parent_list_ := additional_constraints_parent_list_ x;
     constraint_index_ := constraint_index_ x;
     additional_constraint_index_ := additional_constraint_index_ x;
     propagation_monitor_ := propagation_monitor_ x;
     demon_profiler_ := demon_profiler_ x; print_trace_ := print_trace_ x;
     trace := trace x |}.

Definition set_trail_ (v : Trail) (x : Solver) : Solver :=
  {| queue_ := queue_ x; trail_ := v; memory_ := memory_ x;
     state_ := state_ x; branches_ := branches_ x; fails_ := fails_ x;
     decisions_ := decisions_ x; demon_runs_ := demon_runs_ x;
     search_ := search_ x; parent_searches_ := parent_searches_ x;
     fail_stamp_ := fail_stamp_ x; fail_intercept_ := fail_intercept_ x;
     constraints_list_ := constraints_list_ x;
     additional_constraints_list_ := additional_constraints_list_ x;
     additional_constraints_parent_list_ := additional_constraints_parent_list_ x;
     constraint_index_ := constraint_index_ x;
     additional_constraint_index_ := additional_constraint_index_ x;
     propagation_monitor_ := propagation_monitor_ x;
     demon_profiler_ := demon_profiler_ x; print_trace_ := print_trace_ x;
     trace := trace x |}.

Definition set_memory_ (v : Memory) (x : Solver) : Solver :=
  {| queue_ := queue_ x; trail_ := trail_ x; memory_ := v;
     state_ := state_ x; branches_ := branches_ x; fails_ := fails_ x;
     decisions_ := decisions_ x; demon_runs_ := demon_runs_ x;
     search_ := search_ x; parent_searches_ := parent_searches_ x;
     fail_stamp_ := fail_stamp_ x; fail_intercept_ := fail_intercept_ x;
     constraints_list_ := constraints_list_ x;
     additional_constraints_list_ := additional_constraints_list_ x;
     additional_constraints_parent_list_ := additional_constraints_parent_list_ x;
     constraint_index_ := constraint_index_ x;
     additional_constraint_index_ := additional_constraint_index_ x;
     propagation_monitor_ := propagation_monitor_ x;
     demon_profiler_ := demon_profiler_ x; print_trace_ := print_trace_ x;
     trace := trace x |}.

Definition set_state_ (v : SolverState) (x : Solver) : Solver :=
  {| queue_ := queue_ x; trail_ := trail_ x; memory_ := memory_ x;
     state_ := v; branches_ := branches_ x; fails_ := fails_ x;
     decisions_ := decisions_ x; demon_runs_ := demon_runs_ x;
     search_ := search_ x; parent_searches_ := parent_searches_ x;
     fail_stamp_ := fail_stamp_ x; fail_intercept_ := fail_intercept_ x;
     constraints_list_ := constraints_list_ x;
     additional_constraints_list_ := additional_constraints_list_ x;
     additional_constraints_parent_list_ := additional_constraints_parent_list_ x;
     constraint_index_ := constraint_index_ x;
     additional_constraint_index_ := additional_constraint_index_ x;
     propagation_monitor_ := propagation_monitor_ x;
     demon_profiler_ := demon_profiler_ x; print_trace_ := print_trace_ x;
     trace := trace x |}.

Definition set_branches_ (v : Z) (x : Solver) : Solver :=
  {| queue_ := queue_ x; trail_ := trail_ x; memory_ := memory_ x;
     state_ := state_ x; branches_ := v; fails_ := fails_ x;
     decisions_ := decisions_ x; demon_runs_ := demon_runs_ x;
     search_ := search_ x; parent_searches_ := parent_searches_ x;
     fail_stamp_ := fail_stamp_ x; fail_intercept_ := fail_intercept_ x;
     constraints_list_ := constraints_list_ x;
     additional_constraints_list_ := additional_constraints_list_ x;
     additional_constraints_parent_list_ := additional_constraints_parent_list_ x;
     constraint_index_ := constraint_index_ x;
     additional_constraint_index_ := additional_constraint_index_ x;
     propagation_monitor_ := propagation_monitor_ x;
     demon_profiler_ := demon_profiler_ x; print_trace_ := print_trace_ x;
     trace := trace x |}.

Definition set_fails_ (v : Z) (x : Solver) : Solver :=
  {| queue_ := queue_ x; trail_ := trail_ x; memory_ := memory_ x;
     state_ := state_ x; branches_ := branches_ x; fails_ := v;
     decisions_ := decisions_ x; demon_runs_ := demon_runs_ x;
     search_ := search_ x; parent_searches_ := parent_searches_ x;
     fail_stamp_ := fail_stamp_ x; fail_intercept_ := fail_intercept_ x;
     constraints_list_ := constraints_list_ x;
     additional_constraints_list_ := additional_constraints_list_ x;
     additional_constraints_parent_list_ := additional_constraints_parent_list_ x;
     constraint_index_ := constraint_index_ x;
     additional_constraint_index_ := additional_constraint_index_ x;
     propagation_monitor_ := propagation_monitor_ x;
     demon_profiler_ := demon_profiler_ x; print_trace_ := print_trace_ x;
     trace := trace x |}.

Definition set_decisions_ (v : Z) (x : Solver) : Solver :=
  {| queue_ := queue_ x; trail_ := trail_ x; memory_ := memory_ x;
     state_ := state_ x; branches_ := branches_ x; fails_ := fails_ x;
     decisions_ := v; demon_runs_ := demon_runs_ x; search_ := search_ x;
     parent_searches_ := parent_searches_ x; fail_stamp_ := fail_stamp_ x;
     fail_intercept_ := fail_intercept_ x;
     constraints_list_ := constraints_list_ x;
     additional_constraints_list_ := additional_constraints_list_ x;
     additional_constraints_parent_list_ := additional_constraints_parent_list_ x;
     constraint_index_ := constraint_index_ x;
     additional_constraint_index_ := additional_constraint_index_ x;
     propagation_monitor_ := propagation_monitor_ x;
     demon_profiler_ := demon_profiler_ x; print_trace_ := print_trace_ x;
     trace := trace x |}.

Definition set_demon_runs_ (v : PerPriority Z) (x : Solver) : Solver :=
  {| queue_ := queue_ x; trail_ := trail_ x; memory_ := memory_ x;
     state_ := state_ x; branches_ := branches_ x; fails_ := fails_ x;
     decisions_ := decisions_ x; demon_runs_ := v; search_ := search_ x;
     parent_searches_ := parent_searches_ x; fail_stamp_ := fail_stamp_ x;
     fail_intercept_ := fail_intercept_ x;
     constraints_list_ := constraints_list_ x;
     additional_constraints_list_ := additional_constraints_list_ x;
     additional_constraints_parent_list_ := additional_constraints_parent_list_ x;
     constraint_index_ := constraint_index_ x;
     additional_constraint_index_ := additional_constraint_index_ x;
     propagation_monitor_ := propagation_monitor_ x;
     demon_profiler_ := demon_profiler_ x; print_trace_ := print_trace_ x;
     trace := trace x |}.

Definition set_search_ (v : Search) (x : Solver) : Solver :=
  {| queue_ := queue_ x; trail_ := trail_ x; memory_ := memory_ x;
     state_ := state_ x; branches_ := branches_ x; fails_ := fails_ x;
     decisions_ := decisions_ x; demon_runs_ := demon_runs_ x; search_ := v;
     parent_searches_ := parent_searches_ x; fail_stamp_ := fail_stamp_ x;
     fail_intercept_ := fail_intercept_ x;
     constraints_list_ := constraints_list_ x;
     additional_constraints_list_ := additional_constraints_list_ x;
     additional_constraints_parent_list_ := additional_constraints_parent_list_ x;
     constraint_index_ := constraint_index_ x;
     additional_constraint_index_ := additional_constraint_index_ x;
     propagation_monitor_ := propagation_monitor_ x;
     demon_profiler_ := demon_profiler_ x; print_trace_ := print_trace_ x;
     trace := trace x |}.

Definition set_parent_searches_ (v : list Search) (x : Solver) : Solver :=
  {| queue_ := queue_ x; trail_ := trail_ x; memory_ := memory_ x;
     state_ := state_ x; branches_ := branches_ x; fails_ := fails_ x;
     decisions_ := decisions_ x; demon_runs_ := demon_runs_ x;
     search_ := search_ x; parent_searches_ := v;
     fail_stamp_ := fail_stamp_ x; fail_intercept_ := fail_intercept_ x;
     constraints_list_ := constraints_list_ x;
     additional_constraints_list_ := additional_constraints_list_ x;
     additional_constraints_parent_list_ := additional_constraints_parent_list_ x;
     constraint_index_ := constraint_index_ x;
     additional_constraint_index_ := additional_constraint_index_ x;
     propagation_monitor_ := propagation_monitor_ x;
     demon_profiler_ := demon_profiler_ x; print_trace_ := print_trace_ x;
     trace := trace x |}.

Definition set_fail_stamp_ (v : Z) (x : Solver) : Solver :=
  {| queue_ := queue_ x; trail_ := trail_ x; memory_ := memory_ x;
     state_ := state_ x; branches_ := branches_ x; fails_ := fails_ x;
     decisions_ := decisions_ x; demon_runs_ := demon_runs_ x;
     search_ := search_ x; parent_searches_ := parent_searches_ x;
     fail_stamp_ := v; fail_intercept_ := fail_intercept_ x;
     constraints_list_ := constraints_list_ x;
     additional_constraints_list_ := additional_constraints_list_ x;
     additional_constraints_parent_list_ := additional_constraints_parent_list_ x;
     constraint_index_ := constraint_index_ x;
     additional_constraint_index_ := additional_constraint_index_ x;
     propagation_monitor_ := propagation_monitor_ x;
     demon_profiler_ := demon_profiler_ x; print_trace_ := print_trace_ x;
     trace := trace x |}.

Definition set_fail_intercept_ (v : option Z) (x : Solver) : Solver :=
  {| queue_ := queue_ x; trail_ := trail_ x; memory_ := memory_ x;
     state_ := state_ x; branches_ := branches_ x; fails_ := fails_ x;
     decisions_ := decisions_ x; demon_runs_ := demon_runs_ x;
     search_ := search_ x; parent_searches_ := parent_searches_ x;
     fail_stamp_ := fail_stamp_ x; fail_intercept_ := v;
     constraints_list_ := constraints_list_ x;
     additional_constraints_list_ := additional_constraints_list_ x;
     additional_constraints_parent_list_ := additional_constraints_parent_list_ x;
     constraint_index_ := constraint_index_ x;
     additional_constraint_index_ := additional_constraint_index_ x;
     propagation_monitor_ := propagation_monitor_ x;
     demon_profiler_ := demon_profiler_ x; print_trace_ := print_trace_ x;
     trace := trace x |}.

Definition set_constraints_list_ (v : list Constraint) (x : Solver) : Solver :=
  {| queue_ := queue_ x; trail_ := trail_ x; memory_ := memory_ x;
     state_ := state_ x; branches_ := branches_ x; fails_ := fails_ x;
     decisions_ := decisions_ x; demon_runs_ := demon_runs_ x;
     search_ := search_ x; parent_searches_ := parent_searches_ x;
     fail_stamp_ := fail_stamp_ x; fail_intercept_ := fail_intercept_ x;
     constraints_list_ := v;
     additional_constraints_list_ := additional_constraints_list_ x;
     additional_constraints_parent_list_ := additional_constraints_parent_list_ x;
     constraint_index_ := constraint_index_ x;
     additional_constraint_index_ := additional_constraint_index_ x;
     propagation_monitor_ := propagation_monitor_ x;
     demon_profiler_ := demon_profiler_ x; print_trace_ := print_trace_ x;
     trace := trace x |}.

Definition set_additional_constraints_list_ (v : list Constraint) (x : Solver) : Solver :=
  {| queue_ := queue_ x; trail_ := trail_ x; memory_ := memory_ x;
     state_ := state_ x; branches_ := branches_ x; fails_ := fails_ x;
     decisions_ := decisions_ x; demon_runs_ := demon_runs_ x;
     search_ := search_ x; parent_searches_ := parent_searches_ x;
     fail_stamp_ := fail_stamp_ x; fail_intercept_ := fail_intercept_ x;
     constraints_list_ := constraints_list_ x;
     additional_constraints_list_ := v;
     additional_constraints_parent_list_ := additional_constraints_parent_list_ x;
     constraint_index_ := constraint_index_ x;
     additional_constraint_index_ := additional_constraint_index_ x;
     propagation_monitor_ := propagation_monitor_ x;
     demon_profiler_ := demon_profiler_ x; print_trace_ := print_trace_ x;
     trace := trace x |}.

Definition set_additional_constraints_parent_list_ (v : list Z) (x : Solver) : Solver :=
  {| queue_ := queue_ x; trail_ := trail_ x; memory_ := memory_ x;
     state_ := state_ x; branches_ := branches_ x; fails_ := fails_ x;
     decisions_ := decisions_ x; demon_runs_ := demon_runs_ x;
     search_ := search_ x; parent_searches_ := parent_searches_ x;
     fail_stamp_ := fail_stamp_ x; fail_intercept_ := fail_intercept_ x;
     constraints_list_ := constraints_list_ x;
     additional_constraints_list_ := additional_constraints_list_ x;
     additional_constraints_parent_list_ := v;
     constraint_index_ := constraint_index_ x;
     additional_constraint_index_ := additional_constraint_index_ x;
     propagation_monitor_ := propagation_monitor_ x;
     demon_profiler_ := demon_profiler_ x; print_trace_ := print_trace_ x;
     trace := trace x |}.

Definition set_constraint_index_ (v : Z) (x : Solver) : Solver :=
  {| queue_ := queue_ x; trail_ := trail_ x; memory_ := memory_ x;
     state_ := state_ x; branches_ := branches_ x; fails_ := fails_ x;
     decisions_ := decisions_ x; demon_runs_ := demon_runs_ x;
     search_ := search_ x; parent_searches_ := parent_searches_ x;
     fail_stamp_ := fail_stamp_ x; fail_intercept_ := fail_intercept_ x;
     constraints_list_ := constraints_list_ x;
     additional_constraints_list_ := additional_constraints_list_ x;
     additional_constraints_parent_list_ := additional_constraints_parent_list_ x;
     constraint_index_ := v;
     additional_constraint_index_ := additional_constraint_index_ x;
     propagation_monitor_ := propagation_monitor_ x;
     demon_profiler_ := demon_profiler_ x; print_trace_ := print_trace_ x;
     trace := trace x |}.

Definition set_additional_constraint_index_ (v : Z) (x : Solver) : Solver :=
  {| queue_ := queue_ x; trail_ := trail_ x; memory_ := memory_ x;
     state_ := state_ x; branches_ := branches_ x; fails_ := fails_ x;
     decisions_ := decisions_ x; demon_runs_ := demon_runs_ x;
     search_ := search_ x; parent_searches_ := parent_searches_ x;
     fail_stamp_ := fail_stamp_ x; fail_intercept_ := fail_intercept_ x;
     constraints_list_ := constraints_list_ x;
     additional_constraints_list_ := additional_constraints_list_ x;
     additional_constraints_parent_list_ := additional_constraints_parent_list_ x;
     constraint_index_ := constraint_index_ x;
     additional_constraint_index_ := v;
     propagation_monitor_ := propagation_monitor_ x;
     demon_profiler_ := demon_profiler_ x; print_trace_ := print_trace_ x;
     trace := trace x |}.

Definition set_propagation_monitor_ (v : Z) (x : Solver) : Solver :=
  {| queue_ := queue_ x; trail_ := trail_ x; memory_ := memory_ x;
     state_ := state_ x; branches_ := branches_ x; fails_ := fails_ x;
     decisions_ := decisions_ x; demon_runs_ := demon_runs_ x;
     search_ := search_ x; parent_searches_ := parent_searches_ x;
     fail_stamp_ := fail_stamp_ x; fail_intercept_ := fail_intercept_ x;
     constraints_list_ := constraints_list_ x;
     additional_constraints_list_ := additional_constraints_list_ x;
     additional_constraints_parent_list_ := additional_constraints_parent_list_ x;
     constraint_index_ := constraint_index_ x;
     additional_constraint_index_ := additional_constraint_index_ x;
     propagation_monitor_ := v; demon_profiler_ := demon_profiler_ x;
     print_trace_ := print_trace_ x; trace := trace x |}.

Definition set_demon_profiler_ (v : option Z) (x : Solver) : Solver :=
  {| queue_ := queue_ x; trail_ := trail_ x; memory_ := memory_ x;
     state_ := state_ x; branches_ := branches_ x; fails_ := fails_ x;
     decisions_ := decisions_ x; demon_runs_ := demon_runs_ x;
     search_ := search_ x; parent_searches_ := parent_searches_ x;
     fail_stamp_ := fail_stamp_ x; fail_intercept_ := fail_intercept_ x;
     constraints_list_ := constraints_list_ x;
     additional_constraints_list_ := additional_constraints_list_ x;
     additional_constraints_parent_list_ := additional_constraints_parent_list_ x;
     constraint_index_ := constraint_index_ x;
     additional_constraint_index_ := additional_constraint_index_ x;
     propagation_monitor_ := propagation_monitor_ x; demon_profiler_ := v;
     print_trace_ := print_trace_ x; trace := trace x |}.

Definition set_print_trace_ (v : option Z) (x : Solver) : Solver :=
  {| queue_ := queue_ x; trail_ := trail_ x; memory_ := memory_ x;
     state_ := state_ x; branches_ := branches_ x; fails_ := fails_ x;
     decisions_ := decisions_ x; demon_runs_ := demon_runs_ x;
     search_ := search_ x; parent_searches_ := parent_searches_ x;
     fail_stamp_ := fail_stamp_ x; fail_intercept_ := fail_intercept_ x;
     constraints_list_ := constraints_list_ x;
     additional_constraints_list_ := additional_constraints_list_ x;
     additional_constraints_parent_list_ := additional_constraints_parent_list_ x;
     constraint_index_ := constraint_index_ x;
     additional_constraint_index_ := additional_constraint_index_ x;
     propagation_monitor_ := propagation_monitor_ x;
     demon_profiler_ := demon_profiler_ x; print_trace_ := v;
     trace := trace x |}.

Definition set_trace (v : list Event) (x : Solver) : Solver :=
  {| queue_ := queue_ x; trail_ := trail_ x; memory_ := memory_ x;
     state_ := state_ x; branches_ := branches_ x; fails_ := fails_ x;
     decisions_ := decisions_ x; demon_runs_ := demon_runs_ x;
     search_ := search_ x; parent_searches_ := parent_searches_ x;
     fail_stamp_ := fail_stamp_ x; fail_intercept_ := fail_intercept_ x;
     constraints_list_ := constraints_list_ x;
     additional_constraints_list_ := additional_constraints_list_ x;
     additional_constraints_parent_list_ := additional_constraints_parent_list_ x;
     constraint_index_ := constraint_index_ x;
     additional_constraint_index_ := additional_constraint_index_ x;
     propagation_monitor_ := propagation_monitor_ x;
     demon_profiler_ := demon_profiler_ x; print_trace_ := print_trace_ x;
     trace := v |}.


(** ** The solver API, as client code calls it *)

Inductive RevAllocKind :=
| RA_object | RA_int_array | RA_int64_array | RA_object_array
| RA_memory | RA_memory_array.

Inductive Api :=
| ApiEnqueue (d : Z)
| ApiFreezeQueue
| ApiUnfreezeQueue
| ApiProcessDemonsOnQueue
| ApiSetQueueActionOnFail (a : Z)
| ApiClearQueueActionOnFail
| ApiAddConstraint (c : Constraint)
| ApiPushState
| ApiPopState
| ApiAddBacktrackAction (a : Z) (fast : bool)
| ApiSaveValue (k : Kind) (valptr : Z)
| ApiSaveValueBool (valptr : Z)
| ApiSaveBooleanVarValue (var : Z)
| ApiRevAlloc (k : RevAllocKind) (ptr : Z)
| ApiWrite (k : Kind) (a v : Z)
| ApiWriteBool (a : Z) (v : bool)
| ApiInhibit (d : Z)
| ApiDesinhibit (d : Z)
| ApiFail
| ApiInstall (m : Z)
| ApiFinishCurrentSearch
| ApiRestartCurrentSearch.

(** Client code: the virtual methods the solver calls back.  Each gives
    the API calls it makes, chosen from the solver state at the call (and
    its result, where it has one). *)
Record Client := mk_Client {
  priority : Z -> DemonPriority;
  Demon_Run : Z -> Solver -> list Api;
  Action_Run : Z -> Solver -> list Api;
  Closure_Run : Z -> Solver -> list Api;
  Constraint_Post : Z -> Solver -> list Api;
  Constraint_InitialPropagate : Z -> Solver -> list Api;
  Monitor_hook : Hook -> Z -> Solver -> list Api;
  Monitor_AcceptSolution : Z -> Solver -> list Api * bool;
  Monitor_AtSolution : Z -> Solver -> list Api * bool;
  DecisionBuilder_AppendMonitors : Z -> Solver -> list (option Z) }.

(** ** Results *)

Inductive Res (A : Type) : Type :=
| Done (a : A) (s : Solver)
| Failed (s : Solver)
| Fatal (s : Solver)
| OutOfFuel (s : Solver).
Arguments Done {A}.
Arguments Failed {A}.
Arguments Fatal {A}.
Arguments OutOfFuel {A}.

Definition state_of {A} (r : Res A) : Solver :=
  match r with
  | Done _ s | Failed s | Fatal s | OutOfFuel s => s
  end.

Definition M (A : Type) : Type := Solver -> Res A.

Definition ret {A} (a : A) : M A := Done a.

Definition bind {A B} (m : M A) (k : A -> M B) : M B :=
  fun s =>
    match m s with
    | Done a s' => k a s'
    | Failed s' => Failed s'
    | Fatal s' => Fatal s'
    | OutOfFuel s' => OutOfFuel s'
    end.

Definition get : M Solver := fun s => Done s s.
Definition modify (f : Solver -> Solver) : M unit := fun s => Done tt (f s).
Definition checked (f : Solver -> option Solver) : M unit :=
  fun s => match f s with Some s' => Done tt s' | None => Fatal s end.

Declare Scope res_scope.
Delimit Scope res_scope with res.
Notation "x <- m ;; k" := (bind m (fun x => k))
  (at level 100, m at next level, k at level 200, right associativity)
  : res_scope.
Notation "m ;; k" := (bind m (fun _ => k))
  (at level 100, k at level 200, right associativity) : res_scope.

(** ** Plain steps of the queue and the solver *)

Definition log (e : Event) (s : Solver) : Solver := set_trace (e :: trace s) s.

Definition upd_queue (f : Queue -> Queue) (s : Solver) : Solver :=
  set_queue_ (f (queue_ s)) s.

Definition upd_search (f : Search -> Search) (s : Solver) : Solver :=
  set_search_ (f (search_ s)) s.

Definition container (p : DemonPriority) (s : Solver) : FifoPriorityQueue :=
  pp_get p (containers_ (queue_ s)).

Definition set_container (p : DemonPriority) (c : FifoPriorityQueue)
    (s : Solver) : Solver :=
  upd_queue (fun q => set_containers_ (pp_set p c (containers_ q)) q) s.

Definition pending (p : DemonPriority) (s : Solver) : list Z :=
  first_ (container p s).

(** [Demon::stamp()] and [Demon::set_stamp]. *)
Definition demon_stamp (d : Z) (s : Solver) : Z :=
  read K_uint64 d (memory_ s).

Definition set_demon_stamp (d v : Z) (s : Solver) : Solver :=
  set_memory_ (write K_uint64 d v (memory_ s)) s.

(** [Queue::increase_stamp]: [stamp_++]. *)
Definition increase_stamp (s : Solver) : Solver :=
  log EvStampIncrease
    (upd_queue (fun q => set_stamp_ (wrap64 (stamp_ q + 1)) q) s).

(** [Queue::Freeze]: [freeze_level_++; stamp_++]. *)
Definition Freeze (s : Solver) : Solver :=
  increase_stamp
    (upd_queue (fun q => set_freeze_level_ (wrap32 (freeze_level_ q + 1)) q) s).

Definition set_action_on_fail (a : Z) (s : Solver) : Solver :=
  upd_queue (set_clear_action_ (Some a)) s.

Definition clear_action_on_fail (s : Solver) : Solver :=
  upd_queue (set_clear_action_ None) s.

(** [Solver::PushState(t, info)] (lines 1542-1560). *)
Definition PushState (t : MarkerType) (info : StateInfo) (s : Solver)
    : Solver :=
  let m := new_StateMarker t info in
  let m := if negb (bool_decide (t = REVERSIBLE_ACTION)) || (int_info info =? 0)
           then mark_Trail (trail_ s) m else m in
  increase_stamp
    (upd_search (fun x => set_marker_stack_ (m :: marker_stack_ x) x) s).

(** [Solver::PopState(info)] (lines 1567-1581); [None] when the stack is
    empty or unpacking a block fails. *)
Definition PopState (ext : Extern) (s : Solver)
    : option (MarkerType * StateInfo * Solver) :=
  match marker_stack_ (search_ s) with
  | [] => None
  | m :: rest =>
      '(t, mem) ←
        (if negb (bool_decide (type_ m = REVERSIBLE_ACTION))
            || (int_info (info_ m) =? 0)
         then BacktrackTo ext m (trail_ s) (memory_ s)
         else Some (trail_ s, memory_ s));
      Some (type_ m, info_ m,
            increase_stamp
              (upd_search (set_marker_stack_ rest)
                 (set_memory_ mem (set_trail_ t s))))
  end.

(** [Solver::AddBacktrackAction]. *)
Definition AddBacktrackAction (a : Z) (fast : bool) (s : Solver) : Solver :=
  PushState REVERSIBLE_ACTION (StateInfo_2 a (if fast then 1 else 0)) s.

(** [Solver::check_alloc_state]: fatal at a leaf. *)
Definition check_alloc_state (s : Solver) : bool :=
  negb (bool_decide (state_ s = AT_SOLUTION)).

Definition upd_trail (f : Trail -> Trail) (s : Solver) : Solver :=
  set_trail_ (f (trail_ s)) s.

(** [SafeRevAlloc], [SafeRevAllocArray], [UnsafeRevAllocAux],
    [UnsafeRevAllocArrayAux]: the pointer goes on its list. *)
Definition rev_alloc_push (k : RevAllocKind) (ptr : Z) (t : Trail) : Trail :=
  {| rev_ints_ := rev_ints_ t; rev_int64s_ := rev_int64s_ t;
     rev_uint64s_ := rev_uint64s_ t; rev_ptrs_ := rev_ptrs_ t;
     rev_boolvar_list_ := rev_boolvar_list_ t;
     rev_bools_ := rev_bools_ t; rev_bool_value_ := rev_bool_value_ t;
     rev_int_memory_ :=
       match k with RA_int_array => rev_int_memory_ t ++ [ptr]
                  | _ => rev_int_memory_ t end;
     rev_int64_memory_ :=
       match k with RA_int64_array => rev_int64_memory_ t ++ [ptr]
                  | _ => rev_int64_memory_ t end;
     rev_object_memory_ :=
       match k with RA_object => rev_object_memory_ t ++ [ptr]
                  | _ => rev_object_memory_ t end;
     rev_object_array_memory_ :=
       match k with RA_object_array => rev_object_array_memory_ t ++ [ptr]
                  | _ => rev_object_array_memory_ t end;
     rev_memory_ :=
       match k with RA_memory => rev_memory_ t ++ [ptr]
                  | _ => rev_memory_ t end;
     rev_memory_array_ :=
       match k with RA_memory_array => rev_memory_array_ t ++ [ptr]
                  | _ => rev_memory_array_ t end |}.

Definition RevAlloc (k : RevAllocKind) (ptr : Z) (s : Solver)
    : option Solver :=
  if check_alloc_state s then Some (upd_trail (rev_alloc_push k ptr) s)
  else None.

(** [InternalSaveBooleanVarValue]. *)
Definition SaveBooleanVarValue (var : Z) (s : Solver) : Solver :=
  upd_trail (fun t =>
    {| rev_ints_ := rev_ints_ t; rev_int64s_ := rev_int64s_ t;
       rev_uint64s_ := rev_uint64s_ t; rev_ptrs_ := rev_ptrs_ t;
       rev_boolvar_list_ := rev_boolvar_list_ t ++ [var];
       rev_bools_ := rev_bools_ t; rev_bool_value_ := rev_bool_value_ t;
       rev_int_memory_ := rev_int_memory_ t;
       rev_int64_memory_ := rev_int64_memory_ t;
       rev_object_memory_ := rev_object_memory_ t;
       rev_object_array_memory_ := rev_object_array_memory_ t;
       rev_memory_ := rev_memory_ t;
       rev_memory_array_ := rev_memory_array_ t |}) s.

Definition SaveValue (ext : Extern) (k : Kind) (valptr : Z) (s : Solver)
    : option Solver :=
  t ← InternalSaveValue ext k valptr (trail_ s) (memory_ s);
  Some (set_trail_ t s).

Definition SaveValueBool (valptr : Z) (s : Solver) : Solver :=
  set_trail_ (InternalSaveValue_bool valptr (trail_ s) (memory_ s)) s.

(** Modelled from the spec: [SaveAndSetValue] is declared in the header,
    which is not part of the sources at hand; the specification gives the
    idiom as "save(&field); field = new_value". *)
Definition SaveAndSetValue (ext : Extern) (k : Kind) (adr val : Z)
    (s : Solver) : option Solver :=
  s' ← SaveValue ext k adr s;
  Some (set_memory_ (write k adr val (memory_ s')) s').

(** [Demon::inhibit] and [Demon::desinhibit] (lines 117-127). *)
Definition inhibit (ext : Extern) (d : Z) (s : Solver) : option Solver :=
  if demon_stamp d s <? kuint64max
  then SaveAndSetValue ext K_uint64 d kuint64max s
  else Some s.

Definition desinhibit (ext : Extern) (d : Z) (s : Solver) : option Solver :=
  if demon_stamp d s =? kuint64max
  then SaveAndSetValue ext K_uint64 d (wrap64 (stamp_ (queue_ s) - 1)) s
  else Some s.

(** [Search::push_monitor]; the monitor is not [NULL]. *)
Definition push_monitor (m : Z) (s : Solver) : Solver :=
  upd_search (fun x => set_monitors_ (monitors_ x ++ [m]) x) s.

(** [Solver::SolveDepth]. *)
Definition SolveDepth (s : Solver) : Z :=
  if bool_decide (state_ s = OUTSIDE_SEARCH) then 0
  else vec_size (parent_searches_ s).

(** [Solver::AddConstraint] outside search (lines 1653-1667): while the
    root node is propagated the constraint goes on the additional list
    with the index of its parent, else on the list of the model.  [None]:
    the parent list is read out of its bounds. *)
Definition AddConstraint_root (c : Constraint) (s : Solver) : option Solver :=
  constraint_parent ←
    (if constraint_index_ s =? vec_size (constraints_list_ s)
     then if additional_constraint_index_ s <? 0 then None
          else additional_constraints_parent_list_ s
                 !! Z.to_nat (additional_constraint_index_ s)
     else Some (constraint_index_ s));
  Some (set_additional_constraints_parent_list_
          (additional_constraints_parent_list_ s ++ [constraint_parent])
          (set_additional_constraints_list_
             (additional_constraints_list_ s ++ [c]) s)).

Definition AddConstraint_model (c : Constraint) (s : Solver) : Solver :=
  set_constraints_list_ (constraints_list_ s ++ [c]) s.

(** The steps of [Queue::ProcessOneDemon] before [demon->Run]: the stamp
    of the demon becomes [stamp_ - 1], the run is counted. *)
Definition dispatch (prio : DemonPriority) (d : Z) (rest : FifoPriorityQueue)
    (s : Solver) : Solver :=
  let s1 := set_container prio rest s in
  let s2 := set_demon_stamp d (wrap64 (stamp_ (queue_ s1) - 1)) s1 in
  let s3 := set_demon_runs_
              (pp_set prio (pp_get prio (demon_runs_ s2) + 1) (demon_runs_ s2))
              s2 in
  log (EvDemonRun prio d (pending NORMAL_PRIORITY s3)
         (pending VAR_PRIORITY s3)) s3.

(** The steps of [Queue::Enqueue] once the stamp test has passed. *)
Definition enqueue (client : Client) (d : Z) (s : Solver) : Solver :=
  let s1 := set_demon_stamp d (stamp_ (queue_ s)) s in
  let p := priority client d in
  log (EvEnqueue d) (set_container p (Fifo_Enqueue d (container p s1)) s1).

(** Modelled from the spec: [MakeFalseConstraint] is not among the
    sources; the specification calls what it makes a "false" constraint,
    one that the next propagation of the model finds infeasible: posting
    it does nothing, propagating it fails. *)
Definition FalseConstraint_InitialPropagate : list Api := [ApiFail].

(** [Constraint::Post] and [Constraint::InitialPropagate]. *)
Definition Post (client : Client) (c : Constraint) (s : Solver) : list Api :=
  match c with
  | UserConstraint u => Constraint_Post client u s
  | FalseConstraint => []
  end.

Definition InitialPropagate (client : Client) (c : Constraint) (s : Solver)
    : list Api :=
  match c with
  | UserConstraint u => Constraint_InitialPropagate client u s
  | FalseConstraint => FalseConstraint_InitialPropagate
  end.

(** ** The interpreter of propagation

    Every procedure that can call client code, or be called by it, is a
    command; [exec] runs one.  Each call takes one unit of fuel. *)
Inductive Cmd :=
| CScript (sc : list Api)
| CApi (a : Api)
| CEnqueue (d : Z)
| CUnfreeze
| CProcessIfUnfrozen
| CProcess
| CProcess_while_any
| CProcess_while_var_or_normal
| CProcessNormalDemons
| CProcessOneDemon (prio : DemonPriority)
| CSolverAddConstraint (c : Constraint)
| CQueueAddConstraint (c : Constraint)
| CQueueProcessConstraints
| CQueueProcessConstraints_for (counter : nat)
| CPostAndPropagate (c : Constraint)
| CFail
| CSearchHook (h : Hook) (i : nat)
| CJumpBack.

Local Open Scope res_scope.

Fixpoint exec (ext : Extern) (client : Client) (fuel : nat) (c : Cmd)
    {struct fuel} : M unit :=
  match fuel with
  | O => OutOfFuel
  | S f =>
    let run := exec ext client f in
    match c with
    | CScript [] => ret tt
    | CScript (a :: rest) => run (CApi a) ;; run (CScript rest)
    | CApi a =>
        match a with
        | ApiEnqueue d => run (CEnqueue d)
        | ApiFreezeQueue => modify Freeze
        | ApiUnfreezeQueue => run CUnfreeze
        | ApiProcessDemonsOnQueue => run CProcessNormalDemons
        | ApiSetQueueActionOnFail a => modify (set_action_on_fail a)
        | ApiClearQueueActionOnFail => modify clear_action_on_fail
        | ApiAddConstraint c => run (CSolverAddConstraint c)
        | ApiPushState => modify (PushState SIMPLE_MARKER StateInfo_default)
        | ApiPopState =>
            (* Solver::PopState(): CHECK_EQ(SIMPLE_MARKER, t) *)
            fun s =>
              match PopState ext s with
              | Some (SIMPLE_MARKER, _, s') => Done tt s'
              | Some (_, _, s') => Fatal s'
              | None => Fatal s
              end
        | ApiAddBacktrackAction a fast => modify (AddBacktrackAction a fast)
        | ApiSaveValue k valptr => checked (SaveValue ext k valptr)
        | ApiSaveValueBool valptr => modify (SaveValueBool valptr)
        | ApiSaveBooleanVarValue var => modify (SaveBooleanVarValue var)
        | ApiRevAlloc k ptr => checked (RevAlloc k ptr)
        | ApiWrite k a v =>
            modify (fun s => set_memory_ (write k a v (memory_ s)) s)
        | ApiWriteBool a v =>
            modify (fun s => set_memory_ (write_bool a v (memory_ s)) s)
        | ApiInhibit d => checked (inhibit ext d)
        | ApiDesinhibit d => checked (desinhibit ext d)
        | ApiFail => run CFail
        | ApiInstall m => modify (push_monitor m)
        | ApiFinishCurrentSearch =>
            modify (upd_search (set_should_finish_ true))
        | ApiRestartCurrentSearch =>
            modify (upd_search (set_should_restart_ true))
        end
    | CEnqueue d =>
        (* Queue::Enqueue *)
        s <- get ;;
        if demon_stamp d s <? stamp_ (queue_ s)
        then modify (enqueue client d) ;; run CProcessIfUnfrozen
        else ret tt
    | CUnfreeze =>
        (* Queue::Unfreeze *)
        modify (upd_queue (fun q =>
                  set_freeze_level_ (wrap32 (freeze_level_ q - 1)) q)) ;;
        run CProcessIfUnfrozen
    | CProcessIfUnfrozen =>
        s <- get ;;
        if freeze_level_ (queue_ s) =? 0 then run CProcess else ret tt
    | CProcess =>
        s <- get ;;
        if in_process_ (queue_ s) then ret tt
        else
          modify (upd_queue (set_in_process_ true)) ;;
          run CProcess_while_any ;;
          modify (upd_queue (set_in_process_ false))
    | CProcess_while_any =>
        s <- get ;;
        if negb (Fifo_Empty (container VAR_PRIORITY s))
           || negb (Fifo_Empty (container NORMAL_PRIORITY s))
           || negb (Fifo_Empty (container DELAYED_PRIORITY s))
        then
          run CProcess_while_var_or_normal ;;
          run (CProcessOneDemon DELAYED_PRIORITY) ;;
          run CProcess_while_any
        else ret tt
    | CProcess_while_var_or_normal =>
        s <- get ;;
        if negb (Fifo_Empty (container VAR_PRIORITY s))
           || negb (Fifo_Empty (container NORMAL_PRIORITY s))
        then
          (* the innermost loop is the loop of ProcessNormalDemons *)
          run CProcessNormalDemons ;;
          run (CProcessOneDemon VAR_PRIORITY) ;;
          run CProcess_while_var_or_normal
        else ret tt
    | CProcessNormalDemons =>
        s <- get ;;
        if negb (Fifo_Empty (container NORMAL_PRIORITY s))
        then
          run (CProcessOneDemon NORMAL_PRIORITY) ;;
          run CProcessNormalDemons
        else ret tt
    | CProcessOneDemon prio =>
        s <- get ;;
        match Fifo_NextDemon (container prio s) with
        | (Some demon, rest) =>
            modify (dispatch prio demon rest) ;;
            s' <- get ;;
            run (CScript (Demon_Run client demon s'))
        | (None, _) => ret tt
        end
    | CSolverAddConstraint c =>
        s <- get ;;
        match state_ s with
        | IN_SEARCH => run (CQueueAddConstraint c)
        | IN_ROOT_NODE => checked (AddConstraint_root c)
        | _ => modify (AddConstraint_model c)
        end
    | CQueueAddConstraint c =>
        modify (upd_queue (fun q => set_to_add_ (to_add_ q ++ [c]) q)) ;;
        run CQueueProcessConstraints
    | CQueueProcessConstraints =>
        s <- get ;;
        if in_add_ (queue_ s) then ret tt
        else
          modify (upd_queue (set_in_add_ true)) ;;
          run (CQueueProcessConstraints_for 0) ;;
          modify (upd_queue (fun q => set_to_add_ [] (set_in_add_ false q)))
    | CQueueProcessConstraints_for counter =>
        s <- get ;;
        match to_add_ (queue_ s) !! counter with
        | Some constraint =>
            run (CPostAndPropagate constraint) ;;
            run (CQueueProcessConstraints_for (S counter))
        | None => ret tt
        end
    | CPostAndPropagate c =>
        (* Constraint::PostAndPropagate (lines 3229-3234) *)
        modify Freeze ;;
        s <- get ;;
        run (CScript (Post client c s)) ;;
        s' <- get ;;
        run (CScript (InitialPropagate client c s')) ;;
        run CUnfreeze
    | CFail =>
        (* Solver::Fail (lines 2465-2474) *)
        s <- get ;;
        match fail_intercept_ s with
        | Some intercept => run (CScript (Closure_Run client intercept s))
        | None =>
            modify (fun s => set_fails_ (fails_ s + 1) s) ;;
            run (CSearchHook HBeginFail 0) ;;
            run CJumpBack
        end
    | CSearchHook h i =>
        (* the loop over monitors_ of Search::BeginFail and the like *)
        s <- get ;;
        match monitors_ (search_ s) !! i with
        | Some m =>
            modify (log (EvHook h m)) ;;
            s' <- get ;;
            run (CScript (Monitor_hook client h m s')) ;;
            run (CSearchHook h (S i))
        | None => ret tt
        end
    | CJumpBack =>
        (* Search::JumpBack (lines 988-996) *)
        s <- get ;;
        if jmpbuf_filled_ (search_ s)
        then fun s => Failed (upd_search (set_jmpbuf_filled_ false) s)
        else run (CSolverAddConstraint FalseConstraint)
    end
  end.


(** ** Failure, sentinels and the top of the search (lines 1991-2294) *)

Definition INITIAL_SEARCH_SENTINEL : Z := 10000000.
Definition ROOT_NODE_SENTINEL : Z := 20000000.
Definition SOLVER_CTOR_SENTINEL : Z := 40000000.

(** The address of the solver, which its sentinels carry. *)
Definition Solver_this : Z := 1.

Definition abort {A} : M A := Fatal.

(** [Queue::AfterFailure] (lines 310-322). *)
Definition discard_pending (s : Solver) : Solver :=
  upd_queue (fun q =>
    set_containers_
      (mk_PerPriority (Fifo_AfterFailure (at_DELAYED (containers_ q)))
                      (Fifo_AfterFailure (at_VAR (containers_ q)))
                      (Fifo_AfterFailure (at_NORMAL (containers_ q)))) q) s.

Definition quiesce (s : Solver) : Solver :=
  upd_queue (fun q =>
    set_to_add_ [] (set_in_add_ false (set_in_process_ false
      (set_freeze_level_ 0 q)))) s.

Definition AfterFailure (ext : Extern) (client : Client) (fuel : nat)
    : M unit :=
  modify discard_pending ;;
  s <- get ;;
  match clear_action_ (queue_ s) with
  | Some a =>
      modify (log (EvOnFailureAction a)) ;;
      s' <- get ;;
      exec ext client fuel (CScript (Action_Run client a s')) ;;
      modify clear_action_on_fail
  | None => ret tt
  end ;;
  modify quiesce.

(** [Solver::PushSentinel]. *)
Definition PushSentinel (magic_code : Z) (s : Solver) : Solver :=
  let s1 := PushState SENTINEL (StateInfo_2 Solver_this magic_code) s in
  if magic_code =? SOLVER_CTOR_SENTINEL then s1
  else upd_search (fun x => set_sentinel_pushed_ (sentinel_pushed_ x + 1) x) s1.

(** [Solver::BacktrackToSentinel]: the loop, one marker a turn. *)
Fixpoint BacktrackToSentinel_while (ext : Extern) (client : Client)
    (fuel : nat) (magic_code : Z) {struct fuel} : M unit :=
  match fuel with
  | O => OutOfFuel
  | S f =>
      fun s =>
      match PopState ext s with
      | None => Fatal s
      | Some (SENTINEL, info, s1) =>
          if negb (ptr_info info =? Solver_this) then Fatal s1
          else
            let s2 := upd_search (fun x =>
                        set_sentinel_pushed_ (sentinel_pushed_ x - 1) x) s1 in
            if sentinel_pushed_ (search_ s2) <? 0 then Fatal s2
            else
              let s3 := upd_search (fun x =>
                          set_left_search_depth_ 0 (set_search_depth_ 0 x))
                          s2 in
              if int_info info =? magic_code then Done tt s3
              else BacktrackToSentinel_while ext client f magic_code s3
      | Some (SIMPLE_MARKER, _, s1) | Some (CHOICE_POINT, _, s1) =>
          BacktrackToSentinel_while ext client f magic_code s1
      | Some (REVERSIBLE_ACTION, info, s1) =>
          (modify (log (EvActionRun (ptr_info info))) ;;
           s' <- get ;;
           exec ext client f (CScript (Action_Run client (ptr_info info) s')) ;;
           BacktrackToSentinel_while ext client f magic_code) s1
      end
  end.

Definition BacktrackToSentinel (ext : Extern) (client : Client) (fuel : nat)
    (magic_code : Z) : M unit :=
  s <- get ;;
  (if sentinel_pushed_ (search_ s) =? 0 then ret tt
   else BacktrackToSentinel_while ext client fuel magic_code) ;;
  modify (fun s => set_fail_stamp_ (wrap64 (fail_stamp_ s + 1)) s).

(** [Solver::ProcessConstraints] (lines 1705-1765), the command-line flags
    at their defaults; the calls to the propagation monitor around each
    constraint are left out. *)
Fixpoint ProcessConstraints_for (ext : Extern) (client : Client) (fuel : nat)
    (n : nat) : M unit :=
  match n with
  | O => ret tt
  | S n' =>
      s <- get ;;
      match constraints_list_ s !! Z.to_nat (constraint_index_ s) with
      | Some constraint =>
          exec ext client fuel (CPostAndPropagate constraint) ;;
          modify (fun s => set_constraint_index_ (constraint_index_ s + 1) s) ;;
          ProcessConstraints_for ext client fuel n'
      | None => abort
      end
  end.

Fixpoint ProcessConstraints_nested (ext : Extern) (client : Client)
    (fuel : nat) (index : nat) {struct fuel} : M unit :=
  match fuel with
  | O => OutOfFuel
  | S f =>
      s <- get ;;
      match additional_constraints_list_ s !! index with
      | Some nested =>
          exec ext client f (CPostAndPropagate nested) ;;
          ProcessConstraints_nested ext client f (S index)
      | None => ret tt
      end
  end.

Definition ProcessConstraints (ext : Extern) (client : Client) (fuel : nat)
    : M unit :=
  s <- get ;;
  let constraints_size := length (constraints_list_ s) in
  modify (fun s => set_constraint_index_ 0
            (set_additional_constraints_parent_list_ []
               (set_additional_constraints_list_ [] s))) ;;
  ProcessConstraints_for ext client fuel constraints_size ;;
  s' <- get ;;
  (if bool_decide (length (constraints_list_ s') = constraints_size)
   then ret tt else abort) ;;
  ProcessConstraints_nested ext client fuel 0.

(** [Search::EnterSearch] and the hooks without a result. *)
Definition Search_hook (ext : Extern) (client : Client) (fuel : nat)
    (h : Hook) : M unit :=
  exec ext client fuel (CSearchHook h 0).

Definition EnterSearch (ext : Extern) (client : Client) (fuel : nat)
    : M unit :=
  modify (upd_search (set_solution_counter_ 0)) ;;
  Search_hook ext client fuel HEnterSearch.

(** [Search::Clear]. *)
Definition Search_Clear (x : Search) : Search :=
  set_selector_ None (set_left_search_depth_ 0 (set_search_depth_ 0
    (set_monitors_ [] x))).

(** [Search::ClearBuffer]. *)
Definition ClearBuffer : M unit :=
  s <- get ;;
  if jmpbuf_filled_ (search_ s)
  then modify (upd_search (set_jmpbuf_filled_ false))
  else abort.

(** [monitor->Install()] for each monitor that is not [NULL]
    ([SearchMonitor::Install], lines 2937-2939). *)
Definition Install_all (ms : list (option Z)) (s : Solver) : Solver :=
  foldl (fun s m => match m with Some m => push_monitor m s | None => s end)
    s ms.

(** [Solver::NewSearch] (lines 1883-1942), the trace flags off. *)
Definition NewSearch (ext : Extern) (client : Client) (fuel : nat)
    (db : option Z) (monitors : list (option Z)) : M unit :=
  s <- get ;;
  match db with
  | None => abort
  | Some db =>
      if bool_decide (state_ s = IN_SEARCH)
         || bool_decide (state_ s = IN_ROOT_NODE)
      then abort
      else
        modify (upd_search (set_created_by_solve_ false)) ;;
        BacktrackToSentinel ext client fuel INITIAL_SEARCH_SENTINEL ;;
        modify (set_state_ OUTSIDE_SEARCH) ;;
        modify (fun s => push_monitor (propagation_monitor_ s) s) ;;
        modify (fun s => Install_all [demon_profiler_ s] s) ;;
        modify (Install_all monitors) ;;
        modify (fun s =>
                  Install_all (DecisionBuilder_AppendMonitors client db s) s) ;;
        modify (set_print_trace_ None) ;;
        EnterSearch ext client fuel ;;
        modify (PushSentinel INITIAL_SEARCH_SENTINEL) ;;
        modify (upd_search (set_decision_builder_ (Some db)))
  end.

(** What [NextSolution] does beyond the root node is not embedded: the
    exploration of the tree (lines 2167-2281), given the decision to
    refute if there is one, and [BacktrackOneLevel] (lines 1946-1989),
    which tells whether the tree is exhausted and which decision to
    refute.  They are taken as they come. *)
Record TreeSearch := mk_TreeSearch {
  BacktrackOneLevel : nat -> M (bool * option Z);
  explore : nat -> option Z -> M bool }.

(** The protected region [CP_TRY] ... [CP_ON_FAIL]: the buffer must not be
    armed, is armed, and a failure in the body lands in the handler. *)
Definition CP_TRY {A} (body : M A) (on_fail : M A) : M A :=
  fun s =>
    if jmpbuf_filled_ (search_ s) then Fatal s
    else
      match body (upd_search (set_jmpbuf_filled_ true) s) with
      | Failed s' => on_fail s'
      | r => r
      end.

(** The two blocks of the root node in [Solver::NextSolution] (lines
    2146-2157): what [CP_TRY] protects and what [CP_ON_FAIL] does. *)
Definition root_node_try (ext : Extern) (client : Client) (fuel : nat)
    : M bool :=
  ProcessConstraints ext client fuel ;;
  Search_hook ext client fuel HEndInitialPropagation ;;
  modify (PushSentinel ROOT_NODE_SENTINEL) ;;
  modify (set_state_ IN_SEARCH) ;;
  ClearBuffer ;;
  ret true.

Definition root_node_on_fail (ext : Extern) (client : Client) (fuel : nat)
    : M bool :=
  AfterFailure ext client fuel ;;
  BacktrackToSentinel ext client fuel INITIAL_SEARCH_SENTINEL ;;
  modify (set_state_ PROBLEM_INFEASIBLE) ;;
  ret false.

(** [Solver::NextSolution], lines 2117-2165, then the tree search. *)
Definition NextSolution (ext : Extern) (client : Client) (tree : TreeSearch)
    (fuel : nat) : M bool :=
  s <- get ;;
  let solve_depth := SolveDepth s in
  let top_level := solve_depth <=? 1 in
  if (solve_depth =? 0)
     && bool_decide (decision_builder_ (search_ s) = None)
  then ret false
  else if top_level then
    match state_ s with
    | PROBLEM_INFEASIBLE => ret false
    | NO_MORE_SOLUTIONS => ret false
    | AT_SOLUTION =>
        r <- BacktrackOneLevel tree fuel ;;
        if r.1 then modify (set_state_ NO_MORE_SOLUTIONS) ;; ret false
        else modify (set_state_ IN_SEARCH) ;; explore tree fuel r.2
    | OUTSIDE_SEARCH =>
        modify (set_state_ IN_ROOT_NODE) ;;
        Search_hook ext client fuel HBeginInitialPropagation ;;
        continue <-
          CP_TRY (root_node_try ext client fuel)
            (root_node_on_fail ext client fuel) ;;
        if continue then explore tree fuel None else ret false
    | IN_SEARCH => explore tree fuel None
    | IN_ROOT_NODE => abort
    end
  else explore tree fuel None.

(** [Solver::EndSearch] (the profile is not exported). *)
Definition EndSearch (ext : Extern) (client : Client) (fuel : nat) : M unit :=
  s <- get ;;
  if bool_decide (length (parent_searches_ s) = 1%nat) then
    BacktrackToSentinel ext client fuel INITIAL_SEARCH_SENTINEL ;;
    Search_hook ext client fuel HExitSearch ;;
    modify (upd_search Search_Clear) ;;
    modify (set_state_ OUTSIDE_SEARCH)
  else abort.

(** [Solver::Solve] (lines 1821-1830). *)
Definition Solve (ext : Extern) (client : Client) (tree : TreeSearch)
    (fuel : nat) (db : option Z) (monitors : list (option Z)) : M bool :=
  NewSearch ext client fuel db monitors ;;
  modify (upd_search (set_created_by_solve_ true)) ;;
  _ <- NextSolution ext client tree fuel ;;
  s <- get ;;
  let solution_found := 0 <? solution_counter_ (search_ s) in
  EndSearch ext client fuel ;;
  ret solution_found.

(** [Search::AcceptSolution] and [Search::AtSolution] (lines 1201-1229):
    the loop over [monitors_], no early exit. *)
Fixpoint AcceptSolution_for (ext : Extern) (client : Client) (fuel : nat)
    (i : nat) (valid : bool) {struct fuel} : M bool :=
  match fuel with
  | O => OutOfFuel
  | S f =>
      s <- get ;;
      match monitors_ (search_ s) !! i with
      | Some m =>
          let call := Monitor_AcceptSolution client m s in
          modify (log (EvAcceptSolution m call.2)) ;;
          exec ext client f (CScript call.1) ;;
          AcceptSolution_for ext client f (S i)
            (if negb call.2 then false else valid)
      | None => ret valid
      end
  end.

Definition Search_AcceptSolution (ext : Extern) (client : Client)
    (fuel : nat) : M bool :=
  AcceptSolution_for ext client fuel 0 true.

Fixpoint AtSolution_for (ext : Extern) (client : Client) (fuel : nat)
    (i : nat) (should_continue : bool) {struct fuel} : M bool :=
  match fuel with
  | O => OutOfFuel
  | S f =>
      s <- get ;;
      match monitors_ (search_ s) !! i with
      | Some m =>
          let call := Monitor_AtSolution client m s in
          modify (log (EvAtSolution m call.2)) ;;
          exec ext client f (CScript call.1) ;;
          AtSolution_for ext client f (S i)
            (if call.2 then true else should_continue)
      | None => ret should_continue
      end
  end.

Definition Search_AtSolution (ext : Extern) (client : Client)
    (fuel : nat) : M bool :=
  AtSolution_for ext client fuel 0 false.

(** The solver as its constructor and [Init] leave it (lines 1364-1446):
    the dummy search, the first search, and on it the constructor's
    sentinel.  (What [Init] caches and builds besides is outside these
    sources.) *)
Definition new_Solver (trail_block_size : Z)
    (compress_trail : TrailCompression) (tracer : Z) (profiler : option Z)
    : Solver :=
  PushSentinel SOLVER_CTOR_SENTINEL
    {| queue_ := new_Queue;
       trail_ := new_Trail trail_block_size compress_trail;
       memory_ := empty_Memory;
       state_ := OUTSIDE_SEARCH;
       branches_ := 0; fails_ := 0; decisions_ := 0;
       demon_runs_ := mk_PerPriority 0 0 0;
       search_ := new_Search;
       parent_searches_ := [new_dummy_Search];
       fail_stamp_ := 1;
       fail_intercept_ := None;
       constraints_list_ := [];
       additional_constraints_list_ := [];
       additional_constraints_parent_list_ := [];
       constraint_index_ := 0;
       additional_constraint_index_ := 0;
       propagation_monitor_ := tracer;
       demon_profiler_ := profiler;
       print_trace_ := None;
       trace := [] |}.

Local Close Scope res_scope.


(** Where [Queue::Process] and [ProcessNormalDemons] call
    [ProcessOneDemon]: for VAR the loop over the NORMAL queue has just
    ended, for DELAYED the loop over VAR and NORMAL has. *)
Definition dispatch_guard (prio : DemonPriority) (s : Solver) : Prop :=
  match prio with
  | NORMAL_PRIORITY => True
  | VAR_PRIORITY => pending NORMAL_PRIORITY s = []
  | DELAYED_PRIORITY =>
      pending NORMAL_PRIORITY s = [] /\ pending VAR_PRIORITY s = []
  end.

Definition cmd_pre (c : Cmd) (s : Solver) : Prop :=
  match c with
  | CProcessOneDemon prio => dispatch_guard prio s
  | _ => True
  end.

Definition cmd_post (c : Cmd) (s' : Solver) : Prop :=
  match c with
  | CProcessNormalDemons => pending NORMAL_PRIORITY s' = []
  | CProcess_while_var_or_normal =>
      pending NORMAL_PRIORITY s' = [] /\ pending VAR_PRIORITY s' = []
  | _ => True
  end.

(** ** The single steps of [exec]

    Every change of the state that [exec] makes is one of these; what all
    of them keep, every run keeps. *)
Inductive step (ext : Extern) (client : Client) : Solver -> Solver -> Prop :=
| step_Freeze s : step ext client s (Freeze s)
| step_set_action_on_fail a s : step ext client s (set_action_on_fail a s)
| step_clear_action_on_fail s : step ext client s (clear_action_on_fail s)
| step_PushState t info s :
    t <> SENTINEL -> step ext client s (PushState t info s)
| step_PopState s t info s' :
    PopState ext s = Some (t, info, s') -> step ext client s s'
| step_SaveValue k valptr s s' :
    SaveValue ext k valptr s = Some s' -> step ext client s s'
| step_SaveValueBool valptr s : step ext client s (SaveValueBool valptr s)
| step_SaveBooleanVarValue var s :
    step ext client s (SaveBooleanVarValue var s)
| step_RevAlloc k ptr s s' :
    RevAlloc k ptr s = Some s' -> step ext client s s'
| step_write k a v s :
    step ext client s (set_memory_ (write k a v (memory_ s)) s)
| step_write_bool a v s :
    step ext client s (set_memory_ (write_bool a v (memory_ s)) s)
| step_inhibit d s s' : inhibit ext d s = Some s' -> step ext client s s'
| step_desinhibit d s s' :
    desinhibit ext d s = Some s' -> step ext client s s'
| step_push_monitor m s : step ext client s (push_monitor m s)
| step_should_finish s :
    step ext client s (upd_search (set_should_finish_ true) s)
| step_should_restart s :
    step ext client s (upd_search (set_should_restart_ true) s)
| step_enqueue d s :
    demon_stamp d s < stamp_ (queue_ s) ->
    step ext client s (enqueue client d s)
| step_unfreeze s :
    step ext client s
      (upd_queue (fun q => set_freeze_level_ (wrap32 (freeze_level_ q - 1)) q)
         s)
| step_in_process b s :
    step ext client s (upd_queue (set_in_process_ b) s)
| step_dispatch prio d rest s :
    Fifo_NextDemon (container prio s) = (Some d, rest) ->
    dispatch_guard prio s ->
    step ext client s (dispatch prio d rest s)
| step_AddConstraint_root c s s' :
    state_ s = IN_ROOT_NODE -> AddConstraint_root c s = Some s' ->
    step ext client s s'
| step_AddConstraint_model c s :
    state_ s <> IN_SEARCH -> state_ s <> IN_ROOT_NODE ->
    step ext client s (AddConstraint_model c s)
| step_to_add c s :
    step ext client s
      (upd_queue (fun q => set_to_add_ (to_add_ q ++ [c]) q) s)
| step_in_add s : step ext client s (upd_queue (set_in_add_ true) s)
| step_to_add_clear s :
    step ext client s
      (upd_queue (fun q => set_to_add_ [] (set_in_add_ false q)) s)
| step_fails s : step ext client s (set_fails_ (fails_ s + 1) s)
| step_hook h m s : step ext client s (log (EvHook h m) s)
| step_jump s :
    jmpbuf_filled_ (search_ s) = true ->
    step ext client s (upd_search (set_jmpbuf_filled_ false) s).


(** The run goes by steps, and if it returns, [P] holds. *)
Definition good (ext : Extern) (client : Client) {A} (s : Solver) (r : Res A)
    (P : Solver -> Prop) : Prop :=
  rtc (step ext client) s (state_of r) /\
  match r with Done _ s' => P s' | _ => True end.

(** ** Reading the record of events *)

(** The events that propagation itself gives rise to. *)
Definition propagation_event (e : Event) : Prop :=
  match e with
  | EvEnqueue _ | EvDemonRun _ _ _ _ | EvStampIncrease | EvHook _ _ => True
  | _ => False
  end.

(** The demons enqueued with priority [p], and those dispatched from the
    queue of priority [p], in the order of time (the oldest first), out
    of a record that has the newest first. *)
Fixpoint enqueued (client : Client) (p : DemonPriority) (t : list Event)
    : list Z :=
  match t with
  | [] => []
  | e :: t' =>
      enqueued client p t' ++
      match e with
      | EvEnqueue d => if decide (priority client d = p) then [d] else []
      | _ => []
      end
  end.

Fixpoint dispatched (p : DemonPriority) (t : list Event) : list Z :=
  match t with
  | [] => []
  | e :: t' =>
      dispatched p t' ++
      match e with
      | EvDemonRun prio d _ _ => if decide (prio = p) then [d] else []
      | _ => []
      end
  end.

Fixpoint stamp_increases (t : list Event) : Z :=
  match t with
  | [] => 0
  | EvStampIncrease :: t' => stamp_increases t' + 1
  | _ :: t' => stamp_increases t'
  end.

(** The rule of priorities, read off a demon run: the demon has the
    priority of the queue it came from, a VAR demon runs with nothing
    pending in the NORMAL queue, a DELAYED demon with nothing pending in
    the NORMAL and VAR queues. *)
Definition dispatch_ok (client : Client) (e : Event) : Prop :=
  match e with
  | EvDemonRun prio d normal_pending var_pending =>
      priority client d = prio /\
      match prio with
      | DELAYED_PRIORITY => normal_pending = [] /\ var_pending = []
      | VAR_PRIORITY => normal_pending = []
      | NORMAL_PRIORITY => True
      end
  | _ => True
  end.

(** Every pending demon sits in the queue of its priority. *)
Definition wf_pending (client : Client) (s : Solver) : Prop :=
  forall p d, d ∈ pending p s -> priority client d = p.

Definition stamp_in_range (s : Solver) : Prop :=
  0 <= stamp_ (queue_ s) < 2 ^ 64.

(** What a run of propagation from [s] to [s'] with the new events [t]
    keeps and how it changes the rest. *)
Record run_rel (client : Client) (s s' : Solver) (t : list Event) : Prop := {
  rr_trace : trace s' = t ++ trace s;
  rr_events : Forall propagation_event t;
  rr_fifo : forall p,
    pending p s ++ enqueued client p t = dispatched p t ++ pending p s';
  rr_stamp : wrap64 (stamp_ (queue_ s'))
             = wrap64 (stamp_ (queue_ s) + stamp_increases t);
  rr_state : state_ s' = state_ s;
  rr_parents : parent_searches_ s' = parent_searches_ s;
  rr_counter : solution_counter_ (search_ s') = solution_counter_ (search_ s);
  rr_db : decision_builder_ (search_ s') = decision_builder_ (search_ s);
  rr_created : created_by_solve_ (search_ s') = created_by_solve_ (search_ s);
  rr_sentinel : sentinel_pushed_ (search_ s') = sentinel_pushed_ (search_ s);
  rr_monitors : monitors_ (search_ s) `prefix_of` monitors_ (search_ s');
  rr_intercept : fail_intercept_ s' = fail_intercept_ s;
  rr_cindex : constraint_index_ s' = constraint_index_ s;
  rr_acindex : additional_constraint_index_ s' = additional_constraint_index_ s;
  rr_clist : constraints_list_ s `prefix_of` constraints_list_ s';
  rr_clist_root : state_ s = IN_ROOT_NODE ->
                  constraints_list_ s' = constraints_list_ s;
  rr_wf : wf_pending client s -> wf_pending client s';
  rr_dispatch : wf_pending client s -> Forall (dispatch_ok client) t }.

(** ** Predicates on states, records of events and runs *)

(** A marker whose recorded sizes are sizes: none is negative. *)
Definition marker_wf (m : StateMarker) : Prop :=
  0 <= rev_int_index_ m /\ 0 <= rev_int64_index_ m /\
  0 <= rev_uint64_index_ m /\ 0 <= rev_ptr_index_ m /\
  0 <= rev_bools_index_ m.

(** The test of [Queue::Enqueue], [demon->stamp() < stamp_]: the demon
    would be put on its queue. *)
Definition eligible (d : Z) (s : Solver) : Prop :=
  demon_stamp d s < stamp_ (queue_ s).

(** The queue at rest: not frozen, not processing, not adding, nothing
    waiting to be added, no action to run on failure. *)
Definition quiescent (s : Solver) : Prop :=
  freeze_level_ (queue_ s) = 0 /\ in_process_ (queue_ s) = false /\
  in_add_ (queue_ s) = false /\ to_add_ (queue_ s) = [] /\
  clear_action_ (queue_ s) = None.

(** The on-failure actions that were run, the oldest first. *)
Fixpoint on_failure_runs (t : list Event) : list Z :=
  match t with
  | [] => []
  | e :: t' =>
      on_failure_runs t' ++
      match e with EvOnFailureAction a => [a] | _ => [] end
  end.

(** The calls of [AcceptSolution] and of [AtSolution] on the monitors,
    each with what the monitor answered, the oldest first. *)
Fixpoint accept_calls (t : list Event) : list (Z * bool) :=
  match t with
  | [] => []
  | e :: t' =>
      accept_calls t' ++
      match e with EvAcceptSolution m r => [(m, r)] | _ => [] end
  end.

Fixpoint at_calls (t : list Event) : list (Z * bool) :=
  match t with
  | [] => []
  | e :: t' =>
      at_calls t' ++
      match e with EvAtSolution m r => [(m, r)] | _ => [] end
  end.

(** What the monitors do when they are asked returns, given [fuel0], and
    installs no monitor. *)
Definition scripts_return (ext : Extern) (client : Client) (fuel0 : nat)
    (call : Z -> Solver -> list Api * bool) : Prop :=
  forall m s s0 f, (fuel0 <= f)%nat ->
    exists s', exec ext client f (CScript (call m s).1) s0 = Done tt s' /\
               monitors_ (search_ s') = monitors_ (search_ s0).

(** A computation that, when it returns, has taken the solver to a state
    related by [R] to the one it started in. *)
Definition keeps {A} (R : Solver -> Solver -> Prop) (m : M A) : Prop :=
  forall s a s', m s = Done a s' -> R s s'.

(** A component of the solver is what it was. *)
Definition same {A} (f : Solver -> A) (s s' : Solver) : Prop := f s' = f s.

(** The jump buffer of the search is armed or not as it was. *)
Definition same_jmpbuf (s s' : Solver) : Prop :=
  jmpbuf_filled_ (search_ s') = jmpbuf_filled_ (search_ s).

(** What setting up a search keeps of the model: the searches below, the
    intercept of failures, the jump buffer; the constraints of the model
    only grow. *)
Record model_frame (s s' : Solver) : Prop := {
  mf_parents : parent_searches_ s' = parent_searches_ s;
  mf_intercept : fail_intercept_ s' = fail_intercept_ s;
  mf_clist : constraints_list_ s `prefix_of` constraints_list_ s';
  mf_jmpbuf : same_jmpbuf s s' }.

(** What no step of a search changes, however it ends: the count of
    solutions, the searches below, the intercept of failures; and the
    constraints of the model only grow. *)
Record search_frame (s s' : Solver) : Prop := {
  sf_counter : solution_counter_ (search_ s') = solution_counter_ (search_ s);
  sf_parents : parent_searches_ s' = parent_searches_ s;
  sf_intercept : fail_intercept_ s' = fail_intercept_ s;
  sf_clist : constraints_list_ s `prefix_of` constraints_list_ s' }.

Definition frames {A} (m : M A) : Prop :=
  forall s, search_frame s (state_of (m s)).

(** ** More predicates and runs, for the further properties *)

(** A run of [PushBack] and [PopBack] on a compressed trail. *)
Fixpoint trail_run (ext : Extern) (ops : list TrailOp) (t : CompressedTrail)
    : option CompressedTrail :=
  match ops with
  | [] => Some t
  | op :: rest => t' ← trail_step ext op t; trail_run ext rest t'
  end.

(** A computation that ends in a jump only if it found the jump buffer
    armed, and then leaves it disarmed. *)
Definition jumps {A} (m : M A) : Prop :=
  forall s s', m s = Failed s' ->
    jmpbuf_filled_ (search_ s) = true /\ jmpbuf_filled_ (search_ s') = false.

(** The sentinel that [BacktrackToSentinel(magic)] stops at. *)
Definition is_sentinel (magic : Z) (m : StateMarker) : Prop :=
  type_ m = SENTINEL /\ ptr_info (info_ m) = Solver_this /\
  int_info (info_ m) = magic.

(** The actions of the reversible-action markers of a stack, the top of
    the stack first. *)
Fixpoint actions_of (ms : list StateMarker) : list Z :=
  match ms with
  | [] => []
  | m :: rest =>
      match type_ m with
      | REVERSIBLE_ACTION => ptr_info (info_ m) :: actions_of rest
      | _ => actions_of rest
      end
  end.

(** The codes of the sentinels of a stack, the top of the stack first. *)
Fixpoint sentinels_of (ms : list StateMarker) : list Z :=
  match ms with
  | [] => []
  | m :: rest =>
      match type_ m with
      | SENTINEL => int_info (info_ m) :: sentinels_of rest
      | _ => sentinels_of rest
      end
  end.

(** The actions that were run on backtrack, the oldest first. *)
Fixpoint action_runs (t : list Event) : list Z :=
  match t with
  | [] => []
  | e :: t' =>
      action_runs t' ++ match e with EvActionRun a => [a] | _ => [] end
  end.

Global Instance Hook_eq_dec : EqDecision Hook.
Proof. solve_decision. Defined.

(** The monitors on which the hook [h] was called, the oldest call
    first. *)
Fixpoint hook_calls (h : Hook) (t : list Event) : list Z :=
  match t with
  | [] => []
  | e :: t' =>
      hook_calls h t'
      ++ match e with
         | EvHook h' m => if bool_decide (h' = h) then [m] else []
         | _ => []
         end
  end.

(** [AddBacktrackAction] on each of a list of actions, in order. *)
Definition register_actions (acts : list (Z * bool)) (s : Solver) : Solver :=
  foldl (fun s af => AddBacktrackAction af.1 af.2 s) s acts.

(** The calls of the hook [h] on the monitors [ms], recorded. *)
Definition log_hooks (h : Hook) (ms : list Z) (s : Solver) : Solver :=
  foldl (fun s m => log (EvHook h m) s) s ms.

Local Open Scope res_scope.

(** [Solver::BacktrackOneLevel] (lines 1946-1989): the loop, one marker a
    turn.  The result is [no_more_solutions] and the decision written to
    [*fail_decision], if one is. *)
Fixpoint BacktrackOneLevel_while (ext : Extern) (client : Client)
    (fuel : nat) {struct fuel} : M (bool * option Z) :=
  match fuel with
  | O => OutOfFuel
  | S f =>
      fun s =>
      match PopState ext s with
      | None => Fatal s
      | Some (SENTINEL, info, s1) =>
          if negb (ptr_info info =? Solver_this) then Fatal s1
          else if negb ((int_info info =? ROOT_NODE_SENTINEL)
                          && (SolveDepth s1 =? 1)
                        || (int_info info =? INITIAL_SEARCH_SENTINEL)
                             && (1 <? SolveDepth s1))
          then Fatal s1
          else
            Done (true, None)
              (upd_search (fun x =>
                 set_sentinel_pushed_ (sentinel_pushed_ x - 1) x) s1)
      | Some (SIMPLE_MARKER, _, s1) => BacktrackOneLevel_while ext client f s1
      | Some (CHOICE_POINT, info, s1) =>
          if int_info info =? 0 then
            Done (false, Some (ptr_info info))
              (upd_search (fun x =>
                 set_left_search_depth_ (left_depth info)
                   (set_search_depth_ (depth info) x)) s1)
          else BacktrackOneLevel_while ext client f s1
      | Some (REVERSIBLE_ACTION, info, s1) =>
          (modify (log (EvActionRun (ptr_info info))) ;;
           s' <- get ;;
           exec ext client f (CScript (Action_Run client (ptr_info info) s')) ;;
           BacktrackOneLevel_while ext client f) s1
      end
  end.

(** [Solver::CallFailHooks] (lines 1606-1612).  [fail_hooks_] is a
    reversible FIFO of the header; [hooks] is what its iterator gives, in
    the order it gives it, [[]] when [fail_hooks_] is [NULL]. *)
Fixpoint CallFailHooks (ext : Extern) (client : Client) (fuel : nat)
    (hooks : list Z) : M unit :=
  match hooks with
  | [] => ret tt
  | a :: rest =>
      modify (log (EvActionRun a)) ;;
      s <- get ;;
      exec ext client fuel (CScript (Action_Run client a s)) ;;
      CallFailHooks ext client fuel rest
  end.

Definition Solver_BacktrackOneLevel (ext : Extern) (client : Client)
    (hooks : list Z) (fuel : nat) : M (bool * option Z) :=
  r <- BacktrackOneLevel_while ext client fuel ;;
  Search_hook ext client fuel HEndFail ;;
  CallFailHooks ext client fuel hooks ;;
  modify (fun s => set_fail_stamp_ (wrap64 (fail_stamp_ s + 1)) s) ;;
  (if r.1 then Search_hook ext client fuel HNoMoreSolutions else ret tt) ;;
  ret r.

(** [Solver::RestartSearch] (lines 2004-2026). *)
Definition RestartSearch (ext : Extern) (client : Client) (fuel : nat)
    : M unit :=
  s <- get ;;
  if sentinel_pushed_ (search_ s) =? 0 then abort
  else
    (if SolveDepth s =? 1 then
       (if 1 <? sentinel_pushed_ (search_ s)
        then BacktrackToSentinel ext client fuel ROOT_NODE_SENTINEL
        else ret tt) ;;
       s' <- get ;;
       if negb (sentinel_pushed_ (search_ s') =? 1) then abort
       else
         modify (PushSentinel ROOT_NODE_SENTINEL) ;;
         modify (set_state_ IN_SEARCH)
     else
       if negb (bool_decide (state_ s = IN_SEARCH)) then abort
       else
         (if 0 <? sentinel_pushed_ (search_ s)
          then BacktrackToSentinel ext client fuel INITIAL_SEARCH_SENTINEL
          else ret tt) ;;
         s' <- get ;;
         if negb (sentinel_pushed_ (search_ s') =? 0) then abort
         else modify (PushSentinel INITIAL_SEARCH_SENTINEL)) ;;
    Search_hook ext client fuel HRestartSearch.

(** [Solver::JumpToSentinelWhenNested] (lines 2061-2084): the loop over
    the markers of the active search [c], the top first; [p] is the marker
    stack of the parent search.  [None]: a sentinel is found that is not
    the last marker. *)
Fixpoint JumpToSentinel_while (c p : list StateMarker) (found : bool)
    : option (list StateMarker * bool) :=
  match c with
  | [] => Some (p, found)
  | m :: c' =>
      if bool_decide (type_ m = REVERSIBLE_ACTION)
      then JumpToSentinel_while c' (m :: p) found
      else if bool_decide (type_ m = SENTINEL) then
        if bool_decide (length c = 1%nat)
        then JumpToSentinel_while c' p true
        else None
      else JumpToSentinel_while c' p found
  end.

(** [ParentSearch()] is declared in the header: the search just below
    the active one. *)
Definition JumpToSentinelWhenNested : M unit :=
  fun s =>
    if negb (1 <? SolveDepth s) then Fatal s
    else
      match parent_searches_ s with
      | [] => Fatal s
      | p :: ps =>
          match JumpToSentinel_while (marker_stack_ (search_ s))
                  (marker_stack_ p) false with
          | None => Fatal s
          | Some (p', found) =>
              let s' :=
                set_parent_searches_ (set_marker_stack_ p' p :: ps)
                  (upd_search (fun x =>
                     set_left_search_depth_ 0
                       (set_search_depth_ 0 (set_marker_stack_ [] x))) s) in
              if found then Done tt s' else Fatal s'
          end
      end.

(** The runs of the actions [acts], recorded. *)
Definition log_actions (acts : list Z) (s : Solver) : Solver :=
  foldl (fun s a => log (EvActionRun a) s) s acts.

(** The sentinel that ends a search at the depth of [s]. *)
Definition search_sentinel (s : Solver) (m : StateMarker) : Prop :=
  type_ m = SENTINEL /\ ptr_info (info_ m) = Solver_this /\
  (int_info (info_ m) = ROOT_NODE_SENTINEL /\ SolveDepth s = 1 \/
   int_info (info_ m) = INITIAL_SEARCH_SENTINEL /\ 1 < SolveDepth s).

(** [BacktrackOneLevel] of the solver in a tree search. *)
Definition tree_of (ext : Extern) (client : Client) (hooks : list Z)
    (explore : nat -> option Z -> M bool) : TreeSearch :=
  {| BacktrackOneLevel := Solver_BacktrackOneLevel ext client hooks;
     explore := explore |}.

(** The choice point of a left branch, which [BacktrackOneLevel] stops
    at. *)
Definition open_branch (m : StateMarker) : Prop :=
  type_ m = CHOICE_POINT /\ int_info (info_ m) = 0.

(** A marker that [BacktrackOneLevel] goes past. *)
Definition passed (m : StateMarker) : Prop :=
  type_ m <> SENTINEL /\ ~ open_branch m.

Local Close Scope res_scope.

(** ** Predicates on the monitors' answers, the queue and the stack *)

(** The monitors [ms] are asked one after the other, from the state [s]:
    each call [call m] is made in the state the calls before it left,
    its answer is recorded and what it does is run; [bs] are the answers
    in the order of the calls, [s'] is the state after the last one. *)
Inductive asked (ext : Extern) (client : Client)
    (call : Z -> Solver -> list Api * bool) (ev : Z -> bool -> Event)
    : list Z -> Solver -> list bool -> Solver -> Prop :=
| asked_nil s : asked ext client call ev [] s [] s
| asked_cons m ms s s1 s' bs f :
    exec ext client f (CScript (call m s).1) (log (ev m (call m s).2) s)
    = Done tt s1 ->
    asked ext client call ev ms s1 bs s' ->
    asked ext client call ev (m :: ms) s ((call m s).2 :: bs) s'.

(** No demon is on a queue twice, and [Queue::Enqueue] refuses every
    demon that is on a queue: what the stamps are for. *)
Definition once (client : Client) (s : Solver) : Prop :=
  stamp_in_range s /\ wf_pending client s /\
  forall p, NoDup (pending p s) /\
            forall d, d ∈ pending p s -> ~ eligible d s.

(** The steps that make refused demons eligible again without running
    them: the stamp of the queue changes ([Freeze], [PushState],
    [PopState]), [Demon::desinhibit], a write to the cell of a stamp. *)
Inductive rearms (ext : Extern) : Solver -> Solver -> Prop :=
| rearms_stamp s s' :
    stamp_ (queue_ s') <> stamp_ (queue_ s) -> rearms ext s s'
| rearms_desinhibit d s s' : desinhibit ext d s = Some s' -> rearms ext s s'
| rearms_write a v s :
    rearms ext s (set_memory_ (write K_uint64 a v (memory_ s)) s).

(** Client code that calls nothing but [Enqueue]. *)
Definition only_enqueues (sc : list Api) : Prop :=
  Forall (fun a => exists d, a = ApiEnqueue d) sc.

(** The commands of [Queue::Enqueue] and [Queue::Process]. *)
Definition queue_cmd (c : Cmd) : Prop :=
  match c with
  | CScript sc => only_enqueues sc
  | CApi a => exists d, a = ApiEnqueue d
  | CEnqueue _ | CProcessIfUnfrozen | CProcess | CProcess_while_any
  | CProcess_while_var_or_normal | CProcessNormalDemons
  | CProcessOneDemon _ => True
  | _ => False
  end.

(** A computation that, when it returns or fails, leaves a state in which
    [P] holds if [P] held when it began. *)
Definition respects {A} (P : Solver -> Prop) (m : M A) : Prop :=
  forall s, P s ->
    match m s with Done _ s' | Failed s' => P s' | _ => True end.

(** The same for its failures alone. *)
Definition respects_fail {A} (P : Solver -> Prop) (m : M A) : Prop :=
  forall s s', P s -> m s = Failed s' -> P s'.

(** The trail and the markers on the stack are well formed. *)
Definition markers_wf (ext : Extern) (s : Solver) : Prop :=
  trail_wf ext (trail_ s) /\ Forall marker_wf (marker_stack_ (search_ s)).

(** The markers of [base] are on the stack, under markers that are not
    sentinels, and [n] sentinels are counted. *)
Definition stack_over (base : list StateMarker) (n : Z) (s : Solver) : Prop :=
  sentinel_pushed_ (search_ s) = n /\
  exists above, marker_stack_ (search_ s) = above ++ base /\
                Forall (fun x => type_ x <> SENTINEL) above.

(** A run that returns or fails: it neither aborts nor runs out of
    fuel. *)
Definition ends {A} (r : Res A) : Prop :=
  match r with Done _ _ | Failed _ => True | _ => False end.

(** ** Hash functions (base/hash.h) *)

(** Arithmetic on unsigned words of [bits] bits. *)
Definition wrap_bits (bits x : Z) : Z := x mod 2 ^ bits.

(** Three lines of [mix] (lines 34-59), with the three shifts of the
    lines:
    [a -= b; a -= c; a ^= (c>>s1);]
    [b -= c; b -= a; b ^= (a<<s2);]
    [c -= a; c -= b; c ^= (b>>s3);] *)
Definition mix_lines (bits s1 s2 s3 : Z) (t : Z * Z * Z) : Z * Z * Z :=
  let '(a, b, c) := t in
  let a := wrap_bits bits (a - b) in
  let a := wrap_bits bits (a - c) in
  let a := Z.lxor a (Z.shiftr c s1) in
  let b := wrap_bits bits (b - c) in
  let b := wrap_bits bits (b - a) in
  let b := Z.lxor b (wrap_bits bits (Z.shiftl a s2)) in
  let c := wrap_bits bits (c - a) in
  let c := wrap_bits bits (c - b) in
  let c := Z.lxor c (Z.shiftr b s3) in
  (a, b, c).

(** [mix(uint32&, uint32&, uint32&)] (lines 34-44). *)
Definition mix32 (t : Z * Z * Z) : Z * Z * Z :=
  mix_lines 32 3 10 15 (mix_lines 32 12 16 5 (mix_lines 32 13 8 13 t)).

(** [mix(uint64&, uint64&, uint64&)] (lines 46-59). *)
Definition mix64 (t : Z * Z * Z) : Z * Z * Z :=
  mix_lines 64 12 18 22
    (mix_lines 64 35 49 11
       (mix_lines 64 38 23 5 (mix_lines 64 43 9 8 t))).

(** [Hash32NumWithSeed] and [Hash64NumWithSeed] (lines 84-94). *)
Definition Hash32NumWithSeed (num c : Z) : Z :=
  (mix32 (num, 0x9e3779b9, c)).2.

Definition Hash64NumWithSeed (num c : Z) : Z :=
  (mix64 (num, 0xe08c1d668b756f82, c)).2.

(** [hash<std::string>] (lines 72-82) on a [size_t] of [bits] bits: the
    loop over [x.c_str()], which ends at the first NUL; [s] is the chars
    of the string, as the integers [int c] takes. *)
Fixpoint hash_string_from (bits : Z) (s : list Z) (hash : Z) : Z :=
  match s with
  | [] => hash
  | c :: rest =>
      if c =? 0 then hash
      else
        hash_string_from bits rest
          (Z.lxor (wrap_bits bits (wrap_bits bits (Z.shiftl hash 5) + hash))
             (wrap_bits bits c))
  end.

Definition hash_string (bits : Z) (s : list Z) : Z :=
  hash_string_from bits s 0.

(** The three lines of [mix] undone, the last first. *)
Definition unmix_lines (bits s1 s2 s3 : Z) (t : Z * Z * Z) : Z * Z * Z :=
  let '(a, b, c) := t in
  let c := Z.lxor c (Z.shiftr b s3) in
  let c := wrap_bits bits (c + b) in
  let c := wrap_bits bits (c + a) in
  let b := Z.lxor b (wrap_bits bits (Z.shiftl a s2)) in
  let b := wrap_bits bits (b + a) in
  let b := wrap_bits bits (b + c) in
  let a := Z.lxor a (Z.shiftr c s1) in
  let a := wrap_bits bits (a + c) in
  let a := wrap_bits bits (a + b) in
  (a, b, c).

Definition unmix32 (t : Z * Z * Z) : Z * Z * Z :=
  unmix_lines 32 13 8 13 (unmix_lines 32 12 16 5 (unmix_lines 32 3 10 15 t)).

Definition unmix64 (t : Z * Z * Z) : Z * Z * Z :=
  unmix_lines 64 43 9 8
    (unmix_lines 64 38 23 5
       (unmix_lines 64 35 49 11 (unmix_lines 64 12 18 22 t))).

(** A triple of words of [bits] bits. *)
Definition words (bits : Z) (t : Z * Z * Z) : Prop :=
  (0 <= t.1.1 < 2 ^ bits) /\ (0 <= t.1.2 < 2 ^ bits) /\ (0 <= t.2 < 2 ^ bits).

(** ** Constraints of the FlatZinc front end (flatzinc_constraints.cc)

    A variable is read through [Min()] and [Max()]: a pair of [int64].
    What a constraint asks of the solver or of its variables is given
    back as a value. *)

Definition kint64min : Z := - 2 ^ 63.
Definition kint64max : Z := 2 ^ 63 - 1.

(** Arithmetic on [int] and [int64], two's complement. *)
Definition wrap_int (x : Z) : Z := (x + 2 ^ 31) mod 2 ^ 32 - 2 ^ 31.
Definition wrap_int64 (x : Z) : Z := (x + 2 ^ 63) mod 2 ^ 64 - 2 ^ 63.

(** [VariableParity::InitialPropagate] (lines 180-201): the two arguments
    of [var_->SetRange].  [%] is the remainder of the division that
    truncates, [Z.rem]. *)
Definition VariableParity_InitialPropagate (odd_ : bool) (vmin vmax : Z)
    : Z * Z :=
  let new_vmax := vmax in
  let new_vmin := vmin in
  if odd_ then
    let new_vmax :=
      if Z.rem vmax 2 =? 0 then wrap_int64 (new_vmax - 1) else new_vmax in
    let new_vmin :=
      if Z.rem vmin 2 =? 0 then wrap_int64 (new_vmin + 1) else new_vmin in
    (new_vmin, new_vmax)
  else
    let new_vmax :=
      if Z.rem vmax 2 =? 1 then wrap_int64 (new_vmax - 1) else new_vmax in
    let new_vmin :=
      if Z.rem vmin 2 =? 1 then wrap_int64 (new_vmin + 1) else new_vmin in
    (new_vmin, new_vmax).

(** What a propagator asks for: a failure, or calls of [SetMin],
    [SetMax] and [SetValue] on the variables of given indices, in the
    order of the calls. *)
Inductive VarCall :=
| CallSetMin (i : Z) (v : Z)
| CallSetMax (i : Z) (v : Z)
| CallSetValue (i : Z) (v : Z).

Inductive Propagation :=
| PropFail
| PropCalls (calls : list VarCall).

(** The loop of [InitialPropagate] of [BooleanSumOdd] (lines 52-62) and of
    [BooleanSumInRange] (lines 382-391) from index [i] on:
    [num_always_true], [num_possible_true] and [possible_true_index]. *)
Fixpoint count_true_vars (vars : list (Z * Z)) (i : Z) (st : Z * Z * Z)
    : Z * Z * Z :=
  match vars with
  | [] => st
  | var :: rest =>
      let '(num_always_true, num_possible_true, possible_true_index) := st in
      count_true_vars rest (wrap_int (i + 1))
        (if var.1 =? 1 then
           (wrap_int (num_always_true + 1), wrap_int (num_possible_true + 1),
            possible_true_index)
         else if var.2 =? 1 then
           (num_always_true, wrap_int (num_possible_true + 1), i)
         else st)
  end.

(** [BooleanSumOdd::InitialPropagate] (lines 48-74): what is asked for,
    and the values stored in [num_possible_true_vars_] and
    [num_always_true_vars_] when there is no failure. *)
Definition BooleanSumOdd_InitialPropagate (vars : list (Z * Z))
    : Propagation * option (Z * Z) :=
  let '(num_always_true, num_possible_true, possible_true_index) :=
    count_true_vars vars 0 (0, 0, -1) in
  if (num_always_true =? num_possible_true)
     && (Z.rem num_possible_true 2 =? 0)
  then (PropFail, None)
  else
    (if num_possible_true =? wrap_int (num_always_true + 1) then
       if Z.rem num_possible_true 2 =? 1
       then PropCalls [CallSetMin possible_true_index 1]
       else PropCalls [CallSetMax possible_true_index 0]
     else PropCalls [],
     Some (num_possible_true, num_always_true)).

(** [BooleanSumInRange::PushAllUnboundToZero] and [PushAllUnboundToOne]
    (lines 439-455), from index [i] on; the bounds are the ones read when
    the loop starts. *)
Fixpoint PushAllUnboundToZero (vars : list (Z * Z)) (i : Z) : list VarCall :=
  match vars with
  | [] => []
  | var :: rest =>
      (if var.1 =? 0 then [CallSetValue i 0] else [])
      ++ PushAllUnboundToZero rest (wrap_int (i + 1))
  end.

Fixpoint PushAllUnboundToOne (vars : list (Z * Z)) (i : Z) : list VarCall :=
  match vars with
  | [] => []
  | var :: rest =>
      (if var.2 =? 1 then [CallSetValue i 1] else [])
      ++ PushAllUnboundToOne rest (wrap_int (i + 1))
  end.

(** [BooleanSumInRange::Check] (lines 397-411) on the two counts. *)
Definition BooleanSumInRange_Check (vars : list (Z * Z))
    (range_min range_max num_always_true num_possible_true : Z)
    : Propagation :=
  if (range_max <? num_always_true) || (num_possible_true <? range_min)
  then PropFail
  else if (range_min <=? num_always_true)
          && (num_possible_true <=? range_max)
  then PropCalls []
  else if num_possible_true =? range_min
  then PropCalls (PushAllUnboundToOne vars 0)
  else if num_always_true =? range_max
  then PropCalls (PushAllUnboundToZero vars 0)
  else PropCalls [].

(** [BooleanSumInRange::InitialPropagate] (lines 378-395): what is asked
    for, and the values stored in [num_possible_true_vars_] and
    [num_always_true_vars_]. *)
Definition BooleanSumInRange_InitialPropagate (vars : list (Z * Z))
    (range_min range_max : Z) : Propagation * (Z * Z) :=
  let '(num_always_true, num_possible_true, _) :=
    count_true_vars vars 0 (0, 0, -1) in
  (BooleanSumInRange_Check vars range_min range_max num_always_true
     num_possible_true,
   (num_possible_true, num_always_true)).

(** What [PostBooleanSumInRange] (lines 707-752) posts: the false
    constraint, nothing, or a constraint on the sum of the unbound
    variables [alt], to the SAT propagator or as a [BooleanSumInRange];
    which of these is decided by code that is not here. *)
Inductive Posted :=
| PostedFalse
| PostedNothing
| PostedSumInRange (alt : list Z) (range_min range_max : Z).

(** The loop of [PostBooleanSumInRange] from index [i] on: the indices of
    the unbound variables, in order, and [true_vars].  A variable is
    bound when [Min()] is [Max()]. *)
Fixpoint unbound_vars (variables : list (Z * Z)) (i : Z) (st : list Z * Z)
    : list Z * Z :=
  match variables with
  | [] => st
  | var :: rest =>
      unbound_vars rest (wrap_int (i + 1))
        (if negb (var.1 =? var.2) then (st.1 ++ [i], st.2)
         else if var.1 =? 1 then (st.1, wrap_int (st.2 + 1))
         else st)
  end.

Definition PostBooleanSumInRange (variables : list (Z * Z))
    (range_min range_max : Z) : Posted :=
  let size := wrap_int64 (Z.of_nat (length variables)) in
  let range_min := Z.max 0 range_min in
  let range_max := Z.min size range_max in
  let '(alt, true_vars) := unbound_vars variables 0 ([], 0) in
  let possible_vars := wrap_int (Z.of_nat (length alt)) in
  let range_min := wrap_int64 (range_min - true_vars) in
  let range_max := wrap_int64 (range_max - true_vars) in
  if (range_max <? 0) || (possible_vars <? range_min) then PostedFalse
  else if (range_min <=? 0) && (possible_vars <=? range_max)
  then PostedNothing
  else PostedSumInRange alt range_min range_max.

(** What [PostIsBooleanSumInRange] (lines 754-792) does: it sets the
    target, or posts a constraint that ties the target to the sum, to the
    SAT propagator or as an [IsBooleanSumInRange]. *)
Inductive PostedIs :=
| TargetSetValue (v : Z)
| PostedIsSumInRange (range_min range_max : Z).

(** The loop of [PostIsBooleanSumInRange]: [true_vars] and
    [possible_vars]. *)
Fixpoint possible_true_vars (variables : list (Z * Z)) (st : Z * Z) : Z * Z :=
  match variables with
  | [] => st
  | var :: rest =>
      possible_true_vars rest
        (if var.2 =? 1 then
           (if var.1 =? 1 then wrap_int (st.1 + 1) else st.1,
            wrap_int (st.2 + 1))
         else st)
  end.

Definition PostIsBooleanSumInRange (variables : list (Z * Z))
    (range_min range_max : Z) : PostedIs :=
  let size := wrap_int64 (Z.of_nat (length variables)) in
  let range_min := Z.max 0 range_min in
  let range_max := Z.min size range_max in
  let '(true_vars, possible_vars) := possible_true_vars variables (0, 0) in
  if (range_max <? true_vars) || (possible_vars <? range_min)
  then TargetSetValue 0
  else if (range_min <=? true_vars) && (possible_vars <=? range_max)
  then TargetSetValue 1
  else PostedIsSumInRange range_min range_max.

(** The variables that are true and the ones that can be, counted. *)
Fixpoint n_always (vars : list (Z * Z)) : Z :=
  match vars with
  | [] => 0
  | var :: rest => (if var.1 =? 1 then 1 else 0) + n_always rest
  end.

Fixpoint n_possible (vars : list (Z * Z)) : Z :=
  match vars with
  | [] => 0
  | var :: rest =>
      (if var.1 =? 1 then 1 else if var.2 =? 1 then 1 else 0)
      + n_possible rest
  end.

(** A variable that is boolean, a value of a variable, and the sum of
    the values of some variables. *)
Definition boolean_var (var : Z * Z) : Prop :=
  0 <= var.1 /\ var.1 <= var.2 /\ var.2 <= 1.

Definition value_of (var : Z * Z) (v : Z) : Prop := var.1 <= v <= var.2.

Definition sum_list (l : list Z) : Z := foldr Z.add 0 l.

(** The values that the calls leave to the variable of index [i]. *)
Definition allows (c : VarCall) (i v : Z) : Prop :=
  match c with
  | CallSetMin j m => j = i -> m <= v
  | CallSetMax j m => j = i -> v <= m
  | CallSetValue j m => j = i -> v = m
  end.

(** An assignment [a] of the variables passes a propagation: there is no
    failure and each call allows the value of its variable. *)
Definition passes (p : Propagation) (a : list Z) : Prop :=
  match p with
  | PropFail => False
  | PropCalls calls =>
      forall c i v, c ∈ calls -> a !! i = Some v -> allows c (Z.of_nat i) v
  end.

(** The indices, from [i] on, of the variables that are not bound, and
    the sum of the values of these in an assignment. *)
Fixpoint unbound_from (vars : list (Z * Z)) (i : Z) : list Z :=
  match vars with
  | [] => []
  | var :: rest =>
      (if var.1 =? var.2 then [] else [i]) ++ unbound_from rest (i + 1)
  end.

Fixpoint sum_unbound (vars : list (Z * Z)) (a : list Z) : Z :=
  match vars, a with
  | var :: vars', v :: a' =>
      (if var.1 =? var.2 then 0 else v) + sum_unbound vars' a'
  | _, _ => 0
  end.

(** ** A reference instance of [Extern]

    Blocks are laid out as the bits of their [Countable] code, one bit a
    byte, and zlib stores the data behind its two header bytes. *)

Fixpoint pos_bytes (p : positive) : list byte :=
  match p with
  | xH => []
  | xO q => x00 :: pos_bytes q
  | xI q => x01 :: pos_bytes q
  end.

Fixpoint bytes_pos (l : list byte) : positive :=
  match l with
  | [] => xH
  | x00 :: r => xO (bytes_pos r)
  | _ :: r => xI (bytes_pos r)
  end.

Definition stored_compress (src : list byte) : option (list byte) :=
  Some (x78 :: x01 :: src).

Definition stored_uncompress (c : list byte) : option (list byte) :=
  match c with
  | x78 :: x01 :: src => Some src
  | _ => None
  end.

Definition stored_extern : Extern :=
  {| block_image := fun b => pos_bytes (encode b);
     image_block := fun l => default [] (decode (bytes_pos l));
     compress := stored_compress;
     uncompress := stored_uncompress |}.

(** Saves and writes of three kinds; the five saves of [int] fill two
    blocks of two cells and start a third. *)
Definition c1_ops : list SaveOp :=
  [OpSave K_int 10; OpWrite K_int 10 5; OpSaveBool 20; OpWriteBool 20 true;
   OpSave K_uint64 30; OpWrite K_uint64 30 7; OpSave K_int 11;
   OpWrite K_int 11 8; OpSave K_int 10; OpWrite K_int 10 6;
   OpSave K_int 10; OpSaveBool 20; OpWriteBool 20 false; OpSave K_int 10;
   OpWrite K_int 10 9].

(** A run over two block boundaries and back. *)
Definition c2_ops : list TrailOp :=
  [OpPushBack (mk_addrval 1 10); OpPushBack (mk_addrval 2 20);
   OpPushBack (mk_addrval 3 30); OpPushBack (mk_addrval 4 40);
   OpPushBack (mk_addrval 5 50); OpPopBack; OpPopBack; OpPopBack;
   OpPushBack (mk_addrval 6 60); OpPopBack; OpPopBack; OpPopBack; OpPopBack].

(** ** Clients and states for the examples

    Demons 100 to 199 are NORMAL, 200 to 299 VAR, the others DELAYED.
    Demon 100 enqueues itself again the first time it runs, demon 300
    wakes up 100 and 200.  Constraint 1 enqueues three demons, constraint
    2 fails.  The on-failure action 7 and the closure 5 do nothing. *)
Definition demo_priority (d : Z) : DemonPriority :=
  if d <? 200 then NORMAL_PRIORITY
  else if d <? 300 then VAR_PRIORITY else DELAYED_PRIORITY.

Definition demo_client : Client :=
  {| priority := demo_priority;
     Demon_Run := fun d s =>
       if d =? 100 then
         if pp_get NORMAL_PRIORITY (demon_runs_ s) <? 2
         then [ApiEnqueue 100] else []
       else if d =? 300 then [ApiEnqueue 100; ApiEnqueue 200]
       else [];
     Action_Run := fun _ _ => [];
     Closure_Run := fun _ _ => [];
     Constraint_Post := fun _ _ => [];
     Constraint_InitialPropagate := fun c _ =>
       if c =? 2 then [ApiFail]
       else [ApiEnqueue 300; ApiEnqueue 200; ApiEnqueue 101];
     Monitor_hook := fun _ _ _ => [];
     Monitor_AcceptSolution := fun m _ => ([], negb (m =? 51));
     Monitor_AtSolution := fun m _ => ([], m =? 52);
     DecisionBuilder_AppendMonitors := fun _ _ => [] |}.

Definition demo_Solver : Solver := new_Solver 2 COMPRESS_WITH_ZLIB 900 None.

(** A frozen queue with one demon of each priority pending. *)
Definition demo_frozen : Solver :=
  state_of (exec stored_extern demo_client 10
              (CScript [ApiFreezeQueue; ApiEnqueue 300; ApiEnqueue 200;
                        ApiEnqueue 101]) demo_Solver).

(** Demon 100 inhibited, a marker pushed, the demon desinhibited. *)
Definition demo_desinhibited : Solver :=
  state_of (exec stored_extern demo_client 10
              (CScript [ApiInhibit 100; ApiPushState; ApiDesinhibit 100])
              demo_Solver).

(** A frozen queue with four demons pending, a constraint waiting to be
    added and the action 7 to run on failure. *)
Definition demo_failing : Solver :=
  upd_queue (fun q => set_in_add_ true
                        (set_to_add_ [UserConstraint 1] q))
    (state_of (exec stored_extern demo_client 10
                 (CScript [ApiFreezeQueue; ApiSetQueueActionOnFail 7;
                           ApiEnqueue 300; ApiEnqueue 200; ApiEnqueue 101;
                           ApiEnqueue 102])
                 demo_Solver)).

(** Three monitors installed: 51 rejects every solution, 52 alone wants
    the search to go on. *)
Definition demo_monitored : Solver :=
  state_of (exec stored_extern demo_client 10
              (CScript [ApiInstall 50; ApiInstall 51; ApiInstall 52])
              demo_Solver).

(** A tree search that finds a solution at once and has no other. *)
Definition demo_tree : TreeSearch :=
  {| BacktrackOneLevel := fun _ => ret (true, None);
     explore := fun _ _ => ret true |}.

(** A model of two constraints, the second of which fails when it is
    propagated, and a search set up on it. *)
Definition demo_infeasible : Solver :=
  state_of (exec stored_extern demo_client 10
              (CScript [ApiAddConstraint (UserConstraint 1);
                        ApiAddConstraint (UserConstraint 2)])
              demo_Solver).

Definition demo_infeasible_search : Solver :=
  state_of (NewSearch stored_extern demo_client 20 (Some 7) [Some 50]
              demo_infeasible).

(** A solver with the closure 5 installed to intercept failures. *)
Definition demo_intercepted : Solver :=
  set_fail_intercept_ (Some 5) demo_Solver.

(** A model of one constraint, which propagates without failing. *)
Definition demo_one_constraint : Solver :=
  state_of (exec stored_extern demo_client 10
              (CScript [ApiAddConstraint (UserConstraint 1)]) demo_Solver).

(** The state after a failure outside search on that model, and the
    search set up on it afterwards. *)
Definition demo_failed_outside : Solver :=
  state_of (exec stored_extern demo_client 4 CFail demo_one_constraint).

Definition demo_failed_search : Solver :=
  state_of (NewSearch stored_extern demo_client 20 (Some 7) [Some 50]
              demo_failed_outside).

(** The client of [demo_client] with monitors that fail when the initial
    propagation begins. *)
Definition hook_client : Client :=
  {| priority := priority demo_client;
     Demon_Run := Demon_Run demo_client;
     Action_Run := Action_Run demo_client;
     Closure_Run := Closure_Run demo_client;
     Constraint_Post := Constraint_Post demo_client;
     Constraint_InitialPropagate := Constraint_InitialPropagate demo_client;
     Monitor_hook := fun h _ _ =>
       match h with HBeginInitialPropagation => [ApiFail] | _ => [] end;
     Monitor_AcceptSolution := Monitor_AcceptSolution demo_client;
     Monitor_AtSolution := Monitor_AtSolution demo_client;
     DecisionBuilder_AppendMonitors :=
       DecisionBuilder_AppendMonitors demo_client |}.

(** Two nested sentinels: action 8, a choice point and a second sentinel
    over the first one, action 7 on top. *)
Definition demo_nested : Solver :=
  AddBacktrackAction 7 false
    (PushSentinel ROOT_NODE_SENTINEL
       (PushState CHOICE_POINT StateInfo_default
          (AddBacktrackAction 8 true
             (PushSentinel INITIAL_SEARCH_SENTINEL demo_Solver)))).

(** A tree search that finds one solution at once. *)
Definition demo_tree_one : TreeSearch :=
  {| BacktrackOneLevel := fun _ => ret (true, None);
     explore := fun _ _ =>
       bind (modify (upd_search (fun x =>
                       set_solution_counter_ (solution_counter_ x + 1) x)))
            (fun _ => ret true) |}.

(** A leaf of a search with two monitors: under action 7, the choice
    point of a right branch and action 8, the choice point of the left
    branch of decision 33, taken at depth 2. *)
Definition demo_leaf : Solver :=
  set_state_ AT_SOLUTION
    (AddBacktrackAction 7 false
       (PushState CHOICE_POINT (mk_StateInfo 34 1 3 1)
          (AddBacktrackAction 8 true
             (PushState CHOICE_POINT (mk_StateInfo 33 0 2 1)
                (PushSentinel ROOT_NODE_SENTINEL
                   (PushSentinel INITIAL_SEARCH_SENTINEL
                      (push_monitor 51 (push_monitor 50 demo_Solver)))))))).

(** The last leaf: only the choice point of a right branch is left. *)
Definition demo_last_leaf : Solver :=
  set_state_ AT_SOLUTION
    (AddBacktrackAction 7 false
       (PushState CHOICE_POINT (mk_StateInfo 34 1 3 1)
          (PushSentinel ROOT_NODE_SENTINEL
             (PushSentinel INITIAL_SEARCH_SENTINEL
                (push_monitor 51 (push_monitor 50 demo_Solver)))))).

(** A nested search over the one of [demo_leaf], with a choice point and
    the actions 11 and 12 on its stack. *)
Definition demo_nested_search : Solver :=
  AddBacktrackAction 12 true
    (PushState CHOICE_POINT (mk_StateInfo 35 0 1 1)
       (AddBacktrackAction 11 false
          (PushSentinel INITIAL_SEARCH_SENTINEL
             (set_parent_searches_
                (search_ demo_leaf :: parent_searches_ demo_leaf)
                (set_search_ new_Search (set_state_ IN_SEARCH demo_leaf)))))).


(** The client of [demo_client] with an on-failure action 7 that wakes
    up demon 103, and monitors that change the queue when they are
    asked: a monitor asked to accept registers itself as the action on
    failure, and accepts unless monitor 50 did so just before; a monitor
    told of a solution freezes the queue, and wants the search to go on
    once the queue is frozen twice. *)
Definition busy_client : Client :=
  {| priority := priority demo_client;
     Demon_Run := Demon_Run demo_client;
     Action_Run := fun a _ => if a =? 7 then [ApiEnqueue 103] else [];
     Closure_Run := Closure_Run demo_client;
     Constraint_Post := Constraint_Post demo_client;
     Constraint_InitialPropagate := Constraint_InitialPropagate demo_client;
     Monitor_hook := Monitor_hook demo_client;
     Monitor_AcceptSolution := fun m s =>
       ([ApiSetQueueActionOnFail m],
        negb (bool_decide (clear_action_ (queue_ s) = Some 50)));
     Monitor_AtSolution := fun m s =>
       ([ApiFreezeQueue], freeze_level_ (queue_ s) =? 2);
     DecisionBuilder_AppendMonitors :=
       DecisionBuilder_AppendMonitors demo_client |}.

(** The client of [demo_client] with a first constraint that registers
    the action 7 to run on failure when it is posted and, when it is
    propagated, pushes a marker, registers the action 8 to run on
    backtrack and wakes up demon 101. *)
Definition marking_client : Client :=
  {| priority := priority demo_client;
     Demon_Run := Demon_Run demo_client;
     Action_Run := Action_Run demo_client;
     Closure_Run := Closure_Run demo_client;
     Constraint_Post := fun c _ =>
       if c =? 1 then [ApiSetQueueActionOnFail 7] else [];
     Constraint_InitialPropagate := fun c _ =>
       if c =? 2 then [ApiFail]
       else [ApiPushState; ApiAddBacktrackAction 8 false; ApiEnqueue 101];
     Monitor_hook := Monitor_hook demo_client;
     Monitor_AcceptSolution := Monitor_AcceptSolution demo_client;
     Monitor_AtSolution := Monitor_AtSolution demo_client;
     DecisionBuilder_AppendMonitors :=
       DecisionBuilder_AppendMonitors demo_client |}.

(* ================================================================== *)
(** * Part II. Properties                                              *)
(* ================================================================== *)

(** ** The compressed trail represents a sequence *)

Section CompressedTrailFacts.
Context (ext : Extern) (ext_ok : ExternOk ext).

Local Abbreviation ct_rep := (ct_rep ext).

Lemma Unpack_Pack level b p :
  Pack ext level b = Some p -> Unpack ext level p = Some b.
Proof.
  destruct level; simpl.
  - intros [= <-]. by rewrite (image_roundtrip _ ext_ok).
  - intros Hc. destruct (zlib_roundtrip _ ext_ok (block_image ext b))
      as (c & Hc' & Hu).
    rewrite Hc in Hc'. injection Hc' as <-.
    by rewrite Hu, (image_roundtrip _ ext_ok).
Qed.

Lemma Pack_total level b : exists p, Pack ext level b = Some p.
Proof.
  destruct level; simpl; [eauto|].
  destruct (zlib_roundtrip _ ext_ok (block_image ext b)) as (c & Hc & _).
  eauto.
Qed.

Lemma new_CompressedTrail_rep bs level :
  0 < bs -> ct_rep (new_CompressedTrail bs level) [].
Proof.
  intros Hbs. exists []. split; [|done].
  split; simpl; rewrite ?length_replicate; try lia; auto.
Qed.

Lemma blocks_length (bs : Z) level ps (bl : list (list addrval)) :
  Forall2 (fun p b => Unpack ext level p = Some b /\
                      Z.of_nat (length b) = bs) ps bl ->
  Z.of_nat (length (concat (reverse bl))) = bs * Z.of_nat (length bl).
Proof.
  induction 1 as [|p b ps bl [_ Hb] _ IH]; simpl; [lia|].
  rewrite reverse_cons, concat_app, length_app. simpl.
  rewrite length_app. simpl. lia.
Qed.

Lemma ct_rep_size t l : ct_rep t l -> size_ t = Z.of_nat (length l).
Proof.
  intros (bl & [] & ->). unfold ct_contents.
  rewrite !length_app, length_take.
  rewrite !Nat2Z.inj_add, (blocks_length _ _ _ _ ct_blocks0).
  rewrite ct_size_eq0.
  destruct (buffer_used_ t); simpl; lia.
Qed.

Lemma Back_rep t l : ct_rep t l -> Back t = last l.
Proof.
  intros (bl & [] & ->). unfold Back, ct_contents.
  destruct (Z.ltb_spec 0 (current_ t)) as [Hpos|Hz].
  - assert (exists n, Z.to_nat (current_ t) = S n) as [n Hn]
      by (exists (Z.to_nat (current_ t - 1)); lia).
    assert (is_Some (data_ t !! n)) as [x Hx]
      by (apply lookup_lt_is_Some; lia).
    rewrite Hn, (take_S_r _ _ _ Hx), !app_assoc, last_snoc.
    replace (Z.to_nat (current_ t - 1)) with n by lia. done.
  - assert (current_ t = 0) as H0 by lia.
    destruct (ct_empty0 H0) as [-> ->]. rewrite H0. done.
Qed.

Lemma PushBack_rep v t l :
  ct_rep t l ->
  exists t', PushBack ext v t = Some t' /\ ct_rep t' (l ++ [v]) /\
             packer_ t' = packer_ t /\ block_size_ t' = block_size_ t.
Proof.
  intros (bl & [] & ->). unfold PushBack.
  destruct (Z.leb_spec (block_size_ t) (current_ t)) as [Hfull|Hroom].
  - assert (current_ t = block_size_ t) as Hcur by lia.
    assert (exists n, Z.to_nat (block_size_ t) = S n) as [n Hn]
      by (exists (Z.to_nat (block_size_ t - 1)); lia).
    destruct (buffer_used_ t) eqn:Hused.
    + destruct (Pack_total (packer_ t) (buffer_ t)) as [p Hp].
      rewrite Hp. simpl. eexists. split; [done|].
      split; [|done]. exists (buffer_ t :: bl). split.
      * split; simpl; rewrite ?length_insert, ?Hused; try lia.
        constructor; [|done]. split; [|done]. by apply Unpack_Pack.
      * unfold ct_contents. simpl. rewrite Hused, Hcur.
        rewrite reverse_cons, concat_app. simpl.
        rewrite (take_ge (data_ t)) by lia.
        destruct (buffer_ t) as [|b0 bu]; [simpl in *; lia|].
        change (Z.to_nat (0 + 1)) with 1%nat.
        change (Z.to_nat 0) with 0%nat.
        simpl. rewrite take_0, app_nil_r, <- !app_assoc. simpl.
        by rewrite <- !app_assoc.
    + simpl. eexists. split; [done|]. split; [|done].
      exists bl. split.
      * split; simpl; rewrite ?length_insert; try lia; try done.
      * unfold ct_contents. simpl. rewrite Hused, Hcur.
        rewrite (take_ge (data_ t)) by lia.
        destruct (buffer_ t) as [|b0 bu]; [simpl in *; lia|].
        change (Z.to_nat (0 + 1)) with 1%nat.
        change (Z.to_nat 0) with 0%nat.
        simpl. rewrite take_0, <- !app_assoc. done.
  - simpl. eexists. split; [done|]. split; [|done].
    exists bl. split.
    + split; simpl; rewrite ?length_insert; try lia; try done.
    + unfold ct_contents. simpl.
      replace (Z.to_nat (current_ t + 1)) with (S (Z.to_nat (current_ t)))
        by lia.
      rewrite (take_S_r _ _ v).
      * rewrite take_insert_ge by lia. rewrite <- !app_assoc. done.
      * apply list_lookup_insert_eq. lia.
Qed.

Lemma PopBack_rep t l :
  ct_rep t l ->
  exists t', PopBack ext t = Some t' /\ ct_rep t' (removelast l) /\
             packer_ t' = packer_ t /\ block_size_ t' = block_size_ t.
Proof.
  intros Hrep. pose proof (ct_rep_size _ _ Hrep) as Hsize.
  destruct Hrep as (bl & [] & ->). unfold PopBack.
  destruct (Z.ltb_spec 0 (size_ t)) as [Hpos|Hz].
  - assert (0 < current_ t) as Hcur.
    { destruct (decide (current_ t = 0)) as [H0|]; [|lia].
      destruct (ct_empty0 H0) as [Hu ->]. rewrite Hu in *.
      simpl in *. lia. }
    assert (exists n, Z.to_nat (current_ t) = S n) as [n Hn]
      by (exists (Z.to_nat (current_ t - 1)); lia).
    assert (is_Some (data_ t !! n)) as [x Hx]
      by (apply lookup_lt_is_Some; lia).
    assert (ct_contents t bl =
            (concat (reverse bl) ++ (if buffer_used_ t then buffer_ t else [])
               ++ take n (data_ t)) ++ [x]) as Hlast.
    { unfold ct_contents. rewrite Hn, (take_S_r _ _ _ Hx).
      by rewrite <- !app_assoc. }
    rewrite Hlast, removelast_last.
    destruct (Z.leb_spec (current_ t - 1) 0) as [Hone|Hmore].
    + assert (n = 0%nat) as -> by lia.
      destruct (buffer_used_ t) eqn:Hused.
      * simpl. eexists. split; [done|]. split; [|done].
        exists bl. split.
        -- split; simpl; try lia; try done.
        -- unfold ct_contents. simpl.
           rewrite (take_ge (buffer_ t)) by lia.
           by rewrite take_0, app_nil_r.
      * destruct (blocks_ t) as [|p ps] eqn:Hblk.
        -- apply Forall2_nil_inv_l in ct_blocks0 as ->.
           simpl. eexists. split; [done|]. split; [|done].
           exists []. split.
           ++ split; simpl in *; rewrite ?Hblk, ?Hused; try lia; try done.
           ++ unfold ct_contents. simpl. rewrite ?Hused. simpl.
              replace (Z.to_nat (current_ t - 1)) with 0%nat by lia. done.
        -- apply Forall2_cons_inv_l in ct_blocks0
             as (b & bl' & [Hp Hb] & Hrest & ->).
           simpl. rewrite Hp. simpl. eexists. split; [done|].
           split; [|done]. exists bl'. split.
           ++ split; simpl; rewrite ?Hused; simpl in *; try lia; try done.
           ++ unfold ct_contents. simpl. rewrite ?Hused.
              rewrite reverse_cons, concat_app. simpl.
              rewrite (take_ge b) by lia.
              by rewrite take_0, !app_nil_r.
    + simpl. eexists. split; [done|]. split; [|done].
      exists bl. split.
      * split; simpl; try lia; try done.
      * unfold ct_contents. simpl.
        replace (Z.to_nat (current_ t - 1)) with n by lia. done.
  - eexists. split; [done|]. split; [|done].
    assert (ct_contents t bl = []) as ->.
    { apply nil_length_inv. lia. }
    exists bl. split; [by split|].
    symmetry. apply nil_length_inv. lia.
Qed.

Lemma trail_observe_seq ops : forall t l,
  ct_rep t l -> trail_observe ext ops t = Some (seq_observe ops l).
Proof.
  induction ops as [|op ops IH]; intros t l Hrep; simpl.
  - unfold ct_size. by rewrite (ct_rep_size _ _ Hrep).
  - assert (exists t', trail_step ext op t = Some t' /\
                       ct_rep t' (seq_step op l)) as (t' & -> & Hrep').
    { destruct op as [v|]; simpl.
      - destruct (PushBack_rep v _ _ Hrep) as (t' & ? & ? & _). eauto.
      - destruct (PopBack_rep _ _ Hrep) as (t' & ? & ? & _). eauto. }
    simpl. rewrite (IH _ _ Hrep'). simpl.
    by rewrite (Back_rep _ _ Hrep').
Qed.

End CompressedTrailFacts.

(** ** The trail undoes what was saved *)

Section UndoFacts.
Context {V : Type} (d : V).

Local Abbreviation ld := (fun (h : gmap Z V) (a : Z) => default d (h !! a)).

Lemma undo_app (cs1 cs2 : list (Z * V)) h :
  undo (cs1 ++ cs2) h = undo cs1 (undo cs2 h).
Proof. unfold undo. by rewrite foldr_app. Qed.

Lemma undo_load_ext (cs : list (Z * V)) h h' x :
  x ∈ cs.*1 \/ ld h x = ld h' x ->
  ld (undo cs h) x = ld (undo cs h') x.
Proof.
  induction cs as [|[a v] cs IH]; simpl; intros Hx.
  - destruct Hx as [Hx|Hx]; [by apply elem_of_nil in Hx|done].
  - destruct (decide (a = x)) as [->|Hne].
    + by rewrite !lookup_insert_eq.
    + rewrite !lookup_insert_ne by done. apply IH.
      destruct Hx as [Hx|Hx]; [|by right].
      apply elem_of_cons in Hx as [Hx|Hx]; [done|by left].
Qed.

(** Saving a location that is then written: undoing gives what undoing
    gave before. *)
Lemma undo_save (cs : list (Z * V)) h a x :
  ld (undo (cs ++ [(a, ld h a)]) h) x = ld (undo cs h) x.
Proof.
  rewrite undo_app. apply undo_load_ext. right. simpl.
  destruct (decide (a = x)) as [->|Hne].
  - by rewrite lookup_insert_eq.
  - by rewrite lookup_insert_ne.
Qed.

Lemma undo_write (cs : list (Z * V)) h a v x :
  a ∈ cs.*1 ->
  ld (undo cs (<[a := v]> h)) x = ld (undo cs h) x.
Proof.
  intros Ha. apply undo_load_ext.
  destruct (decide (a = x)) as [->|Hne]; [by left|right].
  by rewrite lookup_insert_ne.
Qed.

End UndoFacts.

Section TrailFacts.
Context (ext : Extern) (ext_ok : ExternOk ext).

Lemma restore_cells_spec (cells : list addrval) : forall t l0 h,
  ct_rep ext t (l0 ++ cells) ->
  exists t', restore_cells ext (length cells) t h
               = Some (t', undo (cell_pair <$> cells) h) /\
             ct_rep ext t' l0.
Proof.
  induction cells as [|c cells IH] using rev_ind; intros t l0 h Hrep.
  - rewrite app_nil_r in Hrep. simpl. eauto.
  - rewrite length_app. simpl. rewrite Nat.add_1_r. simpl.
    rewrite app_assoc in Hrep.
    rewrite (Back_rep ext _ _ Hrep), last_snoc. simpl.
    destruct (PopBack_rep ext _ _ Hrep) as (t' & -> & Hrep' & _).
    simpl. rewrite removelast_last in Hrep'.
    destruct (IH t' l0 (restore c h) Hrep') as (t'' & -> & Hrep'').
    exists t''. split; [|done].
    by rewrite fmap_app, undo_app.
Qed.

Lemma backtrack_cells_spec (cells : list addrval) t l0 h :
  ct_rep ext t (l0 ++ cells) ->
  exists t', backtrack_cells ext (Z.of_nat (length l0)) t h
               = Some (t', undo (cell_pair <$> cells) h) /\
             ct_rep ext t' l0.
Proof.
  intros Hrep. unfold backtrack_cells, ct_size.
  rewrite (ct_rep_size ext _ _ Hrep), length_app.
  replace (Z.to_nat _) with (length cells) by lia.
  by apply restore_cells_spec.
Qed.

Lemma restore_bools_spec (bools : list (Z * bool)) :
  forall (a0 rest_a : list Z) (v0 rest_v : list bool) h,
  length a0 = length v0 ->
  restore_bools (length bools)
    (Z.of_nat (length a0) + Z.of_nat (length bools) - 1)
    (a0 ++ bools.*1 ++ rest_a) (v0 ++ bools.*2 ++ rest_v) h
  = Some (undo bools h).
Proof.
  induction bools as [|[a v] bools IH] using rev_ind;
    intros a0 rest_a v0 rest_v h Hlen; [done|].
  rewrite length_app. simpl. rewrite Nat.add_1_r. simpl.
  destruct (Z.ltb_spec
    (Z.of_nat (length a0) + Z.of_nat (S (length bools)) - 1) 0); [lia|].
  replace (Z.to_nat _) with (length a0 + length bools)%nat by lia.
  rewrite !fmap_app. simpl. rewrite <- !app_assoc. simpl.
  rewrite (lookup_app_r a0), (lookup_app_r v0) by lia.
  replace (length a0 + length bools - length a0)%nat
    with (length (bools.*1)) by (rewrite length_fmap; lia).
  rewrite (list_lookup_middle (bools.*1)) by done. simpl.
  replace (length a0 + length bools - length v0)%nat
    with (length (bools.*2)) by (rewrite length_fmap; lia).
  rewrite (list_lookup_middle (bools.*2)) by done. simpl.
  replace (_ - 1 - 1) with
    (Z.of_nat (length a0) + Z.of_nat (length bools) - 1) by lia.
  rewrite IH by done. by rewrite undo_app.
Qed.

Lemma rev_cells_set k k' c t :
  rev_cells k (set_rev_cells k' c t)
  = if decide (k = k') then c else rev_cells k t.
Proof. by destruct k, k'. Qed.

Lemma heap_write k k' a v m :
  heap k (write k' a v m)
  = if decide (k = k') then <[a := v]> (heap k m) else heap k m.
Proof. by destruct k, k'. Qed.

Lemma mem_bool_write k a v m : mem_bool (write k a v m) = mem_bool m.
Proof. by destruct k. Qed.

Lemma saved_inv_init l0 t0 mem0 :
  (forall k, ct_rep ext (rev_cells k t0) (l0 k)) ->
  saved_inv ext l0 t0 mem0 [] t0 mem0 (fun _ => []) [].
Proof.
  intros Hrep. split; try done.
  - intros k. by rewrite app_nil_r.
  - intros k a Ha. by apply elem_of_nil in Ha.
  - simpl. by rewrite app_nil_r.
  - simpl. by rewrite app_nil_r.
  - intros a Ha. by apply elem_of_nil in Ha.
Qed.

Lemma save_step_inv l0 t0 mem0 saved t mem cells bools op :
  saved_inv ext l0 t0 mem0 saved t mem cells bools ->
  saved_before_write saved [op] = true ->
  exists t' mem' saved' cells' bools',
    save_step ext op (t, mem) = Some (t', mem') /\
    saved_inv ext l0 t0 mem0 saved' t' mem' cells' bools' /\
    forall rest, saved_before_write saved (op :: rest)
                 = saved_before_write saved [op]
                   && saved_before_write saved' rest.
Proof.
  intros [] Hop. destruct op as [k a|a|k a v|a v]; simpl in *.
  - destruct (PushBack_rep ext ext_ok (new_addrval (heap k mem) a) _ _
                (si_rep0 k)) as (c & Hc & Hrep & _).
    unfold InternalSaveValue. rewrite Hc. simpl.
    exists (set_rev_cells k c t), mem, (LocCell k a :: saved),
      (fun k' => if decide (k' = k)
                 then cells k ++ [new_addrval (heap k mem) a] else cells k'),
      bools.
    split; [done|]. split; [|done]. split; try done.
    + intros k'. rewrite rev_cells_set. case_decide as Hk; [|done].
      subst k'. by rewrite app_assoc.
    + intros k' a' Hin. apply elem_of_cons in Hin as [Heq|Hin].
      * injection Heq as -> ->. rewrite decide_True by done.
        rewrite !fmap_app. apply elem_of_app. right. simpl.
        apply list_elem_of_singleton. done.
      * case_decide as Hk; [subst k'|by apply si_saved0].
        rewrite !fmap_app. apply elem_of_app. left. by apply si_saved0.
    + intros k' x. case_decide as Hk; [subst k'|by apply si_undo0].
      rewrite fmap_app. simpl. unfold cell_pair at 2. simpl.
      unfold load. rewrite (undo_save 0). apply si_undo0.
    + intros a' Hin. apply elem_of_cons in Hin as [Heq|Hin]; [done|].
      by apply si_saved_bool0.
  - exists (InternalSaveValue_bool a t mem), mem, (LocBool a :: saved),
      cells, (bools ++ [(a, read_bool a mem)]).
    split; [done|]. split; [|done]. split; try done; simpl.
    + intros k a' Hin. apply elem_of_cons in Hin as [Heq|Hin]; [done|].
      by apply si_saved0.
    + by rewrite si_bools0, fmap_app, app_assoc.
    + by rewrite si_bool_value0, fmap_app, app_assoc.
    + intros a' Hin. rewrite fmap_app. apply elem_of_app.
      apply elem_of_cons in Hin as [Heq|Hin].
      * injection Heq as ->. right. by apply list_elem_of_singleton.
      * left. by apply si_saved_bool0.
    + intros x. unfold load_bool, read_bool, load_bool.
      rewrite (undo_save false). apply si_undo_bool0.
  - apply andb_true_iff in Hop as [Hin _]. apply bool_decide_eq_true in Hin.
    exists t, (write k a v mem), saved, cells, bools.
    split; [done|]. split; [|by rewrite bool_decide_eq_true_2].
    split; try done.
    + intros k' x. rewrite heap_write. case_decide as Hk; [|done].
      subst k'. unfold load. rewrite (undo_write 0); [apply si_undo0|].
      by apply si_saved0.
    + by rewrite mem_bool_write.
  - apply andb_true_iff in Hop as [Hin _]. apply bool_decide_eq_true in Hin.
    exists t, (write_bool a v mem), saved, cells, bools.
    split; [done|]. split; [|by rewrite bool_decide_eq_true_2].
    split; try done.
    intros x. simpl. unfold load_bool.
    rewrite (undo_write false); [apply si_undo_bool0|].
    by apply si_saved_bool0.
Qed.

Lemma save_run_inv l0 t0 mem0 ops : forall saved t mem cells bools,
  saved_inv ext l0 t0 mem0 saved t mem cells bools ->
  saved_before_write saved ops = true ->
  exists t' mem' saved' cells' bools',
    save_run ext ops (t, mem) = Some (t', mem') /\
    saved_inv ext l0 t0 mem0 saved' t' mem' cells' bools'.
Proof.
  induction ops as [|op ops IH]; intros saved t mem cells bools Hinv Hops.
  - simpl. eauto 10.
  - assert (saved_before_write saved [op] = true) as Hop.
    { destruct op; simpl in *; try done;
        apply andb_true_iff in Hops as [-> _]; done. }
    destruct (save_step_inv _ _ _ _ _ _ _ _ _ Hinv Hop)
      as (t1 & mem1 & saved1 & cells1 & bools1 & Hstep & Hinv1 & Hsplit).
    rewrite Hsplit, Hop in Hops. simpl in Hops.
    destruct (IH _ _ _ _ _ Hinv1 Hops)
      as (t2 & mem2 & saved2 & cells2 & bools2 & Hrun & Hinv2).
    exists t2, mem2, saved2, cells2, bools2. split; [|done].
    simpl. rewrite Hstep. done.
Qed.

End TrailFacts.

Lemma vec_resize_size {A} (d : A) (l : list A) :
  vec_resize (vec_size l) d l = l.
Proof.
  unfold vec_resize, vec_size. rewrite Nat2Z.id. apply resize_all.
Qed.

Lemma vec_resize_app {A} (d : A) (l1 l2 : list A) :
  vec_resize (vec_size l1) d (l1 ++ l2) = l1.
Proof.
  unfold vec_resize, vec_size. rewrite Nat2Z.id. by apply resize_app.
Qed.

(** C1. Saves and writes between a mark and [BacktrackTo] on it, each
    location saved before it is written: the backtrack succeeds, memory
    reads everywhere as it did at the mark, every trail is back at the
    size the marker recorded, and on each trail the cells saved since
    the mark were written back newest first ([undo]). *)
Theorem trail_round_trip (ext : Extern) (t0 : Trail) (mem0 : Memory)
    (ops : list SaveOp) (m0 : StateMarker) :
  ExternOk ext -> trail_wf ext t0 -> saved_before_write [] ops = true ->
  exists t1 mem1 t2 mem2 (cells : Kind -> list addrval)
         (bools : list (Z * bool)),
    save_run ext ops (t0, mem0) = Some (t1, mem1) /\
    BacktrackTo ext (mark_Trail t0 m0) t1 mem1 = Some (t2, mem2) /\
    (forall k a, read k a mem2 = read k a mem0) /\
    (forall a, read_bool a mem2 = read_bool a mem0) /\
    mark_Trail t2 (mark_Trail t0 m0) = mark_Trail t0 m0 /\
    (forall k, exists l,
       ct_rep ext (rev_cells k t0) l /\
       ct_rep ext (rev_cells k t1) (l ++ cells k) /\
       ct_rep ext (rev_cells k t2) l) /\
    (forall k, heap k mem2 = undo (cell_pair <$> cells k) (heap k mem1)) /\
    rev_bools_ t1 = rev_bools_ t0 ++ bools.*1 /\
    rev_bool_value_ t1 = rev_bool_value_ t0 ++ bools.*2 /\
    rev_bools_ t2 = rev_bools_ t0 /\
    rev_bool_value_ t2 = rev_bool_value_ t0 /\
    mem_bool mem2 = undo bools (mem_bool mem1).
Proof.
  intros Hok [Hrep Hlen] Hops.
  destruct (Hrep K_int) as [l1 H1], (Hrep K_int64) as [l2 H2],
    (Hrep K_uint64) as [l3 H3], (Hrep K_ptr) as [l4 H4].
  set (l0 := fun k => match k with
                      | K_int => l1 | K_int64 => l2
                      | K_uint64 => l3 | K_ptr => l4 end).
  assert (forall k, ct_rep ext (rev_cells k t0) (l0 k)) as Hl0
    by (by intros []).
  destruct (save_run_inv ext Hok l0 t0 mem0 ops [] t0 mem0 _ _
              (saved_inv_init ext l0 t0 mem0 Hl0) Hops)
    as (t1 & mem1 & saved & cells & bools & Hrun & Hinv).
  destruct Hinv.
  destruct (backtrack_cells_spec ext (cells K_int) _ _ (mem_int mem1)
              (si_rep0 K_int)) as (c1 & Hb1 & Hc1).
  destruct (backtrack_cells_spec ext (cells K_int64) _ _ (mem_int64 mem1)
              (si_rep0 K_int64)) as (c2 & Hb2 & Hc2).
  destruct (backtrack_cells_spec ext (cells K_uint64) _ _ (mem_uint64 mem1)
              (si_rep0 K_uint64)) as (c3 & Hb3 & Hc3).
  destruct (backtrack_cells_spec ext (cells K_ptr) _ _ (mem_ptr mem1)
              (si_rep0 K_ptr)) as (c4 & Hb4 & Hc4).
  simpl in *.
  pose proof (restore_bools_spec bools (rev_bools_ t0) []
                (rev_bool_value_ t0) [] (mem_bool mem1) Hlen) as Hbools.
  rewrite !app_nil_r, <- si_bools0, <- si_bool_value0 in Hbools.
  eexists t1, mem1, _, _, cells, bools.
  split; [done|]. split.
  { unfold BacktrackTo, mark_Trail. simpl. unfold ct_size.
    rewrite (ct_rep_size ext _ _ H1), (ct_rep_size ext _ _ H2),
      (ct_rep_size ext _ _ H3), (ct_rep_size ext _ _ H4).
    rewrite Hb1. simpl. rewrite Hb2. simpl. rewrite Hb3. simpl.
    rewrite Hb4. simpl.
    replace (Z.to_nat (vec_size (rev_bools_ t1) - vec_size (rev_bools_ t0)))
      with (length bools).
    2:{ unfold vec_size. rewrite si_bools0, length_app, length_fmap. lia. }
    replace (vec_size (rev_bools_ t1) - 1) with
      (Z.of_nat (length (rev_bools_ t0)) + Z.of_nat (length bools) - 1).
    2:{ unfold vec_size. rewrite si_bools0, length_app, length_fmap. lia. }
    rewrite Hbools. simpl. reflexivity. }
  split.
  { intros k a. unfold read.
    rewrite <- (si_undo0 k a). by destruct k. }
  split.
  { intros a. unfold read_bool. simpl. apply si_undo_bool0. }
  split.
  { unfold mark_Trail. simpl. unfold ct_size.
    rewrite (ct_rep_size ext _ _ H1), (ct_rep_size ext _ _ H2),
      (ct_rep_size ext _ _ H3), (ct_rep_size ext _ _ H4),
      (ct_rep_size ext _ _ Hc1), (ct_rep_size ext _ _ Hc2),
      (ct_rep_size ext _ _ Hc3), (ct_rep_size ext _ _ Hc4).
    rewrite si_bools0, si_boolvar0, si_int_memory0, si_int64_memory0,
      si_object_memory0, si_object_array_memory0, si_memory0,
      si_memory_array0.
    rewrite !vec_resize_size, !vec_resize_app. done. }
  split.
  { intros k. exists (l0 k). split; [done|]. split; [done|].
    by destruct k. }
  split; [by intros []|].
  split; [done|]. split; [done|]. simpl.
  rewrite si_bools0, si_bool_value0.
  split; [apply vec_resize_app|]. split; [|done].
  replace (vec_size (rev_bools_ t0)) with (vec_size (rev_bool_value_ t0))
    by (unfold vec_size; lia).
  apply vec_resize_app.
Qed.

(** ** Every run of [exec] is a sequence of steps *)

Section ExecSteps.
Context (ext : Extern) (client : Client).

Local Abbreviation steps := (rtc (step ext client)).
Local Abbreviation good := (good ext client).

Lemma good_bind {A B} (m : M A) (k : A -> M B) s (P1 P : Solver -> Prop) :
  good s (m s) P1 ->
  (forall a s', m s = Done a s' -> P1 s' -> good s' (k a s') P) ->
  good s (bind m k s) P.
Proof.
  unfold good, bind. destruct (m s) as [a s'| | |]; simpl;
    intros [H1 HP] H2; try done.
  destruct (H2 a s' eq_refl HP) as [H3 H4]. split; [|done].
  by etransitivity.
Qed.

Lemma good_weaken {A} s (r : Res A) (P Q : Solver -> Prop) :
  good s r P -> (forall s', P s' -> Q s') -> good s r Q.
Proof. intros [H1 H2] HPQ. split; [done|]. destruct r; auto. Qed.

Lemma good_modify (f : Solver -> Solver) s (P : Solver -> Prop) :
  step ext client s (f s) -> P (f s) -> good s (modify f s) P.
Proof. intros H HP. split; [by apply rtc_once|done]. Qed.

Lemma good_checked (f : Solver -> option Solver) s :
  (forall s', f s = Some s' -> step ext client s s') ->
  good s (checked f s) (fun _ => True).
Proof.
  intros H. unfold checked. destruct (f s) eqn:E; simpl; [|done].
  split; [|done]. apply rtc_once. by apply H.
Qed.

Lemma good_ret {A} (a : A) s (P : Solver -> Prop) : P s -> good s (ret a s) P.
Proof. by split. Qed.

Ltac good_true := eapply good_weaken; [|by intros].

Lemma Fifo_Empty_true q : Fifo_Empty q = true -> first_ q = [].
Proof. unfold Fifo_Empty. by destruct (first_ q). Qed.

Lemma exec_good fuel : forall c s,
  cmd_pre c s -> good s (exec ext client fuel c s) (cmd_post c).
Proof.
  induction fuel as [|f IH]; intros c s Hpre; [done|].
  assert (forall c s, cmd_pre c s ->
            good s (exec ext client f c s) (fun _ => True)) as IH'.
  { intros c' s' H'. eapply good_weaken; [by apply IH|done]. }
  destruct c; simpl.
  - (* CScript *)
    destruct sc as [|a rest]; [done|].
    eapply good_bind; [by apply IH'|intros; by apply IH'].
  - (* CApi *)
    destruct a; try (by apply IH');
      try (apply good_modify; [by constructor|done]);
      try (apply good_checked; intros s' Hs'; by econstructor).
    + (* PopState *)
      destruct (PopState ext s) as [[[t info] s']|] eqn:E; [|done].
      assert (steps s s') by (apply rtc_once; by econstructor).
      by destruct t.
  - (* CEnqueue *)
    unfold bind at 1. simpl.
    destruct (Z.ltb_spec (demon_stamp d s) (stamp_ (queue_ s))); [|done].
    eapply good_bind;
      [apply good_modify with (P := fun _ => True); [by constructor|done]|].
    intros. by apply IH'.
  - (* CUnfreeze *)
    eapply good_bind;
      [apply good_modify with (P := fun _ => True); [by constructor|done]|].
    intros. by apply IH'.
  - (* CProcessIfUnfrozen *)
    unfold bind at 1. simpl. destruct (_ =? 0); [by apply IH'|done].
  - (* CProcess *)
    unfold bind at 1. simpl. destruct (in_process_ _); [done|].
    eapply good_bind;
      [apply good_modify with (P := fun _ => True); [by constructor|done]|].
    intros. eapply good_bind; [by apply IH'|intros].
    apply good_modify; [by constructor|done].
  - (* CProcess_while_any *)
    unfold bind at 1. simpl. destruct (_ || _); [|done].
    eapply good_bind; [by apply (IH CProcess_while_var_or_normal)|].
    intros _ s1 _ Hempty.
    eapply good_bind;
      [apply (IH' (CProcessOneDemon DELAYED_PRIORITY)); exact Hempty|].
    intros. by apply IH'.
  - (* CProcess_while_var_or_normal *)
    unfold bind at 1. simpl.
    destruct (negb (Fifo_Empty (at_VAR _))) eqn:Ev;
      destruct (negb (Fifo_Empty (at_NORMAL _))) eqn:En;
      simpl;
      try (eapply good_bind; [by apply (IH CProcessNormalDemons)|];
           intros _ s1 _ Hempty;
           eapply good_bind;
             [apply (IH' (CProcessOneDemon VAR_PRIORITY)); exact Hempty|];
           intros; by apply (IH CProcess_while_var_or_normal)).
    apply good_ret. apply negb_false_iff in Ev, En.
    split; by apply Fifo_Empty_true.
  - (* CProcessNormalDemons *)
    unfold bind at 1. simpl.
    destruct (negb (Fifo_Empty (at_NORMAL _))) eqn:En.
    + eapply good_bind; [by apply (IH' (CProcessOneDemon NORMAL_PRIORITY))|].
      intros. by apply (IH CProcessNormalDemons).
    + apply good_ret. apply negb_false_iff in En. by apply Fifo_Empty_true.
  - (* CProcessOneDemon *)
    unfold bind at 1. simpl.
    destruct (Fifo_NextDemon (container prio s)) as [[d|] rest] eqn:E;
      [|done].
    eapply good_bind;
      [apply good_modify with (P := fun _ => True); [by constructor|done]|].
    intros. unfold bind at 1. simpl. by apply IH'.
  - (* CSolverAddConstraint *)
    unfold bind at 1. simpl.
    destruct (state_ s) eqn:E; try (by apply IH');
      try (apply good_modify; [constructor; congruence|done]).
    apply good_checked. intros s' Hs'. by eapply step_AddConstraint_root.
  - (* CQueueAddConstraint *)
    eapply good_bind;
      [apply good_modify with (P := fun _ => True); [by constructor|done]|].
    intros. by apply IH'.
  - (* CQueueProcessConstraints *)
    unfold bind at 1. simpl. destruct (in_add_ _); [done|].
    eapply good_bind;
      [apply good_modify with (P := fun _ => True); [by constructor|done]|].
    intros. eapply good_bind; [by apply IH'|intros].
    apply good_modify; [by constructor|done].
  - (* CQueueProcessConstraints_for *)
    unfold bind at 1. simpl. destruct (_ !! _); [|done].
    eapply good_bind; [by apply IH'|intros; by apply IH'].
  - (* CPostAndPropagate *)
    eapply good_bind;
      [apply good_modify with (P := fun _ => True); [by constructor|done]|].
    intros. unfold bind at 1. simpl.
    eapply good_bind; [by apply IH'|intros].
    unfold bind at 1. simpl.
    eapply good_bind; [by apply IH'|intros; by apply IH'].
  - (* CFail *)
    unfold bind at 1. simpl. destruct (fail_intercept_ s); [by apply IH'|].
    eapply good_bind;
      [apply good_modify with (P := fun _ => True); [by constructor|done]|].
    intros. eapply good_bind; [by apply IH'|intros; by apply IH'].
  - (* CSearchHook *)
    unfold bind at 1. simpl. destruct (_ !! _); [|done].
    eapply good_bind;
      [apply good_modify with (P := fun _ => True); [by constructor|done]|].
    intros. unfold bind at 1. simpl.
    eapply good_bind; [by apply IH'|intros; by apply IH'].
  - (* CJumpBack *)
    unfold bind at 1. simpl.
    destruct (jmpbuf_filled_ (search_ s)) eqn:E; [|by apply IH'].
    split; [|done]. simpl. apply rtc_once. by constructor.
Qed.

Lemma exec_steps fuel c s :
  cmd_pre c s -> steps s (state_of (exec ext client fuel c s)).
Proof. intros H. by apply exec_good. Qed.

End ExecSteps.


(** ** What every step keeps *)

Lemma PopState_Some ext s t info s' :
  PopState ext s = Some (t, info, s') ->
  exists m rest tr mem,
    marker_stack_ (search_ s) = m :: rest /\ t = type_ m /\ info = info_ m /\
    (if negb (bool_decide (type_ m = REVERSIBLE_ACTION))
        || (int_info (info_ m) =? 0)
     then BacktrackTo ext m (trail_ s) (memory_ s) = Some (tr, mem)
     else tr = trail_ s /\ mem = memory_ s) /\
    s' = increase_stamp (upd_search (set_marker_stack_ rest)
           (set_memory_ mem (set_trail_ tr s))).
Proof.
  unfold PopState. destruct (marker_stack_ (search_ s)) as [|m rest]; [done|].
  destruct (negb _ || _) eqn:Hc.
  - destruct (BacktrackTo ext m (trail_ s) (memory_ s)) as [[tr mem]|] eqn:E;
      [|done].
    simpl. intros [= <- <- <-]. exists m, rest, tr, mem. by rewrite Hc.
  - simpl. intros [= <- <- <-].
    exists m, rest, (trail_ s), (memory_ s). by rewrite Hc.
Qed.

Lemma SaveValue_Some ext k valptr s s' :
  SaveValue ext k valptr s = Some s' ->
  exists tr, InternalSaveValue ext k valptr (trail_ s) (memory_ s) = Some tr /\
             s' = set_trail_ tr s.
Proof.
  unfold SaveValue.
  destruct (InternalSaveValue ext k valptr (trail_ s) (memory_ s)) as [tr|];
    [|done].
  simpl. intros [= <-]. eauto.
Qed.

Lemma SaveAndSetValue_Some ext k adr val s s' :
  SaveAndSetValue ext k adr val s = Some s' ->
  exists tr, InternalSaveValue ext k adr (trail_ s) (memory_ s) = Some tr /\
             s' = set_memory_ (write k adr val (memory_ s)) (set_trail_ tr s).
Proof.
  unfold SaveAndSetValue. destruct (SaveValue ext k adr s) as [s1|] eqn:E;
    [|done].
  apply SaveValue_Some in E as (tr & Htr & ->). simpl. intros [= <-]. eauto.
Qed.

Lemma inhibit_Some ext d s s' :
  inhibit ext d s = Some s' ->
  s' = s \/
  exists tr v, s' = set_memory_ (write K_uint64 d v (memory_ s))
                      (set_trail_ tr s).
Proof.
  unfold inhibit. destruct (_ <? _).
  - intros H. apply SaveAndSetValue_Some in H as (tr & _ & ->). eauto.
  - intros [= <-]. by left.
Qed.

Lemma desinhibit_Some ext d s s' :
  desinhibit ext d s = Some s' ->
  s' = s \/
  exists tr v, s' = set_memory_ (write K_uint64 d v (memory_ s))
                      (set_trail_ tr s).
Proof.
  unfold desinhibit. destruct (_ =? _).
  - intros H. apply SaveAndSetValue_Some in H as (tr & _ & ->). eauto.
  - intros [= <-]. by left.
Qed.

Lemma RevAlloc_Some k ptr s s' :
  RevAlloc k ptr s = Some s' -> s' = upd_trail (rev_alloc_push k ptr) s.
Proof. unfold RevAlloc. destruct (check_alloc_state s); by intros [= <-]. Qed.

Lemma AddConstraint_root_Some c s s' :
  AddConstraint_root c s = Some s' ->
  exists parent,
    s' = set_additional_constraints_parent_list_
           (additional_constraints_parent_list_ s ++ [parent])
           (set_additional_constraints_list_
              (additional_constraints_list_ s ++ [c]) s).
Proof.
  unfold AddConstraint_root.
  destruct (if constraint_index_ s =? _ then _ else _) as [parent|]; [|done].
  simpl. intros [= <-]. eauto.
Qed.

Ltac case_if :=
  match goal with
  | |- context [if ?b then _ else _] => destruct b eqn:?
  end.

(** Putting a step in its explicit form. *)
Ltac step_inv H :=
  destruct H;
  repeat match goal with
  | H : PopState _ _ = Some _ |- _ =>
      apply PopState_Some in H as (?m & ?rest & ?tr & ?mem & ? & ? & ? & ? & ?)
  | H : SaveValue _ _ _ _ = Some _ |- _ =>
      apply SaveValue_Some in H as (?tr & ? & ?)
  | H : inhibit _ _ _ = Some _ |- _ =>
      apply inhibit_Some in H as [?|(?tr & ?v & ?)]
  | H : desinhibit _ _ _ = Some _ |- _ =>
      apply desinhibit_Some in H as [?|(?tr & ?v & ?)]
  | H : RevAlloc _ _ _ = Some _ |- _ => apply RevAlloc_Some in H
  | H : AddConstraint_root _ _ = Some _ |- _ =>
      apply AddConstraint_root_Some in H as (?parent & ?)
  end;
  subst.

Lemma enqueued_app client p t1 t2 :
  enqueued client p (t2 ++ t1) = enqueued client p t1 ++ enqueued client p t2.
Proof.
  induction t2 as [|e t2 IH]; simpl; [by rewrite app_nil_r|].
  by rewrite IH, app_assoc.
Qed.

Lemma dispatched_app p t1 t2 :
  dispatched p (t2 ++ t1) = dispatched p t1 ++ dispatched p t2.
Proof.
  induction t2 as [|e t2 IH]; simpl; [by rewrite app_nil_r|].
  by rewrite IH, app_assoc.
Qed.

Lemma stamp_increases_app t1 t2 :
  stamp_increases (t2 ++ t1) = stamp_increases t1 + stamp_increases t2.
Proof.
  induction t2 as [|e t2 IH]; simpl; [lia|]. destruct e; lia.
Qed.

Lemma stamp_increases_nonneg t : 0 <= stamp_increases t.
Proof. induction t as [|[] t IH]; simpl; lia. Qed.

Lemma wrap64_add_l x y : wrap64 (wrap64 x + y) = wrap64 (x + y).
Proof. unfold wrap64. by rewrite Zplus_mod_idemp_l. Qed.

Lemma wrap64_idemp x : wrap64 (wrap64 x) = wrap64 x.
Proof. unfold wrap64. by rewrite Zmod_mod. Qed.

Lemma wrap64_small x : 0 <= x < 2 ^ 64 -> wrap64 x = x.
Proof. intros. unfold wrap64. by apply Z.mod_small. Qed.

Lemma wrap64_range x : 0 <= wrap64 x < 2 ^ 64.
Proof. unfold wrap64. apply Z.mod_pos_bound. lia. Qed.

Section RunFacts.
Context (ext : Extern) (client : Client).

Lemma run_rel_refl s : run_rel client s s [].
Proof. split; try done. - intros p. simpl. by rewrite app_nil_r. - simpl. by rewrite Z.add_0_r. Qed.

Lemma run_rel_trans s1 s2 s3 t1 t2 :
  run_rel client s1 s2 t1 -> run_rel client s2 s3 t2 ->
  run_rel client s1 s3 (t2 ++ t1).
Proof.
  intros [] []. split; try congruence.
  - rewrite rr_trace1, rr_trace0. by rewrite app_assoc.
  - by apply Forall_app.
  - intros p. rewrite enqueued_app, dispatched_app.
    rewrite app_assoc, rr_fifo0, <- app_assoc, rr_fifo1.
    by rewrite app_assoc.
  - rewrite rr_stamp1, stamp_increases_app, <- wrap64_add_l, rr_stamp0.
    rewrite wrap64_add_l. f_equal. lia.
  - by etransitivity.
  - by etransitivity.
  - intros H. rewrite rr_clist_root1 by congruence. by apply rr_clist_root0.
  - auto.
  - intros H. apply Forall_app. auto.
Qed.

End RunFacts.


Lemma Fifo_NextDemon_Some q d rest :
  Fifo_NextDemon q = (Some d, rest) ->
  first_ q = d :: first_ rest.
Proof.
  unfold Fifo_NextDemon. destruct (first_ q) as [|d' l]; [done|].
  by intros [= -> <-].
Qed.

Lemma pending_set_container p p' c s :
  pending p (set_container p' c s)
  = if decide (p = p') then first_ c else pending p s.
Proof. by destruct p, p'. Qed.

Section StepFacts.
Context (ext : Extern) (client : Client).

Lemma step_wf_pending s s' :
  step ext client s s' -> wf_pending client s -> wf_pending client s'.
Proof.
  unfold wf_pending. intros H. step_inv H; try done.
  - (* enqueue *)
    intros Hwf p d'. unfold enqueue.
    change (pending p (log ?e ?x)) with (pending p x).
    rewrite pending_set_container. case_decide as Hp; [|apply Hwf].
    subst p. simpl. intros Hin. apply elem_of_app in Hin as [Hin|Hin].
    + by apply Hwf.
    + apply list_elem_of_singleton in Hin. by subst.
  - (* dispatch *)
    intros Hwf p d'.
    change (pending p (dispatch prio d rest s))
      with (pending p (set_container prio rest s)).
    rewrite pending_set_container. case_decide as Hp; [|apply Hwf].
    subst p. intros Hin. apply Hwf. unfold pending.
    erewrite Fifo_NextDemon_Some by done. by right.
Qed.

Ltac rr_easy :=
  split; simpl; try done;
  try (intros ?; simpl; by rewrite ?app_nil_r);
  try (by repeat constructor);
  try (by rewrite ?Z.add_0_r, ?wrap64_idemp).

Lemma step_run_rel s s' :
  step ext client s s' -> exists t, run_rel client s s' t.
Proof.
  intros H. pose proof (step_wf_pending _ _ H) as Hwf. step_inv H;
    try (exists []; rr_easy; fail);
    try (exists [EvStampIncrease]; rr_easy; fail).
  - (* push_monitor *)
    exists []. rr_easy. by apply prefix_app_r.
  - (* enqueue *)
    exists [EvEnqueue d]. rr_easy.
    intros p. simpl. unfold enqueue.
    change (pending p (log ?e ?x)) with (pending p x).
    rewrite pending_set_container. case_decide as Hp.
    + subst p. by rewrite decide_True.
    + rewrite decide_False by done. by rewrite app_nil_r.
  - (* dispatch *)
    exists [EvDemonRun prio d (pending NORMAL_PRIORITY
                                 (set_container prio rest s))
              (pending VAR_PRIORITY (set_container prio rest s))].
    rr_easy.
    + intros p. simpl.
      change (pending p (dispatch prio d rest s))
        with (pending p (set_container prio rest s)).
      rewrite pending_set_container. case_decide as Hp.
      * subst p. rewrite decide_True by done. rewrite app_nil_r.
        unfold pending. by erewrite Fifo_NextDemon_Some.
      * rewrite decide_False by done. by rewrite app_nil_r.
    + intros Hs. constructor; [|done]. simpl. split.
      * apply Hs. unfold pending. erewrite Fifo_NextDemon_Some by done.
        by left.
      * rewrite !pending_set_container.
        destruct prio; simpl in *; done.
  - (* AddConstraint_model *)
    exists []. rr_easy. by apply prefix_app_r.
  - (* hook *)
    exists [EvHook h m]. rr_easy.
Qed.

Lemma steps_run_rel s s' :
  rtc (step ext client) s s' -> exists t, run_rel client s s' t.
Proof.
  induction 1 as [s|s1 s2 s3 H12 _ [t2 IH]].
  - exists []. apply run_rel_refl.
  - destruct (step_run_rel _ _ H12) as [t1 H1].
    exists (t2 ++ t1). by eapply run_rel_trans.
Qed.

Lemma exec_run_rel fuel c s :
  cmd_pre c s ->
  exists t, run_rel client s (state_of (exec ext client fuel c s)) t.
Proof. intros H. by apply steps_run_rel, exec_steps. Qed.

Lemma step_stamp_in_range s s' :
  step ext client s s' -> stamp_in_range s -> stamp_in_range s'.
Proof.
  unfold stamp_in_range. intros H. step_inv H; simpl; try done;
    intros _; apply wrap64_range.
Qed.

Lemma steps_stamp_in_range s s' :
  rtc (step ext client) s s' -> stamp_in_range s -> stamp_in_range s'.
Proof. induction 1; eauto using step_stamp_in_range. Qed.

Lemma exec_stamp_in_range fuel c s :
  cmd_pre c s -> stamp_in_range s ->
  stamp_in_range (state_of (exec ext client fuel c s)).
Proof. intros Hpre. by apply steps_stamp_in_range, exec_steps. Qed.

End StepFacts.


(** ** The queue *)

Lemma wf_pending_new_Solver client bs level tracer profiler :
  wf_pending client (new_Solver bs level tracer profiler).
Proof. intros [] d Hd; by apply elem_of_nil in Hd. Qed.

(** C3. In every run of [Queue::Process], however far it gets: each demon
    run comes from the queue of its priority, a DELAYED demon is run only
    when nothing is pending in the NORMAL and VAR queues, a VAR demon only
    when nothing is pending in the NORMAL queue; and in each priority the
    demons run are, in order, the first of those that were pending
    followed by those enqueued. *)
Theorem process_priority_fifo (ext : Extern) (client : Client) (fuel : nat)
    (s : Solver) :
  wf_pending client s ->
  exists t,
    trace (state_of (exec ext client fuel CProcess s)) = t ++ trace s /\
    Forall (dispatch_ok client) t /\
    forall p,
      pending p s ++ enqueued client p t
      = dispatched p t
        ++ pending p (state_of (exec ext client fuel CProcess s)).
Proof.
  intros Hwf.
  destruct (exec_run_rel ext client fuel CProcess s I) as [t Hrr].
  exists t. destruct Hrr. auto.
Qed.

Lemma process_priority_fifo_witness :
  wf_pending demo_client demo_frozen /\
  exists t,
    trace (state_of (exec stored_extern demo_client 30 CProcess demo_frozen))
      = t ++ trace demo_frozen /\
    Forall (dispatch_ok demo_client) t /\
    forall p,
      pending p demo_frozen ++ enqueued demo_client p t
      = dispatched p t
        ++ pending p
             (state_of (exec stored_extern demo_client 30 CProcess
                          demo_frozen)).
Proof.
  assert (wf_pending demo_client demo_frozen) as Hwf.
  { destruct (exec_run_rel stored_extern demo_client 10
                (CScript [ApiFreezeQueue; ApiEnqueue 300; ApiEnqueue 200;
                          ApiEnqueue 101]) demo_Solver I) as [t Hrr].
    apply (rr_wf _ _ _ _ Hrr). apply wf_pending_new_Solver. }
  split; [exact Hwf|].
  exact (process_priority_fifo stored_extern demo_client 30 demo_frozen Hwf).
Defined.


(** C4, as stated, fails: demon 100 enqueues itself while it runs; one
    call of [Enqueue] on it starts one [Process], in which it is run
    twice, and the stamp of the queue is not increased in between. *)
Lemma demon_dispatched_twice :
  let s' := state_of (exec stored_extern demo_client 20
                        (CApi (ApiEnqueue 100)) demo_Solver) in
  trace s' = [EvDemonRun NORMAL_PRIORITY 100 [] []; EvEnqueue 100;
              EvDemonRun NORMAL_PRIORITY 100 [] []; EvEnqueue 100]
             ++ trace demo_Solver /\
  stamp_ (queue_ s') = stamp_ (queue_ demo_Solver).
Proof. by vm_compute. Qed.

Section EnqueueFacts.
Context (ext : Extern) (client : Client).

Lemma exec_Enqueue_frozen fuel d s :
  freeze_level_ (queue_ s) <> 0 ->
  exec ext client (S (S (S fuel))) (CApi (ApiEnqueue d)) s
  = Done tt (if demon_stamp d s <? stamp_ (queue_ s)
             then enqueue client d s else s).
Proof.
  intros Hf. simpl. unfold bind. simpl.
  destruct (demon_stamp d s <? stamp_ (queue_ s)); [|done].
  simpl. by apply Z.eqb_neq in Hf as ->.
Qed.

Lemma demon_stamp_enqueue d d' s :
  demon_stamp d' (enqueue client d s)
  = if decide (d' = d) then stamp_ (queue_ s) else demon_stamp d' s.
Proof.
  unfold demon_stamp, enqueue, read, load. simpl.
  case_decide as Hd.
  - subst. by rewrite lookup_insert_eq.
  - by rewrite lookup_insert_ne.
Qed.

Lemma enqueue_frozen_run (ds : list Z) : forall s fuel,
  freeze_level_ (queue_ s) <> 0 ->
  (length ds + 4 <= fuel)%nat ->
  exists s' (added : DemonPriority -> list Z),
    exec ext client fuel (CScript (ApiEnqueue <$> ds)) s = Done tt s' /\
    stamp_ (queue_ s') = stamp_ (queue_ s) /\
    freeze_level_ (queue_ s') = freeze_level_ (queue_ s) /\
    (forall p, pending p s' = pending p s ++ added p) /\
    (forall p d, d ∈ added p ->
       d ∈ ds /\ priority client d = p /\
       demon_stamp d s < stamp_ (queue_ s)) /\
    (forall p, NoDup (added p)) /\
    (forall d, demon_stamp d s' = demon_stamp d s \/
               demon_stamp d s' = stamp_ (queue_ s)).
Proof.
  induction ds as [|d ds IH]; intros s fuel Hf Hfuel.
  - destruct fuel as [|fuel]; [simpl in Hfuel; lia|].
    exists s, (fun _ => []). simpl. split; [done|].
    split; [done|]. split; [done|]. split; [|split; [|split]].
    + intros p. by rewrite app_nil_r.
    + intros p d Hin. by apply elem_of_nil in Hin.
    + intros p. constructor.
    + by left.
  - destruct fuel as [|[|[|[|fuel]]]]; simpl in Hfuel; try lia.
    change (exec ext client (S (S (S (S fuel))))
              (CScript (ApiEnqueue <$> d :: ds)) s)
      with (bind (exec ext client (S (S (S fuel))) (CApi (ApiEnqueue d)))
              (fun _ => exec ext client (S (S (S fuel)))
                          (CScript (ApiEnqueue <$> ds))) s).
    unfold bind. rewrite exec_Enqueue_frozen by done.
    destruct (Z.ltb_spec (demon_stamp d s) (stamp_ (queue_ s))) as [Hlt|Hge].
    + destruct (IH (enqueue client d s) (S (S (S fuel)))) as
        (s' & added & Hrun & Hstamp & Hfreeze & Hpend & Hadded & Hnodup & Hst);
        [done|lia|].
      exists s', (fun p => if decide (priority client d = p)
                           then d :: added p else added p).
      split; [done|]. split; [done|]. split; [done|].
      split; [|split; [|split]].
      * intros p. rewrite Hpend. unfold enqueue.
        change (pending p (log ?e ?x)) with (pending p x).
        rewrite pending_set_container. case_decide as Hp.
        -- subst p. rewrite decide_True by done. simpl.
           by rewrite <- app_assoc.
        -- by rewrite decide_False.
      * intros p d' Hin.
        assert (d' = d /\ priority client d = p \/ d' ∈ added p) as [[-> <-]|Hin'].
        { case_decide; [|by right].
          apply elem_of_cons in Hin as [->|Hin]; [by left|by right]. }
        -- split; [by left|done].
        -- destruct (Hadded p d' Hin') as (H1 & H2 & H3).
           split; [by right|]. split; [done|].
           rewrite demon_stamp_enqueue in H3. case_decide; [|done].
           simpl in H3. lia.
      * intros p. case_decide as Hp; [|done]. constructor; [|done].
        intros Hin. destruct (Hadded p d Hin) as (_ & _ & H3).
        rewrite demon_stamp_enqueue, decide_True in H3 by done.
        simpl in H3. lia.
      * intros d'. destruct (Hst d') as [Hd'|Hd'].
        -- rewrite demon_stamp_enqueue in Hd'. case_decide; [by right|by left].
        -- by right.
    + destruct (IH s (S (S (S fuel)))) as
        (s' & added & Hrun & Hstamp & Hfreeze & Hpend & Hadded & Hnodup & Hst);
        [done|lia|].
      exists s', added. split; [done|]. split; [done|]. split; [done|].
      split; [done|]. split; [|done].
      intros p d' Hin. destruct (Hadded p d' Hin) as (H1 & H2 & H3).
      split; [by right|done].
Qed.

End EnqueueFacts.

(** ** Enqueueing once *)

Section OnceFacts.
Context (ext : Extern) (client : Client).

Lemma demon_stamp_set d d' v s :
  demon_stamp d' (set_demon_stamp d v s)
  = if decide (d' = d) then v else demon_stamp d' s.
Proof.
  unfold demon_stamp, set_demon_stamp, read, load. simpl.
  case_decide as Hd.
  - subst. by rewrite lookup_insert_eq.
  - by rewrite lookup_insert_ne.
Qed.

Lemma once_enqueue d s :
  eligible d s -> once client s -> once client (enqueue client d s).
Proof.
  intros He (Hr & Hwf & Ho).
  assert (forall p, d ∉ pending p s) as Hnot.
  { intros p Hin. by apply (proj2 (Ho p)) in Hin. }
  split; [exact Hr|]. split.
  { apply (step_wf_pending ext client s); [by constructor|done]. }
  intros p. unfold enqueue.
  change (pending p (log ?e ?x)) with (pending p x).
  rewrite pending_set_container.
  assert (forall d', ~ eligible d' s ->
            ~ eligible d' (enqueue client d s)) as Hkeep.
  { intros d' Hd'. unfold eligible in *.
    rewrite demon_stamp_enqueue. simpl. case_decide; [lia|done]. }
  assert (~ eligible d (enqueue client d s)) as Hd.
  { unfold eligible. rewrite demon_stamp_enqueue, decide_True by done.
    simpl. lia. }
  case_decide as Hp.
  - subst p. simpl. split.
    + apply NoDup_app. split; [apply Ho|]. split; [|apply NoDup_singleton].
      intros x Hx Hx'. apply list_elem_of_singleton in Hx'. subst x.
      by apply (Hnot (priority client d)).
    + intros d' Hin. apply elem_of_app in Hin as [Hin|Hin].
      * apply Hkeep. by apply (Ho (priority client d)).
      * apply list_elem_of_singleton in Hin. by subst d'.
  - split; [apply Ho|]. intros d' Hin. apply Hkeep. by apply (Ho p).
Qed.

Lemma once_dispatch prio d rest s :
  Fifo_NextDemon (container prio s) = (Some d, rest) ->
  once client s -> once client (dispatch prio d rest s).
Proof.
  intros Hn (Hr & Hwf & Ho).
  pose proof (Fifo_NextDemon_Some _ _ _ Hn) as Hq.
  assert (pending prio s = d :: first_ rest) as Hpend by exact Hq.
  assert (forall p, pending p (dispatch prio d rest s)
                    = if decide (p = prio) then first_ rest
                      else pending p s) as Hp'.
  { intros p.
    change (pending p (dispatch prio d rest s))
      with (pending p (set_container prio rest s)).
    apply pending_set_container. }
  assert (forall p, d ∉ pending p (dispatch prio d rest s)) as Hnot.
  { intros p. rewrite Hp'. case_decide as Hp.
    - destruct (Ho prio) as [Hnd _]. rewrite Hpend in Hnd.
      by apply NoDup_cons in Hnd as [? _].
    - intros Hin. apply Hwf in Hin. apply Hp. rewrite <- Hin.
      apply Hwf. rewrite Hpend. by left. }
  split; [exact Hr|]. split.
  { intros p d' Hin. rewrite Hp' in Hin. case_decide as Hp.
    - subst p. apply Hwf. rewrite Hpend. by right.
    - by apply Hwf. }
  intros p. split.
  - rewrite Hp'. case_decide as Hp; [|apply Ho].
    destruct (Ho prio) as [Hnd _]. rewrite Hpend in Hnd.
    by apply NoDup_cons in Hnd as [_ ?].
  - intros d' Hin.
    assert (d' <> d) as Hne by (intros ->; by apply (Hnot p)).
    assert (d' ∈ pending p s) as Hin'.
    { rewrite Hp' in Hin. case_decide as Hp; [|done].
      subst p. rewrite Hpend. by right. }
    apply (proj2 (Ho p)) in Hin'. unfold eligible in *.
    change (demon_stamp d' (dispatch prio d rest s))
      with (demon_stamp d'
              (set_demon_stamp d
                 (wrap64 (stamp_ (queue_ (set_container prio rest s)) - 1))
                 (set_container prio rest s))).
    rewrite demon_stamp_set, decide_False by done. exact Hin'.
Qed.

Lemma inhibit_Some_max d s s' :
  inhibit ext d s = Some s' ->
  s' = s \/
  exists tr, s' = set_memory_ (write K_uint64 d kuint64max (memory_ s))
                    (set_trail_ tr s).
Proof.
  unfold inhibit. destruct (_ <? _).
  - intros H. apply SaveAndSetValue_Some in H as (tr & _ & ->). eauto.
  - intros [= <-]. by left.
Qed.

Lemma increase_stamp_rearms s s0 :
  stamp_in_range s -> stamp_ (queue_ s0) = stamp_ (queue_ s) ->
  rearms ext s (increase_stamp s0).
Proof.
  intros Hr Hs. apply rearms_stamp. simpl. rewrite Hs.
  unfold stamp_in_range in Hr. unfold wrap64.
  destruct (Z.eq_dec (stamp_ (queue_ s) + 1) (2 ^ 64)) as [E|E].
  - rewrite E, Z_mod_same_full. lia.
  - rewrite Z.mod_small by lia. lia.
Qed.

(** Every step keeps [once] or is one of those that re-arm. *)
Lemma step_once s s' :
  step ext client s s' -> once client s ->
  once client s' \/ rearms ext s s'.
Proof.
  intros H Ho. pose proof Ho as (Hr & Hwf & Hp).
  destruct H;
    try (left; exact Ho);
    try (right; by apply increase_stamp_rearms).
  - (* PopState *)
    right. apply PopState_Some in H
      as (m & rest & tr & mem & _ & _ & _ & _ & ->).
    by apply increase_stamp_rearms.
  - (* SaveValue *)
    left. apply SaveValue_Some in H as (tr & _ & ->). exact Ho.
  - (* RevAlloc *)
    left. apply RevAlloc_Some in H as ->. exact Ho.
  - (* write *)
    destruct k; try (left; exact Ho). right. apply rearms_write.
  - (* inhibit *)
    left. apply inhibit_Some_max in H as [->|(tr & ->)]; [done|].
    split; [exact Hr|]. split; [exact Hwf|]. intros p.
    split; [apply Hp|]. intros d' Hin. apply (proj2 (Hp p)) in Hin.
    unfold eligible in *.
    change (demon_stamp d' (set_memory_ ?m (set_trail_ tr s)))
      with (demon_stamp d' (set_demon_stamp d kuint64max s)).
    rewrite demon_stamp_set. case_decide; [|done].
    change (stamp_ (queue_ (set_memory_ ?m (set_trail_ tr s))))
      with (stamp_ (queue_ s)).
    unfold stamp_in_range, kuint64max in *. lia.
  - (* desinhibit *)
    right. by apply (rearms_desinhibit ext d).
  - (* enqueue *)
    left. by apply once_enqueue.
  - (* dispatch *)
    left. by apply once_dispatch.
  - (* AddConstraint_root *)
    left. apply AddConstraint_root_Some in H0 as (parent & ->). exact Ho.
Qed.

Lemma steps_once s s' :
  rtc (step ext client) s s' -> once client s ->
  once client s' \/
  exists a b, rtc (step ext client) s a /\ once client a /\
              step ext client a b /\ rearms ext a b /\
              rtc (step ext client) b s'.
Proof.
  induction 1 as [x|x y z Hxy Hyz IH]; intros Ho; [by left|].
  destruct (step_once x y Hxy Ho) as [Hy|Hre].
  - destruct (IH Hy) as [Hz|(a & b & H1 & H2 & H3 & H4 & H5)]; [by left|].
    right. exists a, b. split; [by eapply rtc_l|done].
  - right. by exists x, y.
Qed.

(** A run of the queue with demons that only enqueue, however far it
    gets, keeps [once] and the stamp of the queue. *)
Lemma exec_queue_once :
  (forall d s, only_enqueues (Demon_Run client d s)) ->
  forall fuel c s,
    queue_cmd c -> once client s ->
    once client (state_of (exec ext client fuel c s)) /\
    stamp_ (queue_ (state_of (exec ext client fuel c s)))
    = stamp_ (queue_ s).
Proof.
  intros Hd. induction fuel as [|f IH]; intros c s Hc Ho; [done|].
  set (P := fun (a b : Solver) =>
              once client b /\ stamp_ (queue_ b) = stamp_ (queue_ a)).
  assert (forall (m : M unit) (k : unit -> M unit) s0,
            once client s0 ->
            (once client s0 -> P s0 (state_of (m s0))) ->
            (forall s1, once client s1 -> P s1 (state_of (k tt s1))) ->
            P s0 (state_of (bind m k s0))) as Hbind.
  { intros m k s0 Ho0 Hm Hk. unfold bind.
    destruct (m s0) as [[] s1|s1|s1|s1] eqn:E; simpl in *; auto.
    destruct (Hm Ho0) as [H1 H2]. destruct (Hk s1 H1) as [H3 H4].
    split; [done|congruence]. }
  assert (forall c' s0, queue_cmd c' -> once client s0 ->
            P s0 (state_of (exec ext client f c' s0))) as IH'
    by (intros; by apply IH).
  change (P s (state_of (exec ext client (S f) c s))).
  destruct c; try done; simpl.
  - (* CScript *)
    destruct sc as [|a rest]; [done|].
    apply Forall_cons in Hc as [Ha Hrest].
    apply Hbind; [done|intros; by apply IH'|intros; by apply IH'].
  - (* CApi *)
    destruct Hc as [d ->]. by apply IH'.
  - (* CEnqueue *)
    unfold bind at 1, get.
    destruct (Z.ltb_spec (demon_stamp d s) (stamp_ (queue_ s))); [|done].
    apply Hbind; [done| |intros; by apply IH'].
    intros _. split; [by apply once_enqueue|done].
  - (* CProcessIfUnfrozen *)
    unfold bind at 1, get. destruct (_ =? 0); [by apply IH'|done].
  - (* CProcess *)
    unfold bind at 1, get. destruct (in_process_ (queue_ s)); [done|].
    apply Hbind; [done|done|]. intros s1 H1.
    apply Hbind; [done|intros; by apply IH'|done].
  - (* CProcess_while_any *)
    unfold bind at 1, get. destruct (_ || _); [|done].
    apply Hbind; [done|intros; by apply IH'|]. intros s1 H1.
    apply Hbind; [done|intros; by apply IH'|intros; by apply IH'].
  - (* CProcess_while_var_or_normal *)
    unfold bind at 1, get. destruct (_ || _); [|done].
    apply Hbind; [done|intros; by apply IH'|]. intros s1 H1.
    apply Hbind; [done|intros; by apply IH'|intros; by apply IH'].
  - (* CProcessNormalDemons *)
    unfold bind at 1, get. destruct (negb _); [|done].
    apply Hbind; [done|intros; by apply IH'|intros; by apply IH'].
  - (* CProcessOneDemon *)
    unfold bind at 1, get.
    destruct (Fifo_NextDemon (container prio s)) as [[d|] rest] eqn:En;
      [|done].
    apply Hbind; [done| |].
    + intros _. split; [by apply once_dispatch|done].
    + intros s1 H1. unfold bind, get. apply IH'; [apply Hd|done].
Qed.

End OnceFacts.

(** C4, amended.  [Queue::Enqueue] on a demon whose stamp is not below
    the stamp of the queue changes nothing; on another demon it puts the
    demon at the end of the queue of its priority and makes its stamp
    the stamp of the queue, so that the next [Enqueue] on it is refused.
    In every run, as long as no step re-arms the demons (the stamp of
    the queue changes, an inhibition is lifted, the cell of a stamp is
    written), no demon is on a queue twice and every demon on a queue is
    refused by [Enqueue].  In particular a run of [Queue::Process] with
    demons that only enqueue, however far it gets, keeps this and the
    stamp of the queue.  In every run every dispatch takes one entry off
    a queue: per priority, the demons dispatched and those still pending
    are those that were pending and those enqueued.  And while the queue
    is frozen, whatever demons [Enqueue] is called on and however often,
    the calls return, the stamp of the queue stays, and what is added to
    each queue are demons that were eligible, none of them twice. *)
Theorem enqueue_once_per_stamp (ext : Extern) (client : Client) :
  (forall d s fuel,
     (~ eligible d s ->
      exec ext client (S (S fuel)) (CApi (ApiEnqueue d)) s = Done tt s) /\
     (eligible d s ->
      exec ext client (S (S fuel)) (CApi (ApiEnqueue d)) s
      = exec ext client fuel CProcessIfUnfrozen (enqueue client d s) /\
      (forall p, pending p (enqueue client d s)
                 = if decide (p = priority client d)
                   then pending p s ++ [d] else pending p s) /\
      stamp_ (queue_ (enqueue client d s)) = stamp_ (queue_ s) /\
      ~ eligible d (enqueue client d s))) /\
  (forall c fuel s,
     cmd_pre c s -> once client s ->
     once client (state_of (exec ext client fuel c s)) \/
     exists a b,
       rtc (step ext client) s a /\ once client a /\
       step ext client a b /\ rearms ext a b /\
       rtc (step ext client) b (state_of (exec ext client fuel c s))) /\
  (forall fuel s,
     (forall d s0, only_enqueues (Demon_Run client d s0)) ->
     once client s ->
     once client (state_of (exec ext client fuel CProcess s)) /\
     stamp_ (queue_ (state_of (exec ext client fuel CProcess s)))
     = stamp_ (queue_ s)) /\
  (forall c fuel s,
     cmd_pre c s ->
     exists t,
       trace (state_of (exec ext client fuel c s)) = t ++ trace s /\
       forall p,
         pending p s ++ enqueued client p t
         = dispatched p t ++ pending p (state_of (exec ext client fuel c s))) /\
  (forall ds s fuel,
     freeze_level_ (queue_ s) <> 0 ->
     (length ds + 4 <= fuel)%nat ->
     exists s' (added : DemonPriority -> list Z),
       exec ext client fuel (CScript (ApiEnqueue <$> ds)) s = Done tt s' /\
       stamp_ (queue_ s') = stamp_ (queue_ s) /\
       (forall p, pending p s' = pending p s ++ added p) /\
       (forall p d, d ∈ added p ->
          d ∈ ds /\ priority client d = p /\ eligible d s) /\
       (forall p, NoDup (added p))).
Proof.
  split; [|split; [|split; [|split]]].
  - intros d s fuel. unfold eligible. split; intros He.
    + simpl. unfold bind, get.
      destruct (Z.ltb_spec (demon_stamp d s) (stamp_ (queue_ s))); [lia|done].
    + split; [|split; [|split]].
      * simpl. unfold bind at 1, get.
        destruct (Z.ltb_spec (demon_stamp d s) (stamp_ (queue_ s))); [|lia].
        done.
      * intros p. unfold enqueue.
        change (pending p (log ?e ?x)) with (pending p x).
        rewrite pending_set_container. case_decide as Hp; [by subst p|done].
      * done.
      * rewrite (demon_stamp_enqueue client), decide_True by done.
        simpl. lia.
  - intros c fuel s Hpre Ho.
    apply (steps_once ext client); [|done]. by apply exec_steps.
  - intros fuel s Hd Ho. by apply exec_queue_once.
  - intros c fuel s Hpre.
    destruct (exec_run_rel ext client fuel c s Hpre) as [t Hrr].
    exists t. by destruct Hrr.
  - intros ds s fuel Hf Hfuel.
    destruct (enqueue_frozen_run ext client ds s fuel Hf Hfuel)
      as (s' & added & Hrun & Hstamp & _ & Hpend & Hadded & Hnodup & _).
    by exists s', added.
Qed.

Lemma demo_frozen_once : once demo_client demo_frozen.
Proof.
  split; [by vm_compute|]. split.
  - destruct (exec_run_rel stored_extern demo_client 10
                (CScript [ApiFreezeQueue; ApiEnqueue 300; ApiEnqueue 200;
                          ApiEnqueue 101]) demo_Solver I) as [t Hrr].
    apply (rr_wf _ _ _ _ Hrr). apply wf_pending_new_Solver.
  - intros p. split.
    + destruct p; vm_compute; apply NoDup_singleton.
    + intros d Hin. unfold eligible.
      destruct p; vm_compute in Hin;
        apply list_elem_of_singleton in Hin; subst d; vm_compute;
        by intros [=].
Qed.

Lemma demo_only_enqueues d s : only_enqueues (Demon_Run demo_client d s).
Proof.
  unfold only_enqueues. simpl.
  repeat case_if; repeat constructor; eauto.
Qed.

Lemma enqueue_once_per_stamp_witness :
  ~ eligible 101 demo_frozen /\ eligible 102 demo_frozen /\
  once demo_client demo_frozen /\
  exec stored_extern demo_client 5 (CApi (ApiEnqueue 101)) demo_frozen
    = Done tt demo_frozen /\
  pending NORMAL_PRIORITY (enqueue demo_client 102 demo_frozen)
    = [101; 102] /\
  ~ eligible 102 (enqueue demo_client 102 demo_frozen) /\
  once demo_client
    (state_of (exec stored_extern demo_client 30 CProcess demo_frozen)).
Proof.
  assert (~ eligible 101 demo_frozen) as H1
    by (unfold eligible; vm_compute; by intros [=]).
  assert (eligible 102 demo_frozen) as H2 by (by vm_compute).
  destruct (enqueue_once_per_stamp stored_extern demo_client)
    as (HA & _ & HC & _ & _).
  split; [exact H1|]. split; [exact H2|].
  split; [exact demo_frozen_once|]. split; [|split; [|split]].
  - exact (proj1 (HA 101 demo_frozen 3%nat) H1).
  - destruct (proj2 (HA 102 demo_frozen 3%nat) H2) as (_ & Hp & _).
    rewrite Hp. by vm_compute.
  - by destruct (proj2 (HA 102 demo_frozen 3%nat) H2) as (_ & _ & _ & ?).
  - exact (proj1 (HC 30%nat demo_frozen demo_only_enqueues
                    demo_frozen_once)).
Defined.

(** What re-arms: a demon that is inhibited and has its inhibition
    lifted between two calls of [Enqueue] is put on its queue twice,
    the stamp of the queue being what it was. *)
Example desinhibit_rearms :
  let s' := state_of (exec stored_extern demo_client 10
                        (CScript [ApiEnqueue 102; ApiInhibit 102;
                                  ApiDesinhibit 102; ApiEnqueue 102])
                        demo_frozen) in
  pending NORMAL_PRIORITY s' = [101; 102; 102] /\
  stamp_ (queue_ s') = stamp_ (queue_ demo_frozen).
Proof. by vm_compute. Qed.


(** What the five calls of the example leave pending: 101 was pending
    already, 102 is new. *)
Example enqueue_once_per_stamp_run :
  pending NORMAL_PRIORITY
    (state_of (exec stored_extern demo_client 9
                 (CScript (ApiEnqueue <$> [101; 101; 200; 102; 101]))
                 demo_frozen))
  = [101; 102] /\
  pending VAR_PRIORITY
    (state_of (exec stored_extern demo_client 9
                 (CScript (ApiEnqueue <$> [101; 101; 200; 102; 101]))
                 demo_frozen))
  = [200].
Proof. by vm_compute. Qed.


(** C9, as stated, fails for [Unfreeze]: the queue is unfrozen, the three
    pending demons and the two they wake up are run, and the stamp is
    what it was. *)
Lemma Unfreeze_keeps_stamp :
  exists s',
    exec stored_extern demo_client 40 (CApi ApiUnfreezeQueue) demo_frozen
      = Done tt s' /\
    freeze_level_ (queue_ demo_frozen) = 1 /\
    freeze_level_ (queue_ s') = 0 /\
    dispatched NORMAL_PRIORITY (take 7 (trace s')) = [101; 100] /\
    stamp_ (queue_ s') = stamp_ (queue_ demo_frozen).
Proof. eexists. by vm_compute. Qed.

Section StampFacts.
Context (ext : Extern) (client : Client).

Lemma exec_stamp fuel c s :
  cmd_pre c s -> stamp_in_range s ->
  exists t,
    trace (state_of (exec ext client fuel c s)) = t ++ trace s /\
    stamp_ (queue_ (state_of (exec ext client fuel c s)))
      = wrap64 (stamp_ (queue_ s) + stamp_increases t).
Proof.
  intros Hpre Hs. destruct (exec_run_rel ext client fuel c s Hpre) as [t Hrr].
  pose proof (exec_stamp_in_range ext client fuel c s Hpre Hs) as Hs'.
  exists t. split; [by destruct Hrr|].
  rewrite <- (rr_stamp _ _ _ _ Hrr). symmetry. by apply wrap64_small.
Qed.

Lemma exec_Unfreeze_idle fuel s :
  (forall p, pending p s = []) ->
  exists s', exec ext client (4 + fuel) CUnfreeze s = Done tt s' /\
             stamp_ (queue_ s') = stamp_ (queue_ s).
Proof.
  intros Hidle.
  pose proof (Hidle NORMAL_PRIORITY) as Hn.
  pose proof (Hidle VAR_PRIORITY) as Hv.
  pose proof (Hidle DELAYED_PRIORITY) as Hd.
  unfold pending, container in Hn, Hv, Hd. simpl in Hn, Hv, Hd.
  simpl. unfold bind, modify, get, ret. simpl.
  case_if; [|eexists; split; reflexivity].
  case_if; [eexists; split; reflexivity|].
  unfold Fifo_Empty. simpl. rewrite Hn, Hv, Hd. simpl.
  eexists; split; reflexivity.
Qed.

End StampFacts.

(** C9, amended.  [Freeze] increases the stamp of the queue by one,
    modulo 2^64, so that short of the wrap-around every demon whose stamp
    is at most the old stamp can be enqueued again.  In every run the
    stamp is its old value plus the number of increases, modulo 2^64: it
    never goes down short of the wrap-around.  [Unfreeze] itself does not
    touch the stamp: with nothing pending it returns with the stamp it
    found. *)
Theorem queue_stamp_increases (ext : Extern) (client : Client) (fuel : nat)
    (c : Cmd) (s : Solver) :
  stamp_in_range s -> cmd_pre c s ->
  stamp_ (queue_ (Freeze s)) = wrap64 (stamp_ (queue_ s) + 1) /\
  (stamp_ (queue_ s) < kuint64max ->
   stamp_ (queue_ (Freeze s)) = stamp_ (queue_ s) + 1 /\
   forall d, demon_stamp d s <= stamp_ (queue_ s) ->
             demon_stamp d (Freeze s) < stamp_ (queue_ (Freeze s))) /\
  (exists t,
     trace (state_of (exec ext client fuel c s)) = t ++ trace s /\
     stamp_ (queue_ (state_of (exec ext client fuel c s)))
       = wrap64 (stamp_ (queue_ s) + stamp_increases t) /\
     (stamp_ (queue_ s) + stamp_increases t < 2 ^ 64 ->
      stamp_ (queue_ s)
        <= stamp_ (queue_ (state_of (exec ext client fuel c s))))) /\
  ((forall p, pending p s = []) ->
   exists s', exec ext client (4 + fuel) CUnfreeze s = Done tt s' /\
              stamp_ (queue_ s') = stamp_ (queue_ s)).
Proof.
  intros Hs Hpre. split; [done|]. split; [|split].
  - intros Hmax. unfold kuint64max in Hmax. unfold stamp_in_range in Hs.
    assert (stamp_ (queue_ (Freeze s)) = stamp_ (queue_ s) + 1) as E.
    { simpl. apply wrap64_small. lia. }
    split; [done|]. intros d Hd. rewrite E.
    change (demon_stamp d (Freeze s)) with (demon_stamp d s). lia.
  - destruct (exec_stamp ext client fuel c s Hpre Hs) as (t & Ht & E).
    exists t. split; [done|]. split; [done|].
    intros Hsmall. rewrite E.
    pose proof (stamp_increases_nonneg t). unfold stamp_in_range in Hs.
    rewrite wrap64_small by lia. lia.
  - apply exec_Unfreeze_idle.
Qed.

Lemma queue_stamp_increases_witness :
  stamp_in_range demo_frozen /\
  cmd_pre (CApi ApiUnfreezeQueue) demo_frozen /\
  stamp_ (queue_ demo_frozen) < kuint64max /\
  demon_stamp 101 demo_frozen <= stamp_ (queue_ demo_frozen) /\
  demon_stamp 101 (Freeze demo_frozen) < stamp_ (queue_ (Freeze demo_frozen)) /\
  (forall p, pending p demo_Solver = []) /\
  exists t,
    trace (state_of (exec stored_extern demo_client 40
                       (CApi ApiUnfreezeQueue) demo_frozen))
      = t ++ trace demo_frozen /\
    stamp_ (queue_ (state_of (exec stored_extern demo_client 40
                                (CApi ApiUnfreezeQueue) demo_frozen)))
      = wrap64 (stamp_ (queue_ demo_frozen) + stamp_increases t).
Proof.
  assert (stamp_in_range demo_frozen) as Hs by (by vm_compute).
  assert (stamp_ (queue_ demo_frozen) < kuint64max) as Hmax
    by (by vm_compute).
  assert (demon_stamp 101 demo_frozen <= stamp_ (queue_ demo_frozen)) as Hd
    by (by vm_compute).
  destruct (queue_stamp_increases stored_extern demo_client 40
              (CApi ApiUnfreezeQueue) demo_frozen Hs I)
    as (_ & Hfreeze & (t & Ht & Hst & _) & _).
  split; [exact Hs|]. split; [exact I|]. split; [exact Hmax|].
  split; [exact Hd|].
  split; [exact (proj2 (Hfreeze Hmax) 101 Hd)|].
  split; [by intros []|].
  exists t. split; [exact Ht|exact Hst].
Defined.


(** ** Markers and the stamp of the queue *)

Lemma backtrack_cells_total ext t l h target :
  ct_rep ext t l -> 0 <= target ->
  exists t', backtrack_cells ext target t h
      = Some (t', undo (cell_pair <$> drop (Z.to_nat target) l) h) /\
    ct_rep ext t' (take (Z.to_nat target) l).
Proof.
  intros Hrep Ht.
  destruct (decide (Z.to_nat target <= length l)%nat) as [Hle|Hgt].
  - pose proof (backtrack_cells_spec ext (drop (Z.to_nat target) l) t
                  (take (Z.to_nat target) l) h) as H.
    rewrite take_drop in H. specialize (H Hrep).
    rewrite length_take, Nat.min_l, Z2Nat.id in H by lia. done.
  - exists t. unfold backtrack_cells, ct_size.
    rewrite (ct_rep_size ext _ _ Hrep).
    replace (Z.to_nat _) with 0%nat by lia.
    rewrite drop_ge, take_ge by lia. done.
Qed.

Lemma restore_bools_total (addrs : list Z) (vals : list bool) h target :
  length addrs = length vals -> 0 <= target ->
  exists h', restore_bools (Z.to_nat (vec_size addrs - target))
               (vec_size addrs - 1) addrs vals h = Some h'.
Proof.
  intros Hlen Ht. unfold vec_size.
  destruct (decide (Z.to_nat target <= length addrs)%nat) as [Hle|Hgt].
  - remember (Z.to_nat target) as n eqn:Hn.
    pose proof (restore_bools_spec
                  (zip (drop n addrs) (drop n vals))
                  (take n addrs) [] (take n vals) [] h) as H.
    rewrite fst_zip, snd_zip, !app_nil_r, !take_drop in H
      by (rewrite !length_drop; lia).
    rewrite length_zip, !length_drop, !length_take in H.
    eexists.
    replace (Z.to_nat (Z.of_nat (length addrs) - target))
      with ((length addrs - n) `min` (length vals - n))%nat by lia.
    replace (Z.of_nat (length addrs) - 1)
      with (Z.of_nat (n `min` length addrs)
            + Z.of_nat ((length addrs - n) `min` (length vals - n)) - 1)
      by lia.
    apply H. lia.
  - exists h. replace (Z.to_nat _) with 0%nat by lia. done.
Qed.

Lemma undo_notin {V} (cs : list (Z * V)) h x :
  x ∉ cs.*1 -> undo cs h !! x = h !! x.
Proof.
  induction cs as [|[a v] cs IH]; simpl; [done|].
  intros Hx. apply not_elem_of_cons in Hx as [Hne Hx].
  rewrite lookup_insert_ne by done. by apply IH.
Qed.

Lemma BacktrackTo_total ext m t mem l :
  trail_wf ext t -> marker_wf m -> ct_rep ext (rev_uint64s_ t) l ->
  exists t' mem',
    BacktrackTo ext m t mem = Some (t', mem') /\
    mem_uint64 mem'
    = undo (cell_pair <$> drop (Z.to_nat (rev_uint64_index_ m)) l)
        (mem_uint64 mem).
Proof.
  intros [Hk Hb] (H1 & H2 & H3 & H4 & H5) Hl.
  destruct (Hk K_int) as [l1 Hl1]. destruct (Hk K_int64) as [l2 Hl2].
  destruct (Hk K_ptr) as [l4 Hl4]. simpl in Hl1, Hl2, Hl4.
  destruct (backtrack_cells_total ext _ _ (mem_int mem) _ Hl1 H1)
    as (t1 & E1 & _).
  destruct (backtrack_cells_total ext _ _ (mem_int64 mem) _ Hl2 H2)
    as (t2 & E2 & _).
  destruct (backtrack_cells_total ext _ _ (mem_uint64 mem) _ Hl H3)
    as (t3 & E3 & _).
  destruct (backtrack_cells_total ext _ _ (mem_ptr mem) _ Hl4 H4)
    as (t4 & E4 & _).
  destruct (restore_bools_total _ _ (mem_bool mem) _ Hb H5) as (h5 & E5).
  unfold BacktrackTo. rewrite E1, E2, E3, E4. simpl. rewrite E5. simpl.
  eexists _, _. split; [reflexivity|done].
Qed.

(** [PopState] returns when there is a marker to pop and the trail is
    well formed; a cell of kind [uint64] that was not saved since the
    marker keeps its value. *)
Lemma PopState_total ext s m rest l :
  marker_stack_ (search_ s) = m :: rest ->
  marker_wf m -> trail_wf ext (trail_ s) ->
  ct_rep ext (rev_uint64s_ (trail_ s)) l ->
  exists s',
    PopState ext s = Some (type_ m, info_ m, s') /\
    stamp_ (queue_ s') = wrap64 (stamp_ (queue_ s) + 1) /\
    marker_stack_ (search_ s') = rest /\
    forall d, d ∉ address_ <$> drop (Z.to_nat (rev_uint64_index_ m)) l ->
              demon_stamp d s' = demon_stamp d s.
Proof.
  intros Hm Hmw Hwf Hl. unfold PopState. rewrite Hm.
  destruct (negb (bool_decide (type_ m = REVERSIBLE_ACTION))
            || (int_info (info_ m) =? 0)) eqn:Hb.
  - destruct (BacktrackTo_total ext m _ (memory_ s) l Hwf Hmw Hl)
      as (t' & mem' & E & Hu).
    rewrite E. simpl. eexists. split; [reflexivity|].
    split; [done|]. split; [done|].
    intros d Hd. unfold demon_stamp, read, load. simpl. rewrite Hu.
    rewrite undo_notin; [done|].
    by rewrite <- list_fmap_compose.
  - simpl. eexists. split; [reflexivity|]. split; [done|]. split; [done|].
    intros d _. unfold demon_stamp. simpl. by destruct s.
Qed.

(** C10, as stated, fails for [PopState]: demon 100 was inhibited before
    the marker and desinhibited after it, so that its stamp is below the
    stamp of the queue; popping the marker increases the stamp of the
    queue and restores the inhibition, and [Enqueue] leaves the demon
    out. *)
Lemma PopState_restores_inhibition :
  exists s',
    demon_stamp 100 demo_desinhibited <= stamp_ (queue_ demo_desinhibited) /\
    PopState stored_extern demo_desinhibited
      = Some (SIMPLE_MARKER, StateInfo_default, s') /\
    stamp_ (queue_ s') = stamp_ (queue_ demo_desinhibited) + 1 /\
    demon_stamp 100 s' = kuint64max /\
    ~ eligible 100 s' /\
    exec stored_extern demo_client 10 (CApi (ApiEnqueue 100)) s' = Done tt s'.
Proof.
  eexists. split; [by vm_compute|]. split; [by vm_compute|].
  split; [by vm_compute|]. split; [by vm_compute|].
  split; [by vm_compute|]. by vm_compute.
Qed.

(** C10, amended.  Short of the wrap-around of the stamp: [PushState],
    for every type of marker, increases the stamp of the queue by one and
    every demon whose stamp was at most the old stamp passes the test of
    [Enqueue] afterwards; [PopState], when there is a marker to pop and
    the trail is well formed, returns the type and the info of that
    marker, increases the stamp by one, and every demon whose stamp was at
    most the old stamp and was not saved on the trail since the marker
    passes the test of [Enqueue] afterwards. *)
Theorem marker_stamp_increase (ext : Extern) (s : Solver) :
  0 <= stamp_ (queue_ s) < kuint64max ->
  (forall t info,
     stamp_ (queue_ (PushState t info s)) = stamp_ (queue_ s) + 1 /\
     forall d, demon_stamp d s <= stamp_ (queue_ s) ->
               eligible d (PushState t info s)) /\
  (forall m rest l,
     marker_stack_ (search_ s) = m :: rest ->
     marker_wf m -> trail_wf ext (trail_ s) ->
     ct_rep ext (rev_uint64s_ (trail_ s)) l ->
     exists s',
       PopState ext s = Some (type_ m, info_ m, s') /\
       stamp_ (queue_ s') = stamp_ (queue_ s) + 1 /\
       forall d, demon_stamp d s <= stamp_ (queue_ s) ->
         d ∉ address_ <$> drop (Z.to_nat (rev_uint64_index_ m)) l ->
         eligible d s').
Proof.
  intros Hs. unfold kuint64max in Hs. split.
  - intros t info.
    assert (stamp_ (queue_ (PushState t info s)) = stamp_ (queue_ s) + 1)
      as E by (simpl; apply wrap64_small; lia).
    split; [done|]. intros d Hd. unfold eligible. rewrite E.
    change (demon_stamp d (PushState t info s)) with (demon_stamp d s). lia.
  - intros m rest l Hm Hmw Hwf Hl.
    destruct (PopState_total ext s m rest l Hm Hmw Hwf Hl)
      as (s' & E & Hst & _ & Hd).
    rewrite wrap64_small in Hst by lia.
    exists s'. split; [done|]. split; [done|].
    intros d Hle Hnot. unfold eligible. rewrite Hst, (Hd d Hnot). lia.
Qed.

Ltac ct_rep_concrete :=
  exists []; split; [split; vm_compute; try done; auto|by vm_compute].

Lemma marker_stamp_increase_witness :
  0 <= stamp_ (queue_ demo_desinhibited) < kuint64max /\
  demon_stamp 101 demo_desinhibited <= stamp_ (queue_ demo_desinhibited) /\
  eligible 101 (PushState CHOICE_POINT StateInfo_default demo_desinhibited) /\
  exists s',
    PopState stored_extern demo_desinhibited
      = Some (SIMPLE_MARKER, StateInfo_default, s') /\
    stamp_ (queue_ s') = stamp_ (queue_ demo_desinhibited) + 1 /\
    eligible 101 s'.
Proof.
  assert (0 <= stamp_ (queue_ demo_desinhibited) < kuint64max) as Hs
    by (by vm_compute).
  assert (demon_stamp 101 demo_desinhibited
          <= stamp_ (queue_ demo_desinhibited)) as Hd by (by vm_compute).
  destruct (marker_stamp_increase stored_extern demo_desinhibited Hs)
    as [Hpush Hpop].
  split; [done|]. split; [done|]. split.
  - by apply (Hpush CHOICE_POINT StateInfo_default).
  - destruct (Hpop (mark_Trail (trail_ (state_of
                      (exec stored_extern demo_client 10
                         (CScript [ApiInhibit 100]) demo_Solver)))
                      (new_StateMarker SIMPLE_MARKER StateInfo_default))
                   (marker_stack_ (search_ demo_Solver))
                   [mk_addrval 100 0; mk_addrval 100 kuint64max])
      as (s' & E & Hst & Hel).
    + by vm_compute.
    + by vm_compute.
    + split; [|by vm_compute]. intros k. destruct k.
      * exists []. ct_rep_concrete.
      * exists []. ct_rep_concrete.
      * exists [mk_addrval 100 0; mk_addrval 100 kuint64max]. ct_rep_concrete.
      * exists []. ct_rep_concrete.
    + ct_rep_concrete.
    + exists s'. split; [exact E|]. split; [done|].
      apply Hel; [done|].
      replace (drop _ _) with [mk_addrval 100 kuint64max] by (by vm_compute).
      simpl. intros Hin.
      apply elem_of_cons in Hin as [Hin|Hin]; [lia|]. by apply elem_of_nil in Hin.
Defined.

(** ** After a failure *)

Lemma on_failure_runs_app t1 t2 :
  on_failure_runs (t1 ++ t2) = on_failure_runs t2 ++ on_failure_runs t1.
Proof.
  induction t1 as [|e t1 IH]; simpl; [by rewrite app_nil_r|].
  by rewrite IH, app_assoc.
Qed.

Lemma on_failure_runs_propagation t :
  Forall propagation_event t -> on_failure_runs t = [].
Proof.
  induction 1 as [|e t He _ IH]; simpl; [done|].
  rewrite IH. by destruct e.
Qed.

Lemma discard_pending_spec s p :
  pending p (discard_pending s) = [] /\
  free_cells_ (container p (discard_pending s))
  = pending p s ++ free_cells_ (container p s).
Proof.
  unfold pending, container, discard_pending. destruct p; simpl;
    unfold Fifo_AfterFailure;
    match goal with |- context [first_ ?q] => by destruct (first_ q) eqn:E end.
Qed.

(** C5.  [Queue::AfterFailure] first empties the three queues, the cells
    of the demons that were pending going on the free lists.  With no
    action registered it then puts the queue at rest and returns, with
    no event.  With the action [a] registered, the action is run in the
    state with the queues emptied, and [AfterFailure] ends as that run
    ends; when the run returns, in [s2], [AfterFailure] returns [s2]
    with the action unregistered and the queue at rest: queues and free
    lists are those of [s2], [a] was run once, what is pending is what
    the run of [a] itself enqueued and did not see dispatched; and a
    second [AfterFailure] returns without another run of an action. *)
Theorem AfterFailure_spec (ext : Extern) (client : Client) (fuel : nat)
    (s : Solver) :
  (forall p,
     pending p (discard_pending s) = [] /\
     free_cells_ (container p (discard_pending s))
     = pending p s ++ free_cells_ (container p s)) /\
  (clear_action_ (queue_ s) = None ->
   AfterFailure ext client fuel s = Done tt (quiesce (discard_pending s)) /\
   quiescent (quiesce (discard_pending s)) /\
   trace (quiesce (discard_pending s)) = trace s /\
   forall p, container p (quiesce (discard_pending s))
             = container p (discard_pending s)) /\
  (forall a,
     clear_action_ (queue_ s) = Some a ->
     AfterFailure ext client fuel s
     = match exec ext client fuel
               (CScript (Action_Run client a
                           (log (EvOnFailureAction a) (discard_pending s))))
               (log (EvOnFailureAction a) (discard_pending s)) with
       | Done _ s2 => Done tt (quiesce (clear_action_on_fail s2))
       | Failed s2 => Failed s2
       | Fatal s2 => Fatal s2
       | OutOfFuel s2 => OutOfFuel s2
       end /\
     forall s2,
       exec ext client fuel
         (CScript (Action_Run client a
                     (log (EvOnFailureAction a) (discard_pending s))))
         (log (EvOnFailureAction a) (discard_pending s)) = Done tt s2 ->
       exists t,
         trace s2 = t ++ EvOnFailureAction a :: trace s /\
         trace (quiesce (clear_action_on_fail s2)) = trace s2 /\
         quiescent (quiesce (clear_action_on_fail s2)) /\
         (forall p, container p (quiesce (clear_action_on_fail s2))
                    = container p s2) /\
         on_failure_runs (trace s2) = on_failure_runs (trace s) ++ [a] /\
         (forall p, enqueued client p t = dispatched p t ++ pending p s2) /\
         forall fuel',
           AfterFailure ext client fuel' (quiesce (clear_action_on_fail s2))
           = Done tt (quiesce (discard_pending
                                 (quiesce (clear_action_on_fail s2)))) /\
           trace (quiesce (discard_pending
                             (quiesce (clear_action_on_fail s2))))
           = trace s2).
Proof.
  split; [intros p; apply discard_pending_spec|]. split.
  - intros Hnone. unfold AfterFailure, bind, modify, get. simpl.
    rewrite Hnone. simpl. split; [reflexivity|].
    split; [|split; [done|by intros []]].
    by repeat split.
  - intros a Hsome. split.
    + unfold AfterFailure, bind, modify, get. simpl. rewrite Hsome. simpl.
      by destruct (exec ext client fuel _ _) as [[] ?| | |].
    + intros s2 Hrun.
      destruct (exec_run_rel ext client fuel
                  (CScript (Action_Run client a
                     (log (EvOnFailureAction a) (discard_pending s))))
                  (log (EvOnFailureAction a) (discard_pending s)) I)
        as [t Hrr].
      rewrite Hrun in Hrr. simpl in Hrr.
      exists t. split; [by destruct Hrr|]. split; [done|].
      split; [by repeat split|]. split; [by intros []|]. split.
      * rewrite (rr_trace _ _ _ _ Hrr). simpl.
        rewrite on_failure_runs_app. simpl.
        rewrite (on_failure_runs_propagation t (rr_events _ _ _ _ Hrr)).
        by rewrite app_nil_r.
      * split.
        -- intros p. pose proof (rr_fifo _ _ _ _ Hrr p) as Hf.
           replace (pending p (log (EvOnFailureAction a) (discard_pending s)))
             with (@nil Z) in Hf
             by (symmetry; apply (discard_pending_spec s p)).
           simpl in Hf. by rewrite Hf.
        -- intros fuel'. unfold AfterFailure, bind, modify, get. simpl.
           done.
Qed.

Lemma AfterFailure_spec_witness :
  clear_action_ (queue_ demo_failing) = Some 7 /\
  pending NORMAL_PRIORITY demo_failing = [101; 102] /\
  freeze_level_ (queue_ demo_failing) = 1 /\
  exists s',
    AfterFailure stored_extern busy_client 5 demo_failing = Done tt s' /\
    quiescent s' /\
    on_failure_runs (trace s') = [7] /\
    pending NORMAL_PRIORITY s' = [103] /\
    pending VAR_PRIORITY s' = [] /\
    pending DELAYED_PRIORITY s' = [] /\
    free_cells_ (container NORMAL_PRIORITY s') = [102] /\
    free_cells_ (container VAR_PRIORITY s') = [200].
Proof.
  split; [by vm_compute|]. split; [by vm_compute|]. split; [by vm_compute|].
  destruct (AfterFailure_spec stored_extern busy_client 5 demo_failing)
    as (_ & _ & H).
  destruct (H 7) as [E _]; [by vm_compute|].
  pose proof E as E'. vm_compute in E'.
  match type of E' with _ = Done tt ?x => exists x end.
  split; [rewrite E; vm_compute; reflexivity|].
  clear E E' H. repeat split; vm_compute; reflexivity.
Defined.


(** ** Solutions and the monitors *)

Lemma accept_calls_app t1 t2 :
  accept_calls (t1 ++ t2) = accept_calls t2 ++ accept_calls t1.
Proof.
  induction t1 as [|e t1 IH]; simpl; [by rewrite app_nil_r|].
  by rewrite IH, app_assoc.
Qed.

Lemma at_calls_app t1 t2 :
  at_calls (t1 ++ t2) = at_calls t2 ++ at_calls t1.
Proof.
  induction t1 as [|e t1 IH]; simpl; [by rewrite app_nil_r|].
  by rewrite IH, app_assoc.
Qed.

Lemma calls_propagation t :
  Forall propagation_event t -> accept_calls t = [] /\ at_calls t = [].
Proof.
  induction 1 as [|e t He _ [IH1 IH2]]; simpl; [done|].
  rewrite IH1, IH2. by destruct e.
Qed.

Lemma asked_length ext client call ev ms s bs s' :
  asked ext client call ev ms s bs s' -> length bs = length ms.
Proof. induction 1; simpl; congruence. Qed.

Section SolutionFacts.
Context (ext : Extern) (client : Client) (fuel0 : nat).

Lemma AcceptSolution_for_spec :
  scripts_return ext client fuel0 (Monitor_AcceptSolution client) ->
  forall n i valid s fuel,
    length (monitors_ (search_ s)) = (i + n)%nat ->
    (fuel0 + n < fuel)%nat ->
    exists s' bs t,
      AcceptSolution_for ext client fuel i valid s
        = Done (valid && forallb id bs) s' /\
      asked ext client (Monitor_AcceptSolution client) EvAcceptSolution
        (drop i (monitors_ (search_ s))) s bs s' /\
      trace s' = t ++ trace s /\
      accept_calls t = zip (drop i (monitors_ (search_ s))) bs /\
      at_calls t = [] /\
      monitors_ (search_ s') = monitors_ (search_ s).
Proof.
  intros Hret. induction n as [|n IH]; intros i valid s fuel Hlen Hfuel.
  - destruct fuel as [|f]; [lia|]. simpl. unfold bind, get. simpl.
    rewrite (proj2 (lookup_ge_None _ _)) by lia.
    exists s, [], []. simpl. rewrite andb_true_r, drop_ge by lia.
    repeat split; constructor.
  - destruct fuel as [|f]; [lia|]. simpl. unfold bind at 1, get. simpl.
    destruct (lookup_lt_is_Some_2 (monitors_ (search_ s)) i) as [m Hm];
      [lia|].
    rewrite Hm. unfold bind at 1, modify at 1.
    set (r := (Monitor_AcceptSolution client m s).2).
    set (s0 := log (EvAcceptSolution m r) s).
    destruct (Hret m s s0 f) as (s1 & Hrun & Hmon); [lia|].
    change (monitors_ (search_ s0)) with (monitors_ (search_ s)) in Hmon.
    unfold bind at 1. rewrite Hrun.
    destruct (exec_run_rel ext client f
                (CScript (Monitor_AcceptSolution client m s).1) s0 I)
      as [t1 Hrr].
    rewrite Hrun in Hrr. simpl in Hrr.
    destruct (calls_propagation t1 (rr_events _ _ _ _ Hrr)) as [Hc1 Hc2].
    destruct (IH (S i) (if negb r then false else valid) s1 f)
      as (s' & bs & t2 & E & Hasked & Ht & Hcalls & Hat & Hmon'); [|lia|].
    { rewrite Hmon. simpl. lia. }
    exists s', (r :: bs), (t2 ++ t1 ++ [EvAcceptSolution m r]).
    rewrite !accept_calls_app, !at_calls_app, Hc1, Hc2, Hat. simpl.
    rewrite (drop_S _ m i) by done.
    split; [|split; [|split; [|split; [|split]]]].
    + rewrite E. f_equal. unfold id at 1. by destruct r, valid.
    + rewrite <- Hmon. by apply (asked_cons _ _ _ _ _ _ _ s1 s' bs f).
    + rewrite Ht, (rr_trace _ _ _ _ Hrr). simpl. by rewrite <- !app_assoc.
    + simpl. f_equal. rewrite <- Hmon. exact Hcalls.
    + done.
    + by rewrite Hmon', Hmon.
Qed.

Lemma AtSolution_for_spec :
  scripts_return ext client fuel0 (Monitor_AtSolution client) ->
  forall n i should_continue s fuel,
    length (monitors_ (search_ s)) = (i + n)%nat ->
    (fuel0 + n < fuel)%nat ->
    exists s' bs t,
      AtSolution_for ext client fuel i should_continue s
        = Done (should_continue || existsb id bs) s' /\
      asked ext client (Monitor_AtSolution client) EvAtSolution
        (drop i (monitors_ (search_ s))) s bs s' /\
      trace s' = t ++ trace s /\
      at_calls t = zip (drop i (monitors_ (search_ s))) bs /\
      accept_calls t = [] /\
      monitors_ (search_ s') = monitors_ (search_ s).
Proof.
  intros Hret. induction n as [|n IH];
    intros i should_continue s fuel Hlen Hfuel.
  - destruct fuel as [|f]; [lia|]. simpl. unfold bind, get. simpl.
    rewrite (proj2 (lookup_ge_None _ _)) by lia.
    exists s, [], []. simpl. rewrite orb_false_r, drop_ge by lia.
    repeat split; constructor.
  - destruct fuel as [|f]; [lia|]. simpl. unfold bind at 1, get. simpl.
    destruct (lookup_lt_is_Some_2 (monitors_ (search_ s)) i) as [m Hm];
      [lia|].
    rewrite Hm. unfold bind at 1, modify at 1.
    set (r := (Monitor_AtSolution client m s).2).
    set (s0 := log (EvAtSolution m r) s).
    destruct (Hret m s s0 f) as (s1 & Hrun & Hmon); [lia|].
    change (monitors_ (search_ s0)) with (monitors_ (search_ s)) in Hmon.
    unfold bind at 1. rewrite Hrun.
    destruct (exec_run_rel ext client f
                (CScript (Monitor_AtSolution client m s).1) s0 I)
      as [t1 Hrr].
    rewrite Hrun in Hrr. simpl in Hrr.
    destruct (calls_propagation t1 (rr_events _ _ _ _ Hrr)) as [Hc1 Hc2].
    destruct (IH (S i) (if r then true else should_continue) s1 f)
      as (s' & bs & t2 & E & Hasked & Ht & Hcalls & Hacc & Hmon'); [|lia|].
    { rewrite Hmon. simpl. lia. }
    exists s', (r :: bs), (t2 ++ t1 ++ [EvAtSolution m r]).
    rewrite !accept_calls_app, !at_calls_app, Hc1, Hc2, Hacc. simpl.
    rewrite (drop_S _ m i) by done.
    split; [|split; [|split; [|split; [|split]]]].
    + rewrite E. f_equal. unfold id at 1. by destruct r, should_continue.
    + rewrite <- Hmon. by apply (asked_cons _ _ _ _ _ _ _ s1 s' bs f).
    + rewrite Ht, (rr_trace _ _ _ _ Hrr). simpl. by rewrite <- !app_assoc.
    + simpl. f_equal. rewrite <- Hmon. exact Hcalls.
    + done.
    + by rewrite Hmon', Hmon.
Qed.

End SolutionFacts.

(** C8.  With monitors whose answers return, [Search::AcceptSolution]
    returns; it has asked every monitor of the search, in the order of
    their registration and whatever the ones before answered, each in
    the state that the calls before it left; the calls recorded are
    these, with these answers, and the result is the conjunction of the
    answers.  [Search::AtSolution] likewise asks every monitor, in that
    order, and its result is the disjunction of the answers. *)
Theorem solution_monitors_all_asked (ext : Extern) (client : Client)
    (fuel0 fuel : nat) (s : Solver) :
  scripts_return ext client fuel0 (Monitor_AcceptSolution client) ->
  scripts_return ext client fuel0 (Monitor_AtSolution client) ->
  (fuel0 + length (monitors_ (search_ s)) < fuel)%nat ->
  (exists s' bs t,
     Search_AcceptSolution ext client fuel s = Done (forallb id bs) s' /\
     asked ext client (Monitor_AcceptSolution client) EvAcceptSolution
       (monitors_ (search_ s)) s bs s' /\
     length bs = length (monitors_ (search_ s)) /\
     trace s' = t ++ trace s /\
     accept_calls t = zip (monitors_ (search_ s)) bs /\
     at_calls t = []) /\
  (exists s' bs t,
     Search_AtSolution ext client fuel s = Done (existsb id bs) s' /\
     asked ext client (Monitor_AtSolution client) EvAtSolution
       (monitors_ (search_ s)) s bs s' /\
     length bs = length (monitors_ (search_ s)) /\
     trace s' = t ++ trace s /\
     at_calls t = zip (monitors_ (search_ s)) bs /\
     accept_calls t = []).
Proof.
  intros Hacc Hat Hfuel. split.
  - destruct (AcceptSolution_for_spec ext client fuel0 Hacc
                (length (monitors_ (search_ s))) 0 true s fuel)
      as (s' & bs & t & E & Ha & Ht & Hc & Hn & _); [done|lia|].
    exists s', bs, t. split; [exact E|]. split; [exact Ha|].
    split; [exact (asked_length _ _ _ _ _ _ _ _ Ha)|done].
  - destruct (AtSolution_for_spec ext client fuel0 Hat
                (length (monitors_ (search_ s))) 0 false s fuel)
      as (s' & bs & t & E & Ha & Ht & Hc & Hn & _); [done|lia|].
    exists s', bs, t. split; [exact E|]. split; [exact Ha|].
    split; [exact (asked_length _ _ _ _ _ _ _ _ Ha)|done].
Qed.

Lemma demo_scripts_return (call : Z -> Solver -> list Api * bool) :
  (forall m s, (call m s).1 = []) ->
  scripts_return stored_extern demo_client 1 call.
Proof.
  intros Hnil m s s0 f Hf. rewrite Hnil.
  destruct f as [|f]; [lia|]. by exists s0.
Qed.

Lemma busy_accept_run f m s0 s s1 :
  exec stored_extern busy_client f
    (CScript (Monitor_AcceptSolution busy_client m s).1) s0 = Done tt s1 ->
  s1 = set_action_on_fail m s0.
Proof. destruct f as [|[|[|f]]]; simpl; try done; by intros [= <-]. Qed.

Lemma busy_at_run f m s0 s s1 :
  exec stored_extern busy_client f
    (CScript (Monitor_AtSolution busy_client m s).1) s0 = Done tt s1 ->
  s1 = Freeze s0.
Proof. destruct f as [|[|[|f]]]; simpl; try done; by intros [= <-]. Qed.

Lemma busy_scripts_return :
  scripts_return stored_extern busy_client 3
    (Monitor_AcceptSolution busy_client) /\
  scripts_return stored_extern busy_client 3
    (Monitor_AtSolution busy_client).
Proof.
  split; intros m s s0 f Hf; destruct f as [|[|[|f]]]; try lia;
    eexists; (split; [reflexivity|done]).
Qed.

(** The three monitors of [demo_monitored] at a solution: all are asked,
    the solution is rejected and the search is to go on. *)
Example solution_monitors_run :
  monitors_ (search_ demo_monitored) = [50; 51; 52] /\
  (exists s',
     Search_AcceptSolution stored_extern demo_client 5 demo_monitored
       = Done false s' /\
     accept_calls (take 3 (trace s'))
       = [(50, true); (51, false); (52, true)] /\
     drop 3 (trace s') = trace demo_monitored) /\
  (exists s',
     Search_AtSolution stored_extern demo_client 5 demo_monitored
       = Done true s' /\
     at_calls (take 3 (trace s'))
       = [(50, false); (51, false); (52, true)] /\
     drop 3 (trace s') = trace demo_monitored).
Proof.
  split; [by vm_compute|]. split; eexists; by vm_compute.
Qed.

Lemma solution_monitors_all_asked_witness :
  scripts_return stored_extern busy_client 3
    (Monitor_AcceptSolution busy_client) /\
  scripts_return stored_extern busy_client 3
    (Monitor_AtSolution busy_client) /\
  (3 + length (monitors_ (search_ demo_monitored)) < 8)%nat /\
  (exists s' bs,
     Search_AcceptSolution stored_extern busy_client 8 demo_monitored
       = Done (forallb id bs) s' /\
     asked stored_extern busy_client (Monitor_AcceptSolution busy_client)
       EvAcceptSolution [50; 51; 52] demo_monitored bs s' /\
     bs = [true; false; true] /\
     clear_action_ (queue_ s') = Some 52) /\
  (exists s' bs,
     Search_AtSolution stored_extern busy_client 8 demo_monitored
       = Done (existsb id bs) s' /\
     asked stored_extern busy_client (Monitor_AtSolution busy_client)
       EvAtSolution [50; 51; 52] demo_monitored bs s' /\
     bs = [false; false; true] /\
     freeze_level_ (queue_ s') = 3).
Proof.
  destruct busy_scripts_return as [H1 H2].
  assert (3 + length (monitors_ (search_ demo_monitored)) < 8)%nat as H3
    by (vm_compute; lia).
  split; [exact H1|]. split; [exact H2|]. split; [exact H3|].
  destruct (solution_monitors_all_asked stored_extern busy_client 3 8
              demo_monitored H1 H2 H3)
    as [(s1 & bs1 & t1 & E1 & A1 & _) (s2 & bs2 & t2 & E2 & A2 & _)].
  change (monitors_ (search_ demo_monitored)) with [50; 51; 52] in A1, A2.
  split.
  - exists s1, bs1. split; [exact E1|]. split; [exact A1|].
    inversion A1 as [|? ? ? x1 ? ? f1 R1 A]; subst.
    inversion A as [|? ? ? x2 ? ? f2 R2 A']; subst.
    inversion A' as [|? ? ? x3 ? ? f3 R3 A'']; subst.
    inversion A''; subst.
    apply busy_accept_run in R1 as ->. apply busy_accept_run in R2 as ->.
    apply busy_accept_run in R3 as ->. by vm_compute.
  - exists s2, bs2. split; [exact E2|]. split; [exact A2|].
    inversion A2 as [|? ? ? x1 ? ? f1 R1 A]; subst.
    inversion A as [|? ? ? x2 ? ? f2 R2 A']; subst.
    inversion A' as [|? ? ? x3 ? ? f3 R3 A'']; subst.
    inversion A''; subst.
    apply busy_at_run in R1 as ->. apply busy_at_run in R2 as ->.
    apply busy_at_run in R3 as ->. by vm_compute.
Defined.


Local Open Scope res_scope.

(** ** What a run that returns keeps *)

Global Instance same_jmpbuf_preorder : PreOrder same_jmpbuf.
Proof.
  split; [done|]. unfold same_jmpbuf. intros s1 s2 s3 H1 H2. congruence.
Qed.

Global Instance same_preorder {A} (f : Solver -> A) : PreOrder (same f).
Proof. split; [done|]. unfold same. intros s1 s2 s3 H1 H2. congruence. Qed.

Global Instance model_frame_preorder : PreOrder model_frame.
Proof.
  split; [by split|]. intros s1 s2 s3 [] []. split; try congruence.
  by etransitivity.
Qed.

Section Keeps.
Context (R : Solver -> Solver -> Prop) `{!PreOrder R}.

Lemma keeps_ret {A} (a : A) : keeps R (ret a).
Proof. by intros s a' s' [= _ <-]. Qed.

Lemma keeps_get : keeps R get.
Proof. by intros s a' s' [= _ <-]. Qed.

Lemma keeps_abort {A} : keeps R (@abort A).
Proof. by intros s a s'. Qed.

Lemma keeps_modify (f : Solver -> Solver) :
  (forall s, R s (f s)) -> keeps R (modify f).
Proof. intros H s a s' [= _ <-]. apply H. Qed.

Lemma keeps_checked (f : Solver -> option Solver) :
  (forall s s', f s = Some s' -> R s s') -> keeps R (checked f).
Proof.
  intros H s a s'. unfold checked. destruct (f s) eqn:E; [|done].
  intros [= _ <-]. by apply H.
Qed.

Lemma keeps_bind {A B} (m : M A) (k : A -> M B) :
  keeps R m -> (forall a, keeps R (k a)) -> keeps R (bind m k).
Proof.
  intros Hm Hk s b s'. unfold bind. destruct (m s) as [a s1| | |] eqn:E;
    [|done..].
  intros H. etransitivity; [by apply (Hm s a s1)|by apply (Hk a s1 b s')].
Qed.

End Keeps.

Lemma PopState_jmpbuf ext s t info s' :
  PopState ext s = Some (t, info, s') -> same_jmpbuf s s'.
Proof.
  intros H.
  apply PopState_Some in H as (m & rest & tr & mem & _ & _ & _ & _ & ->).
  done.
Qed.

Ltac keeps_tac :=
  repeat first
    [ solve [eauto 2]
    | apply keeps_ret; solve [apply _]
    | apply keeps_get; solve [apply _]
    | apply keeps_abort
    | apply keeps_modify; intros ?; first [by split|solve [eauto 2]]
    | apply keeps_bind; [apply _| |intros ?]
    | match goal with
      | |- keeps _ (if ?b then _ else _) => destruct b
      | |- keeps _ (match ?x with _ => _ end) => destruct x
      end ].

Lemma exec_keeps_jmpbuf ext client fuel :
  forall c, keeps same_jmpbuf (exec ext client fuel c).
Proof.
  induction fuel as [|f IH]; intros c; [done|].
  destruct c; simpl; try (by keeps_tac).
  - (* CApi *)
    destruct a; try (by keeps_tac).
    + intros s [] s'. destruct (PopState ext s) as [[[t info] s1]|] eqn:E;
        [|done].
      destruct t; try done. intros [= <-]. by eapply PopState_jmpbuf.
    + apply keeps_checked. intros s s' H.
      by apply SaveValue_Some in H as (tr & _ & ->).
    + apply keeps_checked. intros s s' H. by apply RevAlloc_Some in H as ->.
    + apply keeps_checked. intros s s' H.
      by apply inhibit_Some in H as [->|(tr & v & ->)].
    + apply keeps_checked. intros s s' H.
      by apply desinhibit_Some in H as [->|(tr & v & ->)].
  - (* CSolverAddConstraint *)
    apply keeps_bind; [apply _|apply keeps_get; apply _|]. intros s0.
    destruct (state_ s0); keeps_tac.
    apply keeps_checked. intros s s' H.
    by apply AddConstraint_root_Some in H as (parent & ->).
Qed.

Lemma exec_keeps_model ext client fuel c :
  (forall s, cmd_pre c s) -> keeps model_frame (exec ext client fuel c).
Proof.
  intros Hpre s a s' H.
  destruct (exec_run_rel ext client fuel c s (Hpre s)) as [t Hrr].
  rewrite H in Hrr. simpl in Hrr. destruct Hrr. split; try done.
  by eapply exec_keeps_jmpbuf.
Qed.

(** ** What a search keeps, however a run ends *)

Lemma search_frame_refl s : search_frame s s.
Proof. by split. Qed.

Lemma search_frame_trans s1 s2 s3 :
  search_frame s1 s2 -> search_frame s2 s3 -> search_frame s1 s3.
Proof.
  intros [] []. split; try congruence. by etransitivity.
Qed.

Lemma run_rel_frame client s s' t : run_rel client s s' t -> search_frame s s'.
Proof. intros []. by split. Qed.

Lemma frames_ret {A} (a : A) : frames (ret a).
Proof. intros s. apply search_frame_refl. Qed.

Lemma frames_get : frames get.
Proof. intros s. apply search_frame_refl. Qed.

Lemma frames_abort {A} : frames (@abort A).
Proof. intros s. apply search_frame_refl. Qed.

Lemma frames_modify (f : Solver -> Solver) :
  (forall s, search_frame s (f s)) -> frames (modify f).
Proof. intros H s. apply H. Qed.

Lemma frames_bind {A B} (m : M A) (k : A -> M B) :
  frames m -> (forall a, frames (k a)) -> frames (bind m k).
Proof.
  intros Hm Hk s. unfold bind. pose proof (Hm s) as H1.
  destruct (m s) as [a s1| | |]; try done.
  eapply search_frame_trans; [exact H1|apply Hk].
Qed.

Lemma exec_frames ext client fuel c :
  (forall s, cmd_pre c s) -> frames (exec ext client fuel c).
Proof.
  intros Hpre s. destruct (exec_run_rel ext client fuel c s (Hpre s)) as [t H].
  by eapply run_rel_frame.
Qed.

Lemma PopState_frame ext s t info s' :
  PopState ext s = Some (t, info, s') -> search_frame s s'.
Proof.
  intros H.
  apply PopState_Some in H as (m & rest & tr & mem & _ & _ & _ & _ & ->).
  by split.
Qed.

Ltac frames_tac :=
  repeat first
    [ solve [eauto 2]
    | apply frames_ret
    | apply frames_get
    | apply frames_abort
    | apply exec_frames; by intros ?
    | apply frames_modify; intros ?; first [by split|solve [eauto 2]]
    | apply frames_bind; [|intros ?]
    | match goal with
      | |- frames (if ?b then _ else _) => destruct b
      | |- frames (match ?x with _ => _ end) => destruct x
      end ].

Lemma AfterFailure_frames ext client fuel :
  frames (AfterFailure ext client fuel).
Proof. unfold AfterFailure. frames_tac. Qed.

Lemma BacktrackToSentinel_while_frames ext client fuel magic_code :
  frames (BacktrackToSentinel_while ext client fuel magic_code).
Proof.
  induction fuel as [|f IH]; intros s; simpl; [apply search_frame_refl|].
  destruct (PopState ext s) as [[[t info] s1]|] eqn:E;
    [|apply search_frame_refl].
  apply PopState_frame in E.
  eapply search_frame_trans; [exact E|]. clear E s.
  destruct t.
  - destruct (negb _); [apply search_frame_refl|]. simpl.
    destruct (_ <? 0); [by split|].
    destruct (_ =? magic_code); [by split|].
    eapply search_frame_trans; [|apply IH]. by split.
  - apply IH.
  - apply IH.
  - revert s1.
    change (frames (modify (log (EvActionRun (ptr_info info))) ;;
                    s' <- get ;;
                    exec ext client f
                      (CScript (Action_Run client (ptr_info info) s')) ;;
                    BacktrackToSentinel_while ext client f magic_code)).
    frames_tac.
Qed.

Lemma BacktrackToSentinel_frames ext client fuel magic_code :
  frames (BacktrackToSentinel ext client fuel magic_code).
Proof.
  pose proof (BacktrackToSentinel_while_frames ext client fuel magic_code).
  unfold BacktrackToSentinel. frames_tac.
Qed.

Lemma Search_hook_frames ext client fuel h :
  frames (Search_hook ext client fuel h).
Proof. unfold Search_hook. frames_tac. Qed.

Lemma ProcessConstraints_for_frames ext client fuel n :
  frames (ProcessConstraints_for ext client fuel n).
Proof. induction n as [|n IH]; simpl; frames_tac. Qed.

Lemma ProcessConstraints_nested_frames ext client fuel :
  forall index, frames (ProcessConstraints_nested ext client fuel index).
Proof.
  induction fuel as [|f IH]; intros index; simpl;
    [intros s; apply search_frame_refl|].
  frames_tac.
Qed.

Lemma ProcessConstraints_frames ext client fuel :
  frames (ProcessConstraints ext client fuel).
Proof.
  pose proof (ProcessConstraints_for_frames ext client fuel).
  pose proof (ProcessConstraints_nested_frames ext client fuel).
  unfold ProcessConstraints. frames_tac.
Qed.

Lemma PushSentinel_frame magic_code s :
  search_frame s (PushSentinel magic_code s).
Proof. unfold PushSentinel. destruct (_ =? _); by split. Qed.

Lemma root_node_try_frames ext client fuel :
  frames (root_node_try ext client fuel).
Proof.
  pose proof (ProcessConstraints_frames ext client fuel).
  pose proof (Search_hook_frames ext client fuel).
  pose proof PushSentinel_frame.
  unfold root_node_try, ClearBuffer.
  frames_tac.
Qed.

Lemma root_node_on_fail_frames ext client fuel :
  frames (root_node_on_fail ext client fuel).
Proof.
  pose proof (AfterFailure_frames ext client fuel).
  pose proof (BacktrackToSentinel_frames ext client fuel).
  unfold root_node_on_fail. frames_tac.
Qed.

(** ** A false constraint in the model *)

Lemma bind_Done {A B} (m : M A) (k : A -> M B) s b s' :
  bind m k s = Done b s' ->
  exists a s1, m s = Done a s1 /\ k a s1 = Done b s'.
Proof. unfold bind. destruct (m s) as [a s1| | |]; [eauto|done..]. Qed.

Lemma exec_false_constraint ext client fuel s s' :
  fail_intercept_ s = None -> jmpbuf_filled_ (search_ s) = true ->
  exec ext client fuel (CPostAndPropagate FalseConstraint) s <> Done tt s'.
Proof.
  intros Hi Hj H. destruct fuel as [|f]; [done|]. simpl in H.
  apply bind_Done in H as (? & s1 & [= _ <-] & H).
  apply bind_Done in H as (? & ? & [= <- <-] & H).
  apply bind_Done in H as ([] & s2 & E2 & H).
  destruct f as [|f1]; [done|]. simpl in E2. injection E2 as <-.
  apply bind_Done in H as (? & ? & [= <- <-] & H).
  apply bind_Done in H as ([] & s3 & E3 & _).
  simpl in E3. apply bind_Done in E3 as ([] & s4 & E4 & _).
  destruct f1 as [|f2]; [done|]. simpl in E4.
  destruct f2 as [|f3]; [done|]. simpl in E4.
  apply bind_Done in E4 as (? & ? & [= <- <-] & E4).
  simpl in E4. rewrite Hi in E4.
  apply bind_Done in E4 as (? & s5 & [= _ <-] & E4).
  apply bind_Done in E4 as ([] & s6 & E6 & E7).
  apply exec_keeps_jmpbuf in E6. unfold same_jmpbuf in E6. simpl in E6.
  destruct f3 as [|f4]; [done|]. simpl in E7.
  apply bind_Done in E7 as (? & ? & [= <- <-] & E7).
  rewrite E6, Hj in E7. done.
Qed.

Lemma ProcessConstraints_for_false ext client fuel k : forall n s s',
  state_ s = IN_ROOT_NODE -> fail_intercept_ s = None ->
  jmpbuf_filled_ (search_ s) = true ->
  constraints_list_ s !! k = Some FalseConstraint ->
  (Z.to_nat (constraint_index_ s) <= k < Z.to_nat (constraint_index_ s) + n)%nat ->
  0 <= constraint_index_ s ->
  ProcessConstraints_for ext client fuel n s <> Done tt s'.
Proof.
  induction n as [|n IH]; intros s s' Hst Hi Hj Hk Hrange Hpos H; [lia|].
  simpl in H. apply bind_Done in H as (? & ? & [= <- <-] & H).
  destruct (constraints_list_ s !! Z.to_nat (constraint_index_ s))
    as [c|] eqn:Hc; [|done].
  apply bind_Done in H as ([] & s1 & E1 & H).
  destruct (decide (k = Z.to_nat (constraint_index_ s))) as [->|Hne].
  - rewrite Hk in Hc. injection Hc as <-.
    by apply exec_false_constraint in E1.
  - pose proof (exec_keeps_jmpbuf _ _ _ _ _ _ _ E1) as Hj1.
    unfold same_jmpbuf in Hj1.
    destruct (exec_run_rel ext client fuel (CPostAndPropagate c) s I)
      as [t Hrr].
    rewrite E1 in Hrr. simpl in Hrr.
    apply bind_Done in H as (? & s2 & [= _ <-] & H).
    revert H. apply IH; simpl.
    + by rewrite (rr_state _ _ _ _ Hrr).
    + by rewrite (rr_intercept _ _ _ _ Hrr).
    + by rewrite Hj1.
    + by rewrite (rr_clist_root _ _ _ _ Hrr Hst).
    + rewrite (rr_cindex _ _ _ _ Hrr). lia.
    + rewrite (rr_cindex _ _ _ _ Hrr). lia.
Qed.

Lemma root_node_try_false ext client fuel s b s' :
  state_ s = IN_ROOT_NODE -> fail_intercept_ s = None ->
  jmpbuf_filled_ (search_ s) = true ->
  FalseConstraint ∈ constraints_list_ s ->
  root_node_try ext client fuel s <> Done b s'.
Proof.
  intros Hst Hi Hj Hin H. unfold root_node_try in H.
  apply bind_Done in H as ([] & s1 & H & _).
  unfold ProcessConstraints in H.
  apply bind_Done in H as (? & ? & [= <- <-] & H).
  apply bind_Done in H as (? & s2 & [= _ <-] & H).
  apply bind_Done in H as ([] & s3 & H & _).
  apply list_elem_of_lookup in Hin as [k Hk].
  revert H. apply (ProcessConstraints_for_false ext client fuel k); simpl;
    try done.
  apply lookup_lt_Some in Hk. lia.
Qed.

(** ** Setting up a search *)

Lemma PopState_model ext s t info s' :
  PopState ext s = Some (t, info, s') -> model_frame s s'.
Proof.
  intros H.
  apply PopState_Some in H as (m & rest & tr & mem & _ & _ & _ & _ & ->).
  by split.
Qed.

Lemma BacktrackToSentinel_while_keeps ext client fuel magic_code :
  keeps model_frame (BacktrackToSentinel_while ext client fuel magic_code).
Proof.
  induction fuel as [|f IH]; intros s a s'; simpl; [done|].
  destruct (PopState ext s) as [[[t info] s1]|] eqn:E; [|done].
  apply PopState_model in E. intros H.
  etransitivity; [exact E|]. clear E s. revert H.
  destruct t.
  - destruct (negb _); [done|]. simpl.
    destruct (_ <? 0); [done|].
    destruct (_ =? magic_code).
    + intros [= _ <-]. by split.
    + intros H. apply IH in H. etransitivity; [|exact H]. by split.
  - apply IH.
  - apply IH.
  - revert s1 a s'.
    change (keeps model_frame
              (modify (log (EvActionRun (ptr_info info))) ;;
               s' <- get ;;
               exec ext client f
                 (CScript (Action_Run client (ptr_info info) s')) ;;
               BacktrackToSentinel_while ext client f magic_code)).
    pose proof (exec_keeps_model ext client f).
    keeps_tac. by apply H.
Qed.

Lemma BacktrackToSentinel_keeps ext client fuel magic_code :
  keeps model_frame (BacktrackToSentinel ext client fuel magic_code).
Proof.
  pose proof (BacktrackToSentinel_while_keeps ext client fuel magic_code).
  unfold BacktrackToSentinel. keeps_tac.
Qed.

Lemma Install_all_ind (P : Solver -> Prop) :
  (forall m s, P s -> P (push_monitor m s)) ->
  forall ms s, P s -> P (Install_all ms s).
Proof.
  intros Hp ms. unfold Install_all.
  induction ms as [|[m|] ms IH]; intros s Hs; simpl; auto.
Qed.

Lemma PushSentinel_model magic_code s :
  model_frame s (PushSentinel magic_code s).
Proof. unfold PushSentinel. destruct (_ =? _); by split. Qed.

Lemma Install_all_model ms s : model_frame s (Install_all ms s).
Proof.
  apply (Install_all_ind (model_frame s)); [|done].
  intros m x Hx. etransitivity; [exact Hx|by split].
Qed.

Lemma Install_all_same {A} (f : Solver -> A) ms s :
  (forall m x, f (push_monitor m x) = f x) -> same f s (Install_all ms s).
Proof.
  intros Hf. apply (Install_all_ind (same f s)); [|done].
  intros m x Hx. unfold same in *. by rewrite Hf.
Qed.

Lemma exec_keeps_state ext client fuel c :
  (forall s, cmd_pre c s) -> keeps (same state_) (exec ext client fuel c).
Proof.
  intros Hpre s a s' H.
  destruct (exec_run_rel ext client fuel c s (Hpre s)) as [t Hrr].
  rewrite H in Hrr. by destruct Hrr.
Qed.

Lemma exec_keeps_counter ext client fuel c :
  (forall s, cmd_pre c s) ->
  keeps (same (fun s => solution_counter_ (search_ s)))
    (exec ext client fuel c).
Proof.
  intros Hpre s a s' H.
  destruct (exec_run_rel ext client fuel c s (Hpre s)) as [t Hrr].
  rewrite H in Hrr. by destruct Hrr.
Qed.

Lemma PushSentinel_same {A} (f : Solver -> A) magic_code s :
  (forall g x, f (upd_search (fun y => set_sentinel_pushed_ (g y) y) x) = f x) ->
  (forall t info x, f (PushState t info x) = f x) ->
  same f s (PushSentinel magic_code s).
Proof.
  intros H1 H2. unfold PushSentinel, same.
  destruct (_ =? _); [apply H2|]. by rewrite H1, H2.
Qed.

(** [NewSearch], when it returns, has set up a search with the decision
    builder it was given: no solution counted, the state outside search,
    the model kept. *)
Lemma NewSearch_Done ext client fuel db monitors s s0 :
  NewSearch ext client fuel db monitors s = Done tt s0 ->
  db <> None /\
  decision_builder_ (search_ s0) = db /\
  state_ s0 = OUTSIDE_SEARCH /\
  solution_counter_ (search_ s0) = 0 /\
  model_frame s s0.
Proof.
  intros H.
  pose proof (BacktrackToSentinel_keeps ext client fuel) as Kb.
  pose proof (fun h i => exec_keeps_model ext client fuel (CSearchHook h i)
                          (fun _ => I)) as Km.
  pose proof (fun h i => exec_keeps_state ext client fuel (CSearchHook h i)
                          (fun _ => I)) as Ks.
  pose proof (fun h i => exec_keeps_counter ext client fuel (CSearchHook h i)
                          (fun _ => I)) as Kc.
  pose proof Install_all_model as Im.
  pose proof PushSentinel_model as Pm.
  split; [|split; [|split; [|split]]].
  - unfold NewSearch, bind, get in H. by destruct db.
  - unfold NewSearch in H.
    apply bind_Done in H as (? & ? & [= <- <-] & H).
    destruct db as [db|]; [|done]. destruct (_ || _); [done|].
    do 9 (apply bind_Done in H as ([] & ? & _ & H)).
    apply bind_Done in H as ([] & ? & _ & [= <-]). done.
  - unfold NewSearch in H.
    apply bind_Done in H as (? & ? & [= <- <-] & H).
    destruct db as [db|]; [|done]. destruct (_ || _); [done|].
    do 2 (apply bind_Done in H as ([] & ? & _ & H)).
    apply bind_Done in H as ([] & s3 & [= <-] & H).
    revert H.
    match goal with |- ?rest ?x = _ -> _ =>
      assert (keeps (same state_) rest) as K end.
    { unfold EnterSearch, Search_hook. keeps_tac;
        apply keeps_modify; intros z; by apply (Install_all_same state_). }
    intros H. by apply K in H.
  - unfold NewSearch in H.
    apply bind_Done in H as (? & ? & [= <- <-] & H).
    destruct db as [db|]; [|done]. destruct (_ || _); [done|].
    do 8 (apply bind_Done in H as ([] & ? & _ & H)).
    unfold EnterSearch in H.
    apply bind_Done in H as ([] & ? & H9 & H).
    apply bind_Done in H9 as ([] & s9 & [= <-] & H9).
    assert (keeps (same (fun s => solution_counter_ (search_ s)))
              (Search_hook ext client fuel HEnterSearch ;;
               modify (PushSentinel INITIAL_SEARCH_SENTINEL) ;;
               modify (upd_search (set_decision_builder_ (Some db)))))
      as K.
    { unfold Search_hook. keeps_tac;
        apply keeps_modify; intros z;
        by apply (PushSentinel_same
                    (fun s => solution_counter_ (search_ s))). }
    match goal with _ : ?m ?x = Done _ ?y |- _ =>
      match m with Search_hook _ _ _ _ =>
        assert (same (fun s => solution_counter_ (search_ s)) x s0) as Hx
      end end.
    { eapply K. unfold bind at 1. rewrite H9. exact H. }
    exact Hx.
  - assert (keeps model_frame (NewSearch ext client fuel db monitors)) as K.
    { unfold NewSearch, EnterSearch, Search_hook. keeps_tac. }
    by apply K in H.
Qed.

(** ** The root node *)

Lemma NextSolution_over ext client tree fuel s :
  SolveDepth s <= 1 ->
  state_ s = PROBLEM_INFEASIBLE \/ state_ s = NO_MORE_SOLUTIONS ->
  NextSolution ext client tree fuel s = Done false s.
Proof.
  intros Hd Hst. unfold NextSolution, bind, get. simpl.
  destruct (_ && _); [done|].
  destruct (Z.leb_spec (SolveDepth s) 1) as [_|]; [|lia].
  by destruct Hst as [-> | ->].
Qed.

Lemma NextSolution_root ext client tree fuel s s1 :
  state_ s = OUTSIDE_SEARCH ->
  decision_builder_ (search_ s) <> None ->
  jmpbuf_filled_ (search_ s) = false ->
  Search_hook ext client fuel HBeginInitialPropagation
    (set_state_ IN_ROOT_NODE s) = Done tt s1 ->
  NextSolution ext client tree fuel s
  = match root_node_try ext client fuel
            (upd_search (set_jmpbuf_filled_ true) s1) with
    | Failed s2 => root_node_on_fail ext client fuel s2
    | Done true s2 => explore tree fuel None s2
    | r => r
    end.
Proof.
  intros Hst Hdb Hj Hhook. unfold NextSolution, bind at 1, get.
  unfold SolveDepth. rewrite Hst. simpl.
  rewrite bool_decide_eq_false_2 by done. simpl.
  unfold bind at 1, modify. unfold bind at 1. rewrite Hhook.
  apply exec_keeps_jmpbuf in Hhook. unfold same_jmpbuf in Hhook.
  simpl in Hhook. rewrite Hj in Hhook.
  unfold bind, CP_TRY. rewrite Hhook.
  destruct (root_node_try _ _ _ _) as [[] s2|s2|s2|s2]; try done.
  unfold root_node_on_fail, bind.
  destruct (AfterFailure ext client fuel s2) as [[] s3| | |]; try done.
  by destruct (BacktrackToSentinel ext client fuel _ s3) as [[] s4| | |].
Qed.

(** The model of [demo_infeasible]: the first constraint wakes up three
    demons, the second fails; [NextSolution] finds the problem
    infeasible, [Solve] returns false and leaves the solver outside
    search. *)
Example root_infeasible_run :
  (exists s',
     NextSolution stored_extern demo_client demo_tree 20
       demo_infeasible_search = Done false s' /\
     state_ s' = PROBLEM_INFEASIBLE /\ fails_ s' = 1 /\ branches_ s' = 0 /\
     (forall p, pending p s' = []) /\
     marker_stack_ (search_ s') = marker_stack_ (search_ demo_infeasible)) /\
  (exists s',
     Solve stored_extern demo_client demo_tree 20 (Some 7) [Some 50]
       demo_infeasible = Done false s' /\
     state_ s' = OUTSIDE_SEARCH /\ fails_ s' = 1 /\ branches_ s' = 0).
Proof.
  split.
  - eexists. split; [by vm_compute|]. split; [by vm_compute|].
    split; [by vm_compute|]. split; [by vm_compute|].
    split; [by intros []|by vm_compute].
  - eexists. split; [by vm_compute|]. by vm_compute.
Qed.


Local Close Scope res_scope.

Lemma bytes_pos_bytes p : bytes_pos (pos_bytes p) = p.
Proof. induction p; simpl; congruence. Qed.

Lemma stored_extern_ok : ExternOk stored_extern.
Proof.
  split.
  - intros b. simpl. by rewrite bytes_pos_bytes, decode_encode.
  - intros src. by exists (x78 :: x01 :: src).
Qed.

Lemma new_Trail_wf ext bs level : 0 < bs -> trail_wf ext (new_Trail bs level).
Proof.
  intros Hbs. split; [|done].
  intros k. exists []. destruct k; by apply new_CompressedTrail_rep.
Qed.

(** The run of [c1_ops] on a trail of blocks of two cells, which packs a
    block, and the backtrack to the mark, which unpacks it. *)
Example trail_round_trip_run :
  (tm ← save_run stored_extern c1_ops
          (new_Trail 2 COMPRESS_WITH_ZLIB, empty_Memory);
   Some (read K_int 10 tm.2, read K_int 11 tm.2, read K_uint64 30 tm.2,
         read_bool 20 tm.2, ct_size (rev_ints_ tm.1),
         length (blocks_ (rev_ints_ tm.1))))
  = Some (9, 8, 7, false, 5, 1%nat) /\
  (tm ← save_run stored_extern c1_ops
          (new_Trail 2 COMPRESS_WITH_ZLIB, empty_Memory);
   tm' ← BacktrackTo stored_extern
           (mark_Trail (new_Trail 2 COMPRESS_WITH_ZLIB)
              (new_StateMarker SIMPLE_MARKER StateInfo_default)) tm.1 tm.2;
   Some (read K_int 10 tm'.2, read K_int 11 tm'.2, read K_uint64 30 tm'.2,
         read_bool 20 tm'.2, ct_size (rev_ints_ tm'.1),
         length (blocks_ (rev_ints_ tm'.1))))
  = Some (0, 0, 0, false, 0, 0%nat).
Proof. by vm_compute. Qed.

Lemma trail_round_trip_witness :
  ExternOk stored_extern /\
  trail_wf stored_extern (new_Trail 2 COMPRESS_WITH_ZLIB) /\
  saved_before_write [] c1_ops = true /\
  exists t1 mem1 t2 mem2,
    save_run stored_extern c1_ops
      (new_Trail 2 COMPRESS_WITH_ZLIB, empty_Memory) = Some (t1, mem1) /\
    BacktrackTo stored_extern
      (mark_Trail (new_Trail 2 COMPRESS_WITH_ZLIB)
         (new_StateMarker SIMPLE_MARKER StateInfo_default)) t1 mem1
      = Some (t2, mem2) /\
    (forall k a, read k a mem2 = read k a empty_Memory) /\
    (forall a, read_bool a mem2 = read_bool a empty_Memory).
Proof.
  assert (trail_wf stored_extern (new_Trail 2 COMPRESS_WITH_ZLIB)) as Hwf
    by (apply new_Trail_wf; lia).
  assert (saved_before_write [] c1_ops = true) as Hops by (by vm_compute).
  split; [exact stored_extern_ok|]. split; [exact Hwf|].
  split; [exact Hops|].
  destruct (trail_round_trip stored_extern (new_Trail 2 COMPRESS_WITH_ZLIB)
              empty_Memory c1_ops
              (new_StateMarker SIMPLE_MARKER StateInfo_default)
              stored_extern_ok Hwf Hops)
    as (t1 & mem1 & t2 & mem2 & cells & bools & H1 & H2 & H3 & H4 & _).
  exists t1, mem1, t2, mem2. auto.
Defined.


(** C2. For every sequence of [PushBack] and [PopBack], what [Back()]
    shows after each step and the final [size()] are those of the plain
    sequence of cells, whatever the compression mode and whatever the
    positive block size: a trail built with [NO_COMPRESSION] and one built
    with [COMPRESS_WITH_ZLIB] cannot be told apart. *)
Theorem compressed_trail_equivalence (ext : Extern) (ops : list TrailOp)
    (bs1 bs2 : Z) :
  ExternOk ext -> 0 < bs1 -> 0 < bs2 ->
  trail_observe ext ops (new_CompressedTrail bs1 NO_COMPRESSION)
    = Some (seq_observe ops []) /\
  trail_observe ext ops (new_CompressedTrail bs2 COMPRESS_WITH_ZLIB)
    = Some (seq_observe ops []) /\
  trail_observe ext ops (new_CompressedTrail bs1 NO_COMPRESSION)
    = trail_observe ext ops (new_CompressedTrail bs2 COMPRESS_WITH_ZLIB).
Proof.
  intros Hok H1 H2.
  pose proof (trail_observe_seq ext Hok ops _ _
                (new_CompressedTrail_rep ext bs1 NO_COMPRESSION H1)) as E1.
  pose proof (trail_observe_seq ext Hok ops _ _
                (new_CompressedTrail_rep ext bs2 COMPRESS_WITH_ZLIB H2)) as E2.
  rewrite E1, E2. done.
Qed.

Lemma compressed_trail_equivalence_witness :
  ExternOk stored_extern /\ 0 < 2 /\ 0 < 3 /\
  trail_observe stored_extern c2_ops (new_CompressedTrail 2 NO_COMPRESSION)
    = trail_observe stored_extern c2_ops
        (new_CompressedTrail 3 COMPRESS_WITH_ZLIB).
Proof.
  split; [exact stored_extern_ok|]. split; [lia|]. split; [lia|].
  apply (compressed_trail_equivalence stored_extern c2_ops 2 3
           stored_extern_ok); lia.
Defined.

(* ================================================================== *)
(** * Part III. Further properties of the code                         *)
(* ================================================================== *)

Local Open Scope res_scope.

(** ** The compressed trail *)

Lemma trail_run_rep ext ops : forall t l,
  ExternOk ext -> ct_rep ext t l ->
  exists t', trail_run ext ops t = Some t' /\
             ct_rep ext t' (foldl (fun l op => seq_step op l) l ops).
Proof.
  induction ops as [|op ops IH]; intros t l Hok Hrep; simpl; [eauto|].
  assert (exists t', trail_step ext op t = Some t' /\
                     ct_rep ext t' (seq_step op l)) as (t' & -> & Hrep').
  { destruct op as [v|]; simpl.
    - destruct (PushBack_rep ext Hok v _ _ Hrep) as (t' & ? & ? & _). eauto.
    - destruct (PopBack_rep ext _ _ Hrep) as (t' & ? & ? & _). eauto. }
  simpl. by apply IH.
Qed.

(** X1.  On every trail reached from a new one by pushes and pops, of any
    positive block size and either compression: [PushBack(v)] returns,
    [Back()] is then [v] and the size one more; the [PopBack()] after it
    returns a trail of the size before, with the [Back()] of before, and
    which no further run of pushes and pops tells from the trail before
    the push. *)
Theorem PushBack_PopBack_round_trip (ext : Extern) (bs : Z)
    (level : TrailCompression) (ops : list TrailOp) (v : addrval) :
  ExternOk ext -> 0 < bs ->
  exists t t1 t2,
    trail_run ext ops (new_CompressedTrail bs level) = Some t /\
    PushBack ext v t = Some t1 /\
    Back t1 = Some v /\ ct_size t1 = ct_size t + 1 /\
    PopBack ext t1 = Some t2 /\
    ct_size t2 = ct_size t /\ Back t2 = Back t /\
    forall ops', trail_observe ext ops' t2 = trail_observe ext ops' t.
Proof.
  intros Hok Hbs.
  destruct (trail_run_rep ext ops _ [] Hok
              (new_CompressedTrail_rep ext bs level Hbs)) as (t & Ht & Hrep).
  set (l := foldl (fun l op => seq_step op l) [] ops) in *.
  destruct (PushBack_rep ext Hok v _ _ Hrep) as (t1 & H1 & Hrep1 & _).
  destruct (PopBack_rep ext _ _ Hrep1) as (t2 & H2 & Hrep2 & _).
  rewrite removelast_last in Hrep2.
  exists t, t1, t2. split; [done|]. split; [done|].
  split; [by rewrite (Back_rep ext _ _ Hrep1), last_snoc|].
  unfold ct_size.
  rewrite (ct_rep_size ext _ _ Hrep), (ct_rep_size ext _ _ Hrep1),
    (ct_rep_size ext _ _ Hrep2), length_app.
  split; [simpl; lia|]. split; [done|]. split; [done|].
  split; [by rewrite (Back_rep ext _ _ Hrep), (Back_rep ext _ _ Hrep2)|].
  intros ops'.
  by rewrite (trail_observe_seq ext Hok ops' _ _ Hrep),
    (trail_observe_seq ext Hok ops' _ _ Hrep2).
Qed.

Lemma PushBack_PopBack_round_trip_witness :
  ExternOk stored_extern /\ 0 < 2 /\
  exists t t1 t2,
    trail_run stored_extern
      [OpPushBack (mk_addrval 1 10); OpPushBack (mk_addrval 2 20);
       OpPushBack (mk_addrval 3 30); OpPushBack (mk_addrval 4 40)]
      (new_CompressedTrail 2 COMPRESS_WITH_ZLIB) = Some t /\
    PushBack stored_extern (mk_addrval 5 50) t = Some t1 /\
    length (blocks_ t) = 0%nat /\ length (blocks_ t1) = 1%nat /\
    PopBack stored_extern t1 = Some t2 /\ ct_size t2 = ct_size t.
Proof.
  split; [exact stored_extern_ok|]. split; [lia|].
  destruct (PushBack_PopBack_round_trip stored_extern 2 COMPRESS_WITH_ZLIB
              [OpPushBack (mk_addrval 1 10); OpPushBack (mk_addrval 2 20);
               OpPushBack (mk_addrval 3 30); OpPushBack (mk_addrval 4 40)]
              (mk_addrval 5 50) stored_extern_ok)
    as (t & t1 & t2 & Ht & H1 & _ & _ & H2 & Hs & _); [lia|].
  exists t, t1, t2. split; [exact Ht|]. split; [exact H1|].
  assert (Some t = Some t) as Et by reflexivity.
  rewrite <- Ht in Et at 1. vm_compute in Et. injection Et as Et.
  assert (Some t1 = Some t1) as Et1 by reflexivity.
  rewrite <- H1 in Et1 at 1. rewrite <- Et in Et1 at 1.
  vm_compute in Et1. injection Et1 as Et1.
  split; [by rewrite <- Et|]. split; [by rewrite <- Et1|]. by split.
Defined.

(** ** The queue runs to a fixpoint *)

Lemma exec_Process_while_any_empty ext client fuel : forall s s',
  exec ext client fuel CProcess_while_any s = Done tt s' ->
  forall p, pending p s' = [].
Proof.
  induction fuel as [|f IH]; intros s s' H; [done|]. simpl in H.
  apply bind_Done in H as (? & ? & [= <- <-] & H).
  change (at_VAR (containers_ (queue_ s)))
    with (container VAR_PRIORITY s) in H.
  change (at_NORMAL (containers_ (queue_ s)))
    with (container NORMAL_PRIORITY s) in H.
  change (at_DELAYED (containers_ (queue_ s)))
    with (container DELAYED_PRIORITY s) in H.
  destruct (negb (Fifo_Empty (container VAR_PRIORITY s))) eqn:Ev;
    destruct (negb (Fifo_Empty (container NORMAL_PRIORITY s))) eqn:En;
    destruct (negb (Fifo_Empty (container DELAYED_PRIORITY s))) eqn:Ed;
    simpl in H;
    try (apply bind_Done in H as ([] & s1 & _ & H);
         apply bind_Done in H as ([] & s2 & _ & H);
         by eapply IH).
  unfold ret in H. injection H as <-. apply negb_false_iff in Ev, En, Ed.
  intros []; by apply Fifo_Empty_true.
Qed.

(** X2.  [Queue::Process] returns only at the fixpoint: when it returns,
    having found [in_process_] false, the three queues are empty and
    [in_process_] is false again; when it finds [in_process_] true it
    returns at once and changes nothing.  So [Enqueue] on a queue that is
    neither frozen nor processing either refuses the demon and changes
    nothing, or returns with the three queues empty. *)
Theorem propagation_fixpoint (ext : Extern) (client : Client) (fuel : nat)
    (s s' : Solver) :
  (in_process_ (queue_ s) = false ->
   exec ext client fuel CProcess s = Done tt s' ->
   (forall p, pending p s' = []) /\ in_process_ (queue_ s') = false) /\
  (in_process_ (queue_ s) = true ->
   exec ext client (S fuel) CProcess s = Done tt s) /\
  (forall d,
     in_process_ (queue_ s) = false -> freeze_level_ (queue_ s) = 0 ->
     exec ext client fuel (CEnqueue d) s = Done tt s' ->
     if demon_stamp d s <? stamp_ (queue_ s)
     then (forall p, pending p s' = []) /\ in_process_ (queue_ s') = false
     else s' = s).
Proof.
  assert (forall f s0 s1,
            in_process_ (queue_ s0) = false ->
            exec ext client f CProcess s0 = Done tt s1 ->
            (forall p, pending p s1 = []) /\ in_process_ (queue_ s1) = false)
    as HP.
  { intros f s0 s1 Hin H. destruct f as [|f]; [done|]. simpl in H.
    apply bind_Done in H as (? & ? & [= <- <-] & H). rewrite Hin in H.
    apply bind_Done in H as ([] & s2 & [= <-] & H).
    apply bind_Done in H as ([] & s3 & H3 & [= <-]).
    split; [|done]. intros p.
    change (pending p (upd_queue (set_in_process_ false) s3))
      with (pending p s3).
    by eapply exec_Process_while_any_empty. }
  split; [by apply HP|]. split.
  - intros Hin. simpl. unfold bind, get. by rewrite Hin.
  - intros d Hin Hfr H. destruct fuel as [|f]; [done|]. simpl in H.
    apply bind_Done in H as (? & ? & [= <- <-] & H).
    destruct (demon_stamp d s <? stamp_ (queue_ s)); [|by injection H].
    apply bind_Done in H as ([] & s1 & [= <-] & H).
    destruct f as [|f]; [done|]. simpl in H.
    apply bind_Done in H as (? & ? & [= <- <-] & H).
    simpl in H. rewrite Hfr in H. simpl in H.
    revert H. by apply HP.
Qed.

Lemma propagation_fixpoint_witness :
  in_process_ (queue_ demo_frozen) = false /\
  pending DELAYED_PRIORITY demo_frozen = [300] /\
  exists s',
    exec stored_extern demo_client 30 CProcess demo_frozen = Done tt s' /\
    (forall p, pending p s' = []) /\ in_process_ (queue_ s') = false.
Proof.
  assert (in_process_ (queue_ demo_frozen) = false) as Hin by (by vm_compute).
  split; [exact Hin|]. split; [by vm_compute|].
  assert (exists s', exec stored_extern demo_client 30 CProcess demo_frozen
                     = Done tt s') as [s' Hs']
    by (eexists; vm_compute; reflexivity).
  exists s'. split; [exact Hs'|].
  by apply (propagation_fixpoint stored_extern demo_client 30 demo_frozen s').
Defined.

(** ** The count of demon runs *)

Lemma step_demon_runs ext client s s' :
  step ext client s s' ->
  exists t, trace s' = t ++ trace s /\
    forall p, pp_get p (demon_runs_ s')
              = pp_get p (demon_runs_ s) + Z.of_nat (length (dispatched p t)).
Proof.
  intros H. step_inv H;
    try (exists []; split; [done|intros p; simpl; lia]; fail);
    try (exists [EvStampIncrease]; split; [done|intros p; simpl; lia]; fail).
  - exists [EvEnqueue d]. split; [done|]. intros p. simpl. lia.
  - eexists [EvDemonRun prio d _ _]. split; [reflexivity|].
    intros p. simpl. destruct prio, p; simpl; lia.
  - exists [EvHook h m]. split; [done|]. intros p. simpl. lia.
Qed.

Lemma steps_demon_runs ext client s s' :
  rtc (step ext client) s s' ->
  exists t, trace s' = t ++ trace s /\
    forall p, pp_get p (demon_runs_ s')
              = pp_get p (demon_runs_ s) + Z.of_nat (length (dispatched p t)).
Proof.
  induction 1 as [s|s1 s2 s3 H12 _ (t2 & Ht2 & IH)].
  - exists []. split; [done|]. intros p. simpl. lia.
  - destruct (step_demon_runs _ _ _ _ H12) as (t1 & Ht1 & H1).
    exists (t2 ++ t1). split; [by rewrite Ht2, Ht1, app_assoc|].
    intros p. rewrite IH, H1, dispatched_app, length_app. lia.
Qed.

(** X3.  In every run of propagation, however it ends, [demon_runs_]
    counts the demons dispatched: for each priority the counter has gone
    up by the number of demons of that queue that were run. *)
Theorem demon_runs_counts_dispatches (ext : Extern) (client : Client)
    (fuel : nat) (c : Cmd) (s : Solver) :
  cmd_pre c s ->
  exists t,
    trace (state_of (exec ext client fuel c s)) = t ++ trace s /\
    forall p,
      pp_get p (demon_runs_ (state_of (exec ext client fuel c s)))
      = pp_get p (demon_runs_ s) + Z.of_nat (length (dispatched p t)).
Proof.
  intros Hpre. apply (steps_demon_runs ext client). by apply exec_steps.
Qed.

Lemma demon_runs_counts_dispatches_witness :
  cmd_pre CProcess demo_frozen /\
  pp_get NORMAL_PRIORITY
    (demon_runs_ (state_of (exec stored_extern demo_client 30 CProcess
                              demo_frozen))) = 2 /\
  exists t,
    trace (state_of (exec stored_extern demo_client 30 CProcess demo_frozen))
      = t ++ trace demo_frozen /\
    forall p,
      pp_get p (demon_runs_ (state_of (exec stored_extern demo_client 30
                                         CProcess demo_frozen)))
      = pp_get p (demon_runs_ demo_frozen)
        + Z.of_nat (length (dispatched p t)).
Proof.
  split; [exact I|]. split; [by vm_compute|].
  exact (demon_runs_counts_dispatches stored_extern demo_client 30 CProcess
           demo_frozen I).
Defined.

(** ** A failure with the buffer armed *)

Lemma exec_Fail_armed ext client fuel s s' :
  fail_intercept_ s = None -> jmpbuf_filled_ (search_ s) = true ->
  exec ext client fuel CFail s <> Done tt s'.
Proof.
  intros Hi Hj H. destruct fuel as [|f]; [done|]. simpl in H.
  apply bind_Done in H as (? & ? & [= <- <-] & H). rewrite Hi in H.
  apply bind_Done in H as ([] & s1 & [= <-] & H).
  apply bind_Done in H as ([] & s2 & H2 & H).
  apply exec_keeps_jmpbuf in H2. unfold same_jmpbuf in H2. simpl in H2.
  destruct f as [|f]; [done|]. simpl in H.
  apply bind_Done in H as (? & ? & [= <- <-] & H).
  by rewrite H2, Hj in H.
Qed.

(** The runs that end in a jump: the buffer was armed and is disarmed. *)
Lemma jumps_bind {A B} (m : M A) (k : A -> M B) :
  keeps same_jmpbuf m -> jumps m -> (forall a, jumps (k a)) ->
  jumps (bind m k).
Proof.
  intros Hk Hm Hka s s'. unfold bind.
  destruct (m s) as [a s1| | |] eqn:E; try done.
  - intros H. apply Hka in H as [H1 H2]. split; [|done].
    apply Hk in E. unfold same_jmpbuf in E. congruence.
  - intros [= <-]. by apply Hm.
Qed.

Lemma jumps_pure {A} (m : M A) :
  (forall s s', m s <> Failed s') -> jumps m.
Proof. intros H s s' E. by apply H in E. Qed.

Lemma exec_jumps ext client fuel : forall c, jumps (exec ext client fuel c).
Proof.
  pose proof (exec_keeps_jmpbuf ext client) as K.
  induction fuel as [|f IH]; intros c; [done|].
  assert (forall A (a : A), jumps (ret a)) as Hret by (by intros A a s s').
  assert (jumps get) as Hget by (by intros s s').
  assert (forall g, jumps (modify g)) as Hmod by (by intros g s s').
  assert (forall g, jumps (checked g)) as Hchk.
  { intros g s s'. unfold checked. by destruct (g s). }
  assert (forall g, keeps same_jmpbuf (modify g) ->
            forall k : unit -> M unit, (forall a, jumps (k a)) ->
            jumps (bind (modify g) k)) as Hmb.
  { intros g Hg k Hk. by apply jumps_bind. }
  assert (forall k : Solver -> M unit, (forall a, jumps (k a)) ->
            jumps (bind get k)) as Hgb.
  { intros k Hk. apply jumps_bind; [apply keeps_get; apply _|done|done]. }
  assert (forall c' (k : unit -> M unit), (forall a, jumps (k a)) ->
            jumps (bind (exec ext client f c') k)) as Heb.
  { intros c' k Hk. by apply jumps_bind. }
  assert (forall g, (forall s, same_jmpbuf s (g s)) ->
            keeps same_jmpbuf (modify g)) as Km.
  { intros g Hg. by apply keeps_modify. }
  destruct c; simpl;
    lazymatch goal with
    | |- jumps (bind get (fun s => if jmpbuf_filled_ _ then _ else _)) =>
        intros s s'; unfold bind, get;
        destruct (jmpbuf_filled_ (search_ s)) eqn:E;
        [by intros [= <-]|intros H; apply IH in H as [H _]; congruence]
    | _ =>
        repeat lazymatch goal with
        | |- jumps (exec _ _ _ _) => apply IH
        | |- jumps (ret _) => apply Hret
        | |- jumps (modify _) => apply Hmod
        | |- jumps (checked _) => apply Hchk
        | |- jumps (bind get _) => apply Hgb; intros ?
        | |- jumps (bind (exec _ _ _ _) _) => apply Heb; intros ?
        | |- jumps (bind (modify _) _) =>
            apply Hmb; [apply Km; intros ?; reflexivity|intros ?]
        | |- jumps (match ?x with _ => _ end) => destruct x eqn:?
        end
    end.
  (* PopState *)
  intros s s'. destruct (PopState ext s) as [[[t info] s1]|]; [|done].
  by destruct t.
Qed.

(** X4.  With the jump buffer armed and no intercept of failures,
    [Solver::Fail] never returns to its caller: a script does not get
    past its call of [Fail]; when the [BeginFail] of the monitors return,
    [Fail] jumps with the buffer disarmed.  And whatever propagation
    runs, if it ends in a jump the buffer was armed when it began and is
    disarmed after. *)
Theorem Fail_armed_jumps (ext : Extern) (client : Client) (fuel : nat)
    (s : Solver) :
  (fail_intercept_ s = None -> jmpbuf_filled_ (search_ s) = true ->
   (forall s', exec ext client fuel CFail s <> Done tt s') /\
   (forall rest s',
      exec ext client fuel (CScript (ApiFail :: rest)) s <> Done tt s') /\
   (forall s1,
      exec ext client (S fuel) (CSearchHook HBeginFail 0)
        (set_fails_ (fails_ s + 1) s) = Done tt s1 ->
      exec ext client (S (S fuel)) CFail s
      = Failed (upd_search (set_jmpbuf_filled_ false) s1))) /\
  (forall c s',
     exec ext client fuel c s = Failed s' ->
     jmpbuf_filled_ (search_ s) = true /\
     jmpbuf_filled_ (search_ s') = false).
Proof.
  split; [|intros c s'; apply exec_jumps].
  intros Hi Hj. split; [intros s'; by apply exec_Fail_armed|]. split.
  - intros rest s' H. destruct fuel as [|f]; [done|]. simpl in H.
    apply bind_Done in H as ([] & s1 & H & _).
    destruct f as [|f]; [done|]. simpl in H.
    by apply exec_Fail_armed in H.
  - intros s1 H. remember (S fuel) as f' eqn:Hf'.
    cbn [exec]. unfold bind at 1, get. rewrite Hi.
    unfold bind at 1, modify at 1. unfold bind at 1. rewrite H.
    apply exec_keeps_jmpbuf in H. unfold same_jmpbuf in H. simpl in H.
    subst f'. cbn [exec]. unfold bind, get. by rewrite H, Hj.
Qed.

Lemma Fail_armed_jumps_witness :
  fail_intercept_ (upd_search (set_jmpbuf_filled_ true) demo_monitored)
    = None /\
  jmpbuf_filled_
    (search_ (upd_search (set_jmpbuf_filled_ true) demo_monitored)) = true /\
  exists s',
    exec stored_extern demo_client 5 CFail
      (upd_search (set_jmpbuf_filled_ true) demo_monitored) = Failed s' /\
    jmpbuf_filled_ (search_ s') = false /\
    fails_ s' = fails_ demo_monitored + 1.
Proof.
  split; [by vm_compute|]. split; [by vm_compute|].
  destruct (Fail_armed_jumps stored_extern demo_client 3
              (upd_search (set_jmpbuf_filled_ true) demo_monitored))
    as [H _].
  destruct H as (_ & _ & H); [by vm_compute|by vm_compute|].
  eexists. split; [apply H; vm_compute; reflexivity|]. by vm_compute.
Defined.

(** ** Inhibited demons *)

(** X5.  After [Demon::inhibit] the stamp of the demon is [kuint64max]
    and [Queue::Enqueue] leaves the demon out, whatever the stamp of the
    queue; a second [inhibit] changes nothing.  [desinhibit] on an
    inhibited demon, the stamp of the queue being at least one, sets the
    stamp of the demon to one less and [Enqueue] takes the demon again;
    [desinhibit] on a demon that is not inhibited changes nothing. *)
Theorem inhibit_desinhibit (ext : Extern) (client : Client) (d : Z)
    (s s1 : Solver) :
  stamp_in_range s -> 0 <= demon_stamp d s <= kuint64max ->
  inhibit ext d s = Some s1 ->
  demon_stamp d s1 = kuint64max /\
  stamp_ (queue_ s1) = stamp_ (queue_ s) /\
  (forall fuel, exec ext client (S fuel) (CEnqueue d) s1 = Done tt s1) /\
  inhibit ext d s1 = Some s1 /\
  (demon_stamp d s < kuint64max -> desinhibit ext d s = Some s) /\
  (forall s2,
     desinhibit ext d s1 = Some s2 -> 1 <= stamp_ (queue_ s) ->
     demon_stamp d s2 = stamp_ (queue_ s) - 1 /\ eligible d s2).
Proof.
  intros Hs Hd Hin. unfold stamp_in_range in *.
  pose proof (eq_refl : kuint64max = 2 ^ 64 - 1) as Hk.
  assert (demon_stamp d s1 = kuint64max /\
          stamp_ (queue_ s1) = stamp_ (queue_ s)) as [E1 E2].
  { unfold inhibit in Hin.
    destruct (Z.ltb_spec (demon_stamp d s) kuint64max) as [Hlt|Hge].
    - apply SaveAndSetValue_Some in Hin as (tr & _ & ->).
      split; [|done]. unfold demon_stamp, read, write, load. simpl.
      by rewrite lookup_insert_eq.
    - injection Hin as <-. split; [lia|done]. }
  split; [done|]. split; [done|]. split; [|split; [|split]].
  - intros fuel. simpl. unfold bind, get.
    destruct (Z.ltb_spec (demon_stamp d s1) (stamp_ (queue_ s1))); [lia|done].
  - unfold inhibit.
    destruct (Z.ltb_spec (demon_stamp d s1) kuint64max); [lia|done].
  - intros Hlt. unfold desinhibit.
    destruct (Z.eqb_spec (demon_stamp d s) kuint64max); [lia|done].
  - intros s2 Hdes Hpos. unfold desinhibit in Hdes.
    destruct (Z.eqb_spec (demon_stamp d s1) kuint64max); [|lia].
    apply SaveAndSetValue_Some in Hdes as (tr & _ & ->).
    unfold eligible, demon_stamp, read, write, load. simpl.
    rewrite lookup_insert_eq. simpl. rewrite E2.
    rewrite wrap64_small by lia. lia.
Qed.

Lemma inhibit_desinhibit_witness :
  stamp_in_range demo_Solver /\
  0 <= demon_stamp 100 demo_Solver <= kuint64max /\
  exists s1 s2,
    inhibit stored_extern 100 demo_Solver = Some s1 /\
    demon_stamp 100 s1 = kuint64max /\
    exec stored_extern demo_client 3 (CEnqueue 100) s1 = Done tt s1 /\
    desinhibit stored_extern 100 s1 = Some s2 /\
    eligible 100 s2.
Proof.
  assert (stamp_in_range demo_Solver) as Hs by (by vm_compute).
  assert (0 <= demon_stamp 100 demo_Solver <= kuint64max) as Hd
    by (by vm_compute).
  split; [exact Hs|]. split; [exact Hd|].
  assert (exists s1, inhibit stored_extern 100 demo_Solver = Some s1)
    as [s1 H1] by (eexists; vm_compute; reflexivity).
  destruct (inhibit_desinhibit stored_extern demo_client 100 demo_Solver s1
              Hs Hd H1) as (E1 & _ & He & _ & _ & Hdes).
  assert (exists s2, desinhibit stored_extern 100 s1 = Some s2) as [s2 H2].
  { assert (Some s1 = Some s1) as E by reflexivity.
    rewrite <- H1 in E at 1. vm_compute in E. injection E as <-.
    eexists. vm_compute. reflexivity. }
  exists s1, s2. split; [exact H1|]. split; [exact E1|].
  split; [apply He|]. split; [exact H2|].
  apply (Hdes s2 H2). by vm_compute.
Defined.

(** ** Unwinding the markers *)

Lemma BacktrackTo_wf ext m t mem :
  trail_wf ext t -> marker_wf m ->
  exists t' mem', BacktrackTo ext m t mem = Some (t', mem') /\
                  trail_wf ext t'.
Proof.
  intros [Hk Hb] (H1 & H2 & H3 & H4 & H5).
  destruct (Hk K_int) as [l1 Hl1]. destruct (Hk K_int64) as [l2 Hl2].
  destruct (Hk K_uint64) as [l3 Hl3]. destruct (Hk K_ptr) as [l4 Hl4].
  simpl in Hl1, Hl2, Hl3, Hl4.
  destruct (backtrack_cells_total ext _ _ (mem_int mem) _ Hl1 H1)
    as (t1 & E1 & R1).
  destruct (backtrack_cells_total ext _ _ (mem_int64 mem) _ Hl2 H2)
    as (t2 & E2 & R2).
  destruct (backtrack_cells_total ext _ _ (mem_uint64 mem) _ Hl3 H3)
    as (t3 & E3 & R3).
  destruct (backtrack_cells_total ext _ _ (mem_ptr mem) _ Hl4 H4)
    as (t4 & E4 & R4).
  destruct (restore_bools_total _ _ (mem_bool mem) _ Hb H5) as (h5 & E5).
  unfold BacktrackTo. rewrite E1, E2, E3, E4. simpl. rewrite E5. simpl.
  eexists _, _. split; [reflexivity|]. split.
  - intros []; simpl; eauto.
  - simpl. unfold vec_resize. by rewrite !length_resize.
Qed.

Lemma PopState_wf ext s m rest :
  marker_stack_ (search_ s) = m :: rest ->
  marker_wf m -> trail_wf ext (trail_ s) ->
  exists tr mem,
    PopState ext s
    = Some (type_ m, info_ m,
            increase_stamp (upd_search (set_marker_stack_ rest)
                              (set_memory_ mem (set_trail_ tr s)))) /\
    trail_wf ext tr.
Proof.
  intros Hm Hmw Hwf. unfold PopState. rewrite Hm.
  destruct (negb _ || _).
  - destruct (BacktrackTo_wf ext m _ (memory_ s) Hwf Hmw)
      as (tr & mem & E & Hwf').
    rewrite E. simpl. by exists tr, mem.
  - simpl. by exists (trail_ s), (memory_ s).
Qed.

Lemma action_runs_app t1 t2 :
  action_runs (t1 ++ t2) = action_runs t2 ++ action_runs t1.
Proof.
  induction t1 as [|e t1 IH]; simpl; [by rewrite app_nil_r|].
  by rewrite IH, app_assoc.
Qed.

Lemma mark_Trail_wf ext t m : trail_wf ext t -> marker_wf (mark_Trail t m).
Proof.
  intros [Hk _]. unfold marker_wf, mark_Trail, vec_size. simpl.
  destruct (Hk K_int) as [l1 H1]. destruct (Hk K_int64) as [l2 H2].
  destruct (Hk K_uint64) as [l3 H3]. destruct (Hk K_ptr) as [l4 H4].
  simpl in H1, H2, H3, H4. unfold ct_size.
  rewrite (ct_rep_size ext _ _ H1), (ct_rep_size ext _ _ H2),
    (ct_rep_size ext _ _ H3), (ct_rep_size ext _ _ H4). lia.
Qed.

Lemma exec_CScript_nil ext client f s :
  exec ext client (S f) (CScript []) s = Done tt s.
Proof. reflexivity. Qed.

Lemma run_action_quiet {B} ext client f a (W : M B) s :
  (forall s0, Action_Run client a s0 = []) ->
  (modify (log (EvActionRun a)) ;;
   s' <- get ;;
   exec ext client (S f) (CScript (Action_Run client a s')) ;; W) s
  = W (log (EvActionRun a) s).
Proof.
  intros H. unfold bind at 1, modify at 1. unfold bind at 1, get.
  rewrite H. unfold bind. by rewrite exec_CScript_nil.
Qed.

Lemma BacktrackToSentinel_while_unwind ext client magic :
  forall above s m rest fuel,
  marker_stack_ (search_ s) = above ++ m :: rest ->
  Forall marker_wf (above ++ [m]) ->
  Forall (fun x => type_ x = SENTINEL -> ptr_info (info_ x) = Solver_this)
    above ->
  magic ∉ sentinels_of above ->
  is_sentinel magic m ->
  (forall a s0, a ∈ actions_of above -> Action_Run client a s0 = []) ->
  trail_wf ext (trail_ s) ->
  Z.of_nat (length (sentinels_of above)) + 1
  <= sentinel_pushed_ (search_ s) ->
  (length above + 2 < fuel)%nat ->
  exists s',
    BacktrackToSentinel_while ext client fuel magic s = Done tt s' /\
    marker_stack_ (search_ s') = rest /\
    sentinel_pushed_ (search_ s')
    = sentinel_pushed_ (search_ s)
      - Z.of_nat (length (sentinels_of above)) - 1 /\
    search_depth_ (search_ s') = 0 /\
    left_search_depth_ (search_ s') = 0 /\
    action_runs (trace s') = action_runs (trace s) ++ actions_of above /\
    stamp_ (queue_ s')
    = wrap64 (stamp_ (queue_ s) + Z.of_nat (length above) + 1) /\
    fail_stamp_ s' = fail_stamp_ s /\
    state_ s' = state_ s /\
    monitors_ (search_ s') = monitors_ (search_ s) /\
    trail_wf ext (trail_ s') /\
    forall h, hook_calls h (trace s') = hook_calls h (trace s).
Proof.
  induction above as [|x above IH];
    intros s m rest fuel Hstack Hmw Hptr Hmagic Hsent Hact Hwf Hpushed Hfuel.
  - destruct fuel as [|f]; [simpl in Hfuel; lia|]. simpl.
    apply Forall_cons in Hmw as [Hmw _].
    destruct (PopState_wf ext s m rest Hstack Hmw Hwf) as (tr & mem & E & Hwf').
    rewrite E. destruct Hsent as (Ht & Hp & Hi). rewrite Ht, Hp, Hi.
    simpl. rewrite !Z.eqb_refl. simpl. simpl in Hpushed.
    destruct (Z.ltb_spec (sentinel_pushed_ (search_ s) - 1) 0); [lia|].
    eexists. split; [reflexivity|]. simpl.
    rewrite app_nil_r, Z.add_0_r, Z.sub_0_r.
    repeat (split; [done|]). intros h. by rewrite app_nil_r.
  - destruct fuel as [|f]; [simpl in Hfuel; lia|].
    apply Forall_cons in Hmw as [Hxw Hmw].
    apply Forall_cons in Hptr as [Hxp Hptr].
    destruct (PopState_wf ext s x (above ++ m :: rest) Hstack Hxw Hwf)
      as (tr & mem & E & Hwf').
    simpl in Hmagic, Hact, Hpushed, Hfuel. simpl. rewrite E.
    destruct (type_ x) eqn:Htx.
    + (* another sentinel *)
      rewrite (Hxp eq_refl), Z.eqb_refl. simpl.
      rewrite length_cons, Nat2Z.inj_succ in Hpushed.
      apply not_elem_of_cons in Hmagic as [Hne Hmagic].
      destruct (Z.ltb_spec (sentinel_pushed_ (search_ s) - 1) 0); [lia|].
      destruct (Z.eqb_spec (int_info (info_ x)) magic) as [Heq|_]; [congruence|].
      match goal with
      | |- context [BacktrackToSentinel_while _ _ _ _ ?s2] =>
          destruct (IH s2 m rest f)
            as (s' & R & R2 & R3 & R4 & R5 & R6 & R7 & R8 & R9 & R10 & R11 & Rh)
      end;
        [ | exact Hmw | exact Hptr | exact Hmagic | exact Hsent | exact Hact
          | | | | ]; [reflexivity|exact Hwf'|simpl; lia|lia|].
      exists s'. split; [exact R|]. clear R IH E.
      simpl in R2, R3, R4, R5, R6, R7, R8, R9, R10, R11, Hpushed |- *.
      rewrite ?length_cons, ?app_nil_r in *.
      repeat (split; [done || lia|]). split; [rewrite R7, <- Z.add_assoc, wrap64_add_l; f_equal; lia|].
      repeat (split; [done|]).
      intros h. rewrite Rh. simpl. by rewrite !app_nil_r.
    + (* SIMPLE_MARKER *)
      match goal with
      | |- context [BacktrackToSentinel_while _ _ _ _ ?s2] =>
          destruct (IH s2 m rest f)
            as (s' & R & R2 & R3 & R4 & R5 & R6 & R7 & R8 & R9 & R10 & R11 & Rh)
      end;
        [ | exact Hmw | exact Hptr | exact Hmagic | exact Hsent | exact Hact
          | | | | ]; [reflexivity|exact Hwf'|simpl; lia|lia|].
      exists s'. split; [exact R|]. clear R IH E.
      simpl in R2, R3, R4, R5, R6, R7, R8, R9, R10, R11, Hpushed |- *.
      rewrite ?app_nil_r in *.
      repeat (split; [done|]). split; [rewrite R7, <- Z.add_assoc, wrap64_add_l; f_equal; lia|].
      repeat (split; [done|]).
      intros h. rewrite Rh. simpl. by rewrite !app_nil_r.
    + (* CHOICE_POINT *)
      match goal with
      | |- context [BacktrackToSentinel_while _ _ _ _ ?s2] =>
          destruct (IH s2 m rest f)
            as (s' & R & R2 & R3 & R4 & R5 & R6 & R7 & R8 & R9 & R10 & R11 & Rh)
      end;
        [ | exact Hmw | exact Hptr | exact Hmagic | exact Hsent | exact Hact
          | | | | ]; [reflexivity|exact Hwf'|simpl; lia|lia|].
      exists s'. split; [exact R|]. clear R IH E.
      simpl in R2, R3, R4, R5, R6, R7, R8, R9, R10, R11, Hpushed |- *.
      rewrite ?app_nil_r in *.
      repeat (split; [done|]). split; [rewrite R7, <- Z.add_assoc, wrap64_add_l; f_equal; lia|].
      repeat (split; [done|]).
      intros h. rewrite Rh. simpl. by rewrite !app_nil_r.
    + (* REVERSIBLE_ACTION *)
      destruct f as [|f]; [lia|].
      rewrite run_action_quiet by (intros s0; apply Hact; by left).
      match goal with
      | |- context [BacktrackToSentinel_while _ _ _ _ ?s2] =>
          destruct (IH s2 m rest (S f))
            as (s' & R & R2 & R3 & R4 & R5 & R6 & R7 & R8 & R9 & R10 & R11 & Rh)
      end;
        [ | exact Hmw | exact Hptr | exact Hmagic | exact Hsent
          | | | | | ];
        [reflexivity|by intros a s0 Ha; apply Hact; right
        |exact Hwf'|simpl; lia|lia|].
      exists s'. split; [exact R|]. clear R IH E.
      simpl in R2, R3, R4, R5, R6, R7, R8, R9, R10, R11, Hpushed |- *.
      rewrite ?app_nil_r in *.
      repeat (split; [done|]). split; [by rewrite R6, <- app_assoc|].
      split; [rewrite R7, <- Z.add_assoc, wrap64_add_l; f_equal; lia|].
      repeat (split; [done|]).
      intros h. rewrite Rh. simpl. by rewrite !app_nil_r.
Qed.

Lemma actions_of_app ms1 ms2 :
  actions_of (ms1 ++ ms2) = actions_of ms1 ++ actions_of ms2.
Proof.
  induction ms1 as [|m ms1 IH]; [done|]. simpl.
  destruct (type_ m); simpl; by rewrite IH.
Qed.

Lemma sentinels_of_app ms1 ms2 :
  sentinels_of (ms1 ++ ms2) = sentinels_of ms1 ++ sentinels_of ms2.
Proof.
  induction ms1 as [|m ms1 IH]; [done|]. simpl.
  destruct (type_ m); simpl; by rewrite IH.
Qed.

Lemma PushState_marker_wf ext t info s :
  trail_wf ext (trail_ s) ->
  exists m, marker_stack_ (search_ (PushState t info s))
            = m :: marker_stack_ (search_ s) /\
            marker_wf m /\ type_ m = t /\ info_ m = info.
Proof.
  intros Hwf. unfold PushState. simpl.
  destruct (negb _ || _).
  - eexists. split; [reflexivity|]. split; [by eapply mark_Trail_wf|done].
  - eexists. split; [reflexivity|]. split; [|done].
    unfold marker_wf. simpl. lia.
Qed.

Lemma register_actions_spec ext acts :
  forall s, trail_wf ext (trail_ s) ->
  exists ms,
    marker_stack_ (search_ (register_actions acts s))
    = ms ++ marker_stack_ (search_ s) /\
    Forall marker_wf ms /\ sentinels_of ms = [] /\
    actions_of ms = reverse acts.*1 /\ length ms = length acts /\
    trail_ (register_actions acts s) = trail_ s /\
    sentinel_pushed_ (search_ (register_actions acts s))
    = sentinel_pushed_ (search_ s) /\
    action_runs (trace (register_actions acts s)) = action_runs (trace s) /\
    wrap64 (stamp_ (queue_ (register_actions acts s)))
    = wrap64 (stamp_ (queue_ s) + Z.of_nat (length acts)) /\
    fail_stamp_ (register_actions acts s) = fail_stamp_ s /\
    state_ (register_actions acts s) = state_ s /\
    monitors_ (search_ (register_actions acts s)) = monitors_ (search_ s).
Proof.
  induction acts as [|[a fast] acts IH]; intros s Hwf.
  - exists []. simpl. by rewrite Z.add_0_r.
  - change (register_actions ((a, fast) :: acts) s)
      with (register_actions acts (AddBacktrackAction a fast s)).
    set (s1 := AddBacktrackAction a fast s).
    destruct (PushState_marker_wf ext REVERSIBLE_ACTION
                (StateInfo_2 a (if fast then 1 else 0)) s Hwf)
      as (m & Hm & Hmw & Hmt & Hmi).
    fold (AddBacktrackAction a fast s) in Hm. fold s1 in Hm.
    destruct (IH s1 Hwf)
      as (ms & H1 & H2 & H3 & H4 & H5 & H6 & H7 & H8 & H9 & H10 & H11 & H12).
    exists (ms ++ [m]).
    rewrite H1, Hm, <- app_assoc, H6, H7, H8, H9, H10, H11, H12.
    split; [done|]. split; [by apply Forall_app; split; [|apply Forall_singleton]|].
    rewrite sentinels_of_app, actions_of_app, H3, H4, length_app, H5.
    simpl. rewrite Hmt, Hmi. simpl. rewrite reverse_cons, app_nil_r.
    repeat (split; [done || (simpl; lia)|]). split; [|done].
    rewrite wrap64_add_l. f_equal. lia.
Qed.





(** ** A whole search *)

(** X8.  Whenever [Solve] returns, the value it returns tells whether the
    count of solutions of the search is positive, the solver is outside
    search again, the search has no monitor and no selector left and its
    depths are 0; and [Solve] was called with a decision builder, outside
    of a search, from the top level. *)
Theorem Solve_result ext client tree fuel db monitors s b s' :
  Solve ext client tree fuel db monitors s = Done b s' ->
  b = (0 <? solution_counter_ (search_ s')) /\
  state_ s' = OUTSIDE_SEARCH /\
  monitors_ (search_ s') = [] /\
  selector_ (search_ s') = None /\
  search_depth_ (search_ s') = 0 /\
  left_search_depth_ (search_ s') = 0 /\
  length (parent_searches_ s') = 1%nat /\
  db <> None /\ state_ s <> IN_SEARCH /\ state_ s <> IN_ROOT_NODE.
Proof.
  intros H. unfold Solve in H.
  apply bind_Done in H as ([] & s0 & Hnew & H).
  apply bind_Done in H as ([] & s1 & _ & H).
  apply bind_Done in H as (r & s2 & _ & H).
  apply bind_Done in H as (? & ? & [= <- <-] & H).
  apply bind_Done in H as ([] & s3 & Hend & [= <- <-]).
  unfold EndSearch in Hend.
  apply bind_Done in Hend as (? & ? & [= <- <-] & Hend).
  case_decide as Hlen; [|done].
  apply bind_Done in Hend as ([] & s4 & Hb & Hend).
  apply bind_Done in Hend as ([] & s5 & Hh & Hend).
  apply bind_Done in Hend as ([] & s6 & [= <-] & [= <-]).
  pose proof (BacktrackToSentinel_frames ext client fuel
                INITIAL_SEARCH_SENTINEL s2) as F1.
  rewrite Hb in F1.
  pose proof (Search_hook_frames ext client fuel HExitSearch s4) as F2.
  rewrite Hh in F2. simpl in F1, F2.
  destruct F1 as [C1 P1 _ _], F2 as [C2 P2 _ _]. simpl.
  rewrite C2, C1, P2, P1. repeat (split; [done|]).
  unfold NewSearch in Hnew.
  apply bind_Done in Hnew as (? & ? & [= <- <-] & Hnew).
  destruct db; [|done]. split; [done|].
  destruct (bool_decide_reflect (state_ s = IN_SEARCH)); [done|].
  by destruct (bool_decide_reflect (state_ s = IN_ROOT_NODE)).
Qed.

Lemma Solve_result_witness :
  exists s',
    Solve stored_extern demo_client demo_tree_one 20 (Some 1) [Some 50; None]
      demo_Solver = Done true s' /\
    solution_counter_ (search_ s') = 1 /\
    state_ s' = OUTSIDE_SEARCH /\ monitors_ (search_ s') = [].
Proof.
  assert (exists s',
            Solve stored_extern demo_client demo_tree_one 20 (Some 1)
              [Some 50; None] demo_Solver = Done true s' /\
            solution_counter_ (search_ s') = 1) as (s' & E & Hc)
    by (eexists; split; vm_compute; reflexivity).
  exists s'. split; [exact E|]. split; [exact Hc|].
  destruct (Solve_result _ _ _ _ _ _ _ _ _ E) as (_ & H2 & H3 & _).
  by split.
Defined.

(** ** Setting up and ending a search *)

Lemma log_hooks_trace h ms s :
  log_hooks h ms s = set_trace (trace (log_hooks h ms s)) s /\
  forall h', hook_calls h' (trace (log_hooks h ms s))
             = hook_calls h' (trace s) ++ if bool_decide (h = h') then ms else [].
Proof.
  revert s. induction ms as [|m ms IH]; intros s.
  - simpl. split; [by destruct s|]. intros h'.
    destruct (bool_decide _); by rewrite app_nil_r.
  - change (log_hooks h (m :: ms) s) with (log_hooks h ms (log (EvHook h m) s)).
    destruct (IH (log (EvHook h m) s)) as [E1 E2]. split.
    + rewrite E1 at 1. by destruct s.
    + intros h'. rewrite E2. simpl. rewrite <- app_assoc.
      by destruct (bool_decide _).
Qed.

Lemma bind_CScript_nil {B} ext client f (W : M B) s :
  (exec ext client (S f) (CScript []) ;; W) s = W s.
Proof. reflexivity. Qed.

Lemma exec_hook_quiet ext client h :
  (forall m s0, Monitor_hook client h m s0 = []) ->
  forall n i s fuel,
    length (drop i (monitors_ (search_ s))) = n -> (n < fuel)%nat ->
    exec ext client fuel (CSearchHook h i) s
    = Done tt (log_hooks h (drop i (monitors_ (search_ s))) s).
Proof.
  intros Hq. induction n as [|n IH]; intros i s fuel Hn Hfuel.
  - destruct fuel as [|f]; [lia|]. apply length_zero_iff_nil in Hn.
    rewrite Hn. cbn [exec]. unfold bind at 1, get.
    apply drop_nil_inv in Hn as Hn'.
    rewrite lookup_ge_None_2; [done|]. lia.
  - destruct fuel as [|f]; [lia|]. destruct f as [|f]; [lia|].
    destruct (drop i (monitors_ (search_ s))) as [|m rest] eqn:E; [done|].
    assert (monitors_ (search_ s) !! i = Some m) as Hi.
    { rewrite <- (Nat.add_0_r i), <- lookup_drop, E. done. }
    remember (S f) as f' eqn:Hf'. cbn [exec]. unfold bind at 1, get.
    rewrite Hi. unfold bind at 1, modify at 1. unfold bind at 1, get.
    rewrite Hq. subst f'. rewrite bind_CScript_nil.
    assert (drop (S i) (monitors_ (search_ (log (EvHook h m) s))) = rest)
      as Hrest.
    { change (monitors_ (search_ (log (EvHook h m) s)))
        with (monitors_ (search_ s)).
      replace (S i) with (i + 1)%nat by lia. by rewrite <- drop_drop, E. }
    rewrite (IH (S i) (log (EvHook h m) s) (S f)).
    + by rewrite Hrest.
    + rewrite Hrest. simpl in Hn. lia.
    + lia.
Qed.

Lemma Install_all_eq ms s :
  Install_all ms s
  = upd_search (set_monitors_ (monitors_ (search_ s) ++ omap id ms)) s.
Proof.
  revert s. induction ms as [|[m|] ms IH]; intros s.
  - simpl. rewrite app_nil_r. by destruct s as [? ? ? ? ? ? ? ? []].
  - change (Install_all (Some m :: ms) s)
      with (Install_all ms (push_monitor m s)).
    rewrite IH. simpl. by rewrite <- app_assoc.
  - apply IH.
Qed.

Lemma BacktrackToSentinel_none ext client fuel magic s :
  sentinel_pushed_ (search_ s) = 0 ->
  BacktrackToSentinel ext client fuel magic s
  = Done tt (set_fail_stamp_ (wrap64 (fail_stamp_ s + 1)) s).
Proof.
  intros H. unfold BacktrackToSentinel, bind at 1, get. by rewrite H.
Qed.

Lemma Search_hook_quiet ext client fuel h s :
  (forall m s0, Monitor_hook client h m s0 = []) ->
  (length (monitors_ (search_ s)) < fuel)%nat ->
  Search_hook ext client fuel h s
  = Done tt (log_hooks h (monitors_ (search_ s)) s).
Proof.
  intros Hq Hfuel. unfold Search_hook.
  by rewrite (exec_hook_quiet ext client h Hq _ 0%nat s fuel eq_refl).
Qed.

Lemma EnterSearch_quiet ext client fuel s :
  (forall m s0, Monitor_hook client HEnterSearch m s0 = []) ->
  (length (monitors_ (search_ s)) < fuel)%nat ->
  exists s',
    EnterSearch ext client fuel s = Done tt s' /\
    s' = set_trace (trace s') (upd_search (set_solution_counter_ 0) s) /\
    forall h, hook_calls h (trace s')
              = hook_calls h (trace s)
                ++ if bool_decide (HEnterSearch = h)
                   then monitors_ (search_ s) else [].
Proof.
  intros Hq Hfuel. unfold EnterSearch, bind, modify.
  rewrite (Search_hook_quiet ext client fuel HEnterSearch _ Hq) by done.
  eexists. split; [reflexivity|].
  destruct (log_hooks_trace HEnterSearch (monitors_ (search_ s))
              (upd_search (set_solution_counter_ 0) s)) as [EL ET].
  split; [exact EL|exact ET].
Qed.

Lemma NewSearch_quiet ext client fuel db monitors extras s :
  state_ s <> IN_SEARCH -> state_ s <> IN_ROOT_NODE ->
  sentinel_pushed_ (search_ s) = 0 ->
  trail_wf ext (trail_ s) ->
  (forall s0, DecisionBuilder_AppendMonitors client db s0 = extras) ->
  (forall m s0, Monitor_hook client HEnterSearch m s0 = []) ->
  let installed :=
    monitors_ (search_ s) ++ propagation_monitor_ s ::
      omap id (demon_profiler_ s :: monitors ++ extras) in
  (length installed < fuel)%nat ->
  exists s1 m,
    NewSearch ext client fuel (Some db) monitors s = Done tt s1 /\
    monitors_ (search_ s1) = installed /\
    (forall h, hook_calls h (trace s1)
               = hook_calls h (trace s)
                 ++ if bool_decide (HEnterSearch = h) then installed else []) /\
    solution_counter_ (search_ s1) = 0 /\
    sentinel_pushed_ (search_ s1) = 1 /\
    marker_stack_ (search_ s1) = m :: marker_stack_ (search_ s) /\
    marker_wf m /\ is_sentinel INITIAL_SEARCH_SENTINEL m /\
    trail_ s1 = trail_ s /\
    parent_searches_ s1 = parent_searches_ s.
Proof.
  intros Hs1 Hs2 Hpushed Hwf Hextras Henter installed Hfuel.
  unfold NewSearch. unfold bind at 1, get.
  rewrite (bool_decide_eq_false_2 _ Hs1), (bool_decide_eq_false_2 _ Hs2).
  cbn [orb]. unfold bind at 1, modify at 1. unfold bind at 1.
  rewrite BacktrackToSentinel_none by done.
  do 6 (unfold bind at 1, modify at 1).
  rewrite Hextras, !Install_all_eq.
  match goal with |- exists s1 m, ?W ?sa = _ /\ _ =>
    assert (monitors_ (search_ sa) = installed /\
            marker_stack_ (search_ sa) = marker_stack_ (search_ s) /\
            sentinel_pushed_ (search_ sa) = 0 /\
            trail_ sa = trail_ s /\
            parent_searches_ sa = parent_searches_ s /\
            trace sa = trace s) as HA;
    [|revert HA; generalize sa; intros s_a (Hmon & A1 & A2 & A3 & A4 & A5)]
  end.
  { split; [|done]. unfold installed. simpl.
    rewrite omap_app, <- !app_assoc. simpl. by destruct (demon_profiler_ s). }
  destruct (EnterSearch_quiet ext client fuel s_a Henter)
    as (s' & E & EL & ET); [by rewrite Hmon|].
  unfold bind at 1. rewrite E. unfold bind, modify.
  assert (monitors_ (search_ s') = installed /\
          marker_stack_ (search_ s') = marker_stack_ (search_ s) /\
          sentinel_pushed_ (search_ s') = 0 /\
          trail_ s' = trail_ s /\
          parent_searches_ s' = parent_searches_ s /\
          solution_counter_ (search_ s') = 0)
    as (B0 & B1 & B2 & B3 & B4 & B5).
  { rewrite EL. simpl. by rewrite Hmon, A1, A2, A3, A4. }
  assert (forall h, hook_calls h (trace s')
                    = hook_calls h (trace s)
                      ++ if bool_decide (HEnterSearch = h)
                         then installed else []) as ET'.
  { intros h. by rewrite ET, A5, Hmon. }
  clear EL ET E.
  assert (trail_wf ext (trail_ s')) as Hwf' by (by rewrite B3).
  destruct (PushState_marker_wf ext SENTINEL
              (StateInfo_2 Solver_this INITIAL_SEARCH_SENTINEL) s' Hwf')
    as (m & Hm & Hmw & Hmt & Hmi).
  eexists _, m. split; [reflexivity|].
  unfold PushSentinel. simpl in Hm. simpl. rewrite Hm, B0, B1, B2, B3, B4, B5.
  split; [done|]. split.
  { intros h. by rewrite app_nil_r, ET'. }
  repeat (split; [done|]). split; [|done]. split; [done|]. by rewrite Hmi.
Qed.

Lemma EndSearch_quiet ext client fuel s1 m rest :
  marker_stack_ (search_ s1) = m :: rest ->
  marker_wf m -> is_sentinel INITIAL_SEARCH_SENTINEL m ->
  trail_wf ext (trail_ s1) ->
  1 <= sentinel_pushed_ (search_ s1) ->
  length (parent_searches_ s1) = 1%nat ->
  (forall m s0, Monitor_hook client HExitSearch m s0 = []) ->
  (length (monitors_ (search_ s1)) + 2 < fuel)%nat ->
  exists s2,
    EndSearch ext client fuel s1 = Done tt s2 /\
    (forall h, hook_calls h (trace s2)
               = hook_calls h (trace s1)
                 ++ if bool_decide (HExitSearch = h)
                    then monitors_ (search_ s1) else []) /\
    monitors_ (search_ s2) = [] /\
    marker_stack_ (search_ s2) = rest /\
    sentinel_pushed_ (search_ s2) = sentinel_pushed_ (search_ s1) - 1 /\
    state_ s2 = OUTSIDE_SEARCH.
Proof.
  intros Hstack Hmw Hsent Hwf Hpushed Hparents Hexit Hfuel.
  destruct (BacktrackToSentinel_while_unwind ext client INITIAL_SEARCH_SENTINEL
              [] s1 m rest fuel)
    as (s' & R & R2 & R3 & R4 & R5 & R6 & R7 & R8 & R9 & R10 & R11 & Rh);
    [done|by apply Forall_singleton|constructor|apply not_elem_of_nil|done
    |by intros a s0 Ha; apply elem_of_nil in Ha|done|simpl; lia|simpl; lia|].
  unfold EndSearch, bind at 1, get.
  rewrite (bool_decide_eq_true_2 _ Hparents).
  unfold bind at 1, BacktrackToSentinel at 1, bind at 1, get.
  destruct (Z.eqb_spec (sentinel_pushed_ (search_ s1)) 0) as [E0|_]; [lia|].
  unfold bind at 1. rewrite R. unfold modify at 1. unfold bind at 1.
  rewrite (Search_hook_quiet ext client fuel HExitSearch _ Hexit)
    by (simpl; rewrite R10; lia).
  match goal with |- context [log_hooks ?h ?ms ?x] =>
    destruct (log_hooks_trace h ms x) as [EL ET];
    generalize dependent (log_hooks h ms x) end.
  intros s3 EL ET. unfold bind, modify. eexists. split; [reflexivity|].
  simpl. split.
  { intros h. rewrite ET. simpl. by rewrite Rh, R10. }
  rewrite EL. simpl. rewrite R2, R3. simpl. repeat (split; [done|]).
  split; [lia|done].
Qed.



(** ** Backtracking to the last open branch *)

Lemma BacktrackOneLevel_while_skip ext client :
  forall above s tail f,
  marker_stack_ (search_ s) = above ++ tail ->
  Forall marker_wf above -> Forall passed above ->
  (forall a s0, a ∈ actions_of above -> Action_Run client a s0 = []) ->
  trail_wf ext (trail_ s) ->
  exists s1,
    BacktrackOneLevel_while ext client (length above + S f) s
    = BacktrackOneLevel_while ext client (S f) s1 /\
    marker_stack_ (search_ s1) = tail /\
    set_marker_stack_ [] (search_ s1) = set_marker_stack_ [] (search_ s) /\
    action_runs (trace s1) = action_runs (trace s) ++ actions_of above /\
    (forall h, hook_calls h (trace s1) = hook_calls h (trace s)) /\
    wrap64 (stamp_ (queue_ s1))
    = wrap64 (stamp_ (queue_ s) + Z.of_nat (length above)) /\
    fail_stamp_ s1 = fail_stamp_ s /\
    state_ s1 = state_ s /\
    parent_searches_ s1 = parent_searches_ s /\
    trail_wf ext (trail_ s1).
Proof.
  induction above as [|x above IH]; intros s tail f Hstack Hmw Hpass Hact Hwf.
  - exists s. simpl. rewrite app_nil_r, Z.add_0_r. done.
  - apply Forall_cons in Hmw as [Hxw Hmw].
    apply Forall_cons in Hpass as [[Hx1 Hx2] Hpass].
    destruct (PopState_wf ext s x (above ++ tail) Hstack Hxw Hwf)
      as (tr & mem & E & Hwf').
    assert (forall s2,
      marker_stack_ (search_ s2) = above ++ tail ->
      set_marker_stack_ [] (search_ s2) = set_marker_stack_ [] (search_ s) ->
      action_runs (trace s2)
      = action_runs (trace s)
        ++ match type_ x with
           | REVERSIBLE_ACTION => [ptr_info (info_ x)]
           | _ => []
           end ->
      (forall h, hook_calls h (trace s2) = hook_calls h (trace s)) ->
      stamp_ (queue_ s2) = wrap64 (stamp_ (queue_ s) + 1) ->
      fail_stamp_ s2 = fail_stamp_ s -> state_ s2 = state_ s ->
      parent_searches_ s2 = parent_searches_ s ->
      trail_wf ext (trail_ s2) ->
      (forall a s0, a ∈ actions_of above -> Action_Run client a s0 = []) ->
      exists s1,
        BacktrackOneLevel_while ext client (length above + S f) s2
        = BacktrackOneLevel_while ext client (S f) s1 /\
        marker_stack_ (search_ s1) = tail /\
        set_marker_stack_ [] (search_ s1) = set_marker_stack_ [] (search_ s) /\
        action_runs (trace s1)
        = action_runs (trace s) ++ actions_of (x :: above) /\
        (forall h, hook_calls h (trace s1) = hook_calls h (trace s)) /\
        wrap64 (stamp_ (queue_ s1))
        = wrap64 (stamp_ (queue_ s) + Z.of_nat (length (x :: above))) /\
        fail_stamp_ s1 = fail_stamp_ s /\
        state_ s1 = state_ s /\
        parent_searches_ s1 = parent_searches_ s /\
        trail_wf ext (trail_ s1)) as Hrec.
    { intros s2 H1 H2 H3 H4 H5 H6 H7 H8 H9 H10.
      destruct (IH s2 tail f H1 Hmw Hpass H10 H9)
        as (s1 & R1 & R2 & R3 & R4 & R5 & R6 & R7 & R8 & R9 & R10).
      exists s1. rewrite R3, R4, R6, R7, R8, R9, H2, H3, H5, H6, H7, H8.
      split; [done|]. split; [done|]. split; [done|]. split.
      { simpl. rewrite <- app_assoc. by destruct (type_ x). }
      split; [by intros h; rewrite R5, H4|].
      split; [|done]. rewrite wrap64_add_l. f_equal. simpl length. lia. }
    change (length (x :: above) + S f)%nat with (S (length above + S f)).
    cbn [BacktrackOneLevel_while]. rewrite E.
    destruct (type_ x) eqn:Htx; [done| | |].
    + apply Hrec; try done; try (intros; simpl; by rewrite ?app_nil_r).
      intros a s0 Ha. apply Hact. simpl. by rewrite Htx.
    + destruct (Z.eqb_spec (int_info (info_ x)) 0) as [E0|_].
      { destruct Hx2. by split. }
      apply Hrec; try done; try (intros; simpl; by rewrite ?app_nil_r).
      intros a s0 Ha. apply Hact. simpl. by rewrite Htx.
    + replace (length above + S f)%nat with (S (length above + f)) by lia.
      rewrite run_action_quiet
        by (intros s0; apply Hact; simpl; rewrite Htx; by left).
      replace (S (length above + f)) with (length above + S f)%nat by lia.
      apply Hrec; try done; try (intros; simpl; by rewrite ?app_nil_r).
      intros a s0 Ha. apply Hact. simpl. rewrite Htx. by right.
Qed.

Lemma log_actions_trace acts s :
  log_actions acts s = set_trace (trace (log_actions acts s)) s /\
  action_runs (trace (log_actions acts s)) = action_runs (trace s) ++ acts /\
  forall h, hook_calls h (trace (log_actions acts s)) = hook_calls h (trace s).
Proof.
  revert s. induction acts as [|a acts IH]; intros s.
  - simpl. rewrite app_nil_r. split; [by destruct s|done].
  - change (log_actions (a :: acts) s)
      with (log_actions acts (log (EvActionRun a) s)).
    destruct (IH (log (EvActionRun a) s)) as (E1 & E2 & E3).
    split; [rewrite E1 at 1; by destruct s|].
    split; [rewrite E2; simpl; by rewrite <- app_assoc|].
    intros h. rewrite E3. simpl. by rewrite app_nil_r.
Qed.

Lemma CallFailHooks_quiet ext client fuel hooks :
  (forall a s0, a ∈ hooks -> Action_Run client a s0 = []) ->
  forall s, CallFailHooks ext client (S fuel) hooks s
            = Done tt (log_actions hooks s).
Proof.
  induction hooks as [|a hooks IH]; intros Hq s; [done|].
  cbn [CallFailHooks].
  rewrite run_action_quiet by (intros s0; apply Hq; by left).
  rewrite IH; [done|]. intros a' s0 Ha. apply Hq. by right.
Qed.

Lemma log_hooks_actions h ms s :
  action_runs (trace (log_hooks h ms s)) = action_runs (trace s).
Proof.
  revert s. induction ms as [|m ms IH]; intros s; [done|].
  change (log_hooks h (m :: ms) s) with (log_hooks h ms (log (EvHook h m) s)).
  rewrite IH. simpl. by rewrite app_nil_r.
Qed.

Lemma BacktrackOneLevel_quiet ext client hooks fuel s r s1 :
  BacktrackOneLevel_while ext client (S fuel) s = Done r s1 ->
  (forall a s0, a ∈ hooks -> Action_Run client a s0 = []) ->
  (forall m s0, Monitor_hook client HEndFail m s0 = []) ->
  (forall m s0, Monitor_hook client HNoMoreSolutions m s0 = []) ->
  (length (monitors_ (search_ s1)) < S fuel)%nat ->
  exists s',
    Solver_BacktrackOneLevel ext client hooks (S fuel) s = Done r s' /\
    s' = set_fail_stamp_ (wrap64 (fail_stamp_ s1 + 1)) (set_trace (trace s') s1)
    /\
    action_runs (trace s') = action_runs (trace s1) ++ hooks /\
    forall h, hook_calls h (trace s')
              = hook_calls h (trace s1)
                ++ (if bool_decide (HEndFail = h)
                    then monitors_ (search_ s1) else [])
                ++ (if bool_decide (HNoMoreSolutions = h) && r.1
                    then monitors_ (search_ s1) else []).
Proof.
  intros Hw Hq He Hn Hfuel.
  unfold Solver_BacktrackOneLevel. unfold bind at 1. rewrite Hw.
  unfold bind at 1.
  rewrite (Search_hook_quiet ext client (S fuel) HEndFail s1 He Hfuel).
  destruct (log_hooks_trace HEndFail (monitors_ (search_ s1)) s1)
    as [EL ET].
  pose proof (log_hooks_actions HEndFail (monitors_ (search_ s1)) s1) as EA.
  generalize dependent (log_hooks HEndFail (monitors_ (search_ s1)) s1).
  intros s2 EL ET EA.
  unfold bind at 1. rewrite (CallFailHooks_quiet ext client fuel hooks Hq).
  destruct (log_actions_trace hooks s2) as (AL & AR & AH).
  generalize dependent (log_actions hooks s2). intros s3 AL AR AH.
  unfold bind at 1, modify at 1.
  assert (monitors_ (search_ s3) = monitors_ (search_ s1)) as Hm3
    by (by rewrite AL, EL).
  destruct r as [[] fd]; simpl.
  - unfold bind at 1.
    rewrite (Search_hook_quiet ext client (S fuel) HNoMoreSolutions _ Hn)
      by (simpl; rewrite Hm3; exact Hfuel).
    match goal with |- context [log_hooks ?h ?ms ?x] =>
      destruct (log_hooks_trace h ms x) as [NL NT];
      pose proof (log_hooks_actions h ms x) as NA;
      generalize dependent (log_hooks h ms x) end.
    intros s4 NL NT NA. eexists. split; [reflexivity|].
    split.
    { rewrite NL at 1. rewrite AL, EL. by destruct s1. }
    split.
    { rewrite NA. simpl. by rewrite AR, EA. }
    intros h. rewrite NT. simpl. rewrite AH, ET, Hm3.
    by rewrite <- app_assoc, andb_true_r.
  - eexists. split; [reflexivity|]. simpl.
    split; [rewrite AL, EL; by destruct s1|].
    split; [by rewrite AR, EA|].
    intros h. rewrite AH, ET. by rewrite andb_false_r, app_nil_r.
Qed.

Lemma BacktrackOneLevel_while_open ext client f s m rest :
  marker_stack_ (search_ s) = m :: rest -> marker_wf m -> open_branch m ->
  trail_wf ext (trail_ s) ->
  exists s',
    BacktrackOneLevel_while ext client (S f) s
    = Done (false, Some (ptr_info (info_ m))) s' /\
    search_ s'
    = set_left_search_depth_ (left_depth (info_ m))
        (set_search_depth_ (depth (info_ m))
           (set_marker_stack_ rest (search_ s))) /\
    trace s' = EvStampIncrease :: trace s /\
    fail_stamp_ s' = fail_stamp_ s /\ state_ s' = state_ s /\
    parent_searches_ s' = parent_searches_ s.
Proof.
  intros Hstack Hmw [Ht Hi] Hwf.
  destruct (PopState_wf ext s m rest Hstack Hmw Hwf) as (tr & mem & E & _).
  cbn [BacktrackOneLevel_while]. rewrite E, Ht, Hi. simpl.
  eexists. split; [reflexivity|]. done.
Qed.

Lemma BacktrackOneLevel_while_sentinel ext client f s m rest :
  marker_stack_ (search_ s) = m :: rest -> marker_wf m ->
  search_sentinel s m -> trail_wf ext (trail_ s) ->
  exists s',
    BacktrackOneLevel_while ext client (S f) s = Done (true, None) s' /\
    search_ s'
    = set_sentinel_pushed_ (sentinel_pushed_ (search_ s) - 1)
        (set_marker_stack_ rest (search_ s)) /\
    trace s' = EvStampIncrease :: trace s /\
    fail_stamp_ s' = fail_stamp_ s /\ state_ s' = state_ s /\
    parent_searches_ s' = parent_searches_ s.
Proof.
  intros Hstack Hmw (Ht & Hp & Hcode) Hwf.
  destruct (PopState_wf ext s m rest Hstack Hmw Hwf) as (tr & mem & E & _).
  cbn [BacktrackOneLevel_while]. rewrite E, Ht, Hp, Z.eqb_refl.
  cbn [negb].
  match goal with |- context [SolveDepth ?x] =>
    change (SolveDepth x) with (SolveDepth s) end.
  assert ((int_info (info_ m) =? ROOT_NODE_SENTINEL) && (SolveDepth s =? 1)
          || (int_info (info_ m) =? INITIAL_SEARCH_SENTINEL)
             && (1 <? SolveDepth s) = true) as ->.
  { destruct Hcode as [[-> ->]|[-> Hd]]; [done|].
    apply Z.ltb_lt in Hd. rewrite Hd. by rewrite orb_true_r. }
  simpl. eexists. split; [reflexivity|]. done.
Qed.





(** ** Restarting a search *)

Lemma BacktrackToSentinel_unwind ext client magic above m rest s fuel :
  marker_stack_ (search_ s) = above ++ m :: rest ->
  Forall marker_wf (above ++ [m]) ->
  Forall (fun x => type_ x = SENTINEL -> ptr_info (info_ x) = Solver_this)
    above ->
  magic ∉ sentinels_of above ->
  is_sentinel magic m ->
  (forall a s0, a ∈ actions_of above -> Action_Run client a s0 = []) ->
  trail_wf ext (trail_ s) ->
  Z.of_nat (length (sentinels_of above)) + 1
  <= sentinel_pushed_ (search_ s) ->
  (length above + 2 < fuel)%nat ->
  exists s',
    BacktrackToSentinel ext client fuel magic s = Done tt s' /\
    marker_stack_ (search_ s') = rest /\
    sentinel_pushed_ (search_ s')
    = sentinel_pushed_ (search_ s)
      - Z.of_nat (length (sentinels_of above)) - 1 /\
    action_runs (trace s') = action_runs (trace s) ++ actions_of above /\
    fail_stamp_ s' = wrap64 (fail_stamp_ s + 1) /\
    state_ s' = state_ s /\
    monitors_ (search_ s') = monitors_ (search_ s) /\
    trail_wf ext (trail_ s') /\
    forall h, hook_calls h (trace s') = hook_calls h (trace s).
Proof.
  intros Hstack Hmw Hptr Hmagic Hsent Hact Hwf Hpushed Hfuel.
  destruct (BacktrackToSentinel_while_unwind ext client magic above s m rest
              fuel Hstack Hmw Hptr Hmagic Hsent Hact Hwf Hpushed Hfuel)
    as (s' & R & R2 & R3 & R4 & R5 & R6 & R7 & R8 & R9 & R10 & R11 & Rh).
  unfold BacktrackToSentinel, bind at 1, get.
  destruct (Z.eqb_spec (sentinel_pushed_ (search_ s)) 0) as [E|_]; [lia|].
  unfold bind. rewrite R. unfold modify. eexists. split; [reflexivity|].
  simpl. by rewrite R8.
Qed.



(** ** Closing a nested search *)

Lemma JumpToSentinel_while_moves body sent p found :
  sentinels_of body = [] -> type_ sent = SENTINEL ->
  JumpToSentinel_while (body ++ [sent]) p found
  = Some (reverse (filter (fun m => type_ m = REVERSIBLE_ACTION) body) ++ p,
          true).
Proof.
  revert p. induction body as [|m body IH]; intros p Hs Ht.
  - simpl. rewrite Ht. simpl. done.
  - simpl in Hs. cbn [app JumpToSentinel_while].
    destruct (type_ m) eqn:Hm; [done| | |]; simpl.
    + rewrite filter_cons_False by (by rewrite Hm). by apply IH.
    + rewrite filter_cons_False by (by rewrite Hm). by apply IH.
    + rewrite filter_cons_True by done.
      rewrite reverse_cons, <- app_assoc. by apply IH.
Qed.

Lemma JumpToSentinel_while_found c :
  forall p p', JumpToSentinel_while c p false = Some (p', true) ->
  exists body sent,
    c = body ++ [sent] /\ sentinels_of body = [] /\ type_ sent = SENTINEL.
Proof.
  induction c as [|m c IH]; intros p p' H; [done|].
  cbn [JumpToSentinel_while] in H.
  destruct (type_ m) eqn:Hm; simpl in H.
  - destruct c as [|x c]; [|done].
    exists [], m. by rewrite Hm.
  - apply IH in H as (body & sent & -> & Hb & Hs).
    exists (m :: body), sent. simpl. by rewrite Hm.
  - apply IH in H as (body & sent & -> & Hb & Hs).
    exists (m :: body), sent. simpl. by rewrite Hm.
  - apply IH in H as (body & sent & -> & Hb & Hs).
    exists (m :: body), sent. simpl. by rewrite Hm.
Qed.

Lemma actions_of_reverse_filter body :
  actions_of (reverse (filter (fun m => type_ m = REVERSIBLE_ACTION) body))
  = reverse (actions_of body).
Proof.
  induction body as [|m body IH]; [done|]. simpl.
  destruct (type_ m) eqn:Hm.
  - rewrite filter_cons_False by (by rewrite Hm). exact IH.
  - rewrite filter_cons_False by (by rewrite Hm). exact IH.
  - rewrite filter_cons_False by (by rewrite Hm). exact IH.
  - rewrite filter_cons_True by done.
    rewrite !reverse_cons, actions_of_app, IH. simpl. by rewrite Hm.
Qed.

(** X13.  [JumpToSentinelWhenNested] returns only from a nested search
    whose one sentinel is the bottom marker of its stack.  It then leaves
    the stack of the nested search empty with depths 0, and has pushed the
    reversible-action markers, and no other marker, on the stack of the
    parent search, the top one first: on the parent stack the actions of
    the nested search are in the reverse of the order they had. *)
Theorem JumpToSentinelWhenNested_moves s :
  (forall s', JumpToSentinelWhenNested s = Done tt s' ->
     1 < SolveDepth s /\
     exists body sent,
       marker_stack_ (search_ s) = body ++ [sent] /\
       sentinels_of body = [] /\ type_ sent = SENTINEL) /\
  (forall body sent p ps,
     1 < SolveDepth s ->
     parent_searches_ s = p :: ps ->
     marker_stack_ (search_ s) = body ++ [sent] ->
     sentinels_of body = [] -> type_ sent = SENTINEL ->
     exists s' p',
       JumpToSentinelWhenNested s = Done tt s' /\
       marker_stack_ (search_ s') = [] /\
       search_depth_ (search_ s') = 0 /\
       left_search_depth_ (search_ s') = 0 /\
       parent_searches_ s' = p' :: ps /\
       marker_stack_ p'
       = reverse (filter (fun m => type_ m = REVERSIBLE_ACTION) body)
         ++ marker_stack_ p /\
       actions_of (marker_stack_ p')
       = reverse (actions_of body) ++ actions_of (marker_stack_ p) /\
       sentinels_of (marker_stack_ p') = sentinels_of (marker_stack_ p) /\
       set_marker_stack_ [] p' = set_marker_stack_ [] p).
Proof.
  split.
  - intros s' H. unfold JumpToSentinelWhenNested in H.
    destruct (Z.ltb_spec 1 (SolveDepth s)) as [Hd|_]; [|done]. simpl in H.
    split; [done|].
    destruct (parent_searches_ s) as [|p ps]; [done|].
    destruct (JumpToSentinel_while _ _ _) as [[p' []]|] eqn:E; [|done..].
    by apply JumpToSentinel_while_found in E.
  - intros body sent p ps Hd Hp Hstack Hb Hs.
    unfold JumpToSentinelWhenNested.
    apply Z.ltb_lt in Hd. rewrite Hd, Hp, Hstack. simpl.
    rewrite JumpToSentinel_while_moves by done.
    eexists _, _. split; [reflexivity|]. simpl.
    do 3 (split; [done|]). split; [reflexivity|]. simpl.
    split; [done|].
    rewrite actions_of_app, sentinels_of_app, actions_of_reverse_filter.
    split; [done|]. split; [|done].
    match goal with |- ?x ++ _ = _ => assert (x = []) as ->; [|done] end.
    clear. induction body as [|m body IH]; [done|].
    destruct (decide (type_ m = REVERSIBLE_ACTION)) as [Hm|Hm].
    + rewrite filter_cons_True by done.
      rewrite reverse_cons, sentinels_of_app. simpl. rewrite Hm.
      by rewrite app_nil_r.
    + by rewrite filter_cons_False.
Qed.

Lemma JumpToSentinelWhenNested_moves_witness :
  exists s' p',
    JumpToSentinelWhenNested demo_nested_search = Done tt s' /\
    marker_stack_ (search_ s') = [] /\
    parent_searches_ s' = p' :: parent_searches_ demo_leaf /\
    actions_of (marker_stack_ (search_ demo_nested_search)) = [12; 11] /\
    actions_of (marker_stack_ p') = [11; 12; 7; 8].
Proof.
  destruct (JumpToSentinelWhenNested_moves demo_nested_search) as [_ H].
  destruct (H (take 3 (marker_stack_ (search_ demo_nested_search)))
              (mark_Trail (trail_ demo_Solver)
                 (new_StateMarker SENTINEL
                    (StateInfo_2 Solver_this INITIAL_SEARCH_SENTINEL)))
              (search_ demo_leaf) (parent_searches_ demo_leaf))
    as (s' & p' & E & H1 & _ & _ & H4 & _ & H6 & _).
  - by vm_compute.
  - done.
  - by vm_compute.
  - done.
  - done.
  - exists s', p'. split; [exact E|]. split; [exact H1|]. split; [exact H4|].
    split; [by vm_compute|]. etransitivity; [exact H6|by vm_compute].
Defined.

(** ** The hash functions *)

Section mix.
Variable bits : Z.
Hypothesis Hbits : 0 <= bits.

Lemma wrap_bits_range x : 0 <= wrap_bits bits x < 2 ^ bits.
Proof. unfold wrap_bits. apply Z.mod_pos_bound. by apply Z.pow_pos_nonneg. Qed.

Lemma wrap_bits_small x : 0 <= x < 2 ^ bits -> wrap_bits bits x = x.
Proof. unfold wrap_bits. apply Z.mod_small. Qed.

Lemma lxor_range a b :
  0 <= a < 2 ^ bits -> 0 <= b < 2 ^ bits -> 0 <= Z.lxor a b < 2 ^ bits.
Proof.
  intros Ha Hb.
  assert (Z.lxor a b = Z.lxor a b mod 2 ^ bits) as ->;
    [|apply Z.mod_pos_bound; by apply Z.pow_pos_nonneg].
  apply Z.bits_inj'. intros n Hn.
  destruct (Z.lt_ge_cases n bits) as [Hlt|Hge].
  - by rewrite Z.mod_pow2_bits_low.
  - rewrite Z.mod_pow2_bits_high by lia. rewrite Z.lxor_spec.
    rewrite <- (Z.mod_small a (2 ^ bits)), <- (Z.mod_small b (2 ^ bits)) by done.
    by rewrite !Z.mod_pow2_bits_high by lia.
Qed.

Lemma shiftr_range c k : 0 <= k -> 0 <= c < 2 ^ bits ->
  0 <= Z.shiftr c k < 2 ^ bits.
Proof.
  intros Hk Hc. rewrite Z.shiftr_div_pow2 by done. split.
  - apply Z.div_pos; [lia|]. by apply Z.pow_pos_nonneg.
  - apply Z.le_lt_trans with c; [|lia].
    apply Z.div_le_upper_bound; [by apply Z.pow_pos_nonneg|].
    assert (1 <= 2 ^ k) by (by apply Z.pow_pos_nonneg || lia). nia.
Qed.

Lemma lxor_cancel a x : Z.lxor (Z.lxor a x) x = a.
Proof. by rewrite Z.lxor_assoc, Z.lxor_nilpotent, Z.lxor_0_r. Qed.

Lemma sub_add_bits a b :
  0 <= a < 2 ^ bits -> wrap_bits bits (wrap_bits bits (a - b) + b) = a.
Proof.
  intros Ha. unfold wrap_bits. rewrite Zplus_mod_idemp_l.
  replace (a - b + b) with a by lia. by apply Z.mod_small.
Qed.

Lemma add_sub_bits a b :
  0 <= a < 2 ^ bits -> wrap_bits bits (wrap_bits bits (a + b) - b) = a.
Proof.
  intros Ha. unfold wrap_bits. rewrite Zminus_mod_idemp_l.
  replace (a + b - b) with a by lia. by apply Z.mod_small.
Qed.

Lemma mix_lines_words s1 s2 s3 t :
  0 <= s1 -> 0 <= s3 -> words bits t -> words bits (mix_lines bits s1 s2 s3 t).
Proof.
  intros H1 H3. destruct t as [[a b] c]. intros (Ha & Hb & Hc).
  simpl in Ha, Hb, Hc. unfold mix_lines. cbv zeta.
  pose proof wrap_bits_range as W.
  set (a' := Z.lxor _ (Z.shiftr c s1)).
  assert (0 <= a' < 2 ^ bits) as Ha'
    by (apply lxor_range; [apply W|by apply shiftr_range]).
  set (b' := Z.lxor _ (wrap_bits bits (Z.shiftl a' s2))).
  assert (0 <= b' < 2 ^ bits) as Hb'
    by (apply lxor_range; apply W).
  split; [done|]. split; [done|]. simpl.
  apply lxor_range; [apply W|by apply shiftr_range].
Qed.

Lemma unmix_lines_words s1 s2 s3 t :
  0 <= s1 -> 0 <= s3 ->
  words bits t -> words bits (unmix_lines bits s1 s2 s3 t).
Proof.
  intros H1 H3. destruct t as [[a b] c]. intros _.
  unfold unmix_lines. cbv zeta.
  pose proof wrap_bits_range as W. split; [|split]; simpl; apply W.
Qed.

Lemma unmix_mix_lines s1 s2 s3 t :
  0 <= s1 -> 0 <= s3 -> words bits t ->
  unmix_lines bits s1 s2 s3 (mix_lines bits s1 s2 s3 t) = t.
Proof.
  intros H1 H3. destruct t as [[a b] c]. intros (Ha & Hb & Hc).
  simpl in Ha, Hb, Hc. unfold mix_lines. cbv zeta.
  set (a' := Z.lxor _ (Z.shiftr c s1)).
  set (b' := Z.lxor _ (wrap_bits bits (Z.shiftl a' s2))).
  unfold unmix_lines. cbv zeta.
  rewrite lxor_cancel, !sub_add_bits by (done || apply wrap_bits_range).
  unfold b'. rewrite lxor_cancel, !sub_add_bits
    by (done || apply wrap_bits_range).
  unfold a'. rewrite lxor_cancel, !sub_add_bits
    by (done || apply wrap_bits_range).
  done.
Qed.

Lemma mix_unmix_lines s1 s2 s3 t :
  0 <= s1 -> 0 <= s3 -> words bits t ->
  mix_lines bits s1 s2 s3 (unmix_lines bits s1 s2 s3 t) = t.
Proof.
  intros H1 H3. destruct t as [[a b] c]. intros (Ha & Hb & Hc).
  simpl in Ha, Hb, Hc. unfold unmix_lines. cbv zeta.
  pose proof wrap_bits_range as W.
  set (c0 := wrap_bits bits (wrap_bits bits (Z.lxor c _ + b) + a)).
  set (b0 := wrap_bits bits (wrap_bits bits (Z.lxor b _ + a) + c0)).
  set (a0 := wrap_bits bits (wrap_bits bits (Z.lxor a _ + c0) + b0)).
  unfold mix_lines. cbv zeta.
  assert (Z.lxor (wrap_bits bits (wrap_bits bits (a0 - b0) - c0))
            (Z.shiftr c0 s1) = a) as ->.
  { unfold a0.
    rewrite !add_sub_bits
      by (apply W || (apply lxor_range; [done|apply shiftr_range; [done|apply W]])).
    apply lxor_cancel. }
  assert (Z.lxor (wrap_bits bits (wrap_bits bits (b0 - c0) - a))
            (wrap_bits bits (Z.shiftl a s2)) = b) as ->.
  { unfold b0.
    rewrite !add_sub_bits by (apply W || (apply lxor_range; [done|apply W])).
    apply lxor_cancel. }
  unfold c0.
  rewrite !add_sub_bits
    by (apply W || (apply lxor_range; [done|by apply shiftr_range])).
  by rewrite lxor_cancel.
Qed.

End mix.

Lemma mix32_words t : words 32 t -> words 32 (mix32 t).
Proof.
  intros H. unfold mix32. by repeat apply mix_lines_words.
Qed.

Lemma mix64_words t : words 64 t -> words 64 (mix64 t).
Proof.
  intros H. unfold mix64. by repeat apply mix_lines_words.
Qed.

Lemma unmix32_words t : words 32 t -> words 32 (unmix32 t).
Proof.
  intros H. unfold unmix32. by repeat apply unmix_lines_words.
Qed.

Lemma unmix64_words t : words 64 t -> words 64 (unmix64 t).
Proof.
  intros H. unfold unmix64. by repeat apply unmix_lines_words.
Qed.

Lemma unmix32_mix32 t : words 32 t -> unmix32 (mix32 t) = t.
Proof.
  intros H. unfold unmix32, mix32.
  rewrite !unmix_mix_lines; try done; by repeat apply mix_lines_words.
Qed.

Lemma mix32_unmix32 t : words 32 t -> mix32 (unmix32 t) = t.
Proof.
  intros H. unfold unmix32, mix32.
  rewrite !mix_unmix_lines; try done; by repeat apply unmix_lines_words.
Qed.

Lemma unmix64_mix64 t : words 64 t -> unmix64 (mix64 t) = t.
Proof.
  intros H. unfold unmix64, mix64.
  rewrite !unmix_mix_lines; try done; by repeat apply mix_lines_words.
Qed.

Lemma mix64_unmix64 t : words 64 t -> mix64 (unmix64 t) = t.
Proof.
  intros H. unfold unmix64, mix64.
  rewrite !mix_unmix_lines; try done; by repeat apply unmix_lines_words.
Qed.

(** X14.  Both versions of [mix] are permutations of the triples of
    words: the result is a triple of words, two different triples are
    never mixed to the same triple, and every triple is the mix of one.
    [Hash32NumWithSeed] and [Hash64NumWithSeed] of words are words. *)
Theorem mix_permutation :
  (forall t, words 32 t -> words 32 (mix32 t)) /\
  (forall t t', words 32 t -> words 32 t' -> mix32 t = mix32 t' -> t = t') /\
  (forall u, words 32 u -> exists t, words 32 t /\ mix32 t = u) /\
  (forall t, words 64 t -> words 64 (mix64 t)) /\
  (forall t t', words 64 t -> words 64 t' -> mix64 t = mix64 t' -> t = t') /\
  (forall u, words 64 u -> exists t, words 64 t /\ mix64 t = u) /\
  (forall num c, 0 <= num < 2 ^ 32 -> 0 <= c < 2 ^ 32 ->
                 0 <= Hash32NumWithSeed num c < 2 ^ 32) /\
  (forall num c, 0 <= num < 2 ^ 64 -> 0 <= c < 2 ^ 64 ->
                 0 <= Hash64NumWithSeed num c < 2 ^ 64).
Proof.
  split; [exact mix32_words|]. split.
  { intros t t' Ht Ht' E.
    rewrite <- (unmix32_mix32 t), <- (unmix32_mix32 t') by done.
    by rewrite E. }
  split.
  { intros u Hu. exists (unmix32 u).
    split; [by apply unmix32_words|by apply mix32_unmix32]. }
  split; [exact mix64_words|]. split.
  { intros t t' Ht Ht' E.
    rewrite <- (unmix64_mix64 t), <- (unmix64_mix64 t') by done.
    by rewrite E. }
  split.
  { intros u Hu. exists (unmix64 u).
    split; [by apply unmix64_words|by apply mix64_unmix64]. }
  split.
  - intros num c Hn Hc. unfold Hash32NumWithSeed.
    by apply (mix32_words (num, 0x9e3779b9, c)).
  - intros num c Hn Hc. unfold Hash64NumWithSeed.
    by apply (mix64_words (num, 0xe08c1d668b756f82, c)).
Qed.

Lemma hash_string_from_range bits s h :
  0 <= bits -> 0 <= h < 2 ^ bits ->
  0 <= hash_string_from bits s h < 2 ^ bits.
Proof.
  intros Hb. revert h. induction s as [|c s IH]; intros h Hh; [done|].
  simpl. destruct (c =? 0); [done|].
  apply IH. apply lxor_range; [done|by apply wrap_bits_range..].
Qed.

Lemma hash_string_from_NUL bits s1 s2 h :
  hash_string_from bits (s1 ++ 0 :: s2) h = hash_string_from bits s1 h.
Proof.
  revert h. induction s1 as [|c s1 IH]; intros h; [done|].
  simpl. destruct (c =? 0); [done|]. apply IH.
Qed.

Lemma mix_permutation_witness :
  words 32 (1, 2, 3) /\ words 32 (mix32 (1, 2, 3)) /\
  words 64 (1, 2, 3) /\ (exists t, words 64 t /\ mix64 t = (1, 2, 3)) /\
  0 <= Hash32NumWithSeed 5 7 < 2 ^ 32.
Proof.
  assert (words 32 (1, 2, 3)) as H32 by (by vm_compute).
  assert (words 64 (1, 2, 3)) as H64 by (by vm_compute).
  destruct mix_permutation as (M1 & _ & _ & _ & _ & M6 & M7 & _).
  split; [exact H32|]. split; [exact (M1 _ H32)|]. split; [exact H64|].
  split; [exact (M6 _ H64)|].
  apply M7; by vm_compute.
Defined.

(** X15.  The hash of a string reads it up to its first NUL only: a
    string with a NUL in it has the hash of the part before the NUL, so
    two strings that differ only after a NUL collide.  The hash of the
    empty string is 0, and a hash is a word of the size of [size_t]. *)
Theorem hash_string_stops_at_NUL bits :
  (forall s1 s2, hash_string bits (s1 ++ 0 :: s2) = hash_string bits s1) /\
  hash_string bits [] = 0 /\
  (0 <= bits -> forall s, 0 <= hash_string bits s < 2 ^ bits).
Proof.
  split; [intros s1 s2; apply hash_string_from_NUL|]. split; [done|].
  intros Hb s. apply hash_string_from_range; [done|].
  split; [done|]. by apply Z.pow_pos_nonneg.
Qed.

Lemma hash_string_stops_at_NUL_witness :
  0 <= 64 /\ 0 <= hash_string 64 [97; 98; 0; 99] < 2 ^ 64 /\
  hash_string 64 [97; 98; 0; 99] = hash_string 64 [97; 98].
Proof.
  destruct (hash_string_stops_at_NUL 64) as (H1 & _ & H3).
  split; [done|]. split; [by apply H3|].
  exact (H1 [97; 98] [99]).
Defined.

(** The hashes of "ab" and of "ab\0cd" on 64 bits, and a number hashed
    with a seed. *)
Example hash_examples :
  hash_string 64 [97; 98] = 3299 /\
  hash_string 64 [97; 98; 0; 99; 100] = 3299 /\
  unmix32 (mix32 (1, 2, 3)) = (1, 2, 3).
Proof. by vm_compute. Qed.

(** ** The constraints of the FlatZinc front end *)

Lemma wrap_int64_small x : kint64min <= x <= kint64max -> wrap_int64 x = x.
Proof.
  unfold wrap_int64, kint64min, kint64max. intros H.
  rewrite Z.mod_small by lia. lia.
Qed.

Lemma wrap_int_small x : - 2 ^ 31 <= x < 2 ^ 31 -> wrap_int x = x.
Proof.
  unfold wrap_int. intros H. rewrite Z.mod_small by lia. lia.
Qed.

Lemma rem_2_odd a : Z.rem a 2 = if Z.odd a then Z.sgn a else 0.
Proof.
  rewrite Z.rem_mod by done. change (Z.abs 2) with 2. rewrite Zmod_odd.
  assert (Z.odd (Z.abs a) = Z.odd a) as ->.
  { destruct (Z.abs_spec a) as [[_ ->]|[_ ->]]; [done|apply Z.odd_opp]. }
  destruct (Z.odd a); lia.
Qed.

(** X16.  [VariableParity::InitialPropagate] keeps every value of the
    parity asked for: a value between the bounds that is odd, for an odd
    variable, or even, for an even one, is between the new bounds, and
    the new bounds are within the old ones.  For an odd variable the new
    bounds are odd.  For an even variable they are even when the old
    bounds are not negative; a bound that is negative and odd is left as
    it is. *)
Theorem VariableParity_sound odd_ vmin vmax :
  kint64min < vmax <= kint64max -> kint64min <= vmin < kint64max ->
  let r := VariableParity_InitialPropagate odd_ vmin vmax in
  (forall v, vmin <= v <= vmax -> Z.odd v = odd_ -> r.1 <= v <= r.2) /\
  vmin <= r.1 /\ r.2 <= vmax /\
  (odd_ = true -> Z.odd r.1 = true /\ Z.odd r.2 = true) /\
  (odd_ = false -> 0 <= vmin -> Z.odd r.1 = false) /\
  (odd_ = false -> 0 <= vmax -> Z.odd r.2 = false) /\
  (odd_ = false -> vmin < 0 -> Z.odd vmin = true -> r.1 = vmin) /\
  (odd_ = false -> vmax < 0 -> Z.odd vmax = true -> r.2 = vmax).
Proof.
  intros Hmax Hmin r. subst r.
  unfold VariableParity_InitialPropagate. cbv zeta.
  rewrite !rem_2_odd.
  assert (forall x, Z.odd x = false -> Z.odd (x - 1) = true) as Hp.
  { intros x Hx. by rewrite Z.sub_1_r, Z.odd_pred, <- Z.negb_odd, Hx. }
  assert (forall x, Z.odd x = false -> Z.odd (x + 1) = true) as Hs.
  { intros x Hx. by rewrite Z.add_1_r, Z.odd_succ, <- Z.negb_odd, Hx. }
  assert (forall x, Z.odd x = true -> Z.odd (x - 1) = false) as Hp'.
  { intros x Hx. by rewrite Z.sub_1_r, Z.odd_pred, <- Z.negb_odd, Hx. }
  assert (forall x, Z.odd x = true -> Z.odd (x + 1) = false) as Hs'.
  { intros x Hx. by rewrite Z.add_1_r, Z.odd_succ, <- Z.negb_odd, Hx. }
  unfold kint64min, kint64max in *.
  destruct odd_, (Z.odd vmax) eqn:Omax, (Z.odd vmin) eqn:Omin;
    destruct (Z.sgn_spec vmax) as [[? Sx]|[[? Sx]|[? Sx]]];
    destruct (Z.sgn_spec vmin) as [[? Sn]|[[? Sn]|[? Sn]]];
    rewrite ?Sx, ?Sn; clear Sx Sn;
    try (subst; done);
    repeat match goal with
           | |- context [?a =? ?b] =>
               let r := eval vm_compute in (a =? b) in
               change (a =? b) with r
           end;
    cbn [fst snd];
    rewrite ?wrap_int64_small by (unfold kint64min, kint64max; lia);
    (split;
     [intros v Hv Ho;
      pose proof Ho as Ho';
      destruct (Z.eq_dec v vmax) as [E1|]; destruct (Z.eq_dec v vmin) as [E2|];
      try rewrite E1 in Ho; try rewrite E2 in Ho'; try congruence; lia
     |repeat split; try lia; try done; auto]).
Qed.

(** *** Sums of boolean variables *)

Lemma n_always_possible vars :
  0 <= n_always vars <= n_possible vars /\
  n_possible vars <= Z.of_nat (length vars).
Proof.
  induction vars as [|var vars IH]; simpl; [lia|].
  destruct (var.1 =? 1), (var.2 =? 1); lia.
Qed.

Lemma count_true_vars_spec vars :
  forall i at_ pt idx,
  0 <= i -> i + Z.of_nat (length vars) < 2 ^ 31 ->
  0 <= at_ -> at_ + Z.of_nat (length vars) < 2 ^ 31 ->
  0 <= pt -> pt + Z.of_nat (length vars) < 2 ^ 31 ->
  exists idx',
    count_true_vars vars i (at_, pt, idx)
    = (at_ + n_always vars, pt + n_possible vars, idx') /\
    (n_possible vars = n_always vars /\ idx' = idx \/
     exists k var, vars !! k = Some var /\ idx' = i + Z.of_nat k /\
                   var.1 <> 1 /\ var.2 = 1 /\
                   n_possible (drop (S k) vars) = n_always (drop (S k) vars)).
Proof.
  induction vars as [|var vars IH]; intros i at_ pt idx Hi Hil Ha Hal Hp Hpl.
  - exists idx. simpl. rewrite !Z.add_0_r. split; [done|by left].
  - simpl length in *. rewrite Nat2Z.inj_succ in *. cbn [count_true_vars].
    rewrite (wrap_int_small (i + 1)) by lia.
    destruct (Z.eqb_spec var.1 1) as [E1|E1].
    + rewrite !wrap_int_small by lia.
      destruct (IH (i + 1) (at_ + 1) (pt + 1) idx) as (idx' & E & H);
        [lia..|].
      exists idx'. simpl. rewrite E.
      destruct (Z.eqb_spec var.1 1); [|done].
      split; [by rewrite <- ?Z.add_assoc, ?Z.add_0_l|].
      destruct H as [[H1 H2]|(k & v & Hk & -> & Hv)].
      * left. split; [lia|done].
      * right. exists (S k), v. split; [done|]. split; [lia|done].
    + destruct (Z.eqb_spec var.2 1) as [E2|E2].
      * rewrite !wrap_int_small by lia.
        destruct (IH (i + 1) at_ (pt + 1) i) as (idx' & E & H); [lia..|].
        exists idx'. simpl. rewrite E.
        destruct (Z.eqb_spec var.1 1); [done|].
        destruct (Z.eqb_spec var.2 1); [|done].
        split; [by rewrite <- ?Z.add_assoc, ?Z.add_0_l|]. right.
        destruct H as [[H1 H2]|(k & v & Hk & -> & Hv)].
        -- exists 0%nat, var. simpl. rewrite drop_0.
           split; [done|]. split; [lia|done].
        -- exists (S k), v. split; [done|]. split; [lia|done].
      * destruct (IH (i + 1) at_ pt idx) as (idx' & E & H); [lia..|].
        exists idx'. simpl. rewrite E.
        destruct (Z.eqb_spec var.1 1); [done|].
        destruct (Z.eqb_spec var.2 1); [done|].
        split; [by rewrite <- ?Z.add_assoc, ?Z.add_0_l|].
        destruct H as [[H1 H2]|(k & v & Hk & -> & Hv)].
        -- left. split; [lia|done].
        -- right. exists (S k), v. split; [done|]. split; [lia|done].
Qed.

Lemma sum_between vars a :
  Forall boolean_var vars -> Forall2 value_of vars a ->
  n_always vars <= sum_list a <= n_possible vars.
Proof.
  intros Hb Ha. induction Ha as [|var v vars a Hv Ha IH]; simpl; [lia|].
  apply Forall_cons in Hb as [(B1 & B2 & B3) Hb]. specialize (IH Hb).
  destruct Hv as [V1 V2].
  destruct (Z.eqb_spec var.1 1), (Z.eqb_spec var.2 1); lia.
Qed.

Lemma sum_all_possible vars a :
  Forall boolean_var vars -> Forall2 value_of vars a ->
  sum_list a = n_possible vars ->
  forall k var v, vars !! k = Some var -> a !! k = Some v ->
                  var.2 = 1 -> v = 1.
Proof.
  intros Hb Ha. induction Ha as [|var v vars a Hv Ha IH]; [done|].
  apply Forall_cons in Hb as [(B1 & B2 & B3) Hb].
  pose proof (sum_between vars a Hb Ha) as Hs.
  destruct Hv as [V1 V2]. simpl. intros Hsum [|k] var' v' Hk Hk' Hmax.
  - simpl in Hk, Hk'. injection Hk as <-. injection Hk' as <-.
    destruct (Z.eqb_spec var.1 1), (Z.eqb_spec var.2 1); lia.
  - apply (IH Hb) with k var'; [|done..].
    destruct (Z.eqb_spec var.1 1), (Z.eqb_spec var.2 1); lia.
Qed.

Lemma sum_all_always vars a :
  Forall boolean_var vars -> Forall2 value_of vars a ->
  sum_list a = n_always vars ->
  forall k var v, vars !! k = Some var -> a !! k = Some v ->
                  var.1 = 0 -> v = 0.
Proof.
  intros Hb Ha. induction Ha as [|var v vars a Hv Ha IH]; [done|].
  apply Forall_cons in Hb as [(B1 & B2 & B3) Hb].
  pose proof (sum_between vars a Hb Ha) as Hs.
  destruct Hv as [V1 V2]. simpl. intros Hsum [|k] var' v' Hk Hk' Hmin.
  - simpl in Hk, Hk'. injection Hk as <-. injection Hk' as <-.
    destruct (Z.eqb_spec var.1 1), (Z.eqb_spec var.2 1); lia.
  - apply (IH Hb) with k var'; [|done..].
    destruct (Z.eqb_spec var.1 1), (Z.eqb_spec var.2 1); lia.
Qed.

Lemma no_free_var vars k var :
  Forall boolean_var vars -> n_possible vars = n_always vars ->
  vars !! k = Some var -> var.1 <> 1 -> var.2 = 1 -> False.
Proof.
  intros Hb. revert k. induction vars as [|x vars IH]; intros k; [done|].
  apply Forall_cons in Hb as [_ Hb].
  pose proof (n_always_possible vars) as Hn. simpl.
  destruct k as [|k]; simpl.
  - intros H [= ->] H1 H2.
    destruct (Z.eqb_spec var.1 1), (Z.eqb_spec var.2 1); lia.
  - intros H. apply (IH Hb).
    destruct (Z.eqb_spec x.1 1), (Z.eqb_spec x.2 1); lia.
Qed.

Lemma sum_one_free vars a :
  Forall boolean_var vars -> Forall2 value_of vars a ->
  n_possible vars = n_always vars + 1 ->
  forall k var v, vars !! k = Some var -> a !! k = Some v ->
                  var.1 <> 1 -> var.2 = 1 -> sum_list a = n_always vars + v.
Proof.
  intros Hb Ha. induction Ha as [|x w vars a Hw Ha IH]; [done|].
  apply Forall_cons in Hb as [(B1 & B2 & B3) Hb].
  pose proof (sum_between vars a Hb Ha) as Hs.
  pose proof (n_always_possible vars) as Hn.
  destruct Hw as [W1 W2]. simpl. intros Hp [|k] var v Hk Hk' H1 H2.
  - simpl in Hk, Hk'. injection Hk as <-. injection Hk' as <-.
    destruct (Z.eqb_spec x.1 1), (Z.eqb_spec x.2 1); lia.
  - simpl in Hk, Hk'.
    destruct (Z.eqb_spec x.1 1); [|destruct (Z.eqb_spec x.2 1)].
    + rewrite (IH Hb ltac:(lia) k var v) by done. lia.
    + exfalso. apply (no_free_var vars k var Hb); [lia|done..].
    + rewrite (IH Hb ltac:(lia) k var v) by done. lia.
Qed.

Lemma bound_counts vars :
  Forall boolean_var vars -> Forall (fun var => var.1 = var.2) vars ->
  n_possible vars = n_always vars /\ sum_list vars.*1 = n_always vars.
Proof.
  induction vars as [|x vars IH]; [done|]. intros Hb He.
  apply Forall_cons in Hb as [(B1 & B2 & B3) Hb].
  apply Forall_cons in He as [E He].
  destruct (IH Hb He) as [I1 I2]. rewrite fmap_cons.
  change (sum_list (x.1 :: vars.*1)) with (x.1 + sum_list vars.*1).
  cbn [n_possible n_always]. rewrite I1, I2.
  destruct (Z.eqb_spec x.1 1), (Z.eqb_spec x.2 1); lia.
Qed.

Lemma rem_2_nonneg a : 0 <= a -> Z.rem a 2 = if Z.odd a then 1 else 0.
Proof.
  intros H. rewrite rem_2_odd. destruct (Z.odd a) eqn:E; [|done].
  destruct (Z.sgn_spec a) as [[? ->]|[[<- _]|[? _]]]; [done|done|lia].
Qed.

(** X17.  [BooleanSumOdd::InitialPropagate] on boolean variables loses no
    solution: an assignment of the variables whose sum is odd meets no
    failure and has the value that a call of [SetMin] or [SetMax] leaves.
    When every variable is bound it fails exactly when the sum is even,
    and asks for nothing otherwise.  When it does not fail, the counts it
    stores are the number of variables that can be true and the number of
    the ones that are. *)
Theorem BooleanSumOdd_sound vars :
  Forall boolean_var vars -> Z.of_nat (length vars) < 2 ^ 31 - 1 ->
  let r := BooleanSumOdd_InitialPropagate vars in
  (forall a, Forall2 value_of vars a -> Z.odd (sum_list a) = true ->
             passes r.1 a) /\
  (Forall (fun var => var.1 = var.2) vars ->
   (r.1 = PropFail <-> Z.odd (sum_list vars.*1) = false) /\
   (r.1 <> PropFail -> r.1 = PropCalls [])) /\
  (r.1 <> PropFail -> r.2 = Some (n_possible vars, n_always vars)).
Proof.
  intros Hb Hlen r. subst r. unfold BooleanSumOdd_InitialPropagate.
  destruct (count_true_vars_spec vars 0 0 0 (-1)) as (idx & E & Hidx);
    [lia..|].
  rewrite E. clear E. rewrite !Z.add_0_l.
  pose proof (n_always_possible vars) as Hn.
  rewrite (rem_2_nonneg (n_possible vars)) by lia.
  rewrite (wrap_int_small (n_always vars + 1)) by lia.
  split; [|split].
  - intros a Ha Hodd.
    pose proof (sum_between vars a Hb Ha) as Hs.
    destruct (Z.eqb_spec (n_always vars) (n_possible vars)) as [Eap|Nap].
    + assert (sum_list a = n_possible vars) as Hsum by lia.
      rewrite <- Hsum, Hodd. simpl.
      destruct (Z.eqb_spec (sum_list a) (n_always vars + 1)); [lia|].
      intros c i v Hc. by apply elem_of_nil in Hc.
    + cbn [andb].
      destruct (Z.eqb_spec (n_possible vars) (n_always vars + 1)) as [E1|N1];
        [|intros c i v Hc; by apply elem_of_nil in Hc].
      destruct Hidx as [[H _]|(k & var & Hk & -> & H1 & H2 & _)]; [lia|].
      assert (exists v, a !! k = Some v /\ value_of var v) as (v & Hv & Hval).
      { destruct (Forall2_lookup_l _ _ _ _ _ Ha Hk) as (v & ? & ?). eauto. }
      pose proof (sum_one_free vars a Hb Ha E1 k var v Hk Hv H1 H2) as Hsum.
      assert (boolean_var var) as (B1 & B2 & B3)
        by (by eapply Forall_lookup_1 in Hb).
      destruct Hval as [V1 V2].
      rewrite Hsum in Hodd. rewrite E1.
      rewrite Z.odd_add in Hodd. rewrite Z.odd_add. simpl (Z.odd 1).
      destruct (Z.odd (n_always vars)) eqn:Oa; simpl.
      * (* the count of true variables is odd: the free one is 0 *)
        intros c i w Hc Hi. apply list_elem_of_singleton in Hc as ->.
        simpl. intros Hki. rewrite Z.add_0_l in Hki.
        apply Nat2Z.inj in Hki as ->. rewrite Hv in Hi. injection Hi as <-.
        assert (v = 0 \/ v = 1) as [->| ->] by lia; [done|done].
      * intros c i w Hc Hi. apply list_elem_of_singleton in Hc as ->.
        simpl. intros Hki. rewrite Z.add_0_l in Hki.
        apply Nat2Z.inj in Hki as ->. rewrite Hv in Hi. injection Hi as <-.
        assert (v = 0 \/ v = 1) as [->| ->] by lia; [done|done].
  - intros Hbound. destruct (bound_counts vars Hb Hbound) as [Ep Es].
    rewrite Es, Ep, Z.eqb_refl. simpl.
    destruct (Z.odd (n_always vars)); simpl.
    + destruct (Z.eqb_spec (n_always vars) (n_always vars + 1)); [lia|].
      done.
    + done.
  - destruct (_ && _); [done|]. done.
Qed.

Lemma VariableParity_sound_witness :
  kint64min < 7 <= kint64max /\ kint64min <= -3 < kint64max /\
  VariableParity_InitialPropagate false (-3) 7 = (-3, 6) /\
  (forall v, -3 <= v <= 7 -> Z.odd v = false -> -3 <= v <= 6).
Proof.
  assert (kint64min < 7 <= kint64max) as H1 by (by vm_compute).
  assert (kint64min <= -3 < kint64max) as H2 by (by vm_compute).
  split; [exact H1|]. split; [exact H2|]. split; [by vm_compute|].
  exact (proj1 (VariableParity_sound false (-3) 7 H1 H2)).
Defined.

Lemma BooleanSumOdd_sound_witness :
  Forall boolean_var [(1, 1); (0, 1); (0, 0)] /\
  BooleanSumOdd_InitialPropagate [(1, 1); (0, 1); (0, 0)]
  = (PropCalls [CallSetMax 1 0], Some (2, 1)) /\
  passes (PropCalls [CallSetMax 1 0]) [1; 0; 0] /\
  BooleanSumOdd_InitialPropagate [(1, 1); (1, 1); (0, 0)] = (PropFail, None).
Proof.
  assert (Forall boolean_var [(1, 1); (0, 1); (0, 0)]) as Hb.
  { repeat constructor; by vm_compute. }
  split; [exact Hb|]. split; [by vm_compute|]. split; [|by vm_compute].
  apply (proj1 (BooleanSumOdd_sound [(1, 1); (0, 1); (0, 0)] Hb
                  ltac:(by vm_compute)) [1; 0; 0]).
  - repeat constructor; by vm_compute.
  - by vm_compute.
Defined.

(** *** The sum in a range *)

Lemma PushAllUnboundToOne_calls vars : forall i c,
  0 <= i -> i + Z.of_nat (length vars) < 2 ^ 31 ->
  c ∈ PushAllUnboundToOne vars i ->
  exists k var, vars !! k = Some var /\ var.2 = 1 /\
                c = CallSetValue (i + Z.of_nat k) 1.
Proof.
  induction vars as [|x vars IH]; intros i c Hi Hl Hc.
  - by apply elem_of_nil in Hc.
  - simpl length in Hl. rewrite Nat2Z.inj_succ in Hl. simpl in Hc.
    rewrite (wrap_int_small (i + 1)) in Hc by lia.
    apply elem_of_app in Hc as [Hc|Hc].
    + destruct (Z.eqb_spec x.2 1) as [E|]; [|by apply elem_of_nil in Hc].
      apply list_elem_of_singleton in Hc as ->.
      exists 0%nat, x. split; [done|]. split; [done|]. f_equal. simpl. lia.
    + destruct (IH (i + 1) c) as (k & var & Hk & Hv & ->); [lia|lia|done|].
      exists (S k), var. split; [done|]. split; [done|]. f_equal. lia.
Qed.

Lemma PushAllUnboundToZero_calls vars : forall i c,
  0 <= i -> i + Z.of_nat (length vars) < 2 ^ 31 ->
  c ∈ PushAllUnboundToZero vars i ->
  exists k var, vars !! k = Some var /\ var.1 = 0 /\
                c = CallSetValue (i + Z.of_nat k) 0.
Proof.
  induction vars as [|x vars IH]; intros i c Hi Hl Hc.
  - by apply elem_of_nil in Hc.
  - simpl length in Hl. rewrite Nat2Z.inj_succ in Hl. simpl in Hc.
    rewrite (wrap_int_small (i + 1)) in Hc by lia.
    apply elem_of_app in Hc as [Hc|Hc].
    + destruct (Z.eqb_spec x.1 0) as [E|]; [|by apply elem_of_nil in Hc].
      apply list_elem_of_singleton in Hc as ->.
      exists 0%nat, x. split; [done|]. split; [done|]. f_equal. simpl. lia.
    + destruct (IH (i + 1) c) as (k & var & Hk & Hv & ->); [lia|lia|done|].
      exists (S k), var. split; [done|]. split; [done|]. f_equal. lia.
Qed.

(** X18.  [BooleanSumInRange::InitialPropagate] on boolean variables
    stores the number of variables that can be true and the number of
    the ones that are; it fails exactly when more variables are true
    than the range allows or fewer can be true than it asks for, and
    then no assignment has its sum in the range; and it loses no
    solution: an assignment whose sum is in the range meets no failure
    and has the values that the calls of [SetValue] ask for. *)
Theorem BooleanSumInRange_sound vars range_min range_max :
  Forall boolean_var vars -> Z.of_nat (length vars) < 2 ^ 31 - 1 ->
  let r := BooleanSumInRange_InitialPropagate vars range_min range_max in
  r.2 = (n_possible vars, n_always vars) /\
  (r.1 = PropFail <->
   range_max < n_always vars \/ n_possible vars < range_min) /\
  (r.1 = PropFail ->
   forall a, Forall2 value_of vars a ->
             ~ (range_min <= sum_list a <= range_max)) /\
  (forall a, Forall2 value_of vars a ->
             range_min <= sum_list a <= range_max -> passes r.1 a).
Proof.
  intros Hb Hlen r. subst r. unfold BooleanSumInRange_InitialPropagate.
  destruct (count_true_vars_spec vars 0 0 0 (-1)) as (idx & E & _);
    [lia..|].
  rewrite E. clear E. rewrite !Z.add_0_l. cbn [fst snd].
  pose proof (n_always_possible vars) as Hn.
  unfold BooleanSumInRange_Check.
  assert (forall a, Forall2 value_of vars a ->
            n_always vars <= sum_list a <= n_possible vars) as Hsum
    by (intros a Ha; by apply sum_between).
  split; [done|].
  destruct (Z.ltb_spec range_max (n_always vars)) as [F1|F1];
    [|destruct (Z.ltb_spec (n_possible vars) range_min) as [F2|F2]];
    cbn [orb].
  - split; [split; [by left|done]|]. split.
    + intros _ a Ha. specialize (Hsum a Ha). lia.
    + intros a Ha Hr. specialize (Hsum a Ha). simpl. lia.
  - split; [split; [by right|done]|]. split.
    + intros _ a Ha. specialize (Hsum a Ha). lia.
    + intros a Ha Hr. specialize (Hsum a Ha). simpl. lia.
  - assert (forall p : Propagation,
              (exists calls, p = PropCalls calls) ->
              (p = PropFail <->
               range_max < n_always vars \/ n_possible vars < range_min) /\
              (p = PropFail ->
               forall a, Forall2 value_of vars a ->
                         ~ (range_min <= sum_list a <= range_max))) as Hno.
    { intros p [calls ->]. split; [split; [done|lia]|done]. }
    destruct (Z.leb_spec range_min (n_always vars)) as [I1|I1];
      [destruct (Z.leb_spec (n_possible vars) range_max) as [I2|I2]|];
      cbn [andb].
    + destruct (Hno (PropCalls [])) as [H1 H2]; [by eexists|].
      split; [done|]. split; [done|].
      intros a Ha Hr c i v Hc. by apply elem_of_nil in Hc.
    + destruct (Z.eqb_spec (n_possible vars) range_min) as [P|P];
        [lia|].
      destruct (Z.eqb_spec (n_always vars) range_max) as [A|A].
      * destruct (Hno (PropCalls (PushAllUnboundToZero vars 0))) as [H1 H2];
          [by eexists|].
        split; [done|]. split; [done|].
        intros a Ha Hr c i v Hc Hi. specialize (Hsum a Ha).
        apply PushAllUnboundToZero_calls in Hc
          as (k & var & Hk & Hv & ->); [|lia|lia].
        simpl. rewrite Z.add_0_l. intros Hki. apply Nat2Z.inj in Hki as ->.
        apply (sum_all_always vars a Hb Ha ltac:(lia) i var v); done.
      * destruct (Hno (PropCalls [])) as [H1 H2]; [by eexists|].
        split; [done|]. split; [done|].
        intros a Ha Hr c i v Hc. by apply elem_of_nil in Hc.
    + destruct (Z.eqb_spec (n_possible vars) range_min) as [P|P].
      * destruct (Hno (PropCalls (PushAllUnboundToOne vars 0))) as [H1 H2];
          [by eexists|].
        split; [done|]. split; [done|].
        intros a Ha Hr c i v Hc Hi. specialize (Hsum a Ha).
        apply PushAllUnboundToOne_calls in Hc
          as (k & var & Hk & Hv & ->); [|lia|lia].
        simpl. rewrite Z.add_0_l. intros Hki. apply Nat2Z.inj in Hki as ->.
        apply (sum_all_possible vars a Hb Ha ltac:(lia) i var v); done.
      * destruct (Z.eqb_spec (n_always vars) range_max) as [A|A].
        -- destruct (Hno (PropCalls (PushAllUnboundToZero vars 0)))
             as [H1 H2]; [by eexists|].
           split; [done|]. split; [done|].
           intros a Ha Hr c i v Hc Hi. specialize (Hsum a Ha).
           apply PushAllUnboundToZero_calls in Hc
             as (k & var & Hk & Hv & ->); [|lia|lia].
           simpl. rewrite Z.add_0_l. intros Hki.
           apply Nat2Z.inj in Hki as ->.
           apply (sum_all_always vars a Hb Ha ltac:(lia) i var v); done.
        -- destruct (Hno (PropCalls [])) as [H1 H2]; [by eexists|].
           split; [done|]. split; [done|].
           intros a Ha Hr c i v Hc. by apply elem_of_nil in Hc.
Qed.

Lemma BooleanSumInRange_sound_witness :
  Forall boolean_var [(1, 1); (0, 1); (0, 1)] /\
  BooleanSumInRange_InitialPropagate [(1, 1); (0, 1); (0, 1)] 0 1
  = (PropCalls [CallSetValue 1 0; CallSetValue 2 0], (3, 1)) /\
  passes (PropCalls [CallSetValue 1 0; CallSetValue 2 0]) [1; 0; 0] /\
  BooleanSumInRange_InitialPropagate [(1, 1); (0, 1); (0, 1)] 4 5
  = (PropFail, (3, 1)).
Proof.
  assert (Forall boolean_var [(1, 1); (0, 1); (0, 1)]) as Hb.
  { repeat constructor; by vm_compute. }
  split; [exact Hb|]. split; [by vm_compute|]. split; [|by vm_compute].
  destruct (BooleanSumInRange_sound [(1, 1); (0, 1); (0, 1)] 0 1 Hb
              ltac:(by vm_compute)) as (_ & _ & _ & H).
  apply (H [1; 0; 0]).
  - repeat constructor; by vm_compute.
  - by vm_compute.
Defined.

(** *** What is posted for a sum in a range *)

Lemma possible_true_vars_spec vars :
  Forall boolean_var vars ->
  forall t p,
    0 <= t -> t + Z.of_nat (length vars) < 2 ^ 31 ->
    0 <= p -> p + Z.of_nat (length vars) < 2 ^ 31 ->
    possible_true_vars vars (t, p) = (t + n_always vars, p + n_possible vars).
Proof.
  induction 1 as [|x vars (B1 & B2 & B3) Hb IH]; intros t p Ht Htl Hp Hpl.
  - simpl. by rewrite !Z.add_0_r.
  - simpl length in *. rewrite Nat2Z.inj_succ in *. simpl.
    destruct (Z.eqb_spec x.2 1) as [E2|E2].
    + destruct (Z.eqb_spec x.1 1) as [E1|E1].
      * rewrite !wrap_int_small by lia. rewrite IH by lia. f_equal; lia.
      * rewrite !wrap_int_small by lia. rewrite IH by lia. f_equal; lia.
    + destruct (Z.eqb_spec x.1 1) as [E1|E1]; [lia|].
      rewrite IH by lia. f_equal; lia.
Qed.

Lemma sum_list_range vars a :
  Forall boolean_var vars -> Forall2 value_of vars a ->
  0 <= sum_list a <= Z.of_nat (length vars).
Proof.
  intros Hb Ha. pose proof (sum_between vars a Hb Ha).
  pose proof (n_always_possible vars). lia.
Qed.

(** X19.  [PostIsBooleanSumInRange] on boolean variables sets the target
    to 0 only when no assignment of the variables has its sum in the
    range, and to 1 only when every assignment has; the range of the
    constraint it posts otherwise is the range asked for cut to what a
    sum of these variables can be, and the same assignments have their
    sum in one and in the other. *)
Theorem PostIsBooleanSumInRange_sound variables range_min range_max :
  Forall boolean_var variables ->
  Z.of_nat (length variables) < 2 ^ 31 - 1 ->
  let r := PostIsBooleanSumInRange variables range_min range_max in
  (r = TargetSetValue 0 ->
   forall a, Forall2 value_of variables a ->
             ~ (range_min <= sum_list a <= range_max)) /\
  (r = TargetSetValue 1 ->
   forall a, Forall2 value_of variables a ->
             range_min <= sum_list a <= range_max) /\
  (forall rmin rmax, r = PostedIsSumInRange rmin rmax ->
     rmin = Z.max 0 range_min /\
     rmax = Z.min (Z.of_nat (length variables)) range_max /\
     n_always variables < n_possible variables /\
     forall a, Forall2 value_of variables a ->
               (range_min <= sum_list a <= range_max <->
                rmin <= sum_list a <= rmax)).
Proof.
  intros Hb Hlen r. subst r. unfold PostIsBooleanSumInRange.
  rewrite (wrap_int64_small (Z.of_nat (length variables)))
    by (unfold kint64min, kint64max; lia).
  rewrite (possible_true_vars_spec variables Hb 0 0) by lia.
  rewrite !Z.add_0_l.
  pose proof (n_always_possible variables) as Hn.
  assert (forall a, Forall2 value_of variables a ->
            n_always variables <= sum_list a <= n_possible variables) as Hsum
    by (intros a Ha; by apply sum_between).
  destruct (Z.ltb_spec (Z.min (Z.of_nat (length variables)) range_max)
              (n_always variables)) as [F1|F1];
    [|destruct (Z.ltb_spec (n_possible variables) (Z.max 0 range_min))
        as [F2|F2]]; cbn [orb].
  - split; [|done]. intros _ a Ha. specialize (Hsum a Ha). lia.
  - split; [|done]. intros _ a Ha. specialize (Hsum a Ha). lia.
  - destruct (Z.leb_spec (Z.max 0 range_min) (n_always variables)) as [I1|I1];
      [destruct (Z.leb_spec (n_possible variables)
                   (Z.min (Z.of_nat (length variables)) range_max))
         as [I2|I2]|]; cbn [andb].
    + split; [done|]. split; [|done].
      intros _ a Ha. specialize (Hsum a Ha). lia.
    + split; [done|]. split; [done|]. intros rmin rmax [= <- <-].
      split; [done|]. split; [done|]. split; [lia|].
      intros a Ha. specialize (Hsum a Ha). lia.
    + split; [done|]. split; [done|]. intros rmin rmax [= <- <-].
      split; [done|]. split; [done|]. split; [lia|].
      intros a Ha. specialize (Hsum a Ha). lia.
Qed.

Lemma PostIsBooleanSumInRange_sound_witness :
  Forall boolean_var [(1, 1); (0, 1); (0, 0)] /\
  PostIsBooleanSumInRange [(1, 1); (0, 1); (0, 0)] 3 7 = TargetSetValue 0 /\
  ~ (3 <= sum_list [1; 1; 0] <= 7) /\
  PostIsBooleanSumInRange [(1, 1); (0, 1); (0, 0)] (-4) 2 = TargetSetValue 1 /\
  PostIsBooleanSumInRange [(1, 1); (0, 1); (0, 0)] 2 9
  = PostedIsSumInRange 2 3.
Proof.
  assert (Forall boolean_var [(1, 1); (0, 1); (0, 0)]) as Hb.
  { repeat constructor; by vm_compute. }
  split; [exact Hb|]. split; [by vm_compute|].
  split; [|split; by vm_compute].
  destruct (PostIsBooleanSumInRange_sound [(1, 1); (0, 1); (0, 0)] 3 7 Hb
              ltac:(by vm_compute)) as (H & _).
  apply (H ltac:(by vm_compute) [1; 1; 0]).
  repeat constructor; by vm_compute.
Defined.

Lemma unbound_vars_spec vars :
  Forall boolean_var vars ->
  forall i alt t,
    0 <= i -> i + Z.of_nat (length vars) < 2 ^ 31 ->
    0 <= t -> t + Z.of_nat (length vars) < 2 ^ 31 ->
    unbound_vars vars i (alt, t)
    = (alt ++ unbound_from vars i, t + n_always vars) /\
    n_possible vars = n_always vars + Z.of_nat (length (unbound_from vars i)).
Proof.
  induction 1 as [|x vars (B1 & B2 & B3) Hb IH]; intros i alt t Hi Hil Ht Htl.
  - simpl. by rewrite app_nil_r, Z.add_0_r.
  - simpl length in Hil, Htl. rewrite Nat2Z.inj_succ in Hil, Htl.
    cbn [unbound_vars unbound_from n_possible n_always fst snd].
    rewrite (wrap_int_small (i + 1)) by lia.
    destruct (Z.eqb_spec x.1 x.2) as [E|E]; cbn [negb].
    + destruct (Z.eqb_spec x.1 1) as [E1|E1].
      * rewrite wrap_int_small by lia.
        destruct (IH (i + 1) alt (t + 1)) as [-> ->]; [lia..|].
        split; [f_equal; lia|].
        destruct (Z.eqb_spec x.2 1); simpl; lia.
      * destruct (IH (i + 1) alt t) as [-> ->]; [lia..|].
        split; [f_equal; lia|].
        destruct (Z.eqb_spec x.2 1); simpl; lia.
    + destruct (IH (i + 1) (alt ++ [i]) t) as [-> ->]; [lia..|].
      destruct (Z.eqb_spec x.1 1); [lia|].
      destruct (Z.eqb_spec x.2 1); [|lia].
      split; [by rewrite <- app_assoc, Z.add_0_l|].
      rewrite length_app. simpl length. lia.
Qed.

Lemma sum_unbound_spec vars a :
  Forall boolean_var vars -> Forall2 value_of vars a ->
  sum_list a = n_always vars + sum_unbound vars a.
Proof.
  intros Hb Ha. induction Ha as [|x v vars a [V1 V2] Ha IH]; [done|].
  apply Forall_cons in Hb as [(B1 & B2 & B3) Hb]. simpl.
  rewrite (IH Hb).
  destruct (Z.eqb_spec x.1 x.2), (Z.eqb_spec x.1 1); lia.
Qed.

(** X20.  [PostBooleanSumInRange] on boolean variables posts the false
    constraint only when no assignment of the variables has its sum in
    the range, and nothing only when every assignment has.  What it
    posts otherwise is a sum over the variables that are not bound, in
    their order, in the range moved by the number of variables bound to
    1: an assignment has the sum of all the variables in the range asked
    for exactly when it has the sum of the unbound ones in the range
    posted.  The upper end of the range is one from which the count can
    be subtracted in an [int64]. *)
Theorem PostBooleanSumInRange_sound variables range_min range_max :
  Forall boolean_var variables ->
  Z.of_nat (length variables) < 2 ^ 31 - 1 ->
  kint64min <= range_min <= kint64max ->
  kint64min + 2 ^ 31 <= range_max <= kint64max ->
  let r := PostBooleanSumInRange variables range_min range_max in
  (r = PostedFalse ->
   forall a, Forall2 value_of variables a ->
             ~ (range_min <= sum_list a <= range_max)) /\
  (r = PostedNothing ->
   forall a, Forall2 value_of variables a ->
             range_min <= sum_list a <= range_max) /\
  (forall alt rmin rmax, r = PostedSumInRange alt rmin rmax ->
     alt = unbound_from variables 0 /\
     rmin = Z.max 0 range_min - n_always variables /\
     rmax = Z.min (Z.of_nat (length variables)) range_max
            - n_always variables /\
     forall a, Forall2 value_of variables a ->
               (range_min <= sum_list a <= range_max <->
                rmin <= sum_unbound variables a <= rmax)).
Proof.
  intros Hb Hlen Hmin Hmax r. subst r. unfold PostBooleanSumInRange.
  unfold kint64min, kint64max in Hmin, Hmax.
  rewrite (wrap_int64_small (Z.of_nat (length variables)))
    by (unfold kint64min, kint64max; lia).
  destruct (unbound_vars_spec variables Hb 0 [] 0) as [-> Hp]; [lia..|].
  rewrite app_nil_l, Z.add_0_l.
  pose proof (n_always_possible variables) as Hn.
  rewrite (wrap_int_small (Z.of_nat (length (unbound_from variables 0))))
    by lia.
  rewrite !wrap_int64_small by (unfold kint64min, kint64max; lia).
  assert (forall a, Forall2 value_of variables a ->
            n_always variables <= sum_list a <= n_possible variables /\
            sum_list a = n_always variables + sum_unbound variables a)
    as Hsum.
  { intros a Ha. split; [by apply sum_between|by apply sum_unbound_spec]. }
  destruct (Z.ltb_spec (Z.min (Z.of_nat (length variables)) range_max
                        - n_always variables) 0) as [F1|F1];
    [|destruct (Z.ltb_spec (Z.of_nat (length (unbound_from variables 0)))
                 (Z.max 0 range_min - n_always variables)) as [F2|F2]];
    cbn [orb].
  - split; [|done]. intros _ a Ha. destruct (Hsum a Ha). lia.
  - split; [|done]. intros _ a Ha. destruct (Hsum a Ha). lia.
  - destruct (Z.leb_spec (Z.max 0 range_min - n_always variables) 0)
      as [I1|I1];
      [destruct (Z.leb_spec (Z.of_nat (length (unbound_from variables 0)))
                   (Z.min (Z.of_nat (length variables)) range_max
                    - n_always variables)) as [I2|I2]|]; cbn [andb].
    + split; [done|]. split; [|done].
      intros _ a Ha. destruct (Hsum a Ha). lia.
    + split; [done|]. split; [done|]. intros alt rmin rmax [= <- <- <-].
      repeat (split; [done|]). intros a Ha. destruct (Hsum a Ha). lia.
    + split; [done|]. split; [done|]. intros alt rmin rmax [= <- <- <-].
      repeat (split; [done|]). intros a Ha. destruct (Hsum a Ha). lia.
Qed.

Lemma PostBooleanSumInRange_sound_witness :
  Forall boolean_var [(1, 1); (0, 1); (0, 0); (0, 1)] /\
  PostBooleanSumInRange [(1, 1); (0, 1); (0, 0); (0, 1)] 2 2
  = PostedSumInRange [1; 3] 1 1 /\
  (2 <= sum_list [1; 0; 0; 1] <= 2 <->
   1 <= sum_unbound [(1, 1); (0, 1); (0, 0); (0, 1)] [1; 0; 0; 1] <= 1) /\
  PostBooleanSumInRange [(1, 1); (0, 1); (0, 0); (0, 1)] 4 9 = PostedFalse /\
  PostBooleanSumInRange [(1, 1); (0, 1); (0, 0); (0, 1)] 1 3 = PostedNothing.
Proof.
  assert (Forall boolean_var [(1, 1); (0, 1); (0, 0); (0, 1)]) as Hb.
  { repeat constructor; by vm_compute. }
  split; [exact Hb|]. split; [by vm_compute|].
  split; [|split; by vm_compute].
  destruct (PostBooleanSumInRange_sound [(1, 1); (0, 1); (0, 0); (0, 1)] 2 2
              Hb ltac:(by vm_compute) ltac:(by vm_compute)
              ltac:(by vm_compute)) as (_ & _ & H).
  destruct (H [1; 3] 1 1 ltac:(by vm_compute)) as (_ & _ & _ & H').
  apply (H' [1; 0; 0; 1]). repeat constructor; by vm_compute.
Defined.


(* ================================================================== *)
(** * Part IV. The root node and failures outside of it               *)
(* ================================================================== *)

(** ** What propagation leaves of the stack of markers *)

Section Respects.
Context (P : Solver -> Prop).

Lemma respects_ret {A} (a : A) : respects P (ret a).
Proof. by intros s Hs. Qed.

Lemma respects_get : respects P get.
Proof. by intros s Hs. Qed.

Lemma respects_abort {A} : respects P (@abort A).
Proof. by intros s Hs. Qed.

Lemma respects_modify (g : Solver -> Solver) :
  (forall s, P s -> P (g s)) -> respects P (modify g).
Proof. intros H s Hs. by apply H. Qed.

Lemma respects_checked (g : Solver -> option Solver) :
  (forall s s', g s = Some s' -> P s -> P s') -> respects P (checked g).
Proof.
  intros H s Hs. unfold checked. destruct (g s) eqn:E; [|done]. by eapply H.
Qed.

Lemma respects_bind {A B} (m : M A) (k : A -> M B) :
  respects P m -> (forall a, respects P (k a)) -> respects P (bind m k).
Proof.
  intros Hm Hk s Hs. unfold bind. specialize (Hm s Hs).
  destruct (m s) as [a s1| | |]; try done. by apply Hk.
Qed.

Lemma respects_fail_bind {A B} (m : M A) (k : A -> M B) :
  respects P m -> (forall a, respects_fail P (k a)) ->
  respects_fail P (bind m k).
Proof.
  intros Hm Hk s s' Hs. unfold bind. specialize (Hm s Hs).
  destruct (m s) as [a s1| | |]; try done.
  - by apply Hk.
  - by intros [= <-].
Qed.

Lemma respects_respects_fail {A} (m : M A) :
  respects P m -> respects_fail P m.
Proof. intros Hm s s' Hs E. specialize (Hm s Hs). by rewrite E in Hm. Qed.

Lemma respects_Done {A} (m : M A) s a s' :
  respects P m -> P s -> m s = Done a s' -> P s'.
Proof. intros Hm Hs E. specialize (Hm s Hs). by rewrite E in Hm. Qed.

End Respects.

Ltac respects_tac :=
  repeat lazymatch goal with
  | |- respects _ (ret _) => apply respects_ret
  | |- respects _ get => apply respects_get
  | |- respects _ abort => apply respects_abort
  | |- respects _ (modify _) => apply respects_modify; intros ? ?; assumption
  | |- respects _ (bind _ _) => apply respects_bind; [|intros ?]
  | |- respects _ (match ?x with _ => _ end) => destruct x
  | |- respects _ _ => solve [eauto 2]
  end.

Section MarkersFacts.
Context (ext : Extern) (ext_ok : ExternOk ext) (client : Client).

Lemma InternalSaveValue_wf k valptr t mem t' :
  InternalSaveValue ext k valptr t mem = Some t' ->
  trail_wf ext t -> trail_wf ext t'.
Proof.
  unfold InternalSaveValue. intros H [Hrep Hlen].
  destruct (PushBack ext _ (rev_cells k t)) as [c|] eqn:E; [|done].
  simpl in H. injection H as <-.
  destruct (Hrep k) as [l Hl].
  destruct (PushBack_rep ext ext_ok (new_addrval (heap k mem) valptr) _ l Hl)
    as (c' & E' & Hc' & _).
  rewrite E in E'. injection E' as <-.
  split; [|done]. intros k'. rewrite rev_cells_set.
  case_decide; [by eexists|apply Hrep].
Qed.

Lemma SaveAndSetValue_wf k adr val s s' :
  SaveAndSetValue ext k adr val s = Some s' ->
  markers_wf ext s -> markers_wf ext s'.
Proof.
  intros H [Hwf Hm]. apply SaveAndSetValue_Some in H as (tr & Htr & ->).
  split; [|done]. by eapply InternalSaveValue_wf.
Qed.

Lemma step_markers_wf s s' :
  step ext client s s' -> markers_wf ext s -> markers_wf ext s'.
Proof.
  intros H Hw. pose proof Hw as [Hwf Hm].
  destruct H; try exact Hw.
  - (* PushState *)
    destruct (PushState_marker_wf ext t info s Hwf) as (m & E & Hmw & _).
    split; [exact Hwf|]. rewrite E. by constructor.
  - (* PopState *)
    destruct (marker_stack_ (search_ s)) as [|m rest] eqn:Es.
    { unfold PopState in H. by rewrite Es in H. }
    apply Forall_cons in Hm as [Hmw Hrest].
    destruct (PopState_wf ext s m rest Es Hmw Hwf) as (tr & mem & E & Hwf').
    rewrite E in H. injection H as <- <- <-. by split.
  - (* SaveValue *)
    apply SaveValue_Some in H as (tr & Htr & ->).
    split; [|done]. by eapply InternalSaveValue_wf.
  - (* SaveValueBool *)
    split; [|done]. destruct Hwf as [Hrep Hlen]. split.
    + intros k. destruct (Hrep k) as [l Hl]. exists l. by destruct k.
    + simpl. rewrite !length_app. simpl. lia.
  - (* RevAlloc *)
    apply RevAlloc_Some in H as ->.
    split; [|done]. destruct Hwf as [Hrep Hlen]. split; [|done].
    intros k'. destruct (Hrep k') as [l Hl]. exists l. by destruct k'.
  - (* inhibit *)
    unfold inhibit in H. destruct (_ <? _); [|by injection H as <-].
    by eapply SaveAndSetValue_wf.
  - (* desinhibit *)
    unfold desinhibit in H. destruct (_ =? _); [|by injection H as <-].
    by eapply SaveAndSetValue_wf.
  - (* AddConstraint_root *)
    apply AddConstraint_root_Some in H0 as (parent & ->). exact Hw.
Qed.

Lemma exec_markers_wf fuel c :
  (forall s, cmd_pre c s) -> respects (markers_wf ext) (exec ext client fuel c).
Proof.
  intros Hpre s Hw.
  assert (markers_wf ext (state_of (exec ext client fuel c s))) as H.
  { pose proof (exec_steps ext client fuel c s (Hpre s)) as Hs.
    induction Hs; eauto using step_markers_wf. }
  by destruct (exec ext client fuel c s).
Qed.

End MarkersFacts.

Section StackFacts.
Context (ext : Extern) (client : Client) (base : list StateMarker) (n : Z).
Context (Hbase : forall m rest, base = m :: rest -> type_ m = SENTINEL).

Lemma stack_over_PushState t info s :
  t <> SENTINEL -> stack_over base n s ->
  stack_over base n (PushState t info s).
Proof.
  intros Ht (Hn & above & E & Ha). split; [exact Hn|].
  unfold PushState. simpl. rewrite E.
  eexists (_ :: above). split; [reflexivity|].
  constructor; [|done]. by destruct (_ || _).
Qed.

Lemma stack_over_PopState s info s' :
  PopState ext s = Some (SIMPLE_MARKER, info, s') ->
  stack_over base n s -> stack_over base n s'.
Proof.
  intros H (Hn & above & E & Ha).
  apply PopState_Some in H as (m & rest & tr & mem & Es & Ht & _ & _ & ->).
  split; [exact Hn|]. simpl. destruct above as [|x above].
  - simpl in E. rewrite Es in E. symmetry in E.
    apply Hbase in E. congruence.
  - rewrite Es in E. injection E as -> ->.
    apply Forall_cons in Ha as [_ Ha]. by exists above.
Qed.

Lemma exec_stack_over fuel :
  forall c, respects (stack_over base n) (exec ext client fuel c).
Proof.
  induction fuel as [|f IH]; intros c; [by intros s Hs|].
  destruct c; simpl;
    repeat lazymatch goal with
    | |- respects _ (exec _ _ _ _) => apply IH
    | |- respects _ (ret _) => apply respects_ret
    | |- respects _ get => apply respects_get
    | |- respects _ (modify _) => apply respects_modify
    | |- respects _ (checked _) => apply respects_checked
    | |- respects _ (bind _ _) => apply respects_bind; [|intros ?]
    | |- respects _ (match ?x with _ => _ end) => destruct x eqn:?
    end;
    try (intros s Hs; exact Hs).
  all: try (intros s Hs; by apply stack_over_PushState).
  - (* PopState *)
    intros s Hs. destruct (PopState ext s) as [[[t info] s1]|] eqn:E; [|done].
    destruct t; try done. by eapply stack_over_PopState.
  - intros s s' H Hs. by apply SaveValue_Some in H as (tr & _ & ->).
  - intros s s' H Hs. by apply RevAlloc_Some in H as ->.
  - intros s s' H Hs. by apply inhibit_Some in H as [->|(tr & v & ->)].
  - intros s s' H Hs. by apply desinhibit_Some in H as [->|(tr & v & ->)].
  - intros s s' H Hs. by apply AddConstraint_root_Some in H as (parent & ->).
Qed.

End StackFacts.

Lemma respects_and {A} (P Q : Solver -> Prop) (m : M A) :
  respects P m -> respects Q m -> respects (fun s => P s /\ Q s) m.
Proof.
  intros HP HQ s [Hp Hq]. specialize (HP s Hp). specialize (HQ s Hq).
  by destruct (m s).
Qed.

Section RootFacts.
Context (ext : Extern) (ext_ok : ExternOk ext) (client : Client).
Context (base : list StateMarker) (n : Z).
Context (Hbase : forall m rest, base = m :: rest -> type_ m = SENTINEL).

Local Abbreviation rooted :=
  (fun s => markers_wf ext s /\ stack_over base n s).

Local Open Scope res_scope.

Lemma exec_rooted fuel c :
  (forall s, cmd_pre c s) -> respects rooted (exec ext client fuel c).
Proof.
  intros Hpre. apply respects_and.
  - by apply exec_markers_wf.
  - by apply exec_stack_over.
Qed.

Lemma Search_hook_rooted fuel h :
  respects rooted (Search_hook ext client fuel h).
Proof. by apply exec_rooted. Qed.

Lemma ProcessConstraints_for_rooted fuel k :
  respects rooted (ProcessConstraints_for ext client fuel k).
Proof.
  pose proof (fun c => exec_rooted fuel (CPostAndPropagate c) (fun _ => I)).
  induction k as [|k IH]; simpl; respects_tac.
Qed.

Lemma ProcessConstraints_nested_rooted fuel :
  forall index, respects rooted (ProcessConstraints_nested ext client fuel index).
Proof.
  induction fuel as [|f IH]; intros index; simpl; [by intros s Hs|].
  pose proof (fun c => exec_rooted f (CPostAndPropagate c) (fun _ => I)).
  respects_tac.
Qed.

Lemma ProcessConstraints_rooted fuel :
  respects rooted (ProcessConstraints ext client fuel).
Proof.
  pose proof (ProcessConstraints_for_rooted fuel).
  pose proof (ProcessConstraints_nested_rooted fuel).
  unfold ProcessConstraints. respects_tac.
Qed.

Lemma root_node_try_rooted fuel :
  respects_fail rooted (root_node_try ext client fuel).
Proof.
  unfold root_node_try.
  apply respects_fail_bind; [apply ProcessConstraints_rooted|intros _].
  apply respects_fail_bind; [apply Search_hook_rooted|intros _].
  intros s s' _. unfold bind, modify, ClearBuffer, bind, get. simpl.
  by destruct (jmpbuf_filled_ _).
Qed.

End RootFacts.

(** ** The root node, when its propagation fails *)

Lemma sentinels_of_none above :
  Forall (fun x => type_ x <> SENTINEL) above -> sentinels_of above = [].
Proof.
  induction 1 as [|x above Hx _ IH]; simpl; [done|].
  by destruct (type_ x).
Qed.

Section RootFails.
Context (ext : Extern) (ext_ok : ExternOk ext) (client : Client).
Context (quiet : forall a s0, Action_Run client a s0 = []).

Local Open Scope res_scope.

Lemma AfterFailure_quiet fuel s :
  AfterFailure ext client (S fuel) s
  = Done tt
      (quiesce
         match clear_action_ (queue_ s) with
         | Some a =>
             clear_action_on_fail
               (log (EvOnFailureAction a) (discard_pending s))
         | None => discard_pending s
         end).
Proof.
  unfold AfterFailure, bind, modify, get. simpl.
  destruct (clear_action_ (queue_ s)) as [a|]; [|done].
  by rewrite quiet.
Qed.

Local Abbreviation at_rest :=
  (fun s => (containers_ (queue_ s), freeze_level_ (queue_ s),
             in_process_ (queue_ s), clear_action_ (queue_ s),
             to_add_ (queue_ s), in_add_ (queue_ s),
             on_failure_runs (trace s))).

Lemma BacktrackToSentinel_while_rest magic :
  forall fuel, keeps (same at_rest)
                 (BacktrackToSentinel_while ext client fuel magic).
Proof.
  induction fuel as [|f IH]; intros s a s'; simpl; [done|].
  destruct (PopState ext s) as [[[t info] s1]|] eqn:E; [|done].
  assert (same at_rest s s1) as H1.
  { apply PopState_Some in E as (m & rest & tr & mem & _ & _ & _ & _ & ->).
    unfold same. simpl. by rewrite app_nil_r. }
  intros H. etransitivity; [exact H1|]. clear E H1 s. revert H.
  destruct t.
  - destruct (negb _); [done|]. simpl.
    destruct (_ <? 0); [done|].
    destruct (_ =? magic).
    + by intros [= _ <-].
    + intros H. apply IH in H. etransitivity; [|exact H]. done.
  - apply IH.
  - apply IH.
  - destruct f as [|f]; [done|].
    rewrite run_action_quiet by (intros; apply quiet).
    intros H. apply IH in H. etransitivity; [|exact H].
    unfold same. simpl. by rewrite app_nil_r.
Qed.

Lemma BacktrackToSentinel_rest magic fuel :
  keeps (same at_rest) (BacktrackToSentinel ext client fuel magic).
Proof.
  pose proof (BacktrackToSentinel_while_rest magic fuel).
  unfold BacktrackToSentinel. keeps_tac.
Qed.

Lemma NextSolution_root_fails tree fuel s m rest s1 s2 :
  state_ s = OUTSIDE_SEARCH ->
  decision_builder_ (search_ s) <> None ->
  jmpbuf_filled_ (search_ s) = false ->
  marker_stack_ (search_ s) = m :: rest ->
  is_sentinel INITIAL_SEARCH_SENTINEL m ->
  markers_wf ext s ->
  1 <= sentinel_pushed_ (search_ s) ->
  Search_hook ext client fuel HBeginInitialPropagation
    (set_state_ IN_ROOT_NODE s) = Done tt s1 ->
  root_node_try ext client fuel (upd_search (set_jmpbuf_filled_ true) s1)
    = Failed s2 ->
  (length (marker_stack_ (search_ s2)) + 1 < fuel)%nat ->
  exists above s4,
    marker_stack_ (search_ s2) = above ++ m :: rest /\
    NextSolution ext client tree fuel s = Done false s4 /\
    state_ s4 = PROBLEM_INFEASIBLE /\
    marker_stack_ (search_ s4) = rest /\
    sentinel_pushed_ (search_ s4) = sentinel_pushed_ (search_ s) - 1 /\
    action_runs (trace s4) = action_runs (trace s2) ++ actions_of above /\
    on_failure_runs (trace s4)
    = on_failure_runs (trace s2)
      ++ match clear_action_ (queue_ s2) with Some a => [a] | None => [] end /\
    quiescent s4 /\ (forall p, pending p s4 = []) /\
    solution_counter_ (search_ s4) = solution_counter_ (search_ s) /\
    fail_stamp_ s4 = wrap64 (fail_stamp_ s2 + 1) /\
    monitors_ (search_ s4) = monitors_ (search_ s2) /\
    parent_searches_ s4 = parent_searches_ s /\
    (forall h, hook_calls h (trace s4) = hook_calls h (trace s2)).
Proof.
  intros Hst Hdb Hj Hstack Hsent Hw Hn Hhook Htry Hfuel.
  set (n := sentinel_pushed_ (search_ s)) in *.
  assert (forall x r, m :: rest = x :: r -> type_ x = SENTINEL) as Hbase.
  { intros x r [= <- _]. by destruct Hsent. }
  set (rooted := fun s => markers_wf ext s /\ stack_over (m :: rest) n s).
  assert (rooted (set_state_ IN_ROOT_NODE s)) as R0.
  { split; [exact Hw|]. split; [done|]. by exists []. }
  assert (rooted s1) as R1.
  { exact (respects_Done _ _ _ _ _
             (Search_hook_rooted ext ext_ok client (m :: rest) n Hbase fuel
                HBeginInitialPropagation) R0 Hhook). }
  assert (rooted s2) as R2.
  { apply (root_node_try_rooted ext ext_ok client (m :: rest) n Hbase fuel
             (upd_search (set_jmpbuf_filled_ true) s1) s2); [|exact Htry].
    exact R1. }
  destruct R2 as [[Hwf2 Hm2] (Hn2 & above & Hs2 & Ha2)].
  destruct fuel as [|f]; [lia|].
  pose proof (AfterFailure_quiet f s2) as Haf.
  set (s3 := quiesce _) in Haf.
  assert (length above + 2 < S f)%nat as Hfuel'.
  { rewrite Hs2, length_app in Hfuel. simpl in Hfuel. lia. }
  assert (marker_stack_ (search_ s3) = marker_stack_ (search_ s2) /\
          sentinel_pushed_ (search_ s3) = n /\
          trail_ s3 = trail_ s2 /\
          fail_stamp_ s3 = fail_stamp_ s2 /\
          monitors_ (search_ s3) = monitors_ (search_ s2) /\
          action_runs (trace s3) = action_runs (trace s2) /\
          (forall h, hook_calls h (trace s3) = hook_calls h (trace s2)) /\
          on_failure_runs (trace s3)
          = on_failure_runs (trace s2)
            ++ match clear_action_ (queue_ s2) with
               | Some a => [a] | None => []
               end /\
          quiescent s3 /\ (forall p, pending p s3 = []))
    as (E1 & E2 & E3 & E4 & E5 & E6 & E7 & E8 & E9 & E10).
  { subst s3. pose proof (discard_pending_spec s2) as Hp.
    destruct (clear_action_ (queue_ s2)) eqn:Ec; simpl; rewrite ?app_nil_r;
      repeat split; try done; try (intros; by rewrite app_nil_r);
      try exact Ec; intros p; apply Hp. }
  clearbody s3.
  destruct (BacktrackToSentinel_unwind ext client INITIAL_SEARCH_SENTINEL
              above m rest s3 (S f))
    as (s4 & Hbt & B1 & B2 & B3 & B4 & B5 & B6 & B7 & B8).
  { by rewrite E1. }
  { rewrite Hs2 in Hm2. apply Forall_app in Hm2 as [H1 H2].
    apply Forall_cons in H2 as [H2 _].
    apply Forall_app. split; [done|by apply Forall_singleton]. }
  { eapply Forall_impl; [exact Ha2|]. by intros x Hx Hx'. }
  { rewrite (sentinels_of_none _ Ha2). apply not_elem_of_nil. }
  { done. }
  { intros a s0 _. apply quiet. }
  { by rewrite E3. }
  { rewrite (sentinels_of_none _ Ha2), E2. simpl. lia. }
  { done. }
  pose proof (BacktrackToSentinel_rest INITIAL_SEARCH_SENTINEL (S f)
                _ _ _ Hbt) as Hrest.
  unfold same in Hrest. injection Hrest as Q1 Q2 Q3 Q4 Q5 Q6 Q7.
  assert (search_frame s s4) as F.
  { pose proof (Search_hook_frames ext client (S f) HBeginInitialPropagation
                  (set_state_ IN_ROOT_NODE s)) as F1.
    rewrite Hhook in F1.
    pose proof (root_node_try_frames ext client (S f)
                  (upd_search (set_jmpbuf_filled_ true) s1)) as F2.
    rewrite Htry in F2.
    pose proof (AfterFailure_frames ext client (S f) s2) as F3.
    rewrite Haf in F3.
    pose proof (BacktrackToSentinel_frames ext client (S f)
                  INITIAL_SEARCH_SENTINEL s3) as F4.
    rewrite Hbt in F4. simpl in *.
    apply (search_frame_trans s (set_state_ IN_ROOT_NODE s)); [by split|].
    apply (search_frame_trans _ s1); [exact F1|].
    apply (search_frame_trans _ (upd_search (set_jmpbuf_filled_ true) s1));
      [by split|].
    apply (search_frame_trans _ s2); [exact F2|].
    apply (search_frame_trans _ s3); [exact F3|exact F4]. }
  exists above, (set_state_ PROBLEM_INFEASIBLE s4).
  split; [exact Hs2|]. split.
  { rewrite (NextSolution_root ext client tree (S f) s s1) by done.
    rewrite Htry. unfold root_node_on_fail, bind. by rewrite Haf, Hbt. }
  split; [done|]. split; [exact B1|]. split.
  { simpl. rewrite B2, (sentinels_of_none _ Ha2), E2. simpl. lia. }
  split; [simpl; by rewrite B3, E6|].
  split; [simpl; by rewrite Q7, E8|].
  split.
  { destruct E9 as (? & ? & ? & ? & ?).
    unfold quiescent. simpl. by rewrite Q2, Q3, Q4, Q5, Q6. }
  split.
  { intros p. specialize (E10 p). unfold pending, container in *. simpl.
    by rewrite Q1. }
  split; [by destruct F|].
  split; [simpl; by rewrite B4, E4|].
  split; [simpl; by rewrite B6, E5|].
  split; [by destruct F|].
  intros h. simpl. by rewrite B8, E7.
Qed.

End RootFails.

Section SolveFails.
Context (ext : Extern) (ext_ok : ExternOk ext) (client : Client).
Context (quiet : forall a s0, Action_Run client a s0 = []).

Local Open Scope res_scope.

Local Abbreviation unsearched :=
  (fun s => markers_wf ext s /\ sentinel_pushed_ (search_ s) = 0).

Lemma Install_all_unsearched ms s :
  unsearched s -> unsearched (Install_all ms s).
Proof. apply (Install_all_ind unsearched). by intros m x Hx. Qed.

Lemma exec_unsearched fuel c s s' :
  (forall s, cmd_pre c s) ->
  unsearched s -> exec ext client fuel c s = Done tt s' -> unsearched s'.
Proof.
  intros Hpre [Hw Hn] H. split.
  - exact (respects_Done _ _ _ _ _ (exec_markers_wf ext ext_ok client fuel c
                                      Hpre) Hw H).
  - destruct (exec_run_rel ext client fuel c s (Hpre s)) as [t Hrr].
    rewrite H in Hrr. simpl in Hrr. by rewrite (rr_sentinel _ _ _ _ Hrr).
Qed.

(** [NewSearch], when it returns, has pushed the sentinel of the search
    on a well-formed stack. *)
Lemma NewSearch_sets_up fuel db monitors s s0 :
  markers_wf ext s -> sentinel_pushed_ (search_ s) = 0 ->
  NewSearch ext client fuel db monitors s = Done tt s0 ->
  exists m rest,
    marker_stack_ (search_ s0) = m :: rest /\
    is_sentinel INITIAL_SEARCH_SENTINEL m /\
    markers_wf ext s0 /\ sentinel_pushed_ (search_ s0) = 1.
Proof.
  intros Hw Hn H. unfold NewSearch in H.
  apply bind_Done in H as (? & ? & [= <- <-] & H).
  destruct db as [db|]; [|done]. destruct (_ || _); [done|].
  apply bind_Done in H as ([] & x1 & [= <-] & H).
  apply bind_Done in H as ([] & x2 & H2 & H).
  rewrite BacktrackToSentinel_none in H2 by done. injection H2 as <-.
  apply bind_Done in H as ([] & x3 & [= <-] & H).
  apply bind_Done in H as ([] & x4 & [= <-] & H).
  apply bind_Done in H as ([] & x5 & [= <-] & H).
  apply bind_Done in H as ([] & x6 & [= <-] & H).
  apply bind_Done in H as ([] & x7 & [= <-] & H).
  apply bind_Done in H as ([] & x8 & [= <-] & H).
  apply bind_Done in H as ([] & x9 & H9 & H).
  apply bind_Done in H as ([] & x10 & [= <-] & [= <-]).
  unfold EnterSearch in H9.
  apply bind_Done in H9 as ([] & y & [= <-] & H9).
  match type of H9 with Search_hook _ _ _ _ ?x = _ =>
    assert (unsearched x) as Hx end.
  { assert (forall y, unsearched y ->
              unsearched (upd_search (set_solution_counter_ 0)
                            (set_print_trace_ None y))) as Hy
      by (intros y Hy; exact Hy).
    apply Hy. do 2 apply Install_all_unsearched.
    by destruct (demon_profiler_ s). }
  apply (exec_unsearched fuel (CSearchHook HEnterSearch 0) _ _
           (fun _ => I) Hx) in H9 as [[Hwf9 Hm9] Hn9].
  destruct (PushState_marker_wf ext SENTINEL
              (StateInfo_2 Solver_this INITIAL_SEARCH_SENTINEL) x9 Hwf9)
    as (m & Hm & Hmw & Hmt & Hmi).
  exists m, (marker_stack_ (search_ x9)).
  unfold PushSentinel. simpl in Hm. simpl. rewrite Hm, Hn9.
  split; [done|]. split; [unfold is_sentinel; by rewrite Hmt, Hmi|].
  split; [|done]. split; [exact Hwf9|]. simpl. rewrite Hm. by constructor.
Qed.

Lemma EndSearch_unsearched fuel s :
  (forall m s', Monitor_hook client HExitSearch m s' = []) ->
  sentinel_pushed_ (search_ s) = 0 ->
  length (parent_searches_ s) = 1%nat ->
  (length (monitors_ (search_ s)) < fuel)%nat ->
  exists s',
    EndSearch ext client fuel s = Done tt s' /\
    state_ s' = OUTSIDE_SEARCH /\
    marker_stack_ (search_ s') = marker_stack_ (search_ s) /\
    sentinel_pushed_ (search_ s') = 0 /\
    monitors_ (search_ s') = [] /\
    action_runs (trace s') = action_runs (trace s) /\
    hook_calls HExitSearch (trace s')
    = hook_calls HExitSearch (trace s) ++ monitors_ (search_ s) /\
    queue_ s' = queue_ s.
Proof.
  intros Hexit Hn Hpar Hfuel.
  unfold EndSearch, bind at 1, get.
  rewrite (bool_decide_eq_true_2 _ Hpar).
  unfold bind at 1. rewrite BacktrackToSentinel_none by done.
  unfold bind at 1.
  rewrite (Search_hook_quiet ext client fuel HExitSearch _ Hexit) by done.
  match goal with |- context [log_hooks ?h ?ms ?x] =>
    destruct (log_hooks_trace h ms x) as [EL ET];
    pose proof (log_hooks_actions h ms x) as EA;
    generalize dependent (log_hooks h ms x) end.
  intros s6 EL ET EA. unfold bind, modify. eexists. split; [reflexivity|].
  simpl. rewrite EL. simpl. repeat (split; [done|]). done.
Qed.

Lemma Solve_root_fails tree fuel s db monitors s0 s1 s2 :
  (forall m s', Monitor_hook client HExitSearch m s' = []) ->
  markers_wf ext s ->
  sentinel_pushed_ (search_ s) = 0 ->
  length (parent_searches_ s) = 1%nat ->
  jmpbuf_filled_ (search_ s) = false ->
  NewSearch ext client fuel db monitors s = Done tt s0 ->
  Search_hook ext client fuel HBeginInitialPropagation
    (set_state_ IN_ROOT_NODE (upd_search (set_created_by_solve_ true) s0))
    = Done tt s1 ->
  root_node_try ext client fuel (upd_search (set_jmpbuf_filled_ true) s1)
    = Failed s2 ->
  (length (marker_stack_ (search_ s2)) + 1 < fuel)%nat ->
  (length (monitors_ (search_ s2)) < fuel)%nat ->
  exists m above s5,
    marker_stack_ (search_ s2) = above ++ m :: marker_stack_ (search_ s5) /\
    is_sentinel INITIAL_SEARCH_SENTINEL m /\
    Solve ext client tree fuel db monitors s = Done false s5 /\
    state_ s5 = OUTSIDE_SEARCH /\
    sentinel_pushed_ (search_ s5) = 0 /\
    monitors_ (search_ s5) = [] /\
    action_runs (trace s5) = action_runs (trace s2) ++ actions_of above /\
    hook_calls HExitSearch (trace s5)
    = hook_calls HExitSearch (trace s2) ++ monitors_ (search_ s2) /\
    quiescent s5 /\ (forall p, pending p s5 = []).
Proof.
  intros Hexit Hw Hn Hpar Hj Hnew Hhook Htry Hfuel Hfuel'.
  destruct (NewSearch_Done _ _ _ _ _ _ _ Hnew)
    as (Hdb & Hdb' & Hst & Hc & Hmf).
  destruct (NewSearch_sets_up _ _ _ _ _ Hw Hn Hnew)
    as (m & rest & Hs0 & Hsent & Hw0 & Hn0).
  destruct (NextSolution_root_fails ext ext_ok client quiet tree fuel
              (upd_search (set_created_by_solve_ true) s0) m rest s1 s2)
    as (above & s4 & A1 & A2 & A3 & A4 & A5 & A6 & A7 & A8 & A9 & A10 & A11
        & A12 & A13 & A14); try done.
  { simpl. by rewrite Hdb'. }
  { simpl. by rewrite (mf_jmpbuf _ _ Hmf). }
  { simpl. lia. }
  simpl in A5, A10, A13.
  destruct (EndSearch_unsearched fuel s4 Hexit)
    as (s5 & E & E1 & E2 & E3 & E4 & E5 & E6 & E7).
  { lia. }
  { by rewrite A13, (mf_parents _ _ Hmf). }
  { by rewrite A12. }
  exists m, above, s5.
  split; [by rewrite E2, A4|]. split; [done|]. split.
  { unfold Solve. unfold bind at 1. rewrite Hnew.
    unfold bind at 1, modify at 1. unfold bind at 1. rewrite A2.
    unfold bind at 1, get. rewrite A10, Hc. unfold bind. by rewrite E. }
  split; [done|]. split; [done|]. split; [done|].
  split; [by rewrite E5|]. split; [by rewrite E6, A14, A12|].
  split.
  - unfold quiescent in *. by rewrite E7.
  - intros p. specialize (A9 p). unfold pending, container in *.
    by rewrite E7.
Qed.

End SolveFails.


Lemma demo_Solver_markers_wf : markers_wf stored_extern demo_Solver.
Proof.
  split.
  - by apply new_Trail_wf.
  - vm_compute. repeat constructor; by intros [=].
Qed.

Lemma marking_quiet_actions a s0 : Action_Run marking_client a s0 = [].
Proof. done. Qed.

Lemma marking_quiet_hooks h m s0 : Monitor_hook marking_client h m s0 = [].
Proof. done. Qed.


(** ** A failure outside of the protected region *)



(** A failure in the root node before the buffer is armed is lost: the
    monitors fail in [BeginInitialPropagation], the false constraints go
    to the list of additional constraints, which [ProcessConstraints]
    clears, and the search goes on. *)
Example Fail_before_root_node_try_lost :
  exists s s',
    NewSearch stored_extern hook_client 20 (Some 7) [Some 50]
      demo_one_constraint = Done tt s /\
    NextSolution stored_extern hook_client demo_tree 20 s = Done true s' /\
    fails_ s' = 2 /\ state_ s' = IN_SEARCH /\
    constraints_list_ s' = [UserConstraint 1] /\
    additional_constraints_list_ s' = [].
Proof.
  eexists _, _. split; [vm_compute; reflexivity|].
  split; [vm_compute; reflexivity|]. by vm_compute.
Qed.


